(** * AIX: tensors, reverse-mode autograd and the Metal command queue

    A shallow embedding of [Targets/AIXLib/aix.hpp] (the [Device] CPU kernels,
    [TensorValue], [TensorNode], [Tensor]) and of the command batching of
    [Targets/AIXLib/aixDeviceMetal.cpp], with the properties the
    specification states about them.

    Conventions of the embedding.
    - [size_t] is a [Z] in [0, 2^64); every arithmetic operation of the source
      is followed by its wrap-around ([wrap]).  [int] is a [Z] in
      [-2^31, 2^31) ([to_int]).
    - A buffer returned by [Device::allocate] is a list of cells.  A fresh
      cell is [Indet] (the memory [malloc] returns is uninitialised); an
      arithmetic operation on an [Indet] cell gives [Indet].
    - [float] and [double] values are [spec_float]s of the Standard Library,
      with the operations of IEEE-754 binary32 and binary64.
    - C++ code is a function [State -> outcome]: it returns, throws (the
      state at the throw is kept: side effects before the throw remain), or
      has undefined behaviour (null dereference, access outside a buffer,
      division by zero).
    - The allocator never fails and never reuses an address.  Destructors of
      temporaries are not modelled: their buffers stay in the store.
    - The [assert]s of the source are not modelled (release build). *)

From Stdlib Require Import ZArith Lia List Bool.
From Stdlib Require Import Floats.SpecFloat.
From stdpp Require Import base list option.

Open Scope Z_scope.

(** ** Machine integers *)

Definition wrap (z : Z) : Z := z mod 2 ^ 64.

(** Conversion of a [size_t] to [int] (modular, C++20). *)
Definition to_int (z : Z) : Z := (z + 2 ^ 31) mod 2 ^ 32 - 2 ^ 31.

(** Conversion of an [int] to [size_t]. *)
Definition of_int (z : Z) : Z := z mod 2 ^ 64.

(** ** Data types *)

Inductive DataType : Set := kFloat64 | kFloat32.

Inductive DeviceType : Set := kCPU | kGPU_METAL.

#[global] Instance DataType_eq_dec : EqDecision DataType.
Proof. solve_decision. Defined.

Definition DataType_index (d : DataType) : Z :=
  match d with kFloat64 => 0 | kFloat32 => 1 end.

(** [promotionTable[dtype1][dtype2]]. *)
Definition promoteDataType (dtype1 dtype2 : DataType) : DataType :=
  match dtype1, dtype2 with
  | kFloat64, kFloat64 => kFloat64
  | kFloat64, kFloat32 => kFloat64
  | kFloat32, kFloat64 => kFloat64
  | kFloat32, kFloat32 => kFloat32
  end.

(** [Device::dataTypeSize]: [sizeof(double)], [sizeof(float)]. *)
Definition dataTypeSize (dtype : DataType) : Z :=
  match dtype with kFloat64 => 8 | kFloat32 => 4 end.

(** [Index], [Shape] and [Stride] are [std::vector<size_t>]. *)
Abbreviation Index := (list Z) (only parsing).
Abbreviation Shape := (list Z) (only parsing).
Abbreviation Stride := (list Z) (only parsing).

(** A [Device*].  Only the CPU kernels of the base class [Device] are in
    [aix.hpp]; the pointer is kept as an identity. *)
Definition Device := nat.
Definition defaultDevice : Device := 0%nat.

(** ** Floating-point cells *)

Definition prec (T : DataType) : Z :=
  match T with kFloat64 => 53 | kFloat32 => 24 end.
Definition emax (T : DataType) : Z :=
  match T with kFloat64 => 1024 | kFloat32 => 128 end.

(** [static_cast<T>(x)] of a floating-point value. *)
Definition cast (T : DataType) (x : spec_float) : spec_float :=
  match x with
  | S754_finite s m e => binary_normalize (prec T) (emax T) (cond_Zopp s (Zpos m)) e s
  | _ => x
  end.

(** [static_cast<T>(n)] of an integer, and the literals of type [T]. *)
Definition of_Z (T : DataType) (n : Z) : spec_float :=
  binary_normalize (prec T) (emax T) n 0 false.

Inductive cell : Type :=
| Indet
| Val (x : spec_float).

Definition cell_map (f : spec_float -> spec_float) (c : cell) : cell :=
  match c with Val x => Val (f x) | Indet => Indet end.

Definition cell_map2 (f : spec_float -> spec_float -> spec_float) (c1 c2 : cell) : cell :=
  match c1, c2 with Val x, Val y => Val (f x y) | _, _ => Indet end.

Definition cell_add (T : DataType) := cell_map2 (SFadd (prec T) (emax T)).
Definition cell_sub (T : DataType) := cell_map2 (SFsub (prec T) (emax T)).
Definition cell_mul (T : DataType) := cell_map2 (SFmul (prec T) (emax T)).
Definition cell_div (T : DataType) := cell_map2 (SFdiv (prec T) (emax T)).
Definition cell_neg : cell -> cell := cell_map SFopp.
Definition cell_cast (T : DataType) : cell -> cell := cell_map (cast T).

(** ** Shapes and index arithmetic *)

(** [std::accumulate(shape.begin(), shape.end(), 1, std::multiplies<>())]:
    the initial value [1] is an [int], so the accumulator is an [int]; each
    product is computed in [size_t] and converted back to [int]. *)
Definition accumulate_mul (shape : Shape) : Z :=
  fold_left (fun acc d => to_int (wrap (of_int acc * d))) shape 1.

(** The element count the constructors store in [m_size]. *)
Definition shape_size (shape : Shape) : Z := of_int (accumulate_mul shape).

(** The mathematical product of the dimensions. *)
Definition product (shape : Shape) : Z := fold_right Z.mul 1 shape.

(** [TensorValue::computeStrides], from the last dimension to the first. *)
Fixpoint computeStrides_from (rshape : list Z) (stride : Z) : list Z :=
  match rshape with
  | [] => []
  | d :: rshape' => stride :: computeStrides_from rshape' (wrap (stride * d))
  end.

Definition computeStrides (shape : Shape) : Stride :=
  rev (computeStrides_from (rev shape) 1).

(** [Device::flattenIndex].  [None]: a read past the end of [strides]. *)
Fixpoint flattenIndex_from (indices strides : list Z) (index : Z) : option Z :=
  match indices with
  | [] => Some index
  | x :: indices' =>
      match strides with
      | [] => None
      | s :: strides' => flattenIndex_from indices' strides' (wrap (index + wrap (x * s)))
      end
  end.

Definition flattenIndex (indices strides : list Z) : option Z :=
  flattenIndex_from indices strides 0.

(** [Device::unflattenIndex].  [None]: a division by a zero stride. *)
Fixpoint unflattenIndex (index : Z) (strides : Stride) : option (list Z) :=
  match strides with
  | [] => Some []
  | s :: strides' =>
      if s =? 0 then None
      else cons (index / s) <$> unflattenIndex (index mod s) strides'
  end.

(** [std::swap(v[dim0], v[dim1])], both indices inside [v]. *)
Definition swap_at (dim0 dim1 : Z) (v : list Z) : list Z :=
  match v !! Z.to_nat dim0, v !! Z.to_nat dim1 with
  | Some x0, Some x1 => <[Z.to_nat dim1 := x0]> (<[Z.to_nat dim0 := x1]> v)
  | _, _ => v
  end.

(** [Device::translationIndex].  The loop runs [i] down from the last
    dimension of [newShape] and [j] down from the last dimension of [shape];
    here both shapes are given reversed and the dimensions still to visit
    are the tails.  [None]: a division by zero. *)
Fixpoint translationIndex_from (index : Z) (rnewShape rshape : list Z)
    (originalIndex targetStride originalStride : Z) : option Z :=
  match rnewShape with
  | [] => Some originalIndex
  | n :: rnewShape' =>
      if (targetStride =? 0) || (n =? 0) then None
      else
        let dimIndex := (index / targetStride) mod n in
        match rshape with
        | sj :: rshape' =>
            if sj =? n then
              translationIndex_from index rnewShape' rshape'
                (wrap (originalIndex + wrap (dimIndex * originalStride)))
                (wrap (targetStride * n)) (wrap (originalStride * sj))
            else if sj =? 1 then
              translationIndex_from index rnewShape' rshape'
                originalIndex (wrap (targetStride * n)) (wrap (originalStride * sj))
            else
              translationIndex_from index rnewShape' rshape
                originalIndex (wrap (targetStride * n)) originalStride
        | [] =>
            translationIndex_from index rnewShape' []
              originalIndex (wrap (targetStride * n)) originalStride
        end
  end.

Definition translationIndex (index : Z) (shape newShape : Shape) : option Z :=
  translationIndex_from index (rev newShape) (rev shape) 0 1 1.

(** The test [dim1 != dim2 && dim1 != 1 && dim2 != 1] of the broadcast loops. *)
Definition bc_mismatch (dim1 dim2 : Z) : bool :=
  negb (dim1 =? dim2) && negb (dim1 =? 1) && negb (dim2 =? 1).

(** [TensorValue::checkBroadcastShapes].  The two reverse iterators are the
    reversed shapes; an exhausted iterator yields dimension [1]. *)
Fixpoint checkBroadcastShapes_rest (r2 : list Z) : bool :=
  match r2 with
  | [] => true
  | dim2 :: r2' => if bc_mismatch 1 dim2 then false else checkBroadcastShapes_rest r2'
  end.

Fixpoint checkBroadcastShapes_from (r1 r2 : list Z) : bool :=
  match r1 with
  | [] => checkBroadcastShapes_rest r2
  | dim1 :: r1' =>
      if bc_mismatch dim1 (hd 1 r2) then false
      else checkBroadcastShapes_from r1' (tl r2)
  end.

Definition checkBroadcastShapes (shape1 shape2 : Shape) : bool :=
  checkBroadcastShapes_from (rev shape1) (rev shape2).

(** [TensorValue::broadcastShapes].  [None]: the [invalid_argument] throw.
    The result is built by [push_back] and reversed at the end. *)
Fixpoint broadcastShapes_rest (r2 : list Z) (resultShape : list Z) : option (list Z) :=
  match r2 with
  | [] => Some resultShape
  | dim2 :: r2' =>
      if bc_mismatch 1 dim2 then None
      else broadcastShapes_rest r2' (resultShape ++ [Z.max 1 dim2])
  end.

Fixpoint broadcastShapes_from (r1 r2 : list Z) (resultShape : list Z) : option (list Z) :=
  match r1 with
  | [] => broadcastShapes_rest r2 resultShape
  | dim1 :: r1' =>
      if bc_mismatch dim1 (hd 1 r2) then None
      else broadcastShapes_from r1' (tl r2) (resultShape ++ [Z.max dim1 (hd 1 r2)])
  end.

Definition broadcastShapes (shape1 shape2 : Shape) : option Shape :=
  @rev Z <$> broadcastShapes_from (rev shape1) (rev shape2) [].

(** [TensorValue::checkBroadcastTo]. *)
Fixpoint checkBroadcastTo_from (rsrc rtgt : list Z) : bool :=
  match rtgt with
  | [] => true
  | dimTgt :: rtgt' =>
      let dimSrc := hd 1 rsrc in
      if negb (dimSrc =? dimTgt) && negb (dimSrc =? 1) then false
      else checkBroadcastTo_from (tl rsrc) rtgt'
  end.

Definition checkBroadcastTo (sourceShape targetShape : Shape) : bool :=
  if (length targetShape <? length sourceShape)%nat then false
  else checkBroadcastTo_from (rev sourceShape) (rev targetShape).

(** ** Tensor values, graph nodes and the program state *)

(** [class TensorValue].  [m_data] is the address of the buffer in the store. *)
Record TensorValue : Type := mkTensorValue {
  m_dType : DataType;
  m_data : nat;
  m_size : Z;
  m_shape : Shape;
  m_strides : Stride;
  m_device : Device
}.

(** The functions a [TensorNode::m_backwardFunc] can hold.  The
    transcendental operations ([sqrt], [sin], [cos], [tanh], [log], [exp],
    [pow]) are outside the modelled fragment. *)
Inductive BackwardFunc : Set :=
| defaultBackward
| broadcastBackwardFunc
| toBackwardFunc
| addBackwardFunc
| subBackwardFunc
| mulBackwardFunc
| divBackwardFunc
| unaryBackwardFunc
| matmulBackwardFunc
| transposeBackwardFunc
| sumBackwardFunc
| meanBackwardFunc.

(** [class TensorNode].  A [std::shared_ptr<TensorNode>] is the index of the
    node in the node heap, [None] for [nullptr]. *)
Record TensorNode : Type := mkTensorNode {
  m_value : TensorValue;
  m_grad : TensorValue;
  m_requireGrad : bool;
  m_retainGrad : bool;
  m_a : option nat;
  m_b : option nat;
  m_dim0 : Z;
  m_dim1 : Z;
  m_backwardFunc : option BackwardFunc
}.

(** [class Tensor]: a handle, [m_data] is the shared pointer to the node. *)
Definition Tensor := option nat.

(** The store of buffers ([None]: a freed buffer) and the heap of nodes. *)
Record State : Type := mkState {
  mem : list (option (list cell));
  nodes : list TensorNode
}.

Definition empty_state : State := mkState [] [].

(** ** Outcomes *)

Inductive ub : Set :=
| NullDereference
| OutOfBounds
| InvalidPointer
| DivisionByZero.

(** The messages of the exceptions. *)
Inductive what : Set :=
| TensorIsNotAScalar
| ReshapeCountMismatch (size newSize : Z)
| ShapesNotCompatibleForBroadcasting
| TargetShapeNotBroadcastable
| BothTensorsMustBe2D
| InnerDimensionsDoNotMatch
| InvalidDimensionsForTranspose
| GradientsNotPopulated.

Inductive exn : Set :=
| invalid_argument (w : what)
| runtime_error (w : what)
| bad_function_call.

Inductive outcome (A : Type) : Type :=
| Ok (a : A) (st : State)
| Throw (e : exn) (st : State)
| Undefined (u : ub)
| OutOfFuel.

Arguments Ok {A} a st.
Arguments Throw {A} e st.
Arguments Undefined {A} u.
Arguments OutOfFuel {A}.

Definition M (A : Type) : Type := State -> outcome A.

#[global] Instance M_ret : MRet M := fun A a st => Ok a st.

#[global] Instance M_bind : MBind M := fun A B f m st =>
  match m st with
  | Ok a st' => f a st'
  | Throw e st' => Throw e st'
  | Undefined u => Undefined u
  | OutOfFuel => OutOfFuel
  end.

Definition get_state : M State := fun st => Ok st st.
Definition throw {A} (e : exn) : M A := fun st => Throw e st.
Definition undefined {A} (u : ub) : M A := fun _ => Undefined u.

(** [for (size_t i = 0; i < size; ++i) body]. *)
Fixpoint for_loop (n : nat) (i : Z) (body : Z -> M unit) : M unit :=
  match n with
  | O => mret tt
  | S n' => body i ;; for_loop n' (i + 1) body
  end.

Definition for_range (size : Z) (body : Z -> M unit) : M unit :=
  for_loop (Z.to_nat size) 0 body.

(** ** The store *)

(** [std::malloc(bytes)], seen as an array of elements of type [T]. *)
Definition malloc (T : DataType) (bytes : Z) : M nat := fun st =>
  Ok (length (mem st))
     (mkState (mem st ++ [Some (replicate (Z.to_nat (bytes / dataTypeSize T)) Indet)])
              (nodes st)).

(** [Device::allocate(size, dtype)]. *)
Definition allocate (size : Z) (dtype : DataType) : M nat :=
  malloc dtype (wrap (size * dataTypeSize dtype)).

(** [Device::deallocate]. *)
Definition deallocate (p : nat) : M unit := fun st =>
  match mem st !! p with
  | Some (Some _) => Ok tt (mkState (<[p := None]> (mem st)) (nodes st))
  | _ => Undefined InvalidPointer
  end.

(** A caller's array (an initializer list, a [std::vector]) put in the store. *)
Definition host_array (data : list cell) : M nat := fun st =>
  Ok (length (mem st)) (mkState (mem st ++ [Some data]) (nodes st)).

(** [p[i]] as an rvalue. *)
Definition load (p : nat) (i : Z) : M cell := fun st =>
  match mem st !! p with
  | Some (Some buf) =>
      match buf !! Z.to_nat i with
      | Some c => Ok c st
      | None => Undefined OutOfBounds
      end
  | _ => Undefined InvalidPointer
  end.

(** [p[i] = c]. *)
Definition store (p : nat) (i : Z) (c : cell) : M unit := fun st =>
  match mem st !! p with
  | Some (Some buf) =>
      if (Z.to_nat i <? length buf)%nat
      then Ok tt (mkState (<[p := Some (<[Z.to_nat i := c]> buf)]> (mem st)) (nodes st))
      else Undefined OutOfBounds
  | _ => Undefined InvalidPointer
  end.

(** Result of an index computation that divides. *)
Definition index_of (o : option Z) : M Z :=
  match o with Some i => mret i | None => undefined DivisionByZero end.

(** ** The CPU kernels of [class Device] *)

Definition binaryGeneric (op : cell -> cell -> cell)
    (a1 a2 : nat) (size : Z) (result : nat) : M unit :=
  for_range size (fun i =>
    x ← load a1 i; y ← load a2 i; store result i (op x y)).

Definition addGeneric (T : DataType) := binaryGeneric (cell_add T).
Definition subGeneric (T : DataType) := binaryGeneric (cell_sub T).
Definition mulGeneric (T : DataType) := binaryGeneric (cell_mul T).
Definition divGeneric (T : DataType) := binaryGeneric (cell_div T).

(** The array-scalar kernels read the scalar as a [float]. *)
Definition addASGeneric (T : DataType) (a1 : nat) (scalar : spec_float) (size : Z) (result : nat) : M unit :=
  for_range size (fun i => x ← load a1 i; store result i (cell_add T x (Val (cast T scalar)))).
Definition subASGeneric (T : DataType) (a1 : nat) (scalar : spec_float) (size : Z) (result : nat) : M unit :=
  for_range size (fun i => x ← load a1 i; store result i (cell_sub T x (Val (cast T scalar)))).
Definition subSAGeneric (T : DataType) (scalar : spec_float) (a1 : nat) (size : Z) (result : nat) : M unit :=
  for_range size (fun i => x ← load a1 i; store result i (cell_sub T (Val (cast T scalar)) x)).
Definition mulASGeneric (T : DataType) (a1 : nat) (scalar : spec_float) (size : Z) (result : nat) : M unit :=
  for_range size (fun i => x ← load a1 i; store result i (cell_mul T x (Val (cast T scalar)))).
Definition divASGeneric (T : DataType) (a1 : nat) (scalar : spec_float) (size : Z) (result : nat) : M unit :=
  for_range size (fun i => x ← load a1 i; store result i (cell_div T x (Val (cast T scalar)))).
Definition divSAGeneric (T : DataType) (scalar : spec_float) (a1 : nat) (size : Z) (result : nat) : M unit :=
  for_range size (fun i => x ← load a1 i; store result i (cell_div T (Val (cast T scalar)) x)).

Definition unaryGeneric (a1 : nat) (size : Z) (result : nat) : M unit :=
  for_range size (fun i => x ← load a1 i; store result i (cell_neg x)).

Definition fillGeneric (T : DataType) (scalar : spec_float) (size : Z) (result : nat) : M unit :=
  for_range size (fun i => store result i (Val (cast T scalar))).

(** [T sum = 0; for (...) sum += t1[i];] with the running sum threaded. *)
Fixpoint sum_loop (T : DataType) (n : nat) (i : Z) (a : nat) (sum : cell) : M cell :=
  match n with
  | O => mret sum
  | S n' => x ← load a i; sum_loop T n' (i + 1) a (cell_add T sum x)
  end.

Definition sumGeneric (T : DataType) (a : nat) (size : Z) (result : nat) : M unit :=
  sum ← sum_loop T (Z.to_nat size) 0 a (Val (of_Z T 0));
  store result 0 sum.

Definition meanGeneric (T : DataType) (a : nat) (size : Z) (result : nat) : M unit :=
  sum ← sum_loop T (Z.to_nat size) 0 a (Val (of_Z T 0));
  store result 0 (cell_div T sum (Val (of_Z T size))).

(** [Device::matmulGeneric].  [s1[0]], [s1[1]], [s2[1]] were validated by the
    caller; a missing dimension is a read outside the shape vector. *)
Fixpoint matmul_inner (T : DataType) (n : nat) (k : Z) (t1 t2 : nat) (i j s11 nn : Z) (sum : cell) : M cell :=
  match n with
  | O => mret sum
  | S n' =>
      x ← load t1 (wrap (wrap (i * s11) + k));
      y ← load t2 (wrap (wrap (k * nn) + j));
      matmul_inner T n' (k + 1) t1 t2 i j s11 nn (cell_add T sum (cell_mul T x y))
  end.

Definition matmulGeneric (T : DataType) (a1 : nat) (s1 : Shape) (a2 : nat) (s2 : Shape) (result : nat) : M unit :=
  match s1 !! 0%nat, s2 !! 1%nat, s1 !! 1%nat with
  | Some m, Some n, Some inner =>
      for_range m (fun i =>
        for_range n (fun j =>
          sum ← matmul_inner T (Z.to_nat inner) 0 a1 a2 i j inner n (Val (of_Z T 0));
          store result (wrap (wrap (i * n) + j)) sum))
  | _, _, _ => undefined OutOfBounds
  end.

(** [Device::transposeGeneric]. *)
Definition transposeGeneric (dim0 dim1 : Z) (data : nat) (shape : Shape)
    (strides newStrides : Stride) (size : Z) (result : nat) : M unit :=
  for_range size (fun i =>
    match unflattenIndex i strides with
    | None => undefined DivisionByZero
    | Some oldIndices =>
        if (Z.to_nat dim0 <? length oldIndices)%nat && (Z.to_nat dim1 <? length oldIndices)%nat then
          match flattenIndex (swap_at dim0 dim1 oldIndices) newStrides with
          | None => undefined OutOfBounds
          | Some newIndex => x ← load data i; store result newIndex x
          end
        else undefined OutOfBounds
    end).

Definition conversionCopyGeneric (DstType : DataType) (src dst : nat) (size : Z) : M unit :=
  for_range size (fun i => x ← load src i; store dst i (cell_cast DstType x)).

(** [std::memcpy(dst, src, bytes)] between arrays of [T], element by element. *)
Definition memcpy (T : DataType) (dst src : nat) (bytes : Z) : M unit :=
  for_range (bytes / dataTypeSize T) (fun i => x ← load src i; store dst i x).

Definition broadcastToGeneric (src dst : nat) (size : Z) (shape newShape : Shape) : M unit :=
  for_range size (fun index =>
    k ← index_of (translationIndex index shape newShape);
    x ← load src k; store dst index x).

Definition reduceToGeneric (T : DataType) (src dst : nat) (size : Z) (shape newShape : Shape) : M unit :=
  for_range size (fun index =>
    k ← index_of (translationIndex index shape newShape);
    acc ← load dst k; x ← load src index; store dst k (cell_add T acc x)).

(** The virtual methods of [Device]: each calls the entry of its function
    table for [dtype]. *)
Definition Device_add a1 a2 size result (dtype : DataType) := addGeneric dtype a1 a2 size result.
Definition Device_sub a1 a2 size result (dtype : DataType) := subGeneric dtype a1 a2 size result.
Definition Device_mul a1 a2 size result (dtype : DataType) := mulGeneric dtype a1 a2 size result.
Definition Device_div a1 a2 size result (dtype : DataType) := divGeneric dtype a1 a2 size result.
Definition Device_addAS a1 scalar size result (dtype : DataType) := addASGeneric dtype a1 scalar size result.
Definition Device_subAS a1 scalar size result (dtype : DataType) := subASGeneric dtype a1 scalar size result.
Definition Device_subSA scalar a1 size result (dtype : DataType) := subSAGeneric dtype scalar a1 size result.
Definition Device_mulAS a1 scalar size result (dtype : DataType) := mulASGeneric dtype a1 scalar size result.
Definition Device_divAS a1 scalar size result (dtype : DataType) := divASGeneric dtype a1 scalar size result.
Definition Device_divSA scalar a1 size result (dtype : DataType) := divSAGeneric dtype scalar a1 size result.
Definition Device_unary a1 size result (dtype : DataType) := unaryGeneric a1 size result.
Definition Device_fill scalar size result (dtype : DataType) := fillGeneric dtype scalar size result.
Definition Device_sum a size result (dtype : DataType) := sumGeneric dtype a size result.
Definition Device_mean a size result (dtype : DataType) := meanGeneric dtype a size result.
Definition Device_matmul a1 s1 a2 s2 result (dtype : DataType) := matmulGeneric dtype a1 s1 a2 s2 result.
Definition Device_transpose dim0 dim1 data shape strides newStrides size result (dtype : DataType) :=
  transposeGeneric dim0 dim1 data shape strides newStrides size result.
Definition Device_broadcastTo src dst size shape newShape (dtype : DataType) :=
  broadcastToGeneric src dst size shape newShape.
Definition Device_reduceTo src dst size shape newShape (dtype : DataType) :=
  reduceToGeneric dtype src dst size shape newShape.

(** [Device::copy]: [memcpy] for equal types, a conversion loop otherwise. *)
Definition Device_copy (src : nat) (srcDType : DataType) (dst : nat) (dstDType : DataType) (size : Z) : M unit :=
  if decide (srcDType = dstDType) then memcpy srcDType dst src (wrap (size * dataTypeSize srcDType))
  else conversionCopyGeneric dstDType src dst size.

(** [Device::copyImmediate]; [commitAndWait] does nothing on the CPU. *)
Definition Device_copyImmediate src srcDType dst dstDType size : M unit :=
  Device_copy src srcDType dst dstDType size.

(** ** [class TensorValue] *)

(** [TensorValue(const void* data, size_t size, DataType srcDType, Shape shape,
    Device* device, DataType dType)]. *)
Definition TensorValue_of_data (data : nat) (size : Z) (srcDType : DataType)
    (shape : Shape) (device : Device) (dType : DataType) : M TensorValue :=
  p ← allocate size dType;
  Device_copyImmediate data srcDType p dType size;;
  mret (mkTensorValue dType p size shape (computeStrides shape) device).

(** [TensorValue(float value, Shape shape, Device* device, DataType dType)]. *)
Definition TensorValue_filled (value : spec_float) (shape : Shape)
    (device : Device) (dType : DataType) : M TensorValue :=
  let size := shape_size shape in
  p ← allocate size dType;
  Device_fill value size p dType;;
  mret (mkTensorValue dType p size shape (computeStrides shape) device).

(** [TensorValue(Shape shape, Device* device, DataType dType)]: allocated,
    not initialised. *)
Definition TensorValue_uninit (shape : Shape) (device : Device) (dType : DataType) : M TensorValue :=
  let size := shape_size shape in
  p ← allocate size dType;
  mret (mkTensorValue dType p size shape (computeStrides shape) device).

(** [TensorValue(Shape shape, Device* device, size_t size, Stride strides,
    DataType dType)]: allocated, not initialised. *)
Definition TensorValue_raw (shape : Shape) (device : Device) (size : Z)
    (strides : Stride) (dType : DataType) : M TensorValue :=
  p ← allocate size dType;
  mret (mkTensorValue dType p size shape strides device).

(** [TensorValue(float value, Device* device, DataType dType)]: a scalar. *)
Definition TensorValue_scalar (value : spec_float) (device : Device) (dType : DataType) : M TensorValue :=
  p ← allocate 1 dType;
  Device_fill value 1 p dType;;
  mret (mkTensorValue dType p 1 [] (computeStrides []) device).

(** The copy constructor. *)
Definition TensorValue_copy (other : TensorValue) : M TensorValue :=
  p ← allocate (m_size other) (m_dType other);
  Device_copyImmediate (m_data other) (m_dType other) p (m_dType other) (m_size other);;
  mret (mkTensorValue (m_dType other) p (m_size other) (m_shape other) (m_strides other) (m_device other)).

(** The copy assignment [*this = other] of two distinct objects; the result
    is the new [*this]. *)
Definition TensorValue_copy_assign (this other : TensorValue) : M TensorValue :=
  deallocate (m_data this);;
  TensorValue_copy other.

(** The move assignment [*this = std::move(other)] of two distinct objects. *)
Definition TensorValue_move_assign (this other : TensorValue) : M TensorValue :=
  deallocate (m_data this);;
  mret other.

(** [TensorValue::reshape]. *)
Definition TensorValue_reshape (this : TensorValue) (newShape : Shape) : M TensorValue :=
  let newSize := shape_size newShape in
  if decide (m_size this = newSize) then
    TensorValue_of_data (m_data this) (m_size this) (m_dType this) newShape (m_device this) (m_dType this)
  else throw (invalid_argument (ReshapeCountMismatch (m_size this) newSize)).

(** [TensorValue::to]. *)
Definition TensorValue_to (this : TensorValue) (newDataType : DataType) : M TensorValue :=
  if decide (m_dType this = newDataType) then TensorValue_copy this
  else TensorValue_of_data (m_data this) (m_size this) (m_dType this) (m_shape this) (m_device this) newDataType.

(** [TensorValue::broadcastTo]. *)
Definition TensorValue_broadcastTo (this : TensorValue) (newShape : Shape) : M TensorValue :=
  if checkBroadcastTo (m_shape this) newShape then
    match broadcastShapes (m_shape this) newShape with
    | None => throw (invalid_argument ShapesNotCompatibleForBroadcasting)
    | Some resultShape =>
        result ← TensorValue_uninit resultShape (m_device this) (m_dType this);
        Device_broadcastTo (m_data this) (m_data result) (m_size result)
          (m_shape this) resultShape (m_dType this);;
        mret result
    end
  else throw (invalid_argument TargetShapeNotBroadcastable).

(** [TensorValue::reduceTo]. *)
Definition TensorValue_reduceTo (this : TensorValue) (originalShape : Shape) : M TensorValue :=
  result ← TensorValue_filled (of_Z kFloat32 0) originalShape (m_device this) (m_dType this);
  Device_reduceTo (m_data this) (m_data result) (m_size this) (m_shape this) originalShape (m_dType this);;
  mret result.

(** [TensorValue::prepareTensors(lhs, rhs)]: the result, and the new values
    of the two reference parameters. *)
Definition prepareTensors (lhs rhs : TensorValue) : M (TensorValue * TensorValue * TensorValue) :=
  '(promotedDType, lhs, rhs) ←
     (if decide (m_dType lhs = m_dType rhs) then mret (m_dType lhs, lhs, rhs)
      else
        let promotedDType := promoteDataType (m_dType lhs) (m_dType rhs) in
        t ← TensorValue_to lhs promotedDType;
        lhs ← TensorValue_move_assign lhs t;
        t ← TensorValue_to rhs promotedDType;
        rhs ← TensorValue_move_assign rhs t;
        mret (promotedDType, lhs, rhs));
  '(lhs, rhs) ←
     (if decide (m_shape lhs = m_shape rhs) then mret (lhs, rhs)
      else
        match broadcastShapes (m_shape lhs) (m_shape rhs) with
        | None => throw (invalid_argument ShapesNotCompatibleForBroadcasting)
        | Some bcShape =>
            t ← TensorValue_broadcastTo lhs bcShape;
            lhs ← TensorValue_move_assign lhs t;
            t ← TensorValue_broadcastTo rhs bcShape;
            rhs ← TensorValue_move_assign rhs t;
            mret (lhs, rhs)
        end);
  result ← TensorValue_uninit (m_shape lhs) (m_device lhs) promotedDType;
  mret (result, lhs, rhs).

(** The kernels of the four binary operators. *)
Inductive binop : Set := Add | Sub | Mul | Div.

Definition Device_binop (op : binop) :=
  match op with
  | Add => Device_add | Sub => Device_sub | Mul => Device_mul | Div => Device_div
  end.

(** [TensorValue::operator+], [operator-], [operator*], [operator/] on two
    tensor values. *)
Definition TensorValue_binop (op : binop) (this other : TensorValue) : M TensorValue :=
  if decide (m_shape this = m_shape other ∧ m_dType this = m_dType other) then
    result ← TensorValue_uninit (m_shape this) (m_device this) (m_dType this);
    Device_binop op (m_data this) (m_data other) (m_size this) (m_data result) (m_dType this);;
    mret result
  else
    lhs ← TensorValue_copy this;
    rhs ← TensorValue_copy other;
    '(result, lhs, rhs) ← prepareTensors lhs rhs;
    Device_binop op (m_data lhs) (m_data rhs) (m_size lhs) (m_data result) (m_dType result);;
    mret result.

(** [TensorValue::operator+=], [-=], [*=], [/=]: the new value of [*this]. *)
Definition TensorValue_binop_assign (op : binop) (this other : TensorValue) : M TensorValue :=
  if decide (m_shape this = m_shape other ∧ m_dType this = m_dType other) then
    Device_binop op (m_data this) (m_data other) (m_size this) (m_data this) (m_dType this);;
    mret this
  else
    lhs ← TensorValue_copy this;
    rhs ← TensorValue_copy other;
    '(_, lhs, rhs) ← prepareTensors lhs rhs;
    Device_binop op (m_data lhs) (m_data rhs) (m_size lhs) (m_data lhs) (m_dType lhs);;
    t ← TensorValue_of_data (m_data lhs) (m_size lhs) (m_dType lhs) (m_shape lhs) (m_device lhs) (m_dType this);
    TensorValue_move_assign this t.

(** [TensorValue::operator-() const]. *)
Definition TensorValue_neg (this : TensorValue) : M TensorValue :=
  result ← TensorValue_uninit (m_shape this) (m_device this) (m_dType this);
  Device_unary (m_data this) (m_size this) (m_data result) (m_dType this);;
  mret result.

(** [TensorValue::operator/(float scalar) const]. *)
Definition TensorValue_div_scalar (this : TensorValue) (scalar : spec_float) : M TensorValue :=
  result ← TensorValue_uninit (m_shape this) (m_device this) (m_dType this);
  Device_divAS (m_data this) scalar (m_size this) (m_data result) (m_dType this);;
  mret result.

(** [TensorValue::fill]. *)
Definition TensorValue_fill (this : TensorValue) (value : spec_float) : M unit :=
  Device_fill value (m_size this) (m_data this) (m_dType this).

(** [TensorValue::sum]; [TensorValue result({}, device(), m_dType)] selects
    the constructor from a [float], with value [0]. *)
Definition TensorValue_sum (this : TensorValue) : M TensorValue :=
  result ← TensorValue_scalar (of_Z kFloat32 0) (m_device this) (m_dType this);
  Device_sum (m_data this) (m_size this) (m_data result) (m_dType this);;
  mret result.

(** [TensorValue::mean]. *)
Definition TensorValue_mean (this : TensorValue) : M TensorValue :=
  result ← TensorValue_scalar (of_Z kFloat32 0) (m_device this) (m_dType this);
  Device_mean (m_data this) (m_size this) (m_data result) (m_dType this);;
  mret result.

(** [TensorValue::matmul]. *)
Definition TensorValue_matmul (this b : TensorValue) : M TensorValue :=
  match m_shape this, m_shape b with
  | [a0; a1], [b0; b1] =>
      if decide (a1 = b0) then
        let resultShape := [a0; b1] in
        if decide (m_dType this = m_dType b) then
          result ← TensorValue_uninit resultShape (m_device this) (m_dType this);
          Device_matmul (m_data this) (m_shape this) (m_data b) (m_shape b) (m_data result) (m_dType this);;
          mret result
        else
          lhs ← TensorValue_copy this;
          rhs ← TensorValue_copy b;
          let promotedDType := promoteDataType (m_dType lhs) (m_dType rhs) in
          t ← TensorValue_to lhs promotedDType;
          lhs ← TensorValue_move_assign lhs t;
          t ← TensorValue_to rhs promotedDType;
          rhs ← TensorValue_move_assign rhs t;
          result ← TensorValue_uninit resultShape (m_device lhs) promotedDType;
          Device_matmul (m_data lhs) (m_shape lhs) (m_data rhs) (m_shape rhs) (m_data result) (m_dType result);;
          mret result
      else throw (invalid_argument InnerDimensionsDoNotMatch)
  | _, _ => throw (invalid_argument BothTensorsMustBe2D)
  end.

(** [TensorValue::transpose]. *)
Definition TensorValue_transpose (this : TensorValue) (dim0 dim1 : Z) : M TensorValue :=
  if (Z.of_nat (length (m_shape this)) <=? dim0) || (Z.of_nat (length (m_shape this)) <=? dim1) then
    throw (invalid_argument InvalidDimensionsForTranspose)
  else
    let newShape := swap_at dim0 dim1 (m_shape this) in
    result ← TensorValue_uninit newShape (m_device this) (m_dType this);
    Device_transpose dim0 dim1 (m_data this) (m_shape this) (m_strides this)
      (m_strides result) (m_size result) (m_data result) (m_dType this);;
    mret result.

(** ** The node heap *)

Definition out_of_fuel {A} : M A := fun _ => OutOfFuel.

(** [std::make_shared<TensorNode>(...)]. *)
Definition new_node (node : TensorNode) : M nat := fun st =>
  Ok (length (nodes st)) (mkState (mem st) (nodes st ++ [node])).

(** [*p] for a non-null shared pointer [p]. *)
Definition get_node (p : nat) : M TensorNode := fun st =>
  match nodes st !! p with
  | Some node => Ok node st
  | None => Undefined InvalidPointer
  end.

Definition set_node (p : nat) (node : TensorNode) : M unit := fun st =>
  match nodes st !! p with
  | Some _ => Ok tt (mkState (mem st) (<[p := node]> (nodes st)))
  | None => Undefined InvalidPointer
  end.

(** [p->] for a shared pointer [p] that may be null. *)
Definition deref (p : option nat) : M nat :=
  match p with
  | Some q => mret q
  | None => undefined NullDereference
  end.

Definition set_value (node : TensorNode) (v : TensorValue) : TensorNode :=
  mkTensorNode v (m_grad node) (m_requireGrad node) (m_retainGrad node)
    (m_a node) (m_b node) (m_dim0 node) (m_dim1 node) (m_backwardFunc node).

Definition set_grad (node : TensorNode) (g : TensorValue) : TensorNode :=
  mkTensorNode (m_value node) g (m_requireGrad node) (m_retainGrad node)
    (m_a node) (m_b node) (m_dim0 node) (m_dim1 node) (m_backwardFunc node).

Definition set_retainGrad (node : TensorNode) (b : bool) : TensorNode :=
  mkTensorNode (m_value node) (m_grad node) (m_requireGrad node) b
    (m_a node) (m_b node) (m_dim0 node) (m_dim1 node) (m_backwardFunc node).

Definition set_parents (node : TensorNode) (a b : option nat) : TensorNode :=
  mkTensorNode (m_value node) (m_grad node) (m_requireGrad node) (m_retainGrad node)
    a b (m_dim0 node) (m_dim1 node) (m_backwardFunc node).

Definition set_dims (node : TensorNode) (dim0 dim1 : Z) : TensorNode :=
  mkTensorNode (m_value node) (m_grad node) (m_requireGrad node) (m_retainGrad node)
    (m_a node) (m_b node) dim0 dim1 (m_backwardFunc node).

Definition set_backwardFunc (node : TensorNode) (f : BackwardFunc) : TensorNode :=
  mkTensorNode (m_value node) (m_grad node) (m_requireGrad node) (m_retainGrad node)
    (m_a node) (m_b node) (m_dim0 node) (m_dim1 node) (Some f).

(** ** [class TensorNode] *)

(** [TensorNode(const TensorValue& value, bool requireGrad)]. *)
Definition TensorNode_of_value (value : TensorValue) (requireGrad : bool) : M TensorNode :=
  v ← TensorValue_copy value;
  g ← TensorValue_raw (m_shape value) (m_device value) (m_size value) (m_strides value) (m_dType value);
  mret (mkTensorNode v g requireGrad false None None 0 0 None).

(** [TensorNode(const Shape& shape, Device* device, bool requireGrad, DataType dType)]. *)
Definition TensorNode_of_shape (shape : Shape) (device : Device) (requireGrad : bool)
    (dType : DataType) : M TensorNode :=
  v ← TensorValue_uninit shape device dType;
  g ← TensorValue_raw shape device (m_size v) (m_strides v) dType;
  mret (mkTensorNode v g requireGrad false None None 0 0 None).

(** [m_grad += seed] on the node at [p]. *)
Definition accumulate_grad (p : nat) (seed : TensorValue) : M unit :=
  node ← get_node p;
  g ← TensorValue_binop_assign Add (m_grad node) seed;
  set_node p (set_grad node g).

(** [TensorNode::backward] and the functions of [Tensor] it calls through
    [m_backwardFunc].  The recursion follows the parent pointers; [fuel]
    bounds its depth. *)
Fixpoint TensorNode_backward (fuel : nat) (this : nat) (seed : TensorValue) : M unit :=
  match fuel with
  | O => out_of_fuel
  | S fuel' =>
      node ← get_node this;
      (if m_retainGrad node then accumulate_grad this seed else mret tt);;
      node ← get_node this;
      match m_backwardFunc node with
      | None => throw bad_function_call
      | Some defaultBackward =>
          if m_requireGrad node && negb (m_retainGrad node)
          then accumulate_grad this seed
          else mret tt
      | Some broadcastBackwardFunc =>
          match m_a node with
          | None => mret tt
          | Some a =>
              na ← get_node a;
              s ← TensorValue_reduceTo seed (m_shape (m_value na));
              TensorNode_backward fuel' a s
          end
      | Some toBackwardFunc =>
          match m_a node with
          | None => mret tt
          | Some a =>
              na ← get_node a;
              s ← TensorValue_to seed (m_dType (m_value na));
              TensorNode_backward fuel' a s
          end
      | Some addBackwardFunc =>
          match m_a node, m_b node with
          | Some a, Some b =>
              TensorNode_backward fuel' a seed;;
              TensorNode_backward fuel' b seed
          | _, _ => mret tt
          end
      | Some subBackwardFunc =>
          match m_a node, m_b node with
          | Some a, Some b =>
              TensorNode_backward fuel' a seed;;
              s ← TensorValue_neg seed;
              TensorNode_backward fuel' b s
          | _, _ => mret tt
          end
      | Some mulBackwardFunc =>
          match m_a node, m_b node with
          | Some a, Some b =>
              nb ← get_node b;
              s ← TensorValue_binop Mul (m_value nb) seed;
              TensorNode_backward fuel' a s;;
              na ← get_node a;
              s ← TensorValue_binop Mul (m_value na) seed;
              TensorNode_backward fuel' b s
          | _, _ => mret tt
          end
      | Some divBackwardFunc =>
          match m_a node, m_b node with
          | Some a, Some b =>
              nb ← get_node b;
              s ← TensorValue_binop Div seed (m_value nb);
              TensorNode_backward fuel' a s;;
              na ← get_node a;
              nb ← get_node b;
              t1 ← TensorValue_neg (m_value na);
              t2 ← TensorValue_binop Mul t1 seed;
              t3 ← TensorValue_binop Mul (m_value nb) (m_value nb);
              s ← TensorValue_binop Div t2 t3;
              TensorNode_backward fuel' b s
          | _, _ => mret tt
          end
      | Some unaryBackwardFunc =>
          match m_a node with
          | None => mret tt
          | Some a =>
              s ← TensorValue_neg seed;
              TensorNode_backward fuel' a s
          end
      | Some matmulBackwardFunc =>
          match m_a node, m_b node with
          | Some a, Some b =>
              nb ← get_node b;
              t ← TensorValue_transpose (m_value nb) 0 1;
              s ← TensorValue_matmul seed t;
              TensorNode_backward fuel' a s;;
              na ← get_node a;
              t ← TensorValue_transpose (m_value na) 0 1;
              s ← TensorValue_matmul t seed;
              TensorNode_backward fuel' b s
          | _, _ => mret tt
          end
      | Some transposeBackwardFunc =>
          match m_a node with
          | None => mret tt
          | Some a =>
              s ← TensorValue_transpose seed (m_dim0 node) (m_dim1 node);
              TensorNode_backward fuel' a s
          end
      | Some sumBackwardFunc =>
          match m_a node with
          | None => mret tt
          | Some a => TensorNode_backward fuel' a seed
          end
      | Some meanBackwardFunc =>
          match m_a node with
          | None => mret tt
          | Some a =>
              na ← get_node a;
              s ← TensorValue_div_scalar seed (of_Z kFloat32 (m_size (m_value na)));
              TensorNode_backward fuel' a s
          end
      end
  end.

(** ** [class Tensor] *)

(** [Tensor(const void* data, size_t size, DataType srcDType, const Shape& shape,
    bool requireGrad, DataType dType, Device* device)]. *)
Definition Tensor_of_data (data : nat) (size : Z) (srcDType : DataType) (shape : Shape)
    (requireGrad : bool) (dType : DataType) (device : Device) : M Tensor :=
  v ← TensorValue_of_data data size srcDType shape device dType;
  node ← TensorNode_of_value v requireGrad;
  p ← new_node (set_backwardFunc node defaultBackward);
  mret (Some p).

(** [Tensor(float value, const Shape& shape, bool requireGrad, DataType dType,
    Device* device)]. *)
Definition Tensor_filled (value : spec_float) (shape : Shape)
    (requireGrad : bool) (dType : DataType) (device : Device) : M Tensor :=
  v ← TensorValue_filled value shape device dType;
  node ← TensorNode_of_value v requireGrad;
  p ← new_node (set_backwardFunc node defaultBackward);
  mret (Some p).

(** [Tensor(const Shape& shape, bool requireGrad, DataType dType, Device* device)]. *)
Definition Tensor_of_shape (shape : Shape)
    (requireGrad : bool) (dType : DataType) (device : Device) : M Tensor :=
  node ← TensorNode_of_shape shape device requireGrad dType;
  p ← new_node (set_backwardFunc node defaultBackward);
  mret (Some p).

(** [m_data->] and the node it points to. *)
Definition Tensor_node (this : Tensor) : M (nat * TensorNode) :=
  p ← deref this;
  node ← get_node p;
  mret (p, node).

(** [Tensor::backward(float value = 1)]: the seed has the shape of the grad
    of the first parent. *)
Definition Tensor_backward (this : Tensor) (value : spec_float) : M unit :=
  '(p, node) ← Tensor_node this;
  a ← deref (m_a node);
  na ← get_node a;
  seed ← TensorValue_filled value (m_shape (m_grad na))
           (m_device (m_value node)) (m_dType (m_value node));
  st ← get_state;
  TensorNode_backward (length (nodes st)) p seed.

(** [Tensor::backward(float value, const Shape& gradShape)]. *)
Definition Tensor_backward_shape (this : Tensor) (value : spec_float) (gradShape : Shape) : M unit :=
  '(p, node) ← Tensor_node this;
  seed ← TensorValue_filled value gradShape
           (m_device (m_value node)) (m_dType (m_value node));
  st ← get_state;
  TensorNode_backward (length (nodes st)) p seed.

(** [Tensor::grad]. *)
Definition Tensor_grad (this : Tensor) : M TensorValue :=
  '(_, node) ← Tensor_node this;
  if negb (m_requireGrad node) && negb (m_retainGrad node)
  then throw (runtime_error GradientsNotPopulated)
  else mret (m_grad node).

(** [Tensor::value], [shape], [dataType], [isRequireGrad], [device]. *)
Definition Tensor_value (this : Tensor) : M TensorValue :=
  '(_, node) ← Tensor_node this; mret (m_value node).

(** [Tensor::zeroGrad]. *)
Definition Tensor_zeroGrad (this : Tensor) : M unit :=
  '(_, node) ← Tensor_node this;
  TensorValue_fill (m_grad node) (of_Z kFloat32 0).

(** [Tensor::retainGrad]. *)
Definition Tensor_retainGrad (this : Tensor) : M unit :=
  '(p, node) ← Tensor_node this;
  set_node p (set_retainGrad node true);;
  TensorValue_fill (m_grad node) (of_Z kFloat32 0).

(** [Tensor::reshape]. *)
Definition Tensor_reshape (this : Tensor) (newShape : Shape) : M Tensor :=
  '(_, node) ← Tensor_node this;
  let newSize := shape_size newShape in
  let v := m_value node in
  if decide (m_size v = newSize) then
    Tensor_of_data (m_data v) (m_size v) (m_dType v) newShape (m_requireGrad node) (m_dType v) (m_device v)
  else throw (invalid_argument (ReshapeCountMismatch (m_size v) newSize)).

(** [Tensor::broadcastTo]. *)
Definition Tensor_broadcastTo (this : Tensor) (newShape : Shape) : M Tensor :=
  '(_, node) ← Tensor_node this;
  tValue ← TensorValue_broadcastTo (m_value node) newShape;
  result ← Tensor_of_data (m_data tValue) (m_size tValue) (m_dType tValue) (m_shape tValue)
             (m_requireGrad node) (m_dType (m_value node)) (m_device (m_value node));
  '(r, rn) ← Tensor_node result;
  set_node r (set_backwardFunc (set_parents rn this (m_b rn)) broadcastBackwardFunc);;
  mret result.

(** [Tensor::to(DataType)]. *)
Definition Tensor_to (this : Tensor) (newDataType : DataType) : M Tensor :=
  '(_, node) ← Tensor_node this;
  let v := m_value node in
  if decide (m_dType v = newDataType) then mret this
  else
    result ← Tensor_of_data (m_data v) (m_size v) (m_dType v) (m_shape v)
               (m_requireGrad node) newDataType (m_device v);
    '(r, rn) ← Tensor_node result;
    set_node r (set_backwardFunc (set_parents rn this (m_b rn)) toBackwardFunc);;
    mret result.

(** [Tensor::broadcastShape]. *)
Definition Tensor_broadcastShape (shape otherShape : Shape) : M Shape :=
  if decide (shape = otherShape) then mret shape
  else
    match broadcastShapes shape otherShape with
    | Some s => mret s
    | None => throw (invalid_argument ShapesNotCompatibleForBroadcasting)
    end.

(** [result.m_data->m_value = v; m_a = a; m_b = b; m_backwardFunc = f] on a
    fresh result tensor. *)
Definition Tensor_finish (result : Tensor) (v : TensorValue) (a b : option nat)
    (f : BackwardFunc) : M Tensor :=
  '(r, rn) ← Tensor_node result;
  v ← TensorValue_move_assign (m_value rn) v;
  set_node r (set_backwardFunc (set_parents (set_value rn v) a b) f);;
  mret result.

(** [Tensor::operator+], [operator-], [operator*], [operator/] on two tensors.
    The result node is created with [shape()] for [+], [-] and [*] and with
    [bcShape] for [/]. *)
Definition Tensor_binop (op : binop) (this other : Tensor) : M Tensor :=
  '(_, node) ← Tensor_node this;
  '(_, onode) ← Tensor_node other;
  let promotedDType := promoteDataType (m_dType (m_value node)) (m_dType (m_value onode)) in
  bcShape ← Tensor_broadcastShape (m_shape (m_value node)) (m_shape (m_value onode));
  t ← Tensor_broadcastTo this bcShape;
  lhs ← Tensor_to t promotedDType;
  t ← Tensor_broadcastTo other bcShape;
  rhs ← Tensor_to t promotedDType;
  result ← Tensor_of_shape
             (match op with Div => bcShape | _ => m_shape (m_value node) end)
             (m_requireGrad node || m_requireGrad onode)
             (m_dType (m_value node)) (m_device (m_value node));
  '(_, ln) ← Tensor_node lhs;
  '(_, rn) ← Tensor_node rhs;
  v ← TensorValue_binop op (m_value ln) (m_value rn);
  Tensor_finish result v lhs rhs
    (match op with
     | Add => addBackwardFunc | Sub => subBackwardFunc
     | Mul => mulBackwardFunc | Div => divBackwardFunc
     end).

(** [Tensor::operator-() const]. *)
Definition Tensor_neg (this : Tensor) : M Tensor :=
  '(_, node) ← Tensor_node this;
  result ← Tensor_of_shape (m_shape (m_value node)) (m_requireGrad node)
             (m_dType (m_value node)) (m_device (m_value node));
  v ← TensorValue_neg (m_value node);
  Tensor_finish result v this None unaryBackwardFunc.

(** [Tensor::sum] and [Tensor::mean]. *)
Definition Tensor_sum (this : Tensor) : M Tensor :=
  '(_, node) ← Tensor_node this;
  result ← Tensor_of_shape [] (m_requireGrad node)
             (m_dType (m_value node)) (m_device (m_value node));
  v ← TensorValue_sum (m_value node);
  Tensor_finish result v this None sumBackwardFunc.

Definition Tensor_mean (this : Tensor) : M Tensor :=
  '(_, node) ← Tensor_node this;
  result ← Tensor_of_shape [] (m_requireGrad node)
             (m_dType (m_value node)) (m_device (m_value node));
  v ← TensorValue_mean (m_value node);
  Tensor_finish result v this None meanBackwardFunc.

(** [Tensor::matmul]. *)
Definition Tensor_matmul (this other : Tensor) : M Tensor :=
  '(_, node) ← Tensor_node this;
  '(_, onode) ← Tensor_node other;
  let promotedDType := promoteDataType (m_dType (m_value node)) (m_dType (m_value onode)) in
  lhs ← Tensor_to this promotedDType;
  rhs ← Tensor_to other promotedDType;
  '(_, ln) ← Tensor_node lhs;
  '(_, rn) ← Tensor_node rhs;
  match m_shape (m_value node) !! 0%nat, m_shape (m_value rn) !! 1%nat with
  | Some rows, Some cols =>
      result ← Tensor_of_shape [rows; cols] (m_requireGrad node || m_requireGrad rn)
                 (m_dType (m_value node)) (m_device (m_value node));
      v ← TensorValue_matmul (m_value ln) (m_value rn);
      Tensor_finish result v lhs rhs matmulBackwardFunc
  | _, _ => undefined OutOfBounds
  end.

(** [Tensor::transpose]. *)
Definition Tensor_transpose (this : Tensor) (dim0 dim1 : Z) : M Tensor :=
  '(_, node) ← Tensor_node this;
  result ← Tensor_of_shape (m_shape (m_value node)) (m_requireGrad node)
             (m_dType (m_value node)) (m_device (m_value node));
  v ← TensorValue_transpose (m_value node) dim0 dim1;
  '(r, rn) ← Tensor_node result;
  v ← TensorValue_move_assign (m_value rn) v;
  set_node r (set_backwardFunc (set_dims (set_parents (set_value rn v) this (m_b rn)) dim0 dim1)
                transposeBackwardFunc);;
  mret result.

(** The convenience function [tensor(data, shape, requireGrad, dtype)] on an
    initializer list of [double]s. *)
Definition tensor (data : list spec_float) (shape : Shape) (requireGrad : bool) (dtype : DataType) : M Tensor :=
  p ← host_array (map Val data);
  Tensor_of_data p (Z.of_nat (length data)) kFloat64 shape requireGrad dtype defaultDevice.

(** [ones] and [zeros]. *)
Definition ones (shape : Shape) (requireGrad : bool) : M Tensor :=
  Tensor_filled (of_Z kFloat32 1) shape requireGrad kFloat32 defaultDevice.
Definition zeros (shape : Shape) (requireGrad : bool) : M Tensor :=
  Tensor_filled (of_Z kFloat32 0) shape requireGrad kFloat32 defaultDevice.

(** The contents of the buffer of a tensor value. *)
Definition contents (st : State) (v : TensorValue) : option (list cell) :=
  mem st !! m_data v ≫= id.

(** ** The optimizers *)

(** [TensorValue::operator*(float scalar) const]. *)
Definition TensorValue_mul_scalar (this : TensorValue) (scalar : spec_float) : M TensorValue :=
  result ← TensorValue_uninit (m_shape this) (m_device this) (m_dType this);
  Device_mulAS (m_data this) scalar (m_size this) (m_data result) (m_dType this);;
  mret result.

(** [Tensor::isRequireGrad]. *)
Definition Tensor_isRequireGrad (this : Tensor) : M bool :=
  '(_, node) ← Tensor_node this; mret (m_requireGrad node).

(** [Optimizer::zeroGrad]: the loop over [m_parameters]. *)
Fixpoint Optimizer_zeroGrad (m_parameters : list Tensor) : M unit :=
  match m_parameters with
  | [] => mret tt
  | param :: rest => Tensor_zeroGrad param;; Optimizer_zeroGrad rest
  end.

(** [SGD::step]: [param.value() -= param.grad() * m_lr] for each parameter
    that requires grad. *)
Fixpoint SGD_step (m_parameters : list Tensor) (m_lr : spec_float) : M unit :=
  match m_parameters with
  | [] => mret tt
  | param :: rest =>
      requireGrad ← Tensor_isRequireGrad param;
      (if requireGrad : bool then
         g ← Tensor_grad param;
         t ← TensorValue_mul_scalar g m_lr;
         '(p, node) ← Tensor_node param;
         v ← TensorValue_binop_assign Sub (m_value node) t;
         set_node p (set_value node v)
       else mret tt : M unit);;
      SGD_step rest m_lr
  end.

(** * Observations and scenarios *)

(** What a run returned, and the state it left. *)
Definition returned {A} (o : outcome A) : option A :=
  match o with Ok a _ => Some a | _ => None end.

Definition final_state {A} (o : outcome A) : option State :=
  match o with Ok _ st => Some st | Throw _ st => Some st | _ => None end.

Definition thrown {A} (o : outcome A) : option exn :=
  match o with Throw e _ => Some e | _ => None end.

(** An initializer list of [double]s with integral values, and the cells of
    a [float] buffer with integral values. *)
Definition doubles (l : list Z) : list spec_float := map (of_Z kFloat64) l.
Definition floats (l : list Z) : list cell := map (fun n => Val (of_Z kFloat32 n)) l.

(** The shape and the cells of [t.grad()]. *)
Definition grad_of (t : Tensor) : M (Shape * option (list cell)) :=
  g ← Tensor_grad t;
  st ← get_state;
  mret (m_shape g, contents st g).

(** The node a tensor handle points to. *)
Definition node_of (st : State) (t : Tensor) : option TensorNode :=
  t ≫= (fun p => nodes st !! p).

(** [x = tensor({1,2,3}, {1,3}, true); y = tensor({7,...,12}, {2,3}, true);
    z = x * y; z.backward();] followed by the reads of [x.grad()] and
    [y.grad()].  With [zeroGrad], [x.zeroGrad(); y.zeroGrad();] comes before
    the backward pass. *)
Definition broadcast_mul_scenario (zeroGrad : bool) :
    M ((Shape * option (list cell)) * (Shape * option (list cell))) :=
  x ← tensor (doubles [1; 2; 3]) [1; 3] true kFloat32;
  y ← tensor (doubles [7; 8; 9; 10; 11; 12]) [2; 3] true kFloat32;
  z ← Tensor_binop Mul x y;
  (if zeroGrad then Tensor_zeroGrad x;; Tensor_zeroGrad y else mret tt);;
  Tensor_backward z (of_Z kFloat32 1);;
  gx ← grad_of x;
  gy ← grad_of y;
  mret (gx, gy).

(** The meta-data of the value and of the grad of the node of [t]. *)
Definition value_and_grad_meta (t : Tensor) :
    M ((Shape * DataType * Device) * (Shape * DataType * Device)) :=
  '(_, node) ← Tensor_node t;
  mret ((m_shape (m_value node), m_dType (m_value node), m_device (m_value node)),
        (m_shape (m_grad node), m_dType (m_grad node), m_device (m_grad node))).

(** [x = tensor({1,...,6}, {3,2}, true); z = x.transpose(0, 1);]. *)
Definition transpose_scenario : M Tensor :=
  x ← tensor (doubles [1; 2; 3; 4; 5; 6]) [3; 2] true kFloat32;
  Tensor_transpose x 0 1.

(** [x = tensor({1,2,3}, {1,3}); y = tensor({7,...,12}, {2,3}, false, dtype);
    z = x + y;]. *)
Definition broadcast_add_scenario (dtype : DataType) : M Tensor :=
  x ← tensor (doubles [1; 2; 3]) [1; 3] true kFloat32;
  y ← tensor (doubles [7; 8; 9; 10; 11; 12]) [2; 3] true dtype;
  Tensor_binop Add x y.


(** * The statements of the specification, as written *)

(** A tensor is a non-leaf when its node has a parent. *)
Definition non_leaf (node : TensorNode) : Prop := is_Some (m_a node).


(** The shapes right-aligned: the shorter one is completed with leading
    dimensions [1]. *)
Definition right_aligned (shape : Shape) (rank : nat) : Shape :=
  replicate (rank - length shape) 1 ++ shape.

(** "Comparing the two shapes right-aligned, each dimension pair is equal or
    one side is 1 (missing leading dimensions treated as 1)." *)
Definition pairwise_equal_or_one (shape1 shape2 : Shape) : Prop :=
  let rank := Nat.max (length shape1) (length shape2) in
  Forall2 (fun d1 d2 => d1 = d2 \/ d1 = 1 \/ d2 = 1)
    (right_aligned shape1 rank) (right_aligned shape2 rank).

(** The rule of [checkBroadcastTo] on a pair of dimensions. *)
Definition fits (dimSrc dimTgt : Z) : Prop := dimSrc = dimTgt \/ dimSrc = 1.

(** The one-sided rule: the source has no more dimensions than the target
    and, right-aligned, each source dimension is the target's or is 1. *)
Definition broadcastable_to (sourceShape targetShape : Shape) : Prop :=
  (length sourceShape <= length targetShape)%nat /\
  Forall2 fits (right_aligned sourceShape (length targetShape)) targetShape.

(** The state a program leaves when run from the empty state. *)
Definition state_after {A} (m : M A) : State :=
  match final_state (m empty_state) with Some st => st | None => empty_state end.

(** * Index arithmetic without wrap-around *)

(** The canonical strides of a shape: [stride[i]] is the product of the
    dimensions after [i]. *)
Fixpoint strides_of (shape : Shape) : Stride :=
  match shape with
  | [] => []
  | _ :: shape' => product shape' :: strides_of shape'
  end.

(** The multi-index of the flat index [i] in a tensor of the given shape. *)
Fixpoint digits (i : Z) (shape : Shape) : list Z :=
  match shape with
  | [] => []
  | _ :: shape' => i / product shape' :: digits (i mod product shape') shape'
  end.

(** The flat index of a multi-index. *)
Fixpoint flat (indices : list Z) (shape : Shape) : Z :=
  match indices, shape with
  | x :: indices', _ :: shape' => x * product shape' + flat indices' shape'
  | _, _ => 0
  end.

(** A multi-index inside a shape. *)
Definition inside (indices : list Z) (shape : Shape) : Prop :=
  Forall2 (fun x d => 0 <= x < d) indices shape.

(** Where the element at flat index [i] goes when the axes [dim0] and [dim1]
    of a tensor of the given shape are exchanged. *)
Definition transposed_index (dim0 dim1 : Z) (shape : Shape) (i : Z) : Z :=
  flat (swap_at dim0 dim1 (digits i shape)) (swap_at dim0 dim1 shape).

(** A tensor value that satisfies the invariants of the data model in a
    state: its dimensions are not negative, its element count is the product
    of its shape and fits the [int] the constructors accumulate it in, its
    strides are the canonical ones, and its buffer is live and holds
    [m_size] elements. *)
Record wf_value (st : State) (t : TensorValue) : Prop := mk_wf_value {
  wf_dims : Forall (fun d => 0 <= d) (m_shape t);
  wf_size : m_size t = product (m_shape t);
  wf_small : product (m_shape t) < 2 ^ 31;
  wf_strides : m_strides t = computeStrides (m_shape t);
  wf_buffer : exists buf, mem st !! m_data t = Some (Some buf)
                          /\ length buf = Z.to_nat (m_size t)
}.

(** The state with the buffer at [p] replaced. *)
Definition write_buf (st : State) (p : nat) (buf : list cell) : State :=
  mkState (<[p := Some buf]> (mem st)) (nodes st).

(** A store that holds one buffer, the cells [1, ..., 6] of a [float]
    array, and the 2 x 3 value laid over it. *)
Definition matrix_2x3_state : State :=
  mkState [Some (floats [1; 2; 3; 4; 5; 6])] [].

Definition matrix_2x3 : TensorValue :=
  mkTensorValue kFloat32 0 6 [2; 3] [3; 1] defaultDevice.

(** [float data[] = {1, 2}; TensorValue t(data, 2, kFloat32, {2}, device,
    kFloat32); t.reshape(newShape);]: the result and the contents of its
    buffer. *)
Definition reshape_scenario (newShape : Shape) : M (TensorValue * TensorValue * option (list cell)) :=
  p ← host_array (floats [1; 2]);
  t ← TensorValue_of_data p 2 kFloat32 [2] defaultDevice kFloat32;
  r ← TensorValue_reshape t newShape;
  st ← get_state;
  mret (t, r, contents st r).

(** The broadcast shape of a source and a target, both given from the last
    dimension to the first: the larger dimension of each pair, a missing
    source dimension counting as [1]. *)
Fixpoint broadcast_dims (rsrc rtgt : list Z) : list Z :=
  match rtgt with
  | [] => []
  | dimTgt :: rtgt' => Z.max (hd 1 rsrc) dimTgt :: broadcast_dims (tl rsrc) rtgt'
  end.

Definition broadcast_shape (sourceShape targetShape : Shape) : Shape :=
  rev (broadcast_dims (rev sourceShape) (rev targetShape)).

(** The source index [Device::translationIndex] computes, [0] where it
    computes none. *)
Definition translated (shape newShape : Shape) (index : Z) : Z :=
  default 0 (translationIndex index shape newShape).

(** [float data[] = {1, ..., 6}; TensorValue t(data, 6, kFloat32, {2, 3},
    device, kFloat32); t.broadcastTo(newShape);]. *)
Definition broadcastTo_scenario (newShape : Shape) : M TensorValue :=
  p ← host_array (floats [1; 2; 3; 4; 5; 6]);
  t ← TensorValue_of_data p 6 kFloat32 [2; 3] defaultDevice kFloat32;
  TensorValue_broadcastTo t newShape.

(** [st'] has the nodes and the buffers of [st], and may have more buffers. *)
Definition extends (st st' : State) : Prop :=
  nodes st' = nodes st /\ exists more, mem st' = mem st ++ more.


(** The same program up to the call of [backward]: the handles of [x] and
    [z]. *)
Definition transposed_leaf (data : list Z) (shape : Shape) : M (Tensor * Tensor) :=
  x ← tensor (doubles data) shape true kFloat32;
  z ← Tensor_transpose x 0 1;
  Tensor_zeroGrad x;;
  mret (x, z).

(** [try { ... } catch (const std::exception & e)]: the exception caught, if
    any. *)
Definition try_catch {A} (m : M A) : M (option exn) := fun st =>
  match m st with
  | Ok _ st' => Ok None st'
  | Throw e st' => Ok (Some e) st'
  | Undefined u => Undefined u
  | OutOfFuel => OutOfFuel
  end.

(** [x = tensor({1,...,6}, {2,3}, true); y = tensor({1,...,12}, {3,4}, true);
    z = matmul(x, y); x.zeroGrad(); y.zeroGrad(); z.backward(1, gradShape);]
    with the exception of [backward] caught, followed by the reads of
    [x.grad()] and [y.grad()]. *)
Definition matmul_backward_scenario (gradShape : Shape) :
    M (option exn * (Shape * option (list cell)) * (Shape * option (list cell))) :=
  x ← tensor (doubles [1; 2; 3; 4; 5; 6]) [2; 3] true kFloat32;
  y ← tensor (doubles [1; 2; 3; 4; 5; 6; 7; 8; 9; 10; 11; 12]) [3; 4] true kFloat32;
  z ← Tensor_matmul x y;
  Tensor_zeroGrad x;;
  Tensor_zeroGrad y;;
  e ← try_catch (Tensor_backward_shape z (of_Z kFloat32 1) gradShape);
  gx ← grad_of x;
  gy ← grad_of y;
  mret (e, gx, gy).

Definition zeros_state : State := state_after (zeros [2; 3] true).

(** The state after [transposed_leaf] on a 3 x 2 tensor. *)
Definition transposed_state : State :=
  state_after (transposed_leaf [1; 2; 3; 4; 5; 6] [3; 2]).

(** * Further specifications *)

(** The broadcast shape of two shapes given from the last dimension to the
    first: the larger dimension of each pair, a missing dimension counting
    as [1]. *)
Fixpoint broadcast_max (r1 r2 : list Z) : list Z :=
  match r1 with
  | [] => map (Z.max 1) r2
  | dim1 :: r1' =>
      match r2 with
      | [] => Z.max dim1 1 :: broadcast_max r1' []
      | dim2 :: r2' => Z.max dim1 dim2 :: broadcast_max r1' r2'
      end
  end.

(** The scalar operation the kernel of a binary operator applies to each
    pair of elements. *)
Definition cell_binop (op : binop) (T : DataType) : cell -> cell -> cell :=
  match op with
  | Add => cell_add T
  | Sub => cell_sub T
  | Mul => cell_mul T
  | Div => cell_div T
  end.

(** A buffer of [n] cells that hold [+0]. *)
Definition zero_cells (n : Z) : list cell := replicate (Z.to_nat n) (Val (S754_zero false)).

(** The store after one parameter update of [SGD::step]: the value [w] of
    the node becomes [w - g * lr], element by element in the data type of
    the node, and the product [g * lr] stays in a buffer of its own. *)
Definition sgd_update (lr : spec_float) (st : State) (param : nat) : State :=
  match nodes st !! param with
  | Some node =>
      if m_requireGrad node then
        match contents st (m_value node), contents st (m_grad node) with
        | Some w, Some g =>
            let T := m_dType (m_value node) in
            let scaled := (fun c => cell_mul T c (Val (cast T lr))) <$> g in
            mkState (<[m_data (m_value node) := Some (zip_with (cell_sub T) w scaled)]> (mem st)
                     ++ [Some scaled])
                    (nodes st)
        | _, _ => st
        end
      else st
  | None => st
  end.

(** The parameters of an optimizer are live nodes whose value and grad
    satisfy the invariants of the data model and agree in shape and data
    type. *)
Definition wf_param (st : State) (param : nat) : Prop :=
  exists node,
    nodes st !! param = Some node
    /\ wf_value st (m_value node) /\ wf_value st (m_grad node)
    /\ m_shape (m_grad node) = m_shape (m_value node)
    /\ m_dType (m_grad node) = m_dType (m_value node).

(** [w = tensor({1, ..., 6}, {2, 3}, true); w.zeroGrad();
    w.backward(2, {2, 3});]: a parameter whose grad is 2 everywhere. *)
Definition sgd_scenario : M unit :=
  w ← tensor (doubles [1; 2; 3; 4; 5; 6]) [2; 3] true kFloat32;
  Tensor_zeroGrad w;;
  Tensor_backward_shape w (of_Z kFloat32 2) [2; 3].

Definition sgd_state : State := state_after sgd_scenario.

(** The element of the seed that reaches the parent of a node when
    [backward(value)] is called on the node: the value itself through a
    [sum], minus the value through a negation, and the value divided by the
    element count of the parent through a [mean]. *)
Definition parent_seed (f : BackwardFunc) (T : DataType) (value : spec_float)
    (size : Z) : option cell :=
  match f with
  | sumBackwardFunc => Some (Val (cast T value))
  | unaryBackwardFunc => Some (cell_neg (Val (cast T value)))
  | meanBackwardFunc =>
      Some (cell_div T (Val (cast T value)) (Val (cast T (of_Z kFloat32 size))))
  | _ => None
  end.

(** [x = tensor({1, ..., 6}, {2, 3}, true); x.zeroGrad(); z = x.mean();]:
    the state in which [z.backward()] is called. *)
Definition mean_scenario : M Tensor :=
  x ← tensor (doubles [1; 2; 3; 4; 5; 6]) [2; 3] true kFloat32;
  Tensor_zeroGrad x;;
  Tensor_mean x.

Definition mean_state : State := state_after mean_scenario.

(** The element in row [i] and column [j] of the product of the row-major
    matrices [A] ([_ x inner]) and [B] ([inner x n]): the products
    [A[i][k] * B[k][j]] added to [0] for [k] from [0] upwards, in the data
    type [T]. *)
Definition matmul_cell (T : DataType) (A B : list cell) (inner n i j : Z) : cell :=
  fold_left
    (fun acc (k : nat) =>
       cell_add T acc
         (cell_mul T (nth (Z.to_nat (i * inner + Z.of_nat k)) A Indet)
                     (nth (Z.to_nat (Z.of_nat k * n + j)) B Indet)))
    (seq 0 (Z.to_nat inner)) (Val (of_Z T 0)).

(** [br'] is [br] with the cells at the positions [lo <= k < hi] replaced by
    the values [v k]. *)
Definition filled_between (v : nat -> cell) (lo hi : Z) (br br' : list cell) : Prop :=
  length br' = length br
  /\ (forall k : nat, lo <= Z.of_nat k < hi -> br' !! k = Some (v k))
  /\ (forall k : nat, ~ lo <= Z.of_nat k < hi -> br' !! k = br !! k).

(** The store holds the operands [A] at [a1] and [B] at [a2], and the
    buffer [br] of [L] cells at [result]. *)
Definition holds_operands (a1 a2 result : nat) (A B : list cell) (L : nat)
    (br : list cell) (st : State) : Prop :=
  mem st !! a1 = Some (Some A) /\ mem st !! a2 = Some (Some B)
  /\ mem st !! result = Some (Some br) /\ length br = L.

(** The buffer of [matrix_2x3] seen as a 3 x 2 matrix. *)
Definition matrix_3x2 : TensorValue :=
  mkTensorValue kFloat32 0 6 [3; 2] [2; 1] defaultDevice.


(** [a = tensor({1,...,6}, {2,3}, true); b = tensor({1,...,6}, {2,3}, true);
    z = (a + b).transpose(0, 1); a.zeroGrad(); b.zeroGrad();
    z.backward(1, gradShape);] with the exception of [backward] caught,
    followed by the read of [a.grad()].  The parent of [z] is the node of
    [a + b], not a leaf. *)
Definition sum_transpose_backward_scenario (gradShape : Shape) :
    M (option exn * (Shape * option (list cell))) :=
  a ← tensor (doubles [1; 2; 3; 4; 5; 6]) [2; 3] true kFloat32;
  b ← tensor (doubles [1; 2; 3; 4; 5; 6]) [2; 3] true kFloat32;
  x ← Tensor_binop Add a b;
  z ← Tensor_transpose x 0 1;
  Tensor_zeroGrad a;;
  Tensor_zeroGrad b;;
  e ← try_catch (Tensor_backward_shape z (of_Z kFloat32 1) gradShape);
  ga ← grad_of a;
  mret (e, ga).

(** * The Metal backend: kernel table, op dispatch and command batching

    [aixDeviceMetal.cpp].  The GPU work itself is not modelled: an op leaves
    a trace of the events that matter here (a kernel dispatched, a command
    buffer committed, a wait for a command buffer, a CPU kernel run by a
    fallback).  The class declaration and its constants are in a header that
    is not part of the sources; they are the fields of [Config]. *)

Module Metal.

(** Modelled from the spec: the enumeration [DataType] of the device layer
    (section 3, "Finite set: F64, F32, F16, BF16, I64, I32, I16, I8, U8"), in
    the order of the table of [DeviceMetal::toString]. *)
Inductive DataType : Set :=
| kFloat64 | kFloat32 | kFloat16 | kBFloat16
| kInt64 | kInt32 | kInt16 | kInt8 | kUInt8.

#[global] Instance DataType_eq_dec : EqDecision DataType.
Proof. solve_decision. Defined.

Definition dataTypeSize (d : DataType) : Z :=
  match d with
  | kFloat64 => 8 | kFloat32 => 4 | kFloat16 => 2 | kBFloat16 => 2
  | kInt64 => 8 | kInt32 => 4 | kInt16 => 2 | kInt8 => 1 | kUInt8 => 1
  end.

(** The kernels of the shader library, by the name the constructor asks for. *)
Inductive KernelName : Set :=
| add_ | sub_ | mul_ | div_ | unary_ | fillMin_
| sqrt_ | sin_ | cos_ | tanh_ | log_ | exp_ | pow_ | sum_ | max_
| matrixMulTiledBC_64_64_8_8_8_ | matrixMulTiled_32_32_
| matrixMulTiled_32_64_ | matrixMulTiled_32_128_
| transpose2D_ | transpose2DTiled_16_16_8_ | transpose2DTiled_32_32_8_
| transpose_ | contiguous_ | reduceTo_ | maxTo_ | sliceSet_
| tril_ | triu_ | indexSelect_ | indexAdd_.

Inductive KernelName2 : Set := copy_ | fill_.

Inductive Kernel : Set :=
| nullKernel
| kernel (name : KernelName) (dtype : DataType)
| kernel2 (name : KernelName2) (i j : DataType).

(** The pipeline tables the constructor fills:
    [m_compFuncPSO<Name>[i]], and [m_compFuncPSOCopyAA[i][j]],
    [m_compFuncPSOFill[i][j]]. *)
Definition m_compFuncPSO (name : KernelName) (iDType : DataType) : Kernel :=
  let isNull := bool_decide (iDType = kFloat64) in
  if isNull then nullKernel else kernel name iDType.

Definition m_compFuncPSO2 (name : KernelName2) (iDType jDType : DataType) : Kernel :=
  let isNull := bool_decide (iDType = kFloat64) || bool_decide (jDType = kFloat64) in
  if isNull then nullKernel else kernel2 name iDType jDType.

(** The CPU kernels of the base class a fallback runs. *)
Inductive CpuKernel : Set :=
| cpu_argmax | cpu_argmaxIndices | cpu_reduceTo | cpu_maxTo
| cpu_argmaxTo | cpu_argmaxIndicesTo | cpu_indexAdd.

Inductive Event : Set :=
| Dispatch (k : Kernel)
| Commit (cmdBuffer : nat)
| WaitUntilCompleted (cmdBuffer : nat)
| CpuFallback (k : CpuKernel).

(** The constants of the header and of the platform. *)
Record Config : Type := mkConfig {
  MAX_CMD_BATCH_SIZE : Z;
  MAX_THREADS_PER_THREADGROUP : Z;
  TOTAL_COMPONENT_COUNT : Z;
  ALLOCATION_BYTE_ALIGNMENT_SIZE : Z;
  vm_page_size : Z;
  maxWorkingSetSize : Z;
  defaultAlignSize : Z;
  maxTotalThreadsPerThreadgroup : Kernel -> Z
}.

(** Modelled from the spec: [align(size, alignment)] of the header (section
    4.2, "requests are aligned to page size ... otherwise to a fixed byte
    alignment"): the next multiple of [alignment]. *)
Definition align (size alignment : Z) : Z :=
  wrap (wrap (wrap (size + alignment - 1) / alignment) * alignment).

(** [struct DeviceTensorParams], the fields the methods read. *)
Record DeviceTensorParams : Type := mkParams {
  data : nat;
  dtype : DataType;
  shape : list Z;
  size : Z;
  strides : list Z
}.

(** The members of [DeviceMetal] the methods below use.  A buffer is
    identified with the address of its contents; the trace is kept newest
    event first. *)
Record DeviceMetal : Type := mkDeviceMetal {
  m_allocMap : list nat;
  m_tempBuffers : list nat;
  buffers : list Z;
  m_currentBatchSize : Z;
  m_maxBatchSize : Z;
  m_currentWorkingSetSize : Z;
  m_committedCmdBuffer : option nat;
  m_cmdBuffer : nat;
  trace : list Event
}.

(** Modelled from the spec: the state after the constructor.  The member
    initialisers are in the header; section 4.3 has "the previously committed
    buffer (if any)", so there is none at first, and the batch is empty. *)
Definition DeviceMetal_new : DeviceMetal :=
  mkDeviceMetal [] [] [] 0 0 0 None 0%nat [].

Inductive error : Set :=
| Float64NotSupported
| ResultMustHaveGPUMemory
| ScalarCannotBeDeviceAddress
| DifferentTypeOfMemoryToFree
| ArgmaxSupportsOnlyInt32Result
| MoreThan16Dimensions.

Inductive result (A : Type) : Type :=
| Done (a : A) (s : DeviceMetal)
| Raise (e : error) (s : DeviceMetal)
| Fault.

Arguments Done {A} a s.
Arguments Raise {A} e s.
Arguments Fault {A}.

Definition G (A : Type) : Type := DeviceMetal -> result A.

#[global] Instance G_ret : MRet G := fun A a s => Done a s.

#[global] Instance G_bind : MBind G := fun A B f m s =>
  match m s with
  | Done a s' => f a s'
  | Raise e s' => Raise e s'
  | Fault => Fault
  end.

Definition raise {A} (e : error) : G A := fun s => Raise e s.
Definition fault {A} : G A := fun _ => Fault.
Definition get : G DeviceMetal := fun s => Done s s.
Definition put (s : DeviceMetal) : G unit := fun _ => Done tt s.

Definition emit (e : Event) : G unit := fun s =>
  Done tt (mkDeviceMetal (m_allocMap s) (m_tempBuffers s) (buffers s) (m_currentBatchSize s)
             (m_maxBatchSize s) (m_currentWorkingSetSize s) (m_committedCmdBuffer s)
             (m_cmdBuffer s) (e :: trace s)).

Section Ops.

Variable cfg : Config.

(** [DeviceMetal::validateDataType]. *)
Definition validateDataType (d : DataType) : G unit :=
  if decide (d = kFloat64) then raise Float64NotSupported else mret tt.

(** Modelled from the spec: [isDeviceBuffer] of the header, membership of the
    address in [m_allocMap] ("keeps MTL Buffer pointers in a hashmap"). *)
Definition isDeviceBuffer (p : nat) : G bool := fun s =>
  Done (bool_decide (p ∈ m_allocMap s)) s.

(** [DeviceMetal::commit]. *)
Definition commit : G unit := fun s =>
  if m_currentBatchSize s =? 0 then Done tt s
  else
    let waited :=
      match m_committedCmdBuffer s with
      | Some c => WaitUntilCompleted c :: trace s
      | None => trace s
      end in
    Done tt (mkDeviceMetal
               (filter (fun p => p ∉ m_tempBuffers s) (m_allocMap s))
               []
               (buffers s)
               0
               (Z.max (m_currentBatchSize s) (m_maxBatchSize s))
               0
               (Some (m_cmdBuffer s))
               (S (m_cmdBuffer s))
               (Commit (m_cmdBuffer s) :: waited)).

(** [DeviceMetal::synchronize]. *)
Definition synchronize : G unit :=
  commit;;
  s ← get;
  match m_committedCmdBuffer s with
  | Some c => emit (WaitUntilCompleted c)
  | None => fault
  end.

(** [DeviceMetal::commitBatchQueue]. *)
Definition commitBatchQueue : G unit :=
  s ← get;
  let n := wrap (m_currentBatchSize s + 1) in
  put (mkDeviceMetal (m_allocMap s) (m_tempBuffers s) (buffers s) n
         (m_maxBatchSize s) (m_currentWorkingSetSize s) (m_committedCmdBuffer s)
         (m_cmdBuffer s) (trace s));;
  if MAX_CMD_BATCH_SIZE cfg <=? n then commit else mret tt.

(** [DeviceMetal::newBuffer].  The buffer cache and the allocator are not
    modelled: the buffer is always a new one. *)
Definition newBuffer (size : Z) : G nat :=
  let asize :=
    if size <? vm_page_size cfg then align size (ALLOCATION_BYTE_ALIGNMENT_SIZE cfg)
    else align size (vm_page_size cfg) in
  s ← get;
  let ws := wrap (m_currentWorkingSetSize s + asize) in
  put (mkDeviceMetal (m_allocMap s) (m_tempBuffers s) (buffers s) (m_currentBatchSize s)
         (m_maxBatchSize s) ws (m_committedCmdBuffer s) (m_cmdBuffer s) (trace s));;
  (if maxWorkingSetSize cfg <=? wrap (ws * 2) then commit else mret tt);;
  s ← get;
  put (mkDeviceMetal (m_allocMap s) (m_tempBuffers s) (buffers s ++ [asize]) (m_currentBatchSize s)
         (m_maxBatchSize s) (m_currentWorkingSetSize s) (m_committedCmdBuffer s)
         (m_cmdBuffer s) (trace s));;
  mret (length (buffers s)).

(** [buffer->allocatedSize()]. *)
Definition allocatedSize (b : nat) : G Z := fun s =>
  match buffers s !! b with
  | Some n => Done n s
  | None => Fault
  end.

(** [DeviceMetal::allocate(size_t)]. *)
Definition allocate (size : Z) : G nat :=
  mtlBuf ← newBuffer size;
  s ← get;
  put (mkDeviceMetal (mtlBuf :: m_allocMap s) (m_tempBuffers s) (buffers s) (m_currentBatchSize s)
         (m_maxBatchSize s) (m_currentWorkingSetSize s) (m_committedCmdBuffer s)
         (m_cmdBuffer s) (trace s));;
  mret mtlBuf.

(** [DeviceMetal::allocate(size_t, DataType)]. *)
Definition allocate_dtype (size : Z) (d : DataType) : G nat :=
  allocate (wrap (align size (TOTAL_COMPONENT_COUNT cfg) * dataTypeSize d)).

Definition push_tempBuffer (b : nat) : G unit := fun s =>
  Done tt (mkDeviceMetal (m_allocMap s) (m_tempBuffers s ++ [b]) (buffers s) (m_currentBatchSize s)
             (m_maxBatchSize s) (m_currentWorkingSetSize s) (m_committedCmdBuffer s)
             (m_cmdBuffer s) (trace s)).

(** [DeviceMetal::deallocate]. *)
Definition deallocate (memory : nat) : G unit :=
  dev ← isDeviceBuffer memory;
  if (dev : bool) then push_tempBuffer memory else raise DifferentTypeOfMemoryToFree.

(** [DeviceMetal::getReadOnlyMTLBuffer]. *)
Definition getReadOnlyMTLBuffer (address : nat) (size sizeofType alignSize : Z) : G nat :=
  dev ← isDeviceBuffer address;
  if (dev : bool) then mret address
  else newBuffer (wrap (align size alignSize * sizeofType)).

(** [DeviceMetal::freeTemporaryBuffer]; [None] is a null buffer. *)
Definition freeTemporaryBuffer (buffer : option nat) : G unit :=
  match buffer with
  | None => mret tt
  | Some b =>
      dev ← isDeviceBuffer b;
      if (dev : bool) then mret tt else push_tempBuffer b
  end.

(** The encoder calls that end in [dispatchThreads] or
    [dispatchThreadgroups] for the pipeline [k]. *)
Definition dispatch (k : Kernel) : G unit := emit (Dispatch k).

Definition requireDeviceBuffer (p : nat) : G unit :=
  dev ← isDeviceBuffer p;
  if (dev : bool) then mret tt else raise ResultMustHaveGPUMemory.

(** [getReadOnlyMTLBuffer(a.data, a.size, dataTypeSize(a.dtype))], with the
    default alignment of the header. *)
Definition readOnly (a : DeviceTensorParams) : G nat :=
  getReadOnlyMTLBuffer (data a) (size a) (dataTypeSize (dtype a)) (defaultAlignSize cfg).

(** [getReadOnlyMTLBuffer(v.data(), v.size(), sizeof(size_t))] for a
    [std::vector] [v] of the host: its storage is never a device buffer, so
    the first branch of [getReadOnlyMTLBuffer] is taken. *)
Definition readOnlyVector (n : Z) : G nat :=
  newBuffer (wrap (align n (defaultAlignSize cfg) * 8)).

(** [n != 0 ? getReadOnlyMTLBuffer(v.data(), n, sizeof(size_t)) : nullptr]. *)
Definition readOnlyVector_opt (n : Z) : G (option nat) :=
  if n =? 0 then mret None else b ← readOnlyVector n; mret (Some b).

(** [DeviceMetal::executeDoubleArrayCmd]. *)
Definition executeDoubleArrayCmd (a res : DeviceTensorParams) (compFuncPSO : Kernel) : G unit :=
  validateDataType (dtype res);;
  requireDeviceBuffer (data res);;
  buf ← readOnly a;
  dispatch compFuncPSO;;
  freeTemporaryBuffer (Some buf);;
  commitBatchQueue.

(** [DeviceMetal::executeTripleArrayCmd]. *)
Definition executeTripleArrayCmd (a1 a2 res : DeviceTensorParams) (compFuncPSO : Kernel) : G unit :=
  validateDataType (dtype res);;
  requireDeviceBuffer (data res);;
  buf1 ← readOnly a1;
  buf2 ← readOnly a2;
  dispatch compFuncPSO;;
  freeTemporaryBuffer (Some buf1);;
  freeTemporaryBuffer (Some buf2);;
  commitBatchQueue.

(** [DeviceMetal::copy]. *)
Definition copy (src : nat) (srcDType : DataType) (dst : nat) (dstDType : DataType) (n : Z) : G unit :=
  validateDataType srcDType;;
  validateDataType dstDType;;
  requireDeviceBuffer dst;;
  buf1 ← getReadOnlyMTLBuffer src n (dataTypeSize srcDType) (defaultAlignSize cfg);
  dispatch (m_compFuncPSO2 copy_ srcDType dstDType);;
  freeTemporaryBuffer (Some buf1);;
  commitBatchQueue.

(** [DeviceMetal::copyImmediate]. *)
Definition copyImmediate (src : nat) (srcDType : DataType) (dst : nat) (dstDType : DataType) (n : Z) : G unit :=
  copy src srcDType dst dstDType n;;
  synchronize.

(** [DeviceMetal::fill]. *)
Definition fill (scalar : nat) (scalarDType : DataType) (res : DeviceTensorParams) : G unit :=
  validateDataType scalarDType;;
  validateDataType (dtype res);;
  requireDeviceBuffer (data res);;
  dev ← isDeviceBuffer scalar;
  if (dev : bool) then raise ScalarCannotBeDeviceAddress
  else
    bufScalar ← getReadOnlyMTLBuffer scalar 1 (dataTypeSize scalarDType) 1;
    dispatch (m_compFuncPSO2 fill_ scalarDType (dtype res));;
    freeTemporaryBuffer (Some bufScalar);;
    commitBatchQueue.

(** [DeviceMetal::fillMin]. *)
Definition fillMin (res : DeviceTensorParams) : G unit :=
  validateDataType (dtype res);;
  requireDeviceBuffer (data res);;
  dispatch (m_compFuncPSO fillMin_ (dtype res));;
  commitBatchQueue.

(** The loop of the parallel reductions:
    [while (length > 0) { dispatch; commitBatchQueue(); length = (length - 1) / maxThreadsPerTG; }].
    [length] decreases at each turn, so [fuel = length] turns are enough. *)
Fixpoint reduction_loop (fuel : nat) (length : Z) (compFuncPSO : Kernel) (maxThreadsPerTG : Z) : G unit :=
  match fuel with
  | O => mret tt
  | S fuel' =>
      if 0 <? length then
        dispatch compFuncPSO;;
        commitBatchQueue;;
        if maxThreadsPerTG =? 0 then fault
        else reduction_loop fuel' ((length - 1) / maxThreadsPerTG) compFuncPSO maxThreadsPerTG
      else mret tt
  end.

Definition reduction (a : DeviceTensorParams) (compFuncPSO : Kernel) : G unit :=
  let maxThreadsPerTG :=
    Z.min (MAX_THREADS_PER_THREADGROUP cfg) (maxTotalThreadsPerThreadgroup cfg compFuncPSO) in
  let length := wrap (size a - 1) in
  reduction_loop (Z.to_nat length) length compFuncPSO maxThreadsPerTG.

(** [DeviceMetal::sum]. *)
Definition sum (a res : DeviceTensorParams) : G unit :=
  let compFuncPSO := m_compFuncPSO sum_ (dtype res) in
  requireDeviceBuffer (data res);;
  buf1 ← readOnly a;
  n ← allocatedSize buf1;
  bufTemp ← allocate n;
  copy buf1 (dtype a) bufTemp (dtype res) (size a);;
  reduction a compFuncPSO;;
  copy bufTemp (dtype res) (data res) (dtype res) 1;;
  freeTemporaryBuffer (Some buf1);;
  deallocate bufTemp.

(** [DeviceMetal::max]. *)
Definition max (a res : DeviceTensorParams) : G unit :=
  let compFuncPSO := m_compFuncPSO max_ (dtype res) in
  requireDeviceBuffer (data res);;
  buf1 ← readOnly a;
  n ← allocatedSize buf1;
  bufTemp ← allocate n;
  copy buf1 (dtype a) bufTemp (dtype a) (size a);;
  reduction a compFuncPSO;;
  copy bufTemp (dtype a) (data res) (dtype res) 1;;
  freeTemporaryBuffer (Some buf1);;
  deallocate bufTemp.

(** [DeviceMetal::argmax]. *)
Definition argmax (a res : DeviceTensorParams) : G unit :=
  if decide (dtype res = kInt32) then synchronize;; emit (CpuFallback cpu_argmax)
  else raise ArgmaxSupportsOnlyInt32Result.

(** [DeviceMetal::argmaxIndices]. *)
Definition argmaxIndices (a res : DeviceTensorParams) : G unit :=
  if decide (dtype res = kInt32) then synchronize;; emit (CpuFallback cpu_argmaxIndices)
  else raise ArgmaxSupportsOnlyInt32Result.

Definition is_f32_f16_bf16 (d : DataType) : bool :=
  bool_decide (d = kFloat32) || bool_decide (d = kFloat16) || bool_decide (d = kBFloat16).

(** [a.shape[0]] and [a.shape[1]]. *)
Definition rows_cols (a : DeviceTensorParams) : G (Z * Z) :=
  match shape a !! 0%nat, shape a !! 1%nat with
  | Some r, Some c => mret (r, c)
  | _, _ => fault
  end.

(** [DeviceMetal::matmul]. *)
Definition matmul (a b res : DeviceTensorParams) : G unit :=
  validateDataType (dtype res);;
  let iDType := dtype res in
  requireDeviceBuffer (data res);;
  '(M, K) ← rows_cols a;
  '(K2, N) ← rows_cols b;
  buf1 ← getReadOnlyMTLBuffer (data a) (wrap (M * K)) (dataTypeSize (dtype a)) (defaultAlignSize cfg);
  buf2 ← getReadOnlyMTLBuffer (data b) (wrap (K2 * N)) (dataTypeSize (dtype b)) (defaultAlignSize cfg);
  let commonCondition := (K mod 32 =? 0) && (N mod 32 =? 0) && is_f32_f16_bf16 (dtype res) in
  (if (M mod 128 =? 0) && commonCondition then dispatch (m_compFuncPSO matrixMulTiled_32_128_ iDType)
   else if (M mod 64 =? 0) && commonCondition then dispatch (m_compFuncPSO matrixMulTiled_32_64_ iDType)
   else if (M mod 32 =? 0) && commonCondition then dispatch (m_compFuncPSO matrixMulTiled_32_32_ iDType)
   else dispatch (m_compFuncPSO matrixMulTiledBC_64_64_8_8_8_ iDType));;
  freeTemporaryBuffer (Some buf1);;
  freeTemporaryBuffer (Some buf2);;
  commitBatchQueue.

(** [DeviceMetal::transpose2D]. *)
Definition transpose2D (mat res : DeviceTensorParams) : G unit :=
  validateDataType (dtype res);;
  let iDType := dtype res in
  requireDeviceBuffer (data res);;
  '(M, N) ← rows_cols mat;
  buf1 ← getReadOnlyMTLBuffer (data mat) (wrap (M * N)) (dataTypeSize (dtype mat)) (defaultAlignSize cfg);
  (if (M mod 32 =? 0) && (N mod 32 =? 0) then dispatch (m_compFuncPSO transpose2DTiled_32_32_8_ iDType)
   else if (M mod 16 =? 0) && (N mod 16 =? 0) then dispatch (m_compFuncPSO transpose2DTiled_16_16_8_ iDType)
   else dispatch (m_compFuncPSO transpose2D_ iDType));;
  freeTemporaryBuffer (Some buf1);;
  commitBatchQueue.

(** [DeviceMetal::transpose]. *)
Definition transpose (a res : DeviceTensorParams) (dim0 dim1 : Z) : G unit :=
  let iDType := dtype res in
  if bool_decide (length (shape a) = 2%nat) && (dim0 =? 0) && (dim1 =? 1) then transpose2D a res
  else if (16 <? Z.of_nat (length (strides a))) then raise MoreThan16Dimensions
  else
    validateDataType (dtype res);;
    requireDeviceBuffer (data res);;
    bufData ← readOnly a;
    bufStrides ← readOnlyVector (Z.of_nat (length (strides a)));
    bufNewStrides ← readOnlyVector (Z.of_nat (length (strides res)));
    dispatch (m_compFuncPSO transpose_ iDType);;
    freeTemporaryBuffer (Some bufData);;
    freeTemporaryBuffer (Some (data res));;
    freeTemporaryBuffer (Some bufStrides);;
    freeTemporaryBuffer (Some bufNewStrides);;
    commitBatchQueue.

(** [DeviceMetal::contiguous]. *)
Definition contiguous (src dst : DeviceTensorParams) : G unit :=
  validateDataType (dtype src);;
  requireDeviceBuffer (data dst);;
  bufSrc ← readOnly src;
  bufShape ← readOnlyVector_opt (Z.of_nat (length (shape src)));
  bufStrides ← readOnlyVector_opt (Z.of_nat (length (strides src)));
  dispatch (m_compFuncPSO contiguous_ (dtype src));;
  freeTemporaryBuffer (Some bufSrc);;
  freeTemporaryBuffer bufShape;;
  freeTemporaryBuffer bufStrides;;
  commitBatchQueue.

(** [DeviceMetal::translation]. *)
Definition translation (src dst : nat) (n : Z) (shape newShape : list Z)
    (computePSO : Kernel) (d : DataType) : G unit :=
  validateDataType d;;
  requireDeviceBuffer dst;;
  if bool_decide (shape = []) && bool_decide (newShape = []) then copy src d dst d n
  else
    let srcBufSize := shape_size shape in
    bufSrc ← getReadOnlyMTLBuffer src srcBufSize (dataTypeSize d) (defaultAlignSize cfg);
    bufShape1 ← readOnlyVector_opt (Z.of_nat (length shape));
    bufShape2 ← readOnlyVector_opt (Z.of_nat (length newShape));
    dispatch computePSO;;
    freeTemporaryBuffer (Some bufSrc);;
    freeTemporaryBuffer bufShape1;;
    freeTemporaryBuffer bufShape2;;
    commitBatchQueue.

Definition is_f32_i32 (d : DataType) : bool :=
  bool_decide (d = kFloat32) || bool_decide (d = kInt32).

(** [DeviceMetal::reduceTo]. *)
Definition reduceTo (src dst : DeviceTensorParams) : G unit :=
  validateDataType (dtype src);;
  if is_f32_i32 (dtype src) then
    translation (data src) (data dst) (size src) (shape src) (shape dst)
      (m_compFuncPSO reduceTo_ (dtype src)) (dtype src)
  else synchronize;; emit (CpuFallback cpu_reduceTo).

(** [DeviceMetal::maxTo]. *)
Definition maxTo (src dst : DeviceTensorParams) : G unit :=
  validateDataType (dtype src);;
  if is_f32_i32 (dtype src) then
    translation (data src) (data dst) (size src) (shape src) (shape dst)
      (m_compFuncPSO maxTo_ (dtype src)) (dtype src)
  else synchronize;; emit (CpuFallback cpu_maxTo).

(** [DeviceMetal::argmaxTo]. *)
Definition argmaxTo (src dst : DeviceTensorParams) (dim : Z) : G unit :=
  validateDataType (dtype src);;
  synchronize;;
  emit (CpuFallback cpu_argmaxTo).

(** [DeviceMetal::argmaxIndicesTo]. *)
Definition argmaxIndicesTo (src dst : DeviceTensorParams) (dim : Z) : G unit :=
  validateDataType (dtype src);;
  synchronize;;
  emit (CpuFallback cpu_argmaxIndicesTo).

(** [DeviceMetal::sliceSet].  [newShape[dim] = ...] writes into a copy of
    [dst.shape]; the division is by [step]. *)
Definition sliceSet (src dst : DeviceTensorParams) (dim start end_ step : Z) : G unit :=
  validateDataType (dtype src);;
  requireDeviceBuffer (data dst);;
  if (Z.of_nat (length (shape dst)) <=? dim) || (step =? 0) then fault
  else
    bufSrc ← readOnly src;
    bufShape1 ← readOnlyVector_opt (Z.of_nat (length (shape dst)));
    bufShape2 ← readOnlyVector_opt (Z.of_nat (length (shape dst)));
    bufStrides ← readOnlyVector_opt (Z.of_nat (length (strides dst)));
    dispatch (m_compFuncPSO sliceSet_ (dtype src));;
    freeTemporaryBuffer (Some bufSrc);;
    freeTemporaryBuffer bufShape1;;
    freeTemporaryBuffer bufShape2;;
    freeTemporaryBuffer bufStrides;;
    commitBatchQueue.

(** [DeviceMetal::tril] and [DeviceMetal::triu]. *)
Definition tri (name : KernelName) (dst : DeviceTensorParams) : G unit :=
  validateDataType (dtype dst);;
  requireDeviceBuffer (data dst);;
  bufShape ← readOnlyVector_opt (Z.of_nat (length (shape dst)));
  bufStrides ← readOnlyVector_opt (Z.of_nat (length (strides dst)));
  dispatch (m_compFuncPSO name (dtype dst));;
  freeTemporaryBuffer bufShape;;
  freeTemporaryBuffer bufStrides;;
  commitBatchQueue.

Definition tril (dst : DeviceTensorParams) (diagonal : Z) : G unit := tri tril_ dst.
Definition triu (dst : DeviceTensorParams) (diagonal : Z) : G unit := tri triu_ dst.

(** [!v.empty() ? v[dim] * sliceSize : 0] reads [v[dim]]. *)
Definition read_dim (v : list Z) (dim : Z) : G unit :=
  match v with
  | [] => mret tt
  | _ => if Z.of_nat (length v) <=? dim then fault else mret tt
  end.

(** [DeviceMetal::indexSelect]. *)
Definition indexSelect (src dst indices : DeviceTensorParams) (dim : Z) : G unit :=
  validateDataType (dtype src);;
  requireDeviceBuffer (data dst);;
  read_dim (shape src) dim;;
  bufSrc ← readOnly src;
  bufIndices ← getReadOnlyMTLBuffer (data indices) (size indices) (dataTypeSize kInt32) (defaultAlignSize cfg);
  dispatch (m_compFuncPSO indexSelect_ (dtype src));;
  commitBatchQueue.

(** [DeviceMetal::indexAdd]. *)
Definition indexAdd (src dst indices : DeviceTensorParams) (dim : Z) : G unit :=
  validateDataType (dtype src);;
  if is_f32_i32 (dtype src) then
    requireDeviceBuffer (data dst);;
    read_dim (shape dst) dim;;
    bufSrc ← readOnly src;
    bufIndices ← getReadOnlyMTLBuffer (data indices) (size indices) (dataTypeSize kInt32) (defaultAlignSize cfg);
    dispatch (m_compFuncPSO indexAdd_ (dtype src));;
    commitBatchQueue
  else synchronize;; emit (CpuFallback cpu_indexAdd).

(** The element-wise methods: each passes its pipeline for [result.dtype]. *)
Inductive BinaryOp : Set := op_add | op_sub | op_mul | op_div | op_pow.
Inductive UnaryOp : Set := op_unary | op_sqrt | op_sin | op_cos | op_tanh | op_log | op_exp.

Definition binary_kernel (o : BinaryOp) : KernelName :=
  match o with op_add => add_ | op_sub => sub_ | op_mul => mul_ | op_div => div_ | op_pow => pow_ end.

Definition unary_kernel (o : UnaryOp) : KernelName :=
  match o with
  | op_unary => unary_ | op_sqrt => sqrt_ | op_sin => sin_ | op_cos => cos_
  | op_tanh => tanh_ | op_log => log_ | op_exp => exp_
  end.

(** [DeviceMetal::add], [sub], [mul], [div], [pow]. *)
Definition binary (o : BinaryOp) (a1 a2 res : DeviceTensorParams) : G unit :=
  executeTripleArrayCmd a1 a2 res (m_compFuncPSO (binary_kernel o) (dtype res)).

(** [DeviceMetal::unary], [sqrt], [sin], [cos], [tanh], [log], [exp]. *)
Definition unary (o : UnaryOp) (a res : DeviceTensorParams) : G unit :=
  executeDoubleArrayCmd a res (m_compFuncPSO (unary_kernel o) (dtype res)).

(** A call of a public method of [DeviceMetal]. *)
Inductive Call : Type :=
| call_allocate (size : Z)
| call_allocate_dtype (size : Z) (d : DataType)
| call_deallocate (memory : nat)
| call_binary (o : BinaryOp) (a1 a2 res : DeviceTensorParams)
| call_unary (o : UnaryOp) (a res : DeviceTensorParams)
| call_fill (scalar : nat) (scalarDType : DataType) (res : DeviceTensorParams)
| call_fillMin (res : DeviceTensorParams)
| call_sum (a res : DeviceTensorParams)
| call_max (a res : DeviceTensorParams)
| call_argmax (a res : DeviceTensorParams)
| call_argmaxIndices (a res : DeviceTensorParams)
| call_matmul (a b res : DeviceTensorParams)
| call_transpose (a res : DeviceTensorParams) (dim0 dim1 : Z)
| call_copy (src : nat) (srcDType : DataType) (dst : nat) (dstDType : DataType) (n : Z)
| call_copyImmediate (src : nat) (srcDType : DataType) (dst : nat) (dstDType : DataType) (n : Z)
| call_contiguous (src dst : DeviceTensorParams)
| call_reduceTo (src dst : DeviceTensorParams)
| call_maxTo (src dst : DeviceTensorParams)
| call_argmaxTo (src dst : DeviceTensorParams) (dim : Z)
| call_argmaxIndicesTo (src dst : DeviceTensorParams) (dim : Z)
| call_sliceSet (src dst : DeviceTensorParams) (dim start end_ step : Z)
| call_tril (dst : DeviceTensorParams) (diagonal : Z)
| call_triu (dst : DeviceTensorParams) (diagonal : Z)
| call_indexSelect (src dst indices : DeviceTensorParams) (dim : Z)
| call_indexAdd (src dst indices : DeviceTensorParams) (dim : Z)
| call_emptyCache
| call_commit
| call_synchronize.

Definition run (c : Call) : G unit :=
  match c with
  | call_allocate n => allocate n;; mret tt
  | call_allocate_dtype n d => allocate_dtype n d;; mret tt
  | call_deallocate p => deallocate p
  | call_binary o a1 a2 res => binary o a1 a2 res
  | call_unary o a res => unary o a res
  | call_fill scalar d res => fill scalar d res
  | call_fillMin res => fillMin res
  | call_sum a res => sum a res
  | call_max a res => max a res
  | call_argmax a res => argmax a res
  | call_argmaxIndices a res => argmaxIndices a res
  | call_matmul a b res => matmul a b res
  | call_transpose a res dim0 dim1 => transpose a res dim0 dim1
  | call_copy src sd dst dd n => copy src sd dst dd n
  | call_copyImmediate src sd dst dd n => copyImmediate src sd dst dd n
  | call_contiguous src dst => contiguous src dst
  | call_reduceTo src dst => reduceTo src dst
  | call_maxTo src dst => maxTo src dst
  | call_argmaxTo src dst dim => argmaxTo src dst dim
  | call_argmaxIndicesTo src dst dim => argmaxIndicesTo src dst dim
  | call_sliceSet src dst dim start end_ step => sliceSet src dst dim start end_ step
  | call_tril dst diagonal => tril dst diagonal
  | call_triu dst diagonal => triu dst diagonal
  | call_indexSelect src dst indices dim => indexSelect src dst indices dim
  | call_indexAdd src dst indices dim => indexAdd src dst indices dim
  | call_emptyCache => mret tt
  | call_commit => commit
  | call_synchronize => synchronize
  end.

End Ops.

(** The states the device can be in between two calls: the state after the
    constructor, and the state a call leaves, whether it returns or throws. *)
Inductive reachable (cfg : Config) : DeviceMetal -> Prop :=
| reachable_new : reachable cfg DeviceMetal_new
| reachable_return c s s' :
    reachable cfg s -> run cfg c s = Done tt s' -> reachable cfg s'
| reachable_throw c s e s' :
    reachable cfg s -> run cfg c s = Raise e s' -> reachable cfg s'.

(** The events since the last commit are those encoded in the command
    buffer under construction. *)
Fixpoint encoded (tr : list Event) : Z :=
  match tr with
  | [] => 0
  | Commit _ :: _ => 0
  | Dispatch _ :: tr' => 1 + encoded tr'
  | _ :: tr' => encoded tr'
  end.

(** The command buffers in flight after a trace: committed, and not yet
    waited for. *)
Fixpoint inflight (tr : list Event) : list nat :=
  match tr with
  | [] => []
  | Commit c :: tr' => c :: inflight tr'
  | WaitUntilCompleted c :: tr' => filter (fun c' => c' ≠ c) (inflight tr')
  | _ :: tr' => inflight tr'
  end.

(** At every point of the trace at most one command buffer is in flight. *)
Fixpoint at_most_one_inflight (tr : list Event) : Prop :=
  match tr with
  | [] => True
  | _ :: tr' => (length (inflight tr) <= 1)%nat /\ at_most_one_inflight tr'
  end.

Fixpoint last_commit (tr : list Event) : option nat :=
  match tr with
  | [] => None
  | Commit c :: _ => Some c
  | _ :: tr' => last_commit tr'
  end.

(** Every commit is directly preceded by a wait for the command buffer of
    the commit before it, when there is one. *)
Fixpoint commits_wait_first (tr : list Event) : Prop :=
  match tr with
  | [] => True
  | Commit c :: tr' =>
      match last_commit tr' with
      | None => True
      | Some c' => exists tr'', tr' = WaitUntilCompleted c' :: tr''
      end /\ commits_wait_first tr'
  | _ :: tr' => commits_wait_first tr'
  end.

Definition is_dispatch (e : Event) : bool :=
  match e with Dispatch _ => true | _ => false end.

(** [s'] is [s] after events none of which is a dispatch. *)
Definition quiet (s s' : DeviceMetal) : Prop :=
  exists evs, trace s' = evs ++ trace s /\ Forall (fun e => is_dispatch e = false) evs.

(** A pipeline that is the stub or a kernel compiled for dtypes other than
    [kFloat64]. *)
Definition kernel_dtype_ok (k : Kernel) : Prop :=
  match k with
  | nullKernel => True
  | kernel _ d => d <> kFloat64
  | kernel2 _ i j => i <> kFloat64 /\ j <> kFloat64
  end.

Definition event_ok (e : Event) : Prop :=
  match e with Dispatch k => kernel_dtype_ok k | _ => True end.

(** Every address of [m_allocMap] is a buffer. *)
Definition allocMap_valid (s : DeviceMetal) : Prop :=
  forall b, b ∈ m_allocMap s -> is_Some (buffers s !! b).

(** The invariant of the device.  Between the dispatch of an op and its call
    of [commitBatchQueue] one dispatch is [pending]: encoded, and not yet
    counted. *)
Record Inv (cfg : Config) (pending : Z) (s : DeviceMetal) : Prop := mkInv {
  inv_encoded : encoded (trace s) = m_currentBatchSize s + pending;
  inv_counter : 0 <= m_currentBatchSize s < MAX_CMD_BATCH_SIZE cfg;
  inv_inflight : at_most_one_inflight (trace s);
  inv_waits : commits_wait_first (trace s);
  inv_last : last_commit (trace s) = m_committedCmdBuffer s;
  inv_committed : forall c, c ∈ inflight (trace s) -> m_committedCmdBuffer s = Some c;
  inv_kernels : Forall event_ok (trace s);
  inv_allocMap : allocMap_valid s
}.

(** [m], started in a state of [P], does not return outside [Q] and does
    not throw outside the invariant. *)
Definition hoare (cfg : Config) (P : DeviceMetal -> Prop) {A} (m : G A)
    (Q : A -> DeviceMetal -> Prop) : Prop :=
  forall s, P s ->
    match m s with
    | Done a s' => Q a s'
    | Raise _ s' => Inv cfg 0 s'
    | Fault => True
    end.

(** The dtypes of the tensors and scalars a call is given. *)
Definition operand_dtypes (c : Call) : list DataType :=
  match c with
  | call_binary _ a1 a2 res => [dtype a1; dtype a2; dtype res]
  | call_unary _ a res | call_sum a res | call_max a res
  | call_argmax a res | call_argmaxIndices a res
  | call_transpose a res _ _ => [dtype a; dtype res]
  | call_fill _ scalarDType res => [scalarDType; dtype res]
  | call_fillMin res => [dtype res]
  | call_matmul a b res => [dtype a; dtype b; dtype res]
  | call_copy _ sd _ dd _ | call_copyImmediate _ sd _ dd _ => [sd; dd]
  | call_contiguous src dst | call_reduceTo src dst | call_maxTo src dst
  | call_argmaxTo src dst _ | call_argmaxIndicesTo src dst _
  | call_sliceSet src dst _ _ _ _ => [dtype src; dtype dst]
  | call_tril dst _ | call_triu dst _ => [dtype dst]
  | call_indexSelect src dst indices _ | call_indexAdd src dst indices _ =>
      [dtype src; dtype dst; dtype indices]
  | call_allocate_dtype _ d => [d]
  | _ => []
  end.

(** The dtypes a call passes to [validateDataType] before its first
    dispatch. *)
Definition validated (c : Call) : list DataType :=
  match c with
  | call_binary _ _ _ res | call_unary _ _ res | call_fillMin res
  | call_matmul _ _ res | call_transpose _ res _ _ => [dtype res]
  | call_tril dst _ | call_triu dst _ => [dtype dst]
  | call_fill _ scalarDType res => [scalarDType; dtype res]
  | call_sum a res => [dtype a; dtype res]
  | call_max a _ => [dtype a]
  | call_copy _ sd _ dd _ | call_copyImmediate _ sd _ dd _ => [sd; dd]
  | call_contiguous src _ | call_reduceTo src _ | call_maxTo src _
  | call_argmaxTo src _ _ | call_argmaxIndicesTo src _ _
  | call_sliceSet src _ _ _ _ _
  | call_indexSelect src _ _ _ | call_indexAdd src _ _ _ => [dtype src]
  | _ => []
  end.

(** "Every op invoked with an F64 operand either rejects the request with an
    error before dispatch or synchronizes pending work and falls back to the
    CPU implementation": such a call dispatches nothing. *)
Definition f64_operand_never_dispatches (cfg : Config) : Prop :=
  forall (c : Call) (s s' : DeviceMetal),
    reachable cfg s ->
    kFloat64 ∈ operand_dtypes c ->
    run cfg c s = Done tt s' ->
    quiet s s'.

(** Values for the constants of the header, for the examples. *)
Definition sample_config : Config :=
  mkConfig 1000 1024 4 256 16384 (2 ^ 33) 256 (fun _ => 1024).

(** The same with a batch of two dispatches. *)
Definition small_batch_config : Config :=
  mkConfig 2 1024 4 256 16384 (2 ^ 33) 256 (fun _ => 1024).

Definition params (p : nat) (d : DataType) (shape : list Z) (n : Z) : DeviceTensorParams :=
  mkParams p d shape n (computeStrides shape).

(** [r = allocate(4, kFloat32); add(a1, a2, r)] on a new device, for host
    arrays [a1] of [double] and [a2] of [float]. *)
Definition add_f64_scenario : list Call :=
  [call_allocate_dtype 4 kFloat32;
   call_binary op_add (params 7 kFloat64 [4] 4) (params 8 kFloat32 [4] 4) (params 0 kFloat32 [4] 4)].

(** [r = allocate(4, kFloat32); fillMin(r); fillMin(r); fillMin(r);
    synchronize()] on a new device. *)
Definition fillMin_scenario : list Call :=
  [call_allocate_dtype 4 kFloat32;
   call_fillMin (params 0 kFloat32 [4] 4);
   call_fillMin (params 0 kFloat32 [4] 4);
   call_fillMin (params 0 kFloat32 [4] 4);
   call_synchronize].

(** The state after a sequence of calls;  a call that does not return or
    throw leaves the state as it is. *)
Fixpoint run_all (cfg : Config) (cs : list Call) (s : DeviceMetal) : DeviceMetal :=
  match cs with
  | [] => s
  | c :: cs' =>
      match run cfg c s with
      | Done _ s' => run_all cfg cs' s'
      | Raise _ s' => run_all cfg cs' s'
      | Fault => s
      end
  end.

(** The states after the two scenarios. *)
Definition fillMin_state : DeviceMetal :=
  run_all small_batch_config fillMin_scenario DeviceMetal_new.

Definition allocated_state : DeviceMetal :=
  run_all sample_config [call_allocate_dtype 4 kFloat32] DeviceMetal_new.


(** The address a call checks with [isDeviceBuffer] before it dispatches:
    the result of the operation.  The fallbacks and the rejection of more
    than 16 dimensions come before the check. *)
Definition result_address (c : Call) : option nat :=
  match c with
  | call_binary _ _ _ res | call_unary _ _ res | call_fill _ _ res
  | call_fillMin res | call_sum _ res | call_max _ res | call_matmul _ _ res =>
      Some (data res)
  | call_transpose a res dim0 dim1 =>
      if bool_decide (length (shape a) = 2%nat) && (dim0 =? 0) && (dim1 =? 1)
      then Some (data res)
      else if 16 <? Z.of_nat (length (strides a)) then None else Some (data res)
  | call_copy _ _ dst _ _ | call_copyImmediate _ _ dst _ _ => Some dst
  | call_contiguous _ dst | call_sliceSet _ dst _ _ _ _
  | call_indexSelect _ dst _ _ => Some (data dst)
  | call_tril dst _ | call_triu dst _ => Some (data dst)
  | call_reduceTo src dst | call_maxTo src dst | call_indexAdd src dst _ _ =>
      if is_f32_i32 (dtype src) then Some (data dst) else None
  | _ => None
  end.

(** From [s] to [s'] exactly one kernel was dispatched, the pipeline [k]. *)
Definition dispatched_once (s s' : DeviceMetal) (k : Kernel) : Prop :=
  exists evs1 evs2,
    trace s' = evs1 ++ Dispatch k :: evs2 ++ trace s
    /\ Forall (fun e => is_dispatch e = false) evs1
    /\ Forall (fun e => is_dispatch e = false) evs2.

(** A device that has dispatched one [fillMin] and holds the buffer [0]. *)
Definition dispatched_state : DeviceMetal :=
  run_all sample_config
    [call_allocate_dtype 4 kFloat32; call_fillMin (params 0 kFloat32 [4] 4)]
    DeviceMetal_new.

End Metal.

(** * Properties of the autograd graph *)

(** ** Running the monad *)

Lemma bind_unfold {A B} (m : M A) (f : A -> M B) (st : State) :
  (m ≫= f) st =
    match m st with
    | Ok a st' => f a st'
    | Throw e st' => Throw e st'
    | Undefined u => Undefined u
    | OutOfFuel => OutOfFuel
    end.
Proof. reflexivity. Qed.

Lemma ret_unfold {A} (a : A) (st : State) : (mret a : M A) st = Ok a st.
Proof. reflexivity. Qed.

Lemma bind_Ok {A B} (m : M A) (f : A -> M B) (st st' : State) (a : A) :
  m st = Ok a st' -> (m ≫= f) st = f a st'.
Proof. intros H. rewrite bind_unfold, H. reflexivity. Qed.

Ltac unfold_M := unfold mbind, M_bind, mret, M_ret, throw, undefined, get_state in *.

(** ** Gradients of a broadcast product *)

(** C1: for [x = [1,2,3]] of shape [[1,3]] and [y = [[7,8,9],[10,11,12]]]
    of shape [[2,3]], both leaves with require_grad, [z = x * y] and
    [z.backward()] leave in [x.grad] and [y.grad] the sums of the
    contributions and of the cells the constructors of [TensorNode]
    allocated and never initialised: the grads have the shapes [[1,3]] and
    [[2,3]] and indeterminate elements, not [[17,19,21]] and
    [[1,2,3],[1,2,3]]. *)
Theorem broadcast_mul_grad_uninitialised :
  returned (broadcast_mul_scenario false empty_state)
    = Some (([1; 3], Some [Indet; Indet; Indet]),
            ([2; 3], Some [Indet; Indet; Indet; Indet; Indet; Indet]))
  /\ returned (broadcast_mul_scenario false empty_state)
    <> Some (([1; 3], Some (floats [17; 19; 21])),
             ([2; 3], Some (floats [1; 2; 3; 1; 2; 3]))).
Proof.
  assert (E : returned (broadcast_mul_scenario false empty_state)
    = Some (([1; 3], Some [Indet; Indet; Indet]),
            ([2; 3], Some [Indet; Indet; Indet; Indet; Indet; Indet])))
    by (vm_compute; reflexivity).
  split; [exact E|]. rewrite E. vm_compute. discriminate.
Qed.

(** The same program with the grads of the two leaves filled with zeros
    before the backward pass, as [retainGrad] and [zeroGrad] fill them:
    [x.grad = [17,19,21]] of shape [[1,3]] and [y.grad = [[1,2,3],[1,2,3]]]
    of shape [[2,3]].  The accumulation is right; the initial contents of
    the grads are what is missing. *)
Lemma broadcast_mul_grad_zeroed :
  returned (broadcast_mul_scenario true empty_state)
    = Some (([1; 3], Some (floats [17; 19; 21])),
            ([2; 3], Some (floats [1; 2; 3; 1; 2; 3]))).
Proof. vm_compute. reflexivity. Qed.

(** ** The grad of a node and its value *)

(** The two constructors of [TensorNode] give the grad the shape, the size,
    the strides, the dtype and the device of the value. *)
Lemma TensorNode_of_shape_grad_like_value shape device requireGrad dType st node st' :
  TensorNode_of_shape shape device requireGrad dType st = Ok node st' ->
  m_shape (m_grad node) = m_shape (m_value node)
  /\ m_dType (m_grad node) = m_dType (m_value node)
  /\ m_device (m_grad node) = m_device (m_value node).
Proof.
  unfold TensorNode_of_shape, TensorValue_uninit, TensorValue_raw, allocate, malloc.
  unfold_M. cbn. intros [= <- <-]. cbn. auto.
Qed.

(** C2: the node [Tensor::transpose] returns for a tensor of shape [[3,2]]
    has a value of shape [[2,3]] and a grad of shape [[3,2]]; the node
    [operator+] returns for operands of shapes [[1,3]] and [[2,3]] has a value
    of shape [[2,3]] and a grad of shape [[1,3]]; with a [Float32] and a
    [Float64] operand the value is [Float64] and the grad [Float32]. *)
Theorem grad_not_like_value :
  returned ((transpose_scenario ≫= value_and_grad_meta) empty_state)
    = Some (([2; 3], kFloat32, defaultDevice), ([3; 2], kFloat32, defaultDevice))
  /\ returned ((broadcast_add_scenario kFloat32 ≫= value_and_grad_meta) empty_state)
    = Some (([2; 3], kFloat32, defaultDevice), ([1; 3], kFloat32, defaultDevice))
  /\ returned ((broadcast_add_scenario kFloat64 ≫= value_and_grad_meta) empty_state)
    = Some (([2; 3], kFloat64, defaultDevice), ([1; 3], kFloat32, defaultDevice)).
Proof. repeat split; vm_compute; reflexivity. Qed.

(** ** Reading the grad *)





(** ** The default [backward()] *)

(** C10: on a tensor whose node has no parent, [backward()] with no seed
    shape dereferences the null [m_a]; so when the call does not dereference
    a null pointer, the node has a parent. *)
Theorem backward_on_leaf_null_dereference (st : State) (p : nat) (node : TensorNode)
    (value : spec_float) :
  nodes st !! p = Some node ->
  (m_a node = None ->
     Tensor_backward (Some p) value st = Undefined NullDereference)
  /\ (Tensor_backward (Some p) value st <> Undefined NullDereference ->
     non_leaf node).
Proof.
  intros Hp.
  assert (L : m_a node = None ->
              Tensor_backward (Some p) value st = Undefined NullDereference).
  { intros Ha. unfold Tensor_backward, Tensor_node, deref, get_node. unfold_M.
    rewrite Hp, Ha. reflexivity. }
  split; [exact L|].
  intros Hne. unfold non_leaf. destruct (m_a node) eqn:Ha; [eexists; reflexivity|].
  exfalso. apply Hne, L. reflexivity.
Qed.

(** [zeros({2,3}, true).backward()]. *)
Lemma backward_on_leaf_null_dereference_witness :
  Tensor_backward (Some 0%nat) (of_Z kFloat32 1) zeros_state = Undefined NullDereference.
Proof.
  refine (proj1 (backward_on_leaf_null_dereference zeros_state 0%nat _ _ _) _).
  - vm_compute. reflexivity.
  - vm_compute. reflexivity.
Defined.

(** * Index arithmetic *)

(** ** Machine integers *)

Lemma wrap_small z : 0 <= z < 2 ^ 64 -> wrap z = z.
Proof. intros H. unfold wrap. apply Z.mod_small. exact H. Qed.

Lemma wrap_range z : 0 <= wrap z < 2 ^ 64.
Proof. unfold wrap. apply Z.mod_pos_bound. lia. Qed.

Lemma to_int_small z : - 2 ^ 31 <= z < 2 ^ 31 -> to_int z = z.
Proof. intros H. unfold to_int. rewrite Z.mod_small; lia. Qed.

Lemma to_int_congr a b k : a = b + k * 2 ^ 32 -> to_int a = to_int b.
Proof.
  intros ->. unfold to_int.
  replace (b + k * 2 ^ 32 + 2 ^ 31) with (b + 2 ^ 31 + k * 2 ^ 32) by lia.
  rewrite Z.mod_add by lia. reflexivity.
Qed.

Lemma to_int_of_int_mul acc d :
  to_int (wrap (of_int acc * d)) = to_int (acc * d).
Proof.
  unfold wrap, of_int.
  apply (to_int_congr _ _ (- (2 ^ 32 * (acc / 2 ^ 64) * d)
                           - 2 ^ 32 * ((acc mod 2 ^ 64 * d) / 2 ^ 64))).
  rewrite (Z.mod_eq (_ * d)) by lia.
  rewrite (Z.mod_eq acc) by lia.
  replace (2 ^ 64) with (2 ^ 32 * 2 ^ 32) by reflexivity. ring.
Qed.

Lemma to_int_mul_l x d : to_int (to_int x * d) = to_int (x * d).
Proof.
  unfold to_int at 2.
  apply (to_int_congr _ _ (- ((x + 2 ^ 31) / 2 ^ 32) * d)).
  rewrite (Z.mod_eq (x + 2 ^ 31)) by lia. ring.
Qed.

Lemma product_nil : product [] = 1.
Proof. reflexivity. Qed.

Lemma product_cons d shape : product (d :: shape) = d * product shape.
Proof. reflexivity. Qed.

#[local] Arguments product : simpl never.

Ltac simp := simpl in *; rewrite ?product_cons, ?product_nil in *.

(** The accumulator of [std::accumulate] is the product, converted to [int]. *)
Lemma accumulate_mul_from shape acc :
  fold_left (fun acc d => to_int (wrap (of_int acc * d))) shape (to_int acc)
  = to_int (acc * product shape).
Proof.
  revert acc. induction shape as [|d shape IH]; intros acc; simp.
  - f_equal. lia.
  - rewrite to_int_of_int_mul, to_int_mul_l, IH. f_equal. ring.
Qed.

Lemma accumulate_mul_product shape : accumulate_mul shape = to_int (product shape).
Proof.
  unfold accumulate_mul. change 1 with (to_int 1) at 1.
  rewrite accumulate_mul_from. f_equal. lia.
Qed.

Lemma shape_size_product shape :
  0 <= product shape < 2 ^ 31 -> shape_size shape = product shape.
Proof.
  intros H. unfold shape_size, of_int.
  rewrite accumulate_mul_product, to_int_small by lia.
  apply Z.mod_small. lia.
Qed.

(** ** Products *)

Lemma product_nonneg shape : Forall (fun d => 0 <= d) shape -> 0 <= product shape.
Proof. induction 1; simp; nia. Qed.

Lemma product_pos shape : Forall (fun d => 0 < d) shape -> 0 < product shape.
Proof. induction 1; simp; nia. Qed.

Lemma product_app l1 l2 : product (l1 ++ l2) = product l1 * product l2.
Proof. induction l1 as [|d l1 IH]; simp; [lia|]. rewrite IH. lia. Qed.

Lemma product_zero shape (k : nat) : shape !! k = Some 0 -> product shape = 0.
Proof.
  revert k. induction shape as [|d shape IH]; intros [|k] H; simp; try discriminate.
  - injection H as ->. lia.
  - rewrite (IH _ H). lia.
Qed.

Lemma product_insert shape (k : nat) x y :
  shape !! k = Some y -> product (<[k := x]> shape) * y = product shape * x.
Proof.
  revert k. induction shape as [|d shape IH]; intros [|k] H; simp; try discriminate.
  - injection H as ->. ring.
  - rewrite <- (Z.mul_assoc d _ y), (IH _ H). ring.
Qed.

(** A positive product has positive factors. *)
Lemma product_pos_dims shape :
  Forall (fun d => 0 <= d) shape -> 0 < product shape -> Forall (fun d => 0 < d) shape.
Proof.
  induction 1 as [|d shape Hd Hs IH]; simp; intros Hp; constructor.
  - pose proof (product_nonneg _ Hs). nia.
  - apply IH. pose proof (product_nonneg _ Hs). nia.
Qed.

(** ** Exchanging two positions *)

Lemma swap_at_length dim0 dim1 (v : list Z) : length (swap_at dim0 dim1 v) = length v.
Proof.
  unfold swap_at.
  destruct (v !! Z.to_nat dim0), (v !! Z.to_nat dim1); rewrite ?length_insert; reflexivity.
Qed.

Lemma swap_at_lookup dim0 dim1 (v : list Z) x0 x1 :
  v !! Z.to_nat dim0 = Some x0 -> v !! Z.to_nat dim1 = Some x1 ->
  swap_at dim0 dim1 v = <[Z.to_nat dim1 := x0]> (<[Z.to_nat dim0 := x1]> v).
Proof. intros H0 H1. unfold swap_at. rewrite H0, H1. reflexivity. Qed.

Lemma swap_insert_involutive (i j : nat) (v : list Z) x0 x1 :
  v !! i = Some x0 -> v !! j = Some x1 ->
  <[j := x1]> (<[i := x0]> (<[j := x0]> (<[i := x1]> v))) = v.
Proof.
  intros E0 E1.
  destruct (decide (i = j)) as [->|ne].
  - assert (x0 = x1) by congruence. subst x1.
    rewrite !list_insert_insert_eq. apply list_insert_id. exact E1.
  - rewrite (list_insert_insert_ne _ i j) by congruence.
    rewrite !list_insert_insert_eq.
    rewrite (list_insert_id _ _ _ E0).
    apply list_insert_id. exact E1.
Qed.

Lemma swap_at_involutive dim0 dim1 (v : list Z) :
  (Z.to_nat dim0 < length v)%nat -> (Z.to_nat dim1 < length v)%nat ->
  swap_at dim0 dim1 (swap_at dim0 dim1 v) = v.
Proof.
  intros H0 H1.
  destruct (lookup_lt_is_Some_2 _ _ H0) as [x0 E0].
  destruct (lookup_lt_is_Some_2 _ _ H1) as [x1 E1].
  rewrite (swap_at_lookup _ _ v x0 x1 E0 E1).
  assert (E0' : <[Z.to_nat dim1 := x0]> (<[Z.to_nat dim0 := x1]> v) !! Z.to_nat dim0 = Some x1).
  { destruct (decide (Z.to_nat dim0 = Z.to_nat dim1)) as [e|ne].
    - rewrite e in *. rewrite list_lookup_insert_eq by (rewrite length_insert; exact H1).
      congruence.
    - rewrite list_lookup_insert_ne by congruence.
      apply list_lookup_insert_eq. exact H0. }
  assert (E1' : <[Z.to_nat dim1 := x0]> (<[Z.to_nat dim0 := x1]> v) !! Z.to_nat dim1 = Some x0).
  { apply list_lookup_insert_eq. rewrite length_insert. exact H1. }
  rewrite (swap_at_lookup _ _ _ x1 x0 E0' E1').
  apply swap_insert_involutive; assumption.
Qed.

Lemma swap_at_Forall2 {R : Z -> Z -> Prop} dim0 dim1 (v w : list Z) :
  Forall2 R v w -> Forall2 R (swap_at dim0 dim1 v) (swap_at dim0 dim1 w).
Proof.
  intros H. unfold swap_at.
  pose proof H as Hl. apply Forall2_length in Hl.
  destruct (v !! Z.to_nat dim0) as [x0|] eqn:Ev0.
  - pose proof Ev0 as Ew0.
    eapply Forall2_lookup_l in Ew0 as (y0 & Ew0 & R0); [|exact H]. rewrite Ew0.
    destruct (v !! Z.to_nat dim1) as [x1|] eqn:Ev1.
    + pose proof Ev1 as Ew1.
      eapply Forall2_lookup_l in Ew1 as (y1 & Ew1 & R1); [|exact H]. rewrite Ew1.
      apply Forall2_insert; [apply Forall2_insert|]; assumption.
    + apply lookup_ge_None in Ev1. rewrite Hl in Ev1.
      apply lookup_ge_None in Ev1. rewrite Ev1. exact H.
  - apply lookup_ge_None in Ev0. rewrite Hl in Ev0.
    apply lookup_ge_None in Ev0. rewrite Ev0. exact H.
Qed.

Lemma swap_at_Forall {P : Z -> Prop} dim0 dim1 (v : list Z) :
  Forall P v -> Forall P (swap_at dim0 dim1 v).
Proof.
  intros H. unfold swap_at.
  destruct (v !! Z.to_nat dim0) as [x0|] eqn:E0; [|exact H].
  destruct (v !! Z.to_nat dim1) as [x1|] eqn:E1; [|exact H].
  rewrite Forall_lookup in H.
  apply Forall_insert; [apply Forall_insert|]; eauto.
  rewrite Forall_lookup. exact H.
Qed.

Lemma swap_at_product dim0 dim1 (v : list Z) :
  product (swap_at dim0 dim1 v) = product v.
Proof.
  unfold swap_at.
  destruct (v !! Z.to_nat dim0) as [x0|] eqn:E0; [|reflexivity].
  destruct (v !! Z.to_nat dim1) as [x1|] eqn:E1; [|reflexivity].
  destruct (decide (Z.to_nat dim0 = Z.to_nat dim1)) as [e|ne].
  - rewrite e in *. assert (x0 = x1) by congruence. subst x1.
    rewrite list_insert_insert_eq, list_insert_id; auto.
  - pose proof (product_insert v _ x1 x0 E0) as P1.
    assert (E1' : <[Z.to_nat dim0 := x1]> v !! Z.to_nat dim1 = Some x1)
      by (rewrite list_lookup_insert_ne by congruence; exact E1).
    pose proof (product_insert _ _ x0 x1 E1') as P2.
    destruct (decide (x1 = 0)) as [->|nz].
    + rewrite (product_zero v _ E1).
      apply (product_zero _ (Z.to_nat dim0)).
      rewrite list_lookup_insert_ne by congruence.
      apply list_lookup_insert_eq. eapply lookup_lt_Some; eauto.
    + nia.
Qed.

(** ** Strides *)

Lemma strides_of_length shape : length (strides_of shape) = length shape.
Proof. induction shape; cbn; congruence. Qed.

Lemma strides_of_snoc shape d :
  strides_of (shape ++ [d]) = map (fun x => x * d) (strides_of shape) ++ [1].
Proof.
  induction shape as [|e shape IH]; simp; [reflexivity|].
  rewrite IH, product_app. simp. do 2 f_equal. lia.
Qed.

Lemma computeStrides_from_spec r s :
  Forall (fun d => 0 < d) r -> 0 <= s -> s * product r < 2 ^ 64 ->
  rev (computeStrides_from r s) = map (Z.mul s) (strides_of (rev r)).
Proof.
  intros Hr. revert s. induction Hr as [|d r Hd Hr IH]; intros s Hs Hb; simp; [reflexivity|].
  pose proof (product_pos _ Hr) as Hp.
  rewrite wrap_small by nia.
  rewrite IH by nia.
  rewrite strides_of_snoc, map_app, map_map. simp.
  f_equal; [|f_equal; lia].
  apply map_ext. intros x. lia.
Qed.

Lemma computeStrides_strides_of shape :
  Forall (fun d => 0 < d) shape -> product shape < 2 ^ 64 ->
  computeStrides shape = strides_of shape.
Proof.
  intros Hd Hp. unfold computeStrides.
  rewrite computeStrides_from_spec.
  - rewrite rev_involutive. rewrite <- (map_id (strides_of shape)) at 2.
    apply map_ext. intros x. lia.
  - apply Forall_rev. exact Hd.
  - lia.
  - replace (product (rev shape)) with (product shape); [lia|].
    clear. induction shape as [|d shape IH]; simp; [reflexivity|].
    rewrite product_app, <- IH. simp. lia.
Qed.

Lemma computeStrides_length shape : length (computeStrides shape) = length shape.
Proof.
  unfold computeStrides. rewrite length_rev.
  assert (L : forall r s, length (computeStrides_from r s) = length r)
    by (induction r; intros; cbn; congruence).
  rewrite L. apply length_rev.
Qed.

(** ** Flat indices and multi-indices *)

Lemma unflattenIndex_digits shape i :
  Forall (fun d => 0 < d) shape ->
  unflattenIndex i (strides_of shape) = Some (digits i shape).
Proof.
  intros H. revert i. induction H as [|d shape Hd Hs IH]; intros i; simp; [reflexivity|].
  pose proof (product_pos _ Hs).
  destruct (Z.eqb_spec (product shape) 0); [lia|].
  rewrite IH. reflexivity.
Qed.

Lemma digits_length i shape : length (digits i shape) = length shape.
Proof. revert i. induction shape; intros; cbn; congruence. Qed.

Lemma digits_inside shape i :
  Forall (fun d => 0 < d) shape -> 0 <= i < product shape ->
  inside (digits i shape) shape.
Proof.
  intros H. revert i. induction H as [|d shape Hd Hs IH]; intros i Hi; simp.
  - constructor.
  - pose proof (product_pos _ Hs). constructor.
    + split; [apply Z.div_pos; lia|]. apply Z.div_lt_upper_bound; lia.
    + apply IH. apply Z.mod_pos_bound. lia.
Qed.

Lemma flat_range indices shape :
  inside indices shape -> 0 <= flat indices shape < product shape.
Proof.
  induction 1 as [|x d indices shape Hx H IH]; simp; [lia|]. nia.
Qed.

Lemma flat_digits shape i :
  Forall (fun d => 0 < d) shape -> 0 <= i < product shape ->
  flat (digits i shape) shape = i.
Proof.
  intros H. revert i. induction H as [|d shape Hd Hs IH]; intros i Hi; simp; [lia|].
  pose proof (product_pos _ Hs).
  rewrite IH by (apply Z.mod_pos_bound; lia).
  rewrite (Z.div_mod i (product shape)) at 3 by lia. lia.
Qed.

Lemma digits_flat indices shape :
  inside indices shape -> digits (flat indices shape) shape = indices.
Proof.
  induction 1 as [|x d indices shape Hx H IH]; simp; [reflexivity|].
  pose proof (flat_range _ _ H).
  f_equal.
  - rewrite Z.div_add_l by lia.
    rewrite Z.div_small by lia. lia.
  - rewrite Z.add_comm, Z.mod_add by lia.
    rewrite Z.mod_small by lia. exact IH.
Qed.

Lemma inside_dims_pos indices shape :
  inside indices shape -> Forall (fun d => 0 < d) shape.
Proof. induction 1; constructor; [lia|assumption]. Qed.

Lemma flattenIndex_from_flat indices shape acc :
  inside indices shape -> 0 <= acc -> acc + product shape <= 2 ^ 64 ->
  flattenIndex_from indices (strides_of shape) acc = Some (acc + flat indices shape).
Proof.
  intros H. revert acc. induction H as [|x d indices shape Hx H IH]; intros acc Ha Hb; simp.
  - f_equal. lia.
  - pose proof (flat_range _ _ H).
    rewrite (wrap_small (x * _)) by nia.
    rewrite wrap_small by nia.
    rewrite IH by nia. f_equal. lia.
Qed.

Lemma flattenIndex_flat indices shape :
  inside indices shape -> product shape <= 2 ^ 64 ->
  flattenIndex indices (strides_of shape) = Some (flat indices shape).
Proof.
  intros H Hb. unfold flattenIndex. rewrite (flattenIndex_from_flat _ shape) by (auto; lia).
  reflexivity.
Qed.

(** ** The index map of a transposition *)

Lemma swapped_digits_inside dim0 dim1 (shape : list Z) i :
  Forall (fun d => 0 < d) shape ->
  0 <= i < product shape ->
  inside (swap_at dim0 dim1 (digits i shape)) (swap_at dim0 dim1 shape).
Proof. intros Hd Hi. apply swap_at_Forall2, digits_inside; assumption. Qed.

Lemma transposed_index_range dim0 dim1 (shape : list Z) i :
  Forall (fun d => 0 < d) shape ->
  0 <= i < product shape ->
  0 <= transposed_index dim0 dim1 shape i < product shape.
Proof.
  intros Hd Hi. unfold transposed_index.
  rewrite <- (swap_at_product dim0 dim1 shape).
  apply flat_range, swapped_digits_inside; assumption.
Qed.

Lemma transposed_index_involutive dim0 dim1 (shape : list Z) i :
  Forall (fun d => 0 < d) shape ->
  (Z.to_nat dim0 < length shape)%nat ->
  (Z.to_nat dim1 < length shape)%nat ->
  0 <= i < product shape ->
  transposed_index dim0 dim1 (swap_at dim0 dim1 shape) (transposed_index dim0 dim1 shape i) = i.
Proof.
  intros Hd H0 H1 Hi. unfold transposed_index.
  rewrite digits_flat by (apply swapped_digits_inside; assumption).
  rewrite !swap_at_involutive by (rewrite ?digits_length; assumption).
  apply flat_digits; assumption.
Qed.

Lemma transposed_index_injective dim0 dim1 shape i j :
  Forall (fun d => 0 < d) shape ->
  (Z.to_nat dim0 < length shape)%nat -> (Z.to_nat dim1 < length shape)%nat ->
  0 <= i < product shape -> 0 <= j < product shape ->
  transposed_index dim0 dim1 shape i = transposed_index dim0 dim1 shape j -> i = j.
Proof.
  intros Hd H0 H1 Hi Hj E.
  rewrite <- (transposed_index_involutive dim0 dim1 shape i Hd H0 H1 Hi).
  rewrite <- (transposed_index_involutive dim0 dim1 shape j Hd H0 H1 Hj).
  rewrite E. reflexivity.
Qed.

(** * Loops over the store *)

Lemma load_eq st p buf i c :
  mem st !! p = Some (Some buf) -> buf !! Z.to_nat i = Some c -> load p i st = Ok c st.
Proof. intros Hp Hi. unfold load. rewrite Hp, Hi. reflexivity. Qed.

Lemma store_eq st p buf i c :
  mem st !! p = Some (Some buf) -> (Z.to_nat i < length buf)%nat ->
  store p i c st = Ok tt (write_buf st p (<[Z.to_nat i := c]> buf)).
Proof.
  intros Hp Hi. unfold store. rewrite Hp.
  destruct (Nat.ltb_spec (Z.to_nat i) (length buf)); [reflexivity|lia].
Qed.

Lemma write_buf_write_buf st p b1 b2 :
  write_buf (write_buf st p b1) p b2 = write_buf st p b2.
Proof. unfold write_buf. cbn. rewrite list_insert_insert_eq. reflexivity. Qed.

Lemma write_buf_lookup st p buf :
  (p < length (mem st))%nat -> mem (write_buf st p buf) !! p = Some (Some buf).
Proof. intros H. cbn. apply list_lookup_insert_eq. exact H. Qed.

Lemma write_buf_lookup_ne st p q buf :
  p <> q -> mem (write_buf st p buf) !! q = mem st !! q.
Proof. intros H. cbn. apply list_lookup_insert_ne. exact H. Qed.

Lemma for_loop_ext n : forall i0 body body' st,
  (forall i st', i0 <= i < i0 + Z.of_nat n -> body i st' = body' i st') ->
  for_loop n i0 body st = for_loop n i0 body' st.
Proof.
  induction n as [|n IH]; intros i0 body body' st H; [reflexivity|].
  cbn [for_loop]. rewrite !bind_unfold, (H i0) by lia.
  destruct (body' i0 st); try reflexivity.
  apply IH. intros i st' Hi. apply H. lia.
Qed.

(** A loop that copies [src[g i]] to [dst[f i]] for [i] in [i0, i0 + n),
    [f] injective on that range. *)
Section CopyLoop.

Variables (src dst : nat) (f g : Z -> Z) (bs : list cell).
Hypothesis src_dst : src <> dst.

Lemma copy_loop_spec n : forall i0 st bd,
  mem st !! src = Some (Some bs) ->
  mem st !! dst = Some (Some bd) ->
  (forall i, i0 <= i < i0 + Z.of_nat n -> 0 <= g i < Z.of_nat (length bs)) ->
  (forall i, i0 <= i < i0 + Z.of_nat n -> 0 <= f i < Z.of_nat (length bd)) ->
  (forall i j, i0 <= i < i0 + Z.of_nat n -> i0 <= j < i0 + Z.of_nat n -> f i = f j -> i = j) ->
  exists bd',
    for_loop n i0 (fun i => x ← load src (g i); store dst (f i) x) st
      = Ok tt (write_buf st dst bd')
    /\ length bd' = length bd
    /\ (forall i, i0 <= i < i0 + Z.of_nat n -> bd' !! Z.to_nat (f i) = bs !! Z.to_nat (g i))
    /\ (forall k : nat, (forall i, i0 <= i < i0 + Z.of_nat n -> Z.to_nat (f i) <> k) ->
                        bd' !! k = bd !! k).
Proof.
  induction n as [|n IH]; intros i0 st bd Hs Hd Hg Hf Hinj.
  - exists bd. cbn [for_loop]. rewrite ret_unfold.
    split; [|split; [reflexivity|split; [intros; lia|reflexivity]]].
    f_equal. unfold write_buf. destruct st as [m ns]; cbn in *.
    rewrite list_insert_id; [reflexivity|exact Hd].
  - cbn [for_loop]. rewrite bind_unfold.
    assert (Hg0 : 0 <= g i0 < Z.of_nat (length bs)) by (apply Hg; lia).
    assert (Hf0 : 0 <= f i0 < Z.of_nat (length bd)) by (apply Hf; lia).
    destruct (lookup_lt_is_Some_2 bs (Z.to_nat (g i0)) ltac:(lia)) as [c Hc].
    rewrite bind_unfold, (load_eq _ _ _ _ _ Hs Hc).
    rewrite (store_eq _ _ _ _ _ Hd) by lia.
    set (bd1 := <[Z.to_nat (f i0) := c]> bd).
    assert (Hp : (dst < length (mem st))%nat) by (eapply lookup_lt_Some; eauto).
    destruct (IH (i0 + 1) (write_buf st dst bd1) bd1) as (bd' & Hrun & Hlen & Hcopy & Hkeep).
    + rewrite write_buf_lookup_ne by congruence. exact Hs.
    + apply write_buf_lookup. exact Hp.
    + intros i Hi. apply Hg. lia.
    + intros i Hi. unfold bd1. rewrite length_insert. apply Hf. lia.
    + intros i j Hi Hj. apply Hinj; lia.
    + exists bd'. rewrite Hrun, write_buf_write_buf.
      split; [reflexivity|]. split; [rewrite Hlen; apply length_insert|].
      split.
      * intros i Hi. destruct (decide (i = i0)) as [->|ne].
        -- rewrite Hkeep.
           ++ unfold bd1. rewrite list_lookup_insert_eq by lia. symmetry. exact Hc.
           ++ intros i Hi' E. pose proof (Hf i ltac:(lia)).
              assert (f i = f i0) by lia.
              assert (i = i0) by (apply Hinj; lia). lia.
        -- apply Hcopy. lia.
      * intros k Hk. rewrite Hkeep by (intros i Hi; apply Hk; lia).
        unfold bd1. apply list_lookup_insert_ne. apply Hk. lia.
Qed.

End CopyLoop.

(** ** Allocation *)

Lemma lookup_snoc_length {A} (m : list A) (x : A) : (m ++ [x]) !! length m = Some x.
Proof. rewrite lookup_app_r, Nat.sub_diag by lia. reflexivity. Qed.

Lemma malloc_eq T bytes st :
  malloc T bytes st =
    Ok (length (mem st))
       (mkState (mem st ++ [Some (replicate (Z.to_nat (bytes / dataTypeSize T)) Indet)]) (nodes st)).
Proof. reflexivity. Qed.

Lemma allocate_eq size dtype st :
  0 <= size < 2 ^ 31 ->
  allocate size dtype st =
    Ok (length (mem st))
       (mkState (mem st ++ [Some (replicate (Z.to_nat size) Indet)]) (nodes st)).
Proof.
  intros H. unfold allocate. rewrite malloc_eq.
  assert (0 < dataTypeSize dtype <= 8) by (destruct dtype; cbn; lia).
  rewrite wrap_small by nia.
  rewrite Z.div_mul by lia. reflexivity.
Qed.

Lemma TensorValue_uninit_eq shape device dType st :
  0 <= product shape < 2 ^ 31 ->
  TensorValue_uninit shape device dType st =
    Ok (mkTensorValue dType (length (mem st)) (product shape) shape (computeStrides shape) device)
       (mkState (mem st ++ [Some (replicate (Z.to_nat (product shape)) Indet)]) (nodes st)).
Proof.
  intros H. unfold TensorValue_uninit.
  rewrite (shape_size_product shape H).
  rewrite bind_unfold, allocate_eq by lia. reflexivity.
Qed.

Lemma write_buf_last m ns b b' :
  write_buf (mkState (m ++ [Some b]) ns) (length m) b' = mkState (m ++ [Some b']) ns.
Proof.
  unfold write_buf. cbn. f_equal.
  rewrite insert_app_r_alt by lia. rewrite Nat.sub_diag. reflexivity.
Qed.

Lemma extends_refl st : extends st st.
Proof. split; [reflexivity|]. exists []. rewrite app_nil_r. reflexivity. Qed.

Lemma extends_trans st1 st2 st3 : extends st1 st2 -> extends st2 st3 -> extends st1 st3.
Proof.
  intros [Hn1 (m1 & H1)] [Hn2 (m2 & H2)]. split; [congruence|].
  exists (m1 ++ m2). rewrite H2, H1, app_assoc. reflexivity.
Qed.

Lemma extends_snoc st b : extends st (mkState (mem st ++ [b]) (nodes st)).
Proof. split; [reflexivity|]. exists [b]. reflexivity. Qed.

Lemma extends_lookup st st' (q : nat) :
  extends st st' -> (q < length (mem st))%nat -> mem st' !! q = mem st !! q.
Proof. intros [_ (more & ->)] Hq. apply lookup_app_l. exact Hq. Qed.

Lemma wf_value_extends st st' t : extends st st' -> wf_value st t -> wf_value st' t.
Proof.
  intros He [Hd Hs Hm Hstr (buf & Hb & Hl)]. constructor; auto.
  exists buf. split; [|exact Hl].
  rewrite (extends_lookup _ _ _ He); [exact Hb|]. eapply lookup_lt_Some; eauto.
Qed.

(** * Transposition *)

Lemma wf_value_contents st t :
  wf_value st t ->
  exists buf, contents st t = Some buf /\ length buf = Z.to_nat (m_size t).
Proof.
  intros [_ _ _ _ (buf & Hb & Hl)]. exists buf. unfold contents. rewrite Hb. auto.
Qed.

Lemma contents_lookup st t buf :
  contents st t = Some buf -> mem st !! m_data t = Some (Some buf).
Proof.
  unfold contents. destruct (mem st !! m_data t) as [[b|]|]; cbn; congruence.
Qed.

(** The body of the loop of [transposeGeneric], on the canonical strides of
    a shape with positive dimensions. *)
Lemma transposeGeneric_body dim0 dim1 data shape result i st :
  Forall (fun d => 0 < d) shape -> product shape < 2 ^ 64 ->
  (Z.to_nat dim0 < length shape)%nat -> (Z.to_nat dim1 < length shape)%nat ->
  0 <= i < product shape ->
  match unflattenIndex i (computeStrides shape) with
  | None => undefined DivisionByZero
  | Some oldIndices =>
      if (Z.to_nat dim0 <? length oldIndices)%nat && (Z.to_nat dim1 <? length oldIndices)%nat then
        match flattenIndex (swap_at dim0 dim1 oldIndices) (computeStrides (swap_at dim0 dim1 shape)) with
        | None => undefined OutOfBounds
        | Some newIndex => x ← load data i; store result newIndex x
        end
      else undefined OutOfBounds
  end st
  = (x ← load data (id i); store result (transposed_index dim0 dim1 shape i) x) st.
Proof.
  intros Hd Hp H0 H1 Hi.
  rewrite (computeStrides_strides_of shape Hd Hp).
  rewrite (computeStrides_strides_of (swap_at dim0 dim1 shape))
    by (rewrite ?swap_at_product; auto using swap_at_Forall).
  rewrite (unflattenIndex_digits shape i Hd), digits_length.
  destruct (Nat.ltb_spec (Z.to_nat dim0) (length shape)); [|lia].
  destruct (Nat.ltb_spec (Z.to_nat dim1) (length shape)); [|lia].
  cbn [andb].
  rewrite flattenIndex_flat.
  - reflexivity.
  - apply swapped_digits_inside; assumption.
  - rewrite swap_at_product. lia.
Qed.

(** [TensorValue::transpose] on a well-formed value: it returns a
    well-formed value in a fresh buffer, and the element at [i] is moved to
    [transposed_index i]. *)
Lemma TensorValue_transpose_spec st t dim0 dim1 buf :
  wf_value st t -> contents st t = Some buf ->
  0 <= dim0 < Z.of_nat (length (m_shape t)) ->
  0 <= dim1 < Z.of_nat (length (m_shape t)) ->
  exists r st' buf',
    TensorValue_transpose t dim0 dim1 st = Ok r st'
    /\ m_shape r = swap_at dim0 dim1 (m_shape t)
    /\ m_dType r = m_dType t /\ m_device r = m_device t /\ m_size r = m_size t
    /\ m_data r = length (mem st)
    /\ wf_value st' r
    /\ contents st' r = Some buf'
    /\ extends st st'
    /\ (forall i, 0 <= i < m_size t ->
          buf' !! Z.to_nat (transposed_index dim0 dim1 (m_shape t) i) = buf !! Z.to_nat i).
Proof.
  intros Hwf Hc H0 H1.
  pose proof Hwf as [Hdims Hsize Hsmall Hstr (buf0 & Hb & Hl)].
  pose proof (contents_lookup _ _ _ Hc) as Hbuf.
  assert (buf0 = buf) by congruence. subst buf0.
  pose proof (product_nonneg _ Hdims) as Hnn.
  assert (Hps : product (swap_at dim0 dim1 (m_shape t)) = product (m_shape t))
    by apply swap_at_product.
  assert (Hsrc : (m_data t < length (mem st))%nat) by (eapply lookup_lt_Some; eauto).
  assert (Hn0 : (Z.to_nat dim0 < length (m_shape t))%nat) by lia.
  assert (Hn1 : (Z.to_nat dim1 < length (m_shape t))%nat) by lia.
  unfold TensorValue_transpose.
  destruct (Z.leb_spec (Z.of_nat (length (m_shape t))) dim0); [lia|].
  destruct (Z.leb_spec (Z.of_nat (length (m_shape t))) dim1); [lia|].
  cbn [orb].
  rewrite bind_unfold, TensorValue_uninit_eq by lia.
  rewrite Hps, <- Hsize. cbn [m_strides m_size m_data].
  set (st1 := mkState (mem st ++ [Some (replicate (Z.to_nat (m_size t)) Indet)]) (nodes st)).
  assert (Hs1 : mem st1 !! m_data t = Some (Some buf))
    by (cbn; rewrite lookup_app_l by exact Hsrc; exact Hbuf).
  assert (Hd1 : mem st1 !! length (mem st) = Some (Some (replicate (Z.to_nat (m_size t)) Indet)))
    by (cbn [st1 mem]; apply lookup_snoc_length).
  unfold Device_transpose, transposeGeneric, for_range.
  rewrite bind_unfold.
  destruct (decide (m_size t = 0)) as [Hz|Hnz].
  - (* no element: the loop does not run *)
    eexists _, _, []. subst st1. rewrite Hz.
    change (Z.to_nat 0) with 0%nat. cbn [for_loop replicate]. rewrite !ret_unfold.
    split; [reflexivity|]. do 5 (split; [try reflexivity; auto|]).
    split; [|split; [|split; [apply extends_snoc|]]].
    + constructor; cbn [m_shape m_size m_strides m_data]; rewrite ?Hps;
        auto using swap_at_Forall; try lia.
      exists []. cbn [mem]. rewrite lookup_snoc_length. auto.
    + unfold contents. cbn [mem m_data]. rewrite lookup_snoc_length. reflexivity.
    + intros; lia.
  - (* at least one element: every dimension is positive *)
    assert (Hpos : Forall (fun d => 0 < d) (m_shape t)) by (apply product_pos_dims; [auto|lia]).
    rewrite Hstr.
    rewrite (for_loop_ext _ _ _
               (fun i => x ← load (m_data t) (id i);
                         store (length (mem st)) (transposed_index dim0 dim1 (m_shape t) i) x))
      by (intros i st' Hi; apply transposeGeneric_body; auto; lia).
    destruct (copy_loop_spec (m_data t) (length (mem st))
                (transposed_index dim0 dim1 (m_shape t)) id buf ltac:(lia)
                (Z.to_nat (m_size t)) 0 st1 _ Hs1 Hd1)
      as (buf' & Hrun & Hlen & Hcopy & _).
    + intros i Hi. unfold id. lia.
    + intros i Hi. rewrite length_replicate.
      pose proof (transposed_index_range dim0 dim1 (m_shape t) i Hpos).
      lia.
    + intros i j Hi Hj. apply transposed_index_injective; auto; lia.
    + rewrite length_replicate in Hlen.
      eexists _, _, buf'. rewrite Hrun. unfold st1. rewrite write_buf_last, ret_unfold.
      split; [reflexivity|]. do 5 (split; [try reflexivity; auto|]).
      split; [|split; [|split; [apply extends_snoc|]]].
      * constructor; cbn [m_shape m_size m_strides m_data]; rewrite ?Hps;
          auto using swap_at_Forall; try lia.
        exists buf'. cbn [mem]. rewrite lookup_snoc_length. auto.
      * unfold contents. cbn [mem m_data]. rewrite lookup_snoc_length. reflexivity.
      * intros i Hi. apply Hcopy. lia.
Qed.

(** Transposing twice gives back the tensor when its element count fits
    the [int] it is accumulated in: for a tensor value [t] that satisfies the
    invariants of the data model (the count is the product of the shape and
    is below [2^31], the strides are the canonical ones, the buffer is live)
    and two axes [i], [j] of its shape, [t.transpose(i, j)] and then
    [.transpose(i, j)] return, and the second result has the shape, the
    strides, the dtype, the device, the element count and the element
    contents of [t]. *)
Lemma transpose_transpose (st : State) (t : TensorValue) (i j : Z) :
  wf_value st t ->
  0 <= i < Z.of_nat (length (m_shape t)) ->
  0 <= j < Z.of_nat (length (m_shape t)) ->
  exists t1 st1 t2 st2,
    TensorValue_transpose t i j st = Ok t1 st1
    /\ TensorValue_transpose t1 i j st1 = Ok t2 st2
    /\ m_shape t2 = m_shape t
    /\ m_strides t2 = m_strides t
    /\ m_dType t2 = m_dType t
    /\ m_device t2 = m_device t
    /\ m_size t2 = m_size t
    /\ contents st2 t2 = contents st t.
Proof.
  intros Hwf Hi Hj.
  destruct (wf_value_contents _ _ Hwf) as (buf & Hc & Hl).
  destruct (TensorValue_transpose_spec st t i j buf Hwf Hc Hi Hj)
    as (t1 & st1 & buf1 & Hrun1 & Hsh1 & Hty1 & Hdev1 & Hsz1 & _ & Hwf1 & Hc1 & _ & Hmove1).
  assert (Hi1 : 0 <= i < Z.of_nat (length (m_shape t1)))
    by (rewrite Hsh1, swap_at_length; exact Hi).
  assert (Hj1 : 0 <= j < Z.of_nat (length (m_shape t1)))
    by (rewrite Hsh1, swap_at_length; exact Hj).
  destruct (TensorValue_transpose_spec st1 t1 i j buf1 Hwf1 Hc1 Hi1 Hj1)
    as (t2 & st2 & buf2 & Hrun2 & Hsh2 & Hty2 & Hdev2 & Hsz2 & _ & Hwf2 & Hc2 & _ & Hmove2).
  assert (Hsw : m_shape t2 = m_shape t)
    by (rewrite Hsh2, Hsh1; apply swap_at_involutive; lia).
  exists t1, st1, t2, st2.
  split; [exact Hrun1|]. split; [exact Hrun2|].
  split; [exact Hsw|].
  split; [rewrite (wf_strides _ _ Hwf2), (wf_strides _ _ Hwf), Hsw; reflexivity|].
  split; [congruence|]. split; [congruence|]. split; [congruence|].
  rewrite Hc2, Hc. f_equal.
  destruct Hwf as [Hdims Hsize Hsmall _ _].
  destruct (wf_value_contents _ _ Hwf1) as (b1 & Hb1 & Hl1).
  destruct (wf_value_contents _ _ Hwf2) as (b2 & Hb2 & Hl2).
  assert (b1 = buf1) by congruence. assert (b2 = buf2) by congruence. subst b1 b2.
  apply list_eq_same_length with (n := Z.to_nat (m_size t)); [exact Hl|congruence|].
  intros k x y Hk Hx Hy.
  assert (Hpos : Forall (fun d => 0 < d) (m_shape t))
    by (apply product_pos_dims; [auto|lia]).
  assert (Hkr : 0 <= Z.of_nat k < product (m_shape t)) by lia.
  assert (Hni : (Z.to_nat i < length (m_shape t))%nat) by lia.
  assert (Hnj : (Z.to_nat j < length (m_shape t))%nat) by lia.
  pose proof (transposed_index_range i j (m_shape t) _ Hpos Hkr) as Hr.
  pose proof (transposed_index_involutive i j (m_shape t) _ Hpos Hni Hnj Hkr) as Hinv.
  specialize (Hmove1 (Z.of_nat k) ltac:(lia)).
  specialize (Hmove2 (transposed_index i j (m_shape t) (Z.of_nat k)) ltac:(lia)).
  rewrite Hsh1, Hinv, Nat2Z.id in Hmove2.
  rewrite Nat2Z.id in Hmove1. congruence.
Qed.

Lemma matrix_2x3_wf : wf_value matrix_2x3_state matrix_2x3.
Proof.
  constructor.
  - repeat constructor; lia.
  - reflexivity.
  - reflexivity.
  - reflexivity.
  - eexists. split; reflexivity.
Qed.

(** A 2 x 3 tensor transposed twice. *)
Lemma transpose_transpose_witness :
  wf_value matrix_2x3_state matrix_2x3
  /\ exists t1 st1 t2 st2,
       TensorValue_transpose matrix_2x3 0 1 matrix_2x3_state = Ok t1 st1
       /\ TensorValue_transpose t1 0 1 st1 = Ok t2 st2
       /\ m_shape t2 = m_shape matrix_2x3
       /\ m_strides t2 = m_strides matrix_2x3
       /\ m_dType t2 = m_dType matrix_2x3
       /\ m_device t2 = m_device matrix_2x3
       /\ m_size t2 = m_size matrix_2x3
       /\ contents st2 t2 = contents matrix_2x3_state matrix_2x3.
Proof.
  split; [exact matrix_2x3_wf|].
  apply (transpose_transpose matrix_2x3_state matrix_2x3 0 1 matrix_2x3_wf); cbn; lia.
Defined.

(** C6: a tensor of shape [{3, 1431655766}], which has [2^32 + 2] elements,
    filled with 1.  The constructor accumulates the element count in an
    [int]: the tensor has the count 2 and a buffer of two elements.
    [t.transpose(0, 1)] allocates a result of two elements and stores the
    element of [t] at the indices [[0, 1]] at the offset [1 * 3 + 0 = 3] of
    the result, outside its buffer: the transposition returns no tensor, and
    transposing twice does not give [t] back. *)
Theorem transpose_count_overflow :
  product [3; 1431655766] = 2 ^ 32 + 2
  /\ exists t st,
       TensorValue_filled (of_Z kFloat32 1) [3; 1431655766] defaultDevice kFloat32
         empty_state = Ok t st
       /\ m_shape t = [3; 1431655766]
       /\ m_size t = 2
       /\ contents st t = Some (floats [1; 1])
       /\ TensorValue_transpose t 0 1 st = Undefined OutOfBounds
       /\ ~ exists t1 st1 t2 st2,
              TensorValue_transpose t 0 1 st = Ok t1 st1
              /\ TensorValue_transpose t1 0 1 st1 = Ok t2 st2.
Proof.
  split; [reflexivity|].
  destruct (TensorValue_filled (of_Z kFloat32 1) [3; 1431655766] defaultDevice kFloat32
              empty_state) as [t st| | |] eqn:E; vm_compute in E; try discriminate.
  injection E as <- <-.
  assert (Hrun : TensorValue_transpose
                   (mkTensorValue kFloat32 0 2 [3; 1431655766] [1431655766; 1] 0%nat) 0 1
                   (mkState [Some (floats [1; 1])] [])
                 = Undefined OutOfBounds) by (vm_compute; reflexivity).
  do 2 eexists. split; [reflexivity|].
  split; [reflexivity|]. split; [reflexivity|]. split; [vm_compute; reflexivity|].
  split.
  - etransitivity; [|exact Hrun]. vm_compute. reflexivity.
  - intros (t1 & st1 & t2 & st2 & H1 & _).
    assert (H : TensorValue_transpose
                  (mkTensorValue kFloat32 0 2 [3; 1431655766] [1431655766; 1] 0%nat) 0 1
                  (mkState [Some (floats [1; 1])] []) = Ok t1 st1)
      by (etransitivity; [|exact H1]; vm_compute; reflexivity).
    rewrite Hrun in H. discriminate H.
Qed.

(** * Reshape *)

(** The check of [TensorValue::reshape] compares the element count with the
    product accumulated in an [int]. *)
Lemma TensorValue_reshape_throws (t : TensorValue) (s : Shape) (st : State) :
  m_size t <> shape_size s ->
  TensorValue_reshape t s st
  = Throw (invalid_argument (ReshapeCountMismatch (m_size t) (shape_size s))) st.
Proof.
  intros H. unfold TensorValue_reshape.
  destruct (decide (m_size t = shape_size s)); [contradiction|reflexivity].
Qed.

(** For a shape whose product fits an [int] the accumulated product is the
    product, so on such shapes a count that differs is rejected and the
    store is left as it was. *)
Lemma TensorValue_reshape_mismatch (t : TensorValue) (s : Shape) (st : State) :
  0 <= product s < 2 ^ 31 ->
  m_size t <> product s ->
  TensorValue_reshape t s st
  = Throw (invalid_argument (ReshapeCountMismatch (m_size t) (product s))) st.
Proof.
  intros Hs H. rewrite <- (shape_size_product s Hs) in *.
  apply TensorValue_reshape_throws. exact H.
Qed.

(** The constructor from data of the same dtype copies the buffer. *)
Lemma TensorValue_of_data_copy st src size T shape device buf :
  mem st !! src = Some (Some buf) ->
  length buf = Z.to_nat size ->
  0 <= size < 2 ^ 31 ->
  TensorValue_of_data src size T shape device T st
  = Ok (mkTensorValue T (length (mem st)) size shape (computeStrides shape) device)
       (mkState (mem st ++ [Some buf]) (nodes st)).
Proof.
  intros Hb Hl Hs.
  assert (Hsrc : (src < length (mem st))%nat) by (eapply lookup_lt_Some; eauto).
  unfold TensorValue_of_data. rewrite bind_unfold, allocate_eq by lia.
  set (st1 := mkState (mem st ++ [Some (replicate (Z.to_nat size) Indet)]) (nodes st)).
  unfold Device_copyImmediate, Device_copy.
  destruct (decide (T = T)) as [_|]; [|contradiction].
  unfold memcpy, for_range.
  assert (Hsz : wrap (size * dataTypeSize T) / dataTypeSize T = size).
  { rewrite wrap_small by (destruct T; cbn; lia). apply Z.div_mul. destruct T; cbn; lia. }
  rewrite Hsz, bind_unfold.
  destruct (copy_loop_spec src (length (mem st)) (fun i => i) (fun i => i) buf
              ltac:(lia) (Z.to_nat size) 0 st1 (replicate (Z.to_nat size) Indet))
    as (bd' & Hrun & Hlen & Hcopy & _).
  - cbn [st1 mem]. rewrite lookup_app_l by exact Hsrc. exact Hb.
  - cbn [st1 mem]. apply lookup_snoc_length.
  - intros i Hi. lia.
  - intros i Hi. rewrite length_replicate. lia.
  - auto.
  - cbv beta in Hrun. rewrite Hrun. unfold st1. rewrite write_buf_last, ret_unfold.
    rewrite length_replicate in Hlen.
    assert (bd' = buf) as ->; [|reflexivity].
    apply list_eq_same_length with (n := Z.to_nat size); [exact Hl|exact Hlen|].
    intros k x y Hk Hx Hy.
    specialize (Hcopy (Z.of_nat k) ltac:(lia)). rewrite Nat2Z.id in Hcopy. congruence.
Qed.

(** Where the product of the new shape fits an [int] and is the element
    count, [reshape] returns a tensor of the new shape with the same
    elements, in a buffer of its own. *)
Lemma TensorValue_reshape_same_count (t : TensorValue) (s : Shape) (st : State) buf :
  wf_value st t -> contents st t = Some buf ->
  product s = m_size t ->
  TensorValue_reshape t s st
  = Ok (mkTensorValue (m_dType t) (length (mem st)) (m_size t) s (computeStrides s) (m_device t))
       (mkState (mem st ++ [Some buf]) (nodes st)).
Proof.
  intros Hwf Hc Hp. pose proof Hwf as [Hd Hs Hm _ (b & Hb & Hl)].
  pose proof (product_nonneg _ Hd) as Hnn.
  assert (b = buf) as -> by (unfold contents in Hc; rewrite Hb in Hc; cbn in Hc; congruence).
  unfold TensorValue_reshape. cbv zeta.
  rewrite shape_size_product by lia.
  destruct (decide (m_size t = product s)) as [_|]; [|congruence].
  apply TensorValue_of_data_copy; auto. lia.
Qed.

(** C7: a tensor of two elements is reshaped to [{3, 1431655766}], a shape
    of [2^32 + 2] elements: the product accumulated in an [int] is [2], the
    check passes, and the result has that shape over a buffer of two
    elements. *)
Theorem reshape_count_overflow :
  product [3; 1431655766] = 2 ^ 32 + 2
  /\ shape_size [3; 1431655766] = 2
  /\ exists t r st,
       reshape_scenario [3; 1431655766] empty_state
         = Ok (t, r, Some (floats [1; 2])) st
       /\ m_size t = 2
       /\ m_shape r = [3; 1431655766]
       /\ m_size r = 2.
Proof.
  split; [reflexivity|]. split; [reflexivity|].
  destruct (reshape_scenario [3; 1431655766] empty_state) as [[[t r] c] st| | |] eqn:E;
    vm_compute in E; try discriminate.
  injection E as <- <- <- <-.
  do 3 eexists. split; [reflexivity|]. repeat split.
Qed.

(** * Broadcasting *)

Lemma fits_test dimSrc dimTgt :
  negb (dimSrc =? dimTgt) && negb (dimSrc =? 1) = false <-> fits dimSrc dimTgt.
Proof.
  unfold fits.
  destruct (Z.eqb_spec dimSrc dimTgt), (Z.eqb_spec dimSrc 1); cbn; intuition congruence.
Qed.

Lemma checkBroadcastTo_from_nil rtgt : checkBroadcastTo_from [] rtgt = true.
Proof.
  induction rtgt as [|d rtgt IH]; cbn [checkBroadcastTo_from hd tl]; [reflexivity|].
  change (1 =? 1) with true. cbn [negb]. rewrite andb_false_r. exact IH.
Qed.

(** The loop of [checkBroadcastTo] on reversed shapes: the dimensions of the
    source are compared with the first dimensions of the target, and the
    rest of the target is free. *)
Lemma checkBroadcastTo_from_spec rsrc : forall rrest rlead,
  length rsrc = length rrest ->
  checkBroadcastTo_from rsrc (rrest ++ rlead) = true <-> Forall2 fits rsrc rrest.
Proof.
  induction rsrc as [|a rsrc IH]; intros [|d rrest] rlead Hlen; try discriminate.
  - cbn [app]. rewrite checkBroadcastTo_from_nil. split; [constructor|reflexivity].
  - cbn [app checkBroadcastTo_from hd tl].
    destruct (negb (a =? d) && negb (a =? 1)) eqn:E.
    + split; [discriminate|]. intros H. inversion H; subst.
      apply fits_test in H3. congruence.
    + apply fits_test in E. rewrite IH by (cbn in Hlen; lia).
      split; [intros; constructor; assumption|intros H; inversion H; assumption].
Qed.

Lemma Forall2_rev {A B} (P : A -> B -> Prop) l k :
  Forall2 P l k -> Forall2 P (rev l) (rev k).
Proof.
  induction 1 as [|x y l k Hxy Hlk IH]; cbn [rev]; [constructor|].
  apply Forall2_app; [exact IH|repeat constructor; exact Hxy].
Qed.

Lemma Forall2_rev_iff {A B} (P : A -> B -> Prop) l k :
  Forall2 P (rev l) (rev k) <-> Forall2 P l k.
Proof.
  split; [|apply Forall2_rev].
  intros H. apply Forall2_rev in H. rewrite !rev_involutive in H. exact H.
Qed.

Lemma Forall2_replicate_fits lead : Forall2 fits (replicate (length lead) 1) lead.
Proof. induction lead; cbn; constructor; [right; reflexivity|assumption]. Qed.

(** The one-sided rule, with the target split into the leading dimensions
    the source lacks and the dimensions compared with the source. *)
Lemma broadcastable_to_split src tgt :
  broadcastable_to src tgt <->
  exists lead rest, tgt = lead ++ rest /\ Forall2 fits src rest.
Proof.
  unfold broadcastable_to, right_aligned. split.
  - intros [Hlen H]. apply Forall2_app_inv_l in H as (lead & rest & _ & H & ->).
    exists lead, rest. split; [reflexivity|exact H].
  - intros (lead & rest & -> & H).
    pose proof H as Hl; apply Forall2_length in Hl.
    rewrite length_app. split; [lia|].
    replace (length lead + length rest - length src)%nat with (length lead) by lia.
    apply Forall2_app; [apply Forall2_replicate_fits|exact H].
Qed.

(** [checkBroadcastTo] decides the one-sided rule. *)
Lemma checkBroadcastTo_spec src tgt :
  checkBroadcastTo src tgt = true <-> broadcastable_to src tgt.
Proof.
  rewrite broadcastable_to_split. unfold checkBroadcastTo.
  destruct (Nat.ltb_spec (length tgt) (length src)) as [Hlt|Hle].
  - split; [discriminate|]. intros (lead & rest & -> & H).
    apply Forall2_length in H. rewrite length_app in Hlt. lia.
  - rewrite <- (take_drop (length tgt - length src) tgt) at 1.
    rewrite rev_app_distr.
    rewrite checkBroadcastTo_from_spec
      by (rewrite !length_rev, length_drop; lia).
    rewrite Forall2_rev_iff. split.
    + intros H. eexists _, _. split; [|exact H]. symmetry. apply take_drop.
    + intros (lead & rest & -> & H).
      pose proof H as Hl; apply Forall2_length in Hl.
      rewrite length_app, drop_app_length'; [exact H|lia].
Qed.

Lemma checkBroadcastTo_from_cons rsrc d rtgt :
  checkBroadcastTo_from rsrc (d :: rtgt) = true <->
  fits (hd 1 rsrc) d /\ checkBroadcastTo_from (tl rsrc) rtgt = true.
Proof.
  cbn [checkBroadcastTo_from].
  destruct (negb (hd 1 rsrc =? d) && negb (hd 1 rsrc =? 1)) eqn:E.
  - split; [discriminate|]. intros [H _]. apply fits_test in H. congruence.
  - apply fits_test in E. tauto.
Qed.

Lemma bc_mismatch_fits dimSrc dimTgt : fits dimSrc dimTgt -> bc_mismatch dimSrc dimTgt = false.
Proof.
  intros H. apply fits_test in H. unfold bc_mismatch. rewrite H. reflexivity.
Qed.

(** On shapes that pass [checkBroadcastTo], [broadcastShapes] does not throw
    and returns the broadcast shape. *)
Lemma broadcastShapes_from_spec rtgt : forall rsrc acc,
  checkBroadcastTo_from rsrc rtgt = true ->
  (length rsrc <= length rtgt)%nat ->
  broadcastShapes_from rsrc rtgt acc = Some (acc ++ broadcast_dims rsrc rtgt).
Proof.
  induction rtgt as [|d rtgt IH]; intros rsrc acc Hc Hlen.
  - destruct rsrc; [|cbn in Hlen; lia]. cbn. rewrite app_nil_r. reflexivity.
  - apply checkBroadcastTo_from_cons in Hc as [Hf Hc].
    destruct rsrc as [|a rsrc]; cbn [hd tl] in *.
    + cbn [broadcastShapes_from broadcastShapes_rest broadcast_dims hd tl].
      rewrite bc_mismatch_fits by exact Hf.
      specialize (IH [] (acc ++ [Z.max 1 d]) Hc ltac:(cbn; lia)).
      cbn [broadcastShapes_from] in IH. rewrite IH, <- app_assoc. reflexivity.
    + cbn [broadcastShapes_from broadcast_dims hd tl].
      rewrite bc_mismatch_fits by exact Hf.
      rewrite IH by (cbn in Hlen; auto; lia). rewrite <- app_assoc. reflexivity.
Qed.

Lemma broadcastShapes_spec src tgt :
  broadcastable_to src tgt -> broadcastShapes src tgt = Some (broadcast_shape src tgt).
Proof.
  intros H. pose proof H as [Hlen _]. apply checkBroadcastTo_spec in H.
  unfold checkBroadcastTo in H.
  destruct (Nat.ltb_spec (length tgt) (length src)); [discriminate|].
  unfold broadcastShapes, broadcast_shape.
  rewrite (broadcastShapes_from_spec _ _ [] H) by (rewrite !length_rev; lia).
  reflexivity.
Qed.

Lemma broadcast_dims_length rtgt : forall rsrc, length (broadcast_dims rsrc rtgt) = length rtgt.
Proof. induction rtgt as [|d rtgt IH]; intros rsrc; cbn; [reflexivity|]. rewrite IH. reflexivity. Qed.

Lemma broadcast_dims_nonneg rtgt : forall rsrc,
  Forall (fun d => 0 <= d) rtgt -> Forall (fun d => 0 <= d) (broadcast_dims rsrc rtgt).
Proof.
  induction rtgt as [|d rtgt IH]; intros rsrc H; cbn; [constructor|].
  inversion H; subst. constructor; [lia|apply IH; assumption].
Qed.

(** The source fits the broadcast shape as it fits the target. *)
Lemma broadcast_dims_fits rtgt : forall rsrc,
  checkBroadcastTo_from rsrc rtgt = true ->
  checkBroadcastTo_from rsrc (broadcast_dims rsrc rtgt) = true.
Proof.
  induction rtgt as [|d rtgt IH]; intros rsrc Hc; [reflexivity|].
  apply checkBroadcastTo_from_cons in Hc as [Hf Hc].
  cbn [broadcast_dims]. apply checkBroadcastTo_from_cons. split; [|apply IH; exact Hc].
  destruct Hf as [->| ->]; [left|right]; lia.
Qed.

(** A target without a zero dimension is its own broadcast shape. *)
Lemma broadcast_dims_target rtgt : forall rsrc,
  checkBroadcastTo_from rsrc rtgt = true ->
  Forall (fun d => 0 < d) rtgt ->
  broadcast_dims rsrc rtgt = rtgt.
Proof.
  induction rtgt as [|d rtgt IH]; intros rsrc Hc Hp; [reflexivity|].
  apply checkBroadcastTo_from_cons in Hc as [Hf Hc]. inversion Hp; subst.
  cbn [broadcast_dims]. rewrite IH by assumption. f_equal.
  destruct Hf as [->| ->]; lia.
Qed.

Lemma Forall_rev_iff {A} (P : A -> Prop) l : Forall P (rev l) <-> Forall P l.
Proof. rewrite !Forall_forall. setoid_rewrite <- in_rev. reflexivity. Qed.

Lemma broadcast_shape_target src tgt :
  broadcastable_to src tgt -> Forall (fun d => 0 < d) tgt -> broadcast_shape src tgt = tgt.
Proof.
  intros H Hp. apply checkBroadcastTo_spec in H. unfold checkBroadcastTo in H.
  destruct (Nat.ltb_spec (length tgt) (length src)); [discriminate|].
  unfold broadcast_shape.
  rewrite broadcast_dims_target by (auto; apply Forall_rev_iff; exact Hp).
  apply rev_involutive.
Qed.

Lemma product_rev shape : product (rev shape) = product shape.
Proof.
  induction shape as [|d shape IH]; [reflexivity|].
  cbn [rev]. rewrite product_app, IH. simp. ring.
Qed.

(** A source that fits a shape of positive dimensions has positive
    dimensions. *)
Lemma fits_positive rnew : forall rsrc,
  checkBroadcastTo_from rsrc rnew = true ->
  (length rsrc <= length rnew)%nat ->
  Forall (fun d => 0 < d) rnew -> Forall (fun d => 0 < d) rsrc.
Proof.
  induction rnew as [|n rnew IH]; intros rsrc Hc Hlen Hp.
  - destruct rsrc; [constructor|cbn in Hlen; lia].
  - apply checkBroadcastTo_from_cons in Hc as [Hf Hc]. inversion Hp; subst.
    destruct rsrc as [|sj rsrc]; [constructor|]. cbn [hd tl] in *.
    constructor; [destruct Hf; lia|apply IH; auto; cbn in Hlen; lia].
Qed.

(** [Device::translationIndex] on a source that fits the new shape: no
    division by zero, no wrap-around, and the index it returns is inside the
    source. *)
Lemma translationIndex_from_range index rnew : forall rsrc oi ts os,
  checkBroadcastTo_from rsrc rnew = true ->
  (length rsrc <= length rnew)%nat ->
  Forall (fun d => 0 < d) rnew ->
  Forall (fun d => 0 < d) rsrc ->
  0 < ts -> ts * product rnew < 2 ^ 64 ->
  0 <= oi < os -> os * product rsrc < 2 ^ 64 ->
  exists k, translationIndex_from index rnew rsrc oi ts os = Some k
            /\ 0 <= k < os * product rsrc.
Proof.
  induction rnew as [|n rnew IH]; intros rsrc oi ts os Hc Hlen Hpn Hps Hts Htb Hoi Hob.
  - destruct rsrc; [|cbn in Hlen; lia]. exists oi. simp. split; [reflexivity|lia].
  - apply checkBroadcastTo_from_cons in Hc as [Hf Hc].
    inversion Hpn as [|? ? Hn Hpn']; subst. simp.
    pose proof (product_pos _ Hpn') as Hpr.
    cbn [translationIndex_from].
    destruct (Z.eqb_spec ts 0); [lia|]. destruct (Z.eqb_spec n 0); [lia|]. cbn [orb].
    assert (Hd : 0 <= (index / ts) mod n < n) by (apply Z.mod_pos_bound; lia).
    assert (Hle' : ts * n <= ts * n * product rnew)
      by (rewrite <- (Z.mul_1_r (ts * n)) at 1; apply Z.mul_le_mono_nonneg_l; nia).
    assert (Hts' : wrap (ts * n) = ts * n) by (apply wrap_small; nia).
    rewrite Hts'.
    destruct rsrc as [|sj rsrc]; cbn [hd tl] in *.
    + apply IH; auto; try (cbn [length]; lia); try nia.
    + inversion Hps as [|? ? Hsj Hps']; subst. simp.
      pose proof (product_pos _ Hps') as Hpr'.
      assert (Hle : os * sj <= os * sj * product rsrc)
        by (rewrite <- (Z.mul_1_r (os * sj)) at 1; apply Z.mul_le_mono_nonneg_l; nia).
      assert (Hos' : wrap (os * sj) = os * sj) by (apply wrap_small; nia).
      rewrite Hos'.
      destruct (Z.eqb_spec sj n) as [->|Hne].
      * rewrite (wrap_small ((index / ts) mod n * os)) by nia.
        rewrite (wrap_small (oi + _)) by nia.
        destruct (IH rsrc (oi + (index / ts) mod n * os) (ts * n) (os * n))
          as (k & Hk & Hr); auto; try (cbn [length] in *; lia); try nia.
        exists k. split; [exact Hk|nia].
      * destruct Hf as [Hf|Hf]; [contradiction|]. subst sj.
        destruct (Z.eqb_spec 1 1); [|lia].
        destruct (IH rsrc oi (ts * n) (os * 1))
          as (k & Hk & Hr); auto; try (cbn [length] in *; lia); try nia.
        exists k. split; [exact Hk|nia].
Qed.

Lemma translationIndex_range index shape newShape :
  checkBroadcastTo_from (rev shape) (rev newShape) = true ->
  (length shape <= length newShape)%nat ->
  Forall (fun d => 0 < d) newShape ->
  product newShape < 2 ^ 64 -> product shape < 2 ^ 64 ->
  translationIndex index shape newShape = Some (translated shape newShape index)
  /\ 0 <= translated shape newShape index < product shape.
Proof.
  intros Hc Hlen Hp Hbn Hbs. unfold translated, translationIndex.
  apply Forall_rev_iff in Hp.
  destruct (translationIndex_from_range index (rev newShape) (rev shape) 0 1 1)
    as (k & Hk & Hr); auto.
  - rewrite !length_rev. exact Hlen.
  - eapply fits_positive; eauto. rewrite !length_rev. exact Hlen.
  - lia.
  - rewrite product_rev. lia.
  - lia.
  - rewrite product_rev. lia.
  - rewrite Hk. cbn. rewrite product_rev in Hr. split; [reflexivity|lia].
Qed.

Lemma broadcastToGeneric_body src dst shape newShape i st :
  translationIndex i shape newShape = Some (translated shape newShape i) ->
  (k ← index_of (translationIndex i shape newShape); x ← load src k; store dst i x) st
  = (x ← load src (translated shape newShape i); store dst (id i) x) st.
Proof. intros ->. cbn [index_of]. rewrite bind_unfold, ret_unfold. reflexivity. Qed.

(** [TensorValue::broadcastTo] on a well-formed value whose shape fits the
    target: it returns a well-formed value of the broadcast shape in a
    fresh buffer, filled from the source through [translationIndex]. *)
Lemma TensorValue_broadcastTo_spec st t s src :
  wf_value st t -> contents st t = Some src ->
  broadcastable_to (m_shape t) s ->
  Forall (fun d => 0 <= d) s ->
  product (broadcast_shape (m_shape t) s) < 2 ^ 31 ->
  exists r buf,
    TensorValue_broadcastTo t s st = Ok r (mkState (mem st ++ [Some buf]) (nodes st))
    /\ m_data r = length (mem st)
    /\ m_shape r = broadcast_shape (m_shape t) s
    /\ m_dType r = m_dType t /\ m_device r = m_device t
    /\ wf_value (mkState (mem st ++ [Some buf]) (nodes st)) r
    /\ (forall i, 0 <= i < m_size r ->
          buf !! Z.to_nat i = src !! Z.to_nat (translated (m_shape t) (m_shape r) i)).
Proof.
  intros Hwf Hc Hb Hs Hsmall.
  pose proof Hwf as [Hdims Hsize Hsmall' Hstr (buf0 & Hbuf & Hl)].
  pose proof (contents_lookup _ _ _ Hc) as Hbuf'.
  assert (buf0 = src) by congruence. subst buf0. clear Hbuf'.
  assert (Hsrc : (m_data t < length (mem st))%nat) by (eapply lookup_lt_Some; eauto).
  set (rs := broadcast_shape (m_shape t) s) in *.
  assert (Hrd : Forall (fun d => 0 <= d) rs)
    by (apply Forall_rev_iff, broadcast_dims_nonneg, Forall_rev_iff; exact Hs).
  pose proof (product_nonneg _ Hrd) as Hnn.
  pose proof (product_nonneg _ Hdims) as Hnn'.
  pose proof Hb as Hchk. apply checkBroadcastTo_spec in Hchk.
  unfold TensorValue_broadcastTo. rewrite Hchk, (broadcastShapes_spec _ _ Hb). fold rs.
  rewrite bind_unfold, TensorValue_uninit_eq by lia.
  cbn [m_size m_data].
  set (st1 := mkState (mem st ++ [Some (replicate (Z.to_nat (product rs)) Indet)]) (nodes st)).
  assert (Hs1 : mem st1 !! m_data t = Some (Some src))
    by (cbn; rewrite lookup_app_l by exact Hsrc; exact Hbuf).
  assert (Hd1 : mem st1 !! length (mem st) = Some (Some (replicate (Z.to_nat (product rs)) Indet)))
    by (cbn [st1 mem]; apply lookup_snoc_length).
  unfold Device_broadcastTo, broadcastToGeneric, for_range.
  rewrite bind_unfold.
  destruct (decide (product rs = 0)) as [Hz|Hnz].
  - exists (mkTensorValue (m_dType t) (length (mem st)) (product rs) rs (computeStrides rs) (m_device t)), [].
    subst st1. rewrite Hz.
    change (Z.to_nat 0) with 0%nat. cbn [for_loop replicate]. rewrite !ret_unfold.
    split; [reflexivity|]. do 4 (split; [reflexivity|]). split.
    + constructor; cbn [m_shape m_size m_strides m_data]; auto; try lia.
      exists []. cbn [mem]. rewrite lookup_snoc_length. auto.
    + cbn [m_size]. intros; lia.
  - assert (Hpos : Forall (fun d => 0 < d) rs) by (apply product_pos_dims; [auto|lia]).
    unfold checkBroadcastTo in Hchk.
    destruct (Nat.ltb_spec (length s) (length (m_shape t))) as [|Hlen]; [discriminate|].
    assert (Hfit : checkBroadcastTo_from (rev (m_shape t)) (rev rs) = true)
      by (unfold rs, broadcast_shape; rewrite rev_involutive;
          apply broadcast_dims_fits; exact Hchk).
    assert (Hlr : (length (m_shape t) <= length rs)%nat)
      by (unfold rs, broadcast_shape;
          rewrite length_rev, broadcast_dims_length, length_rev; exact Hlen).
    assert (Htr : forall i,
              translationIndex i (m_shape t) rs = Some (translated (m_shape t) rs i)
              /\ 0 <= translated (m_shape t) rs i < product (m_shape t))
      by (intros i; apply translationIndex_range; auto; lia).
    rewrite (for_loop_ext _ _ _
               (fun i => x ← load (m_data t) (translated (m_shape t) rs i);
                         store (length (mem st)) (id i) x))
      by (intros i st' Hi; apply broadcastToGeneric_body, Htr).
    destruct (copy_loop_spec (m_data t) (length (mem st)) id
                (translated (m_shape t) rs) src ltac:(lia)
                (Z.to_nat (product rs)) 0 st1 _ Hs1 Hd1)
      as (buf' & Hrun & Hlen' & Hcopy & _).
    + intros i Hi. destruct (Htr i) as [_ Hr]. lia.
    + intros i Hi. rewrite length_replicate. unfold id. lia.
    + intros i j Hi Hj. unfold id. auto.
    + rewrite length_replicate in Hlen'.
      exists (mkTensorValue (m_dType t) (length (mem st)) (product rs) rs (computeStrides rs) (m_device t)), buf'.
      rewrite Hrun. unfold st1. rewrite write_buf_last, ret_unfold.
      split; [reflexivity|]. do 4 (split; [reflexivity|]). split.
      * constructor; cbn [m_shape m_size m_strides m_data]; auto; try lia.
        exists buf'. cbn [mem]. rewrite lookup_snoc_length. auto.
      * cbn [m_size m_shape]. intros i Hi. apply (Hcopy i). lia.
Qed.

(** C5, as stated, does not hold: the shapes [[2,3]] and [[1,3]] satisfy the
    two-sided rule (3 = 3, and one side of the pair (2, 1) is 1), and
    [broadcastTo({1,3})] on a tensor of shape [[2,3]] throws. *)
Lemma broadcastTo_smaller_target_throws :
  pairwise_equal_or_one [2; 3] [1; 3]
  /\ broadcastTo_scenario [1; 3] empty_state
     = Throw (invalid_argument TargetShapeNotBroadcastable)
         (state_after (broadcastTo_scenario [1; 3])).
Proof.
  split.
  - unfold pairwise_equal_or_one. cbn.
    constructor; [right; right; reflexivity|].
    constructor; [left; reflexivity|constructor].
  - vm_compute. reflexivity.
Qed.

(** C5 (amended): for a tensor value [t] that satisfies the invariants of
    the data model and a target shape [s], [t.broadcastTo(s)] succeeds
    exactly when [s] has at least as many dimensions as the shape of [t]
    and, the shapes compared right-aligned, each dimension of [t] is the
    dimension of [s] or is 1 (missing leading dimensions of [t] counting as
    1).  Then, the broadcast shape having fewer than [2^31] elements, the
    call returns a tensor in a fresh buffer, with the broadcast shape (which
    is [s] when no dimension of [s] is zero), the strides of a contiguous
    tensor and the dtype and device of [t], and the store is otherwise
    unchanged.  When the rule does not hold the call throws
    [invalid_argument] and the store is unchanged. *)
Theorem broadcastTo_iff_broadcastable (st : State) (t : TensorValue) (s : Shape) :
  wf_value st t ->
  Forall (fun d => 0 <= d) s ->
  (broadcastable_to (m_shape t) s ->
   product (broadcast_shape (m_shape t) s) < 2 ^ 31 ->
   exists r buf,
     TensorValue_broadcastTo t s st = Ok r (mkState (mem st ++ [Some buf]) (nodes st))
     /\ mem st !! m_data r = None
     /\ m_shape r = broadcast_shape (m_shape t) s
     /\ (Forall (fun d => 0 < d) s -> m_shape r = s)
     /\ m_strides r = computeStrides (m_shape r)
     /\ m_size r = product (m_shape r)
     /\ length buf = Z.to_nat (m_size r)
     /\ m_dType r = m_dType t /\ m_device r = m_device t)
  /\ (~ broadcastable_to (m_shape t) s ->
      TensorValue_broadcastTo t s st
      = Throw (invalid_argument TargetShapeNotBroadcastable) st).
Proof.
  intros Hwf Hs. split.
  - intros Hb Hsmall.
    destruct (wf_value_contents _ _ Hwf) as (src & Hc & _).
    destruct (TensorValue_broadcastTo_spec st t s src Hwf Hc Hb Hs Hsmall)
      as (r & buf & Hrun & Hdata & Hshape & Hty & Hdev & Hwf' & _).
    exists r, buf. split; [exact Hrun|].
    split; [rewrite Hdata; apply lookup_ge_None_2; lia|].
    split; [exact Hshape|].
    split; [intros Hp; rewrite Hshape; apply broadcast_shape_target; assumption|].
    split; [apply Hwf'|]. split; [apply Hwf'|].
    split; [|split; assumption].
    destruct Hwf' as [_ _ _ _ (b & Hb' & Hl)].
    cbn [mem] in Hb'. rewrite Hdata, lookup_snoc_length in Hb'. congruence.
  - intros Hn. unfold TensorValue_broadcastTo.
    destruct (checkBroadcastTo (m_shape t) s) eqn:E; [|reflexivity].
    apply checkBroadcastTo_spec in E. contradiction.
Qed.

(** A 2 x 3 tensor: [broadcastTo({2,2,3})] returns and [broadcastTo({1,3})]
    throws. *)
Lemma broadcastTo_iff_broadcastable_witness :
  wf_value matrix_2x3_state matrix_2x3
  /\ (exists r buf,
        TensorValue_broadcastTo matrix_2x3 [2; 2; 3] matrix_2x3_state
          = Ok r (mkState (mem matrix_2x3_state ++ [Some buf]) (nodes matrix_2x3_state))
        /\ m_shape r = [2; 2; 3])
  /\ TensorValue_broadcastTo matrix_2x3 [1; 3] matrix_2x3_state
     = Throw (invalid_argument TargetShapeNotBroadcastable) matrix_2x3_state.
Proof.
  split; [exact matrix_2x3_wf|].
  split.
  - destruct (broadcastTo_iff_broadcastable matrix_2x3_state matrix_2x3 [2; 2; 3])
      as [H _]; [exact matrix_2x3_wf|repeat constructor; lia|].
    destruct H as (r & buf & Hrun & _ & Hshape & _).
    + apply checkBroadcastTo_spec. reflexivity.
    + reflexivity.
    + exists r, buf. split; [exact Hrun|exact Hshape].
  - destruct (broadcastTo_iff_broadcastable matrix_2x3_state matrix_2x3 [1; 3])
      as [_ H]; [exact matrix_2x3_wf|repeat constructor; lia|].
    apply H. intros Hb. apply checkBroadcastTo_spec in Hb. discriminate.
Defined.

(** ** The two-sided rule *)

Lemma bc_mismatch_false dim1 dim2 :
  bc_mismatch dim1 dim2 = false <-> dim1 = dim2 \/ dim1 = 1 \/ dim2 = 1.
Proof.
  unfold bc_mismatch.
  destruct (Z.eqb_spec dim1 dim2), (Z.eqb_spec dim1 1), (Z.eqb_spec dim2 1); cbn;
    intuition congruence.
Qed.

Lemma checkBroadcastShapes_rest_true r2 : checkBroadcastShapes_rest r2 = true.
Proof.
  induction r2 as [|d r2 IH]; [reflexivity|]. cbn [checkBroadcastShapes_rest].
  replace (bc_mismatch 1 d) with false; [exact IH|].
  symmetry. apply bc_mismatch_false. auto.
Qed.

(** The loop of [checkBroadcastShapes] on reversed shapes compares them
    completed with dimensions [1] at the end. *)
Lemma checkBroadcastShapes_from_spec r1 : forall r2,
  checkBroadcastShapes_from r1 r2 = true <->
  Forall2 (fun d1 d2 => d1 = d2 \/ d1 = 1 \/ d2 = 1)
    (r1 ++ replicate (Nat.max (length r1) (length r2) - length r1) 1)
    (r2 ++ replicate (Nat.max (length r1) (length r2) - length r2) 1).
Proof.
  induction r1 as [|a r1 IH]; intros r2.
  - cbn [checkBroadcastShapes_from]. rewrite checkBroadcastShapes_rest_true.
    cbn [length app]. rewrite Nat.max_0_l, Nat.sub_0_r, Nat.sub_diag. cbn [replicate].
    rewrite app_nil_r. split; [intros _|reflexivity].
    induction r2; cbn; constructor; auto.
  - cbn [checkBroadcastShapes_from].
    destruct r2 as [|b r2]; cbn [hd tl].
    + specialize (IH []). cbn [length] in *.
      rewrite Nat.max_0_r, Nat.sub_diag, Nat.sub_0_r in *. cbn [app replicate] in *.
      rewrite app_nil_r in *.
      replace (bc_mismatch a 1) with false by (symmetry; apply bc_mismatch_false; auto).
      rewrite IH. split; [intros H; constructor; auto|intros H; inversion H; assumption].
    + specialize (IH r2). cbn [length]. rewrite <- Nat.succ_max_distr.
      cbn [Nat.sub app].
      destruct (bc_mismatch a b) eqn:E.
      * split; [discriminate|]. intros H. inversion H as [|? ? ? ? Hab _]; subst.
        apply bc_mismatch_false in Hab. congruence.
      * apply bc_mismatch_false in E. rewrite IH.
        split; [intros H; constructor; auto|intros H; inversion H; assumption].
Qed.

Lemma rev_replicate {A} (n : nat) (x : A) : rev (replicate n x) = replicate n x.
Proof.
  induction n as [|n IH]; [reflexivity|]. cbn [replicate rev]. rewrite IH.
  clear IH. induction n as [|n IH]; [reflexivity|]. cbn. rewrite IH. reflexivity.
Qed.

(** [checkBroadcastShapes] decides the two-sided rule. *)
Lemma checkBroadcastShapes_spec shape1 shape2 :
  checkBroadcastShapes shape1 shape2 = true <-> pairwise_equal_or_one shape1 shape2.
Proof.
  unfold checkBroadcastShapes, pairwise_equal_or_one, right_aligned. cbv zeta.
  rewrite checkBroadcastShapes_from_spec, !length_rev.
  rewrite <- (Forall2_rev_iff _ (_ ++ shape1) (_ ++ shape2)).
  rewrite !rev_app_distr, !rev_replicate. reflexivity.
Qed.

(** * The seed of a backward pass *)



Lemma memcpy_size T size :
  0 <= size < 2 ^ 31 -> wrap (size * dataTypeSize T) / dataTypeSize T = size.
Proof.
  intros H. rewrite wrap_small by (destruct T; cbn; lia).
  apply Z.div_mul. destruct T; cbn; lia.
Qed.


Lemma bc_mismatch_refl d : bc_mismatch d d = false.
Proof. unfold bc_mismatch. rewrite Z.eqb_refl. reflexivity. Qed.




Lemma checkBroadcastShapes_from_refl r : checkBroadcastShapes_from r r = true.
Proof.
  induction r as [|d r IH]; [reflexivity|].
  cbn [checkBroadcastShapes_from hd tl]. rewrite bc_mismatch_refl. exact IH.
Qed.



Lemma get_node_eq st p node : nodes st !! p = Some node -> get_node p st = Ok node st.
Proof. intros H. unfold get_node. rewrite H. reflexivity. Qed.

Lemma Tensor_node_eq st p node :
  nodes st !! p = Some node -> Tensor_node (Some p) st = Ok (p, node) st.
Proof.
  intros H. unfold Tensor_node. cbn [deref].
  rewrite bind_unfold, ret_unfold, (bind_Ok _ _ _ _ _ (get_node_eq _ _ _ H)). reflexivity.
Qed.






(** With other sinks a call of [backward] that fails may have changed the
    grad of a leaf before it fails: for [z = matmul(x, y)] with [x] of shape
    [[2,3]] and [y] of shape [[3,4]], [z.backward(1, {1,4})] adds
    [seed * y^T] to the grad of [x] and then throws for [x^T * seed]. *)
Lemma backward_matmul_partial_update :
  returned (matmul_backward_scenario [1; 4] empty_state)
  = Some (Some (invalid_argument InnerDimensionsDoNotMatch),
          ([2; 3], Some (floats [10; 26; 42; 10; 26; 42])),
          ([3; 4], Some (floats [0; 0; 0; 0; 0; 0; 0; 0; 0; 0; 0; 0]))).
Proof. vm_compute. reflexivity. Qed.

(** With a parent that is not a leaf the seed may be reduced to the shape
    of a grandparent, and the call returns whatever the seed shape is: for
    [z = (a + b).transpose(0, 1)] with [a] and [b] of shape [[2,3]],
    [z.backward(1, {5,7})] throws nothing and leaves [35] in the first
    element of the grad of [a]. *)
Lemma backward_non_leaf_parent_accepted :
  returned (sum_transpose_backward_scenario [5; 7] empty_state)
  = Some (None, ([2; 3], Some (floats [35; 0; 0; 0; 0; 0]))).
Proof. vm_compute. reflexivity. Qed.

(** * The Metal backend: batching and dtype validation *)

Module MetalFacts.
Import Metal.

Lemma G_bind_unfold {A B} (m : G A) (f : A -> G B) (s : DeviceMetal) :
  (m ≫= f) s =
    match m s with
    | Done a s' => f a s'
    | Raise e s' => Raise e s'
    | Fault => Fault
    end.
Proof. reflexivity. Qed.

Lemma G_ret_unfold {A} (a : A) (s : DeviceMetal) : (mret a : G A) s = Done a s.
Proof. reflexivity. Qed.

(** ** The pipeline table *)

Lemma m_compFuncPSO_ok name d : kernel_dtype_ok (m_compFuncPSO name d).
Proof.
  unfold m_compFuncPSO. destruct (bool_decide_reflect (d = kFloat64)); cbn; auto.
Qed.

Lemma m_compFuncPSO2_ok name i j : kernel_dtype_ok (m_compFuncPSO2 name i j).
Proof.
  unfold m_compFuncPSO2.
  destruct (bool_decide_reflect (i = kFloat64)), (bool_decide_reflect (j = kFloat64));
    cbn; auto.
Qed.

(** ** Rules *)

Section Rules.

Variable cfg : Config.
Hypothesis MAX_pos : 0 < MAX_CMD_BATCH_SIZE cfg < 2 ^ 64.

#[local] Abbreviation hoare := (Metal.hoare cfg).
#[local] Abbreviation Inv := (Metal.Inv cfg).

Lemma hoare_ret {A} (P : DeviceMetal -> Prop) (a : A) : hoare P (mret a) (fun _ => P).
Proof. intros s H. exact H. Qed.

Lemma hoare_bind {A B} P (m : G A) Q (f : A -> G B) R :
  hoare P m Q -> (forall a, hoare (Q a) (f a) R) -> hoare P (m ≫= f) R.
Proof.
  intros Hm Hf s HP. rewrite G_bind_unfold. specialize (Hm s HP).
  destruct (m s) as [a s'| |]; auto. apply (Hf a s' Hm).
Qed.

Lemma hoare_raise {A} e (Q : A -> DeviceMetal -> Prop) : hoare (Inv 0) (raise e) Q.
Proof. intros s H. exact H. Qed.

Lemma hoare_fault {A} P (Q : A -> DeviceMetal -> Prop) : hoare P fault Q.
Proof. intros s H. exact I. Qed.

Lemma hoare_get P : hoare P get (fun _ => P).
Proof. intros s H. exact H. Qed.

(** An operation that reads the state, or changes fields the invariant does
    not mention. *)
Lemma hoare_frame {A} (m : G A) k :
  (forall s, match m s with
             | Done _ s' =>
                 trace s' = trace s /\ m_currentBatchSize s' = m_currentBatchSize s
                 /\ m_committedCmdBuffer s' = m_committedCmdBuffer s
                 /\ m_allocMap s' = m_allocMap s /\ buffers s' = buffers s
             | Raise _ s' => k = 0 /\ s' = s
             | Fault => True
             end) ->
  hoare (Inv k) m (fun _ => Inv k).
Proof.
  intros Hm s H. specialize (Hm s). destruct (m s) as [a s'|e s'|]; auto.
  - destruct Hm as (Ht & Hc & Hcm & Ha & Hb), H as [H1 H2 H3 H4 H5 H6 H7 H8].
    constructor; rewrite ?Ht, ?Hc, ?Hcm; auto.
    unfold allocMap_valid. rewrite Ha, Hb. exact H8.
  - destruct Hm as [-> ->]. exact H.
Qed.

Lemma hoare_validateDataType d : hoare (Inv 0) (validateDataType d) (fun _ => Inv 0).
Proof.
  apply hoare_frame. intros s. unfold validateDataType.
  destruct (decide (d = kFloat64)); cbn; auto.
Qed.

Lemma hoare_isDeviceBuffer p k : hoare (Inv k) (isDeviceBuffer p) (fun _ => Inv k).
Proof. apply hoare_frame. intros s. cbn. auto. Qed.

Lemma hoare_push_tempBuffer b k : hoare (Inv k) (push_tempBuffer b) (fun _ => Inv k).
Proof. apply hoare_frame. intros s. cbn. auto. Qed.

Lemma hoare_requireDeviceBuffer p : hoare (Inv 0) (requireDeviceBuffer p) (fun _ => Inv 0).
Proof.
  apply hoare_frame. intros s. unfold requireDeviceBuffer, isDeviceBuffer.
  rewrite G_bind_unfold. destruct (bool_decide _); cbn; auto.
Qed.

Lemma hoare_freeTemporaryBuffer b k : hoare (Inv k) (freeTemporaryBuffer b) (fun _ => Inv k).
Proof.
  apply hoare_frame. intros s. destruct b as [b|]; cbn; auto.
  unfold isDeviceBuffer. rewrite G_bind_unfold. destruct (bool_decide _); cbn; auto.
Qed.

Lemma hoare_deallocate p : hoare (Inv 0) (deallocate p) (fun _ => Inv 0).
Proof.
  apply hoare_frame. intros s. unfold deallocate, isDeviceBuffer.
  rewrite G_bind_unfold. destruct (bool_decide _); cbn; auto.
Qed.

Lemma hoare_allocatedSize b k : hoare (Inv k) (allocatedSize b) (fun _ => Inv k).
Proof.
  apply hoare_frame. intros s. unfold allocatedSize. destruct (buffers s !! b); auto.
Qed.

Lemma hoare_rows_cols a k : hoare (Inv k) (rows_cols a) (fun _ => Inv k).
Proof.
  apply hoare_frame. intros s. unfold rows_cols.
  destruct (shape a !! 0%nat), (shape a !! 1%nat); cbn; auto.
Qed.

Lemma hoare_read_dim v dim k : hoare (Inv k) (read_dim v dim) (fun _ => Inv k).
Proof.
  apply hoare_frame. intros s. unfold read_dim.
  destruct v; cbn; auto. destruct (_ <=? _); cbn; auto.
Qed.

(** ** Events *)

Lemma inflight_filter_length c (l : list nat) :
  (length (filter (fun c' => c' ≠ c) l) <= length l)%nat.
Proof. apply length_filter. Qed.

Lemma at_most_one_inflight_length tr :
  at_most_one_inflight tr -> (length (inflight tr) <= 1)%nat.
Proof. destruct tr; [cbn; lia|intros [H _]; exact H]. Qed.

Ltac solve_inv :=
  constructor; cbn; auto using at_most_one_inflight_length;
  try (apply List.Forall_cons; cbn; auto).

Lemma hoare_emit_fallback k f : hoare (Inv k) (emit (CpuFallback f)) (fun _ => Inv k).
Proof.
  intros s [H1 H2 H3 H4 H5 H6 H7 H8]. cbn.
  solve_inv.
Qed.

Lemma hoare_dispatch kern :
  kernel_dtype_ok kern -> hoare (Inv 0) (dispatch kern) (fun _ => Inv 1).
Proof.
  intros Hk s [H1 H2 H3 H4 H5 H6 H7 H8]. cbn.
  solve_inv. rewrite H1. lia.
Qed.

(** The wait of [synchronize] for the committed command buffer. *)
Lemma hoare_emit_wait c : hoare (Inv 0) (emit (WaitUntilCompleted c)) (fun _ => Inv 0).
Proof.
  intros s [H1 H2 H3 H4 H5 H6 H7 H8]. cbn.
  solve_inv.
  - split; [|exact H3].
    etransitivity; [apply inflight_filter_length|].
    apply at_most_one_inflight_length, H3.
  - intros c' Hc'. apply list_elem_of_filter in Hc' as [_ Hc']. auto.
Qed.

(** ** Commits *)

Lemma filter_ne_all (c : nat) (l : list nat) :
  (forall x, x ∈ l -> x = c) -> filter (fun c' => c' ≠ c) l = [].
Proof.
  induction l as [|a l IH]; intros H; [reflexivity|].
  rewrite filter_cons. destruct (decide (a ≠ c)) as [Hne|_].
  - exfalso. apply Hne, H. left.
  - apply IH. intros x Hx. apply H. right. exact Hx.
Qed.

(** The state after [commit] in a state with a batch counter other than
    zero. *)
Lemma Inv_commit s :
  at_most_one_inflight (trace s) ->
  commits_wait_first (trace s) ->
  last_commit (trace s) = m_committedCmdBuffer s ->
  (forall c, c ∈ inflight (trace s) -> m_committedCmdBuffer s = Some c) ->
  Forall event_ok (trace s) ->
  allocMap_valid s ->
  Inv 0 (mkDeviceMetal
           (filter (fun p => p ∉ m_tempBuffers s) (m_allocMap s)) [] (buffers s) 0
           (Z.max (m_currentBatchSize s) (m_maxBatchSize s)) 0
           (Some (m_cmdBuffer s)) (S (m_cmdBuffer s))
           (Commit (m_cmdBuffer s) ::
              match m_committedCmdBuffer s with
              | Some c => WaitUntilCompleted c :: trace s
              | None => trace s
              end)).
Proof.
  intros H3 H4 H5 H6 H7 H8.
  pose proof (at_most_one_inflight_length _ H3) as Hlen.
  assert (Hfl : forall c, m_committedCmdBuffer s = Some c ->
                  filter (fun c' => c' ≠ c) (inflight (trace s)) = []).
  { intros c Hc. apply filter_ne_all. intros x Hx. apply H6 in Hx. congruence. }
  assert (Hnone : m_committedCmdBuffer s = None -> inflight (trace s) = []).
  { intros Hc. destruct (inflight (trace s)) as [|x l] eqn:E; [reflexivity|].
    specialize (H6 x ltac:(left)). congruence. }
  constructor; cbn [trace m_currentBatchSize m_committedCmdBuffer m_allocMap buffers
                    encoded last_commit].
  - reflexivity.
  - lia.
  - destruct (m_committedCmdBuffer s) as [c|] eqn:Hc; cbn.
    + rewrite (Hfl c eq_refl). cbn. repeat split; auto; lia.
    + rewrite (Hnone eq_refl). cbn. split; [lia|exact H3].
  - destruct (m_committedCmdBuffer s) as [c|] eqn:Hc; cbn.
    + rewrite H5. split; [eexists; reflexivity|exact H4].
    + rewrite H5. split; [exact I|exact H4].
  - reflexivity.
  - intros c Hc'. destruct (m_committedCmdBuffer s) as [c0|] eqn:Hc; cbn in Hc'.
    + rewrite (Hfl c0 eq_refl) in Hc'. apply list_elem_of_singleton in Hc'. congruence.
    + rewrite (Hnone eq_refl) in Hc'. apply list_elem_of_singleton in Hc'. congruence.
  - apply List.Forall_cons; [exact I|].
    destruct (m_committedCmdBuffer s); [apply List.Forall_cons; [exact I|]|]; exact H7.
  - intros b Hb. apply list_elem_of_filter in Hb as [_ Hb]. apply H8. exact Hb.
Qed.

Lemma hoare_commit : hoare (Inv 0) commit (fun _ => Inv 0).
Proof.
  intros s H. unfold commit.
  destruct (Z.eqb_spec (m_currentBatchSize s) 0); [exact H|].
  apply Inv_commit; apply H.
Qed.

(** After [commit] the batch counter is zero. *)
Lemma commit_counter s :
  exists s', commit s = Done tt s' /\ m_currentBatchSize s' = 0.
Proof.
  unfold commit. destruct (Z.eqb_spec (m_currentBatchSize s) 0).
  - exists s. auto.
  - eexists. split; reflexivity.
Qed.

Lemma commitBatchQueue_eq s :
  commitBatchQueue cfg s =
    let s1 := mkDeviceMetal (m_allocMap s) (m_tempBuffers s) (buffers s)
                (wrap (m_currentBatchSize s + 1)) (m_maxBatchSize s)
                (m_currentWorkingSetSize s) (m_committedCmdBuffer s)
                (m_cmdBuffer s) (trace s) in
    if MAX_CMD_BATCH_SIZE cfg <=? wrap (m_currentBatchSize s + 1)
    then commit s1 else Done tt s1.
Proof.
  unfold commitBatchQueue. rewrite G_bind_unfold. cbn [get]. rewrite G_bind_unfold. cbn [put].
  cbv zeta. destruct (MAX_CMD_BATCH_SIZE cfg <=? wrap (m_currentBatchSize s + 1)); reflexivity.
Qed.

(** [commitBatchQueue] counts the pending dispatch, and commits when the
    counter has reached [MAX_CMD_BATCH_SIZE]. *)
Lemma hoare_commitBatchQueue : hoare (Inv 1) (commitBatchQueue cfg) (fun _ => Inv 0).
Proof.
  intros s H. pose proof H as [H1 H2 H3 H4 H5 H6 H7 H8].
  rewrite commitBatchQueue_eq. cbv zeta.
  assert (Hw : wrap (m_currentBatchSize s + 1) = m_currentBatchSize s + 1)
    by (unfold wrap; apply Z.mod_small; lia).
  rewrite Hw.
  destruct (Z.leb_spec (MAX_CMD_BATCH_SIZE cfg) (m_currentBatchSize s + 1)).
  - unfold commit. cbn [m_currentBatchSize].
    destruct (Z.eqb_spec (m_currentBatchSize s + 1) 0); [lia|].
    cbv beta iota.
    apply (Inv_commit (mkDeviceMetal (m_allocMap s) (m_tempBuffers s) (buffers s)
                         (m_currentBatchSize s + 1) (m_maxBatchSize s)
                         (m_currentWorkingSetSize s) (m_committedCmdBuffer s)
                         (m_cmdBuffer s) (trace s))); auto.
  - cbn. constructor; cbn; auto; lia.
Qed.

Lemma hoare_synchronize : hoare (Inv 0) synchronize (fun _ => Inv 0).
Proof.
  unfold synchronize.
  eapply hoare_bind; [apply hoare_commit|]. intros u.
  eapply hoare_bind; [apply hoare_get|]. intros s.
  destruct (m_committedCmdBuffer s); [apply hoare_emit_wait|apply hoare_fault].
Qed.

(** ** Buffers *)

Lemma allocMap_valid_snoc s (b : list nat) n :
  (forall x, x ∈ b -> is_Some (buffers s !! x)) ->
  forall x, x ∈ b -> is_Some ((buffers s ++ [n]) !! x).
Proof.
  intros H x Hx. destruct (H x Hx) as [y Hy]. exists y.
  apply lookup_app_l_Some. exact Hy.
Qed.

(** [newBuffer] returns a buffer of the device. *)
Lemma hoare_newBuffer n :
  hoare (Inv 0) (newBuffer cfg n) (fun b s => Inv 0 s /\ is_Some (buffers s !! b)).
Proof.
  intros s H. unfold newBuffer. cbv zeta.
  rewrite G_bind_unfold. cbn [get]. rewrite G_bind_unfold. cbn [put].
  set (s1 := mkDeviceMetal _ _ _ _ _ _ _ _ _).
  assert (H1 : Inv 0 s1) by (destruct H; constructor; auto).
  rewrite G_bind_unfold.
  assert (Hc : match (if maxWorkingSetSize cfg <=? wrap (m_currentWorkingSetSize s1 * 2)
                      then commit else mret tt) s1 with
               | Done _ s2 => Inv 0 s2
               | _ => False
               end).
  { destruct (_ <=? _); [|exact H1].
    pose proof (hoare_commit s1 H1) as Hc.
    destruct (commit_counter s1) as (s2 & E & _). rewrite E in *. exact Hc. }
  cbn [m_currentWorkingSetSize s1] in Hc.
  destruct ((if _ <=? _ then commit else mret tt) s1) as [u s2| |]; try contradiction.
  rewrite G_bind_unfold. cbn [get]. rewrite G_bind_unfold. cbn [put].
  rewrite G_ret_unfold. split.
  - destruct Hc as [C1 C2 C3 C4 C5 C6 C7 C8]. constructor; auto.
    unfold allocMap_valid. cbn [m_allocMap buffers].
    apply allocMap_valid_snoc. exact C8.
  - cbn [buffers]. exists (if n <? vm_page_size cfg
                           then align n (ALLOCATION_BYTE_ALIGNMENT_SIZE cfg)
                           else align n (vm_page_size cfg)).
    rewrite lookup_app_r by lia. rewrite Nat.sub_diag. reflexivity.
Qed.


Lemma hoare_post {A} P (m : G A) (Q Q' : A -> DeviceMetal -> Prop) :
  hoare P m Q -> (forall a s, Q a s -> Q' a s) -> hoare P m Q'.
Proof.
  intros Hm HQ s HP. specialize (Hm s HP). destruct (m s); auto.
Qed.

Lemma hoare_newBuffer_Inv n : hoare (Inv 0) (newBuffer cfg n) (fun _ => Inv 0).
Proof. eapply hoare_post; [apply hoare_newBuffer|]. intros b s [H _]. exact H. Qed.

Lemma hoare_allocate n : hoare (Inv 0) (allocate cfg n) (fun _ => Inv 0).
Proof.
  intros s H. unfold allocate. rewrite G_bind_unfold.
  pose proof (hoare_newBuffer n s H) as Hn.
  destruct (newBuffer cfg n s) as [b s1|e s1|]; auto.
  destruct Hn as [[C1 C2 C3 C4 C5 C6 C7 C8] Hb].
  rewrite G_bind_unfold. cbn [get]. rewrite G_bind_unfold. cbn [put]. rewrite G_ret_unfold.
  constructor; auto.
  intros x Hx. cbn [m_allocMap buffers] in *.
  apply elem_of_cons in Hx as [->|Hx]; [exact Hb|apply C8; exact Hx].
Qed.

Lemma hoare_allocate_dtype n d : hoare (Inv 0) (allocate_dtype cfg n d) (fun _ => Inv 0).
Proof. apply hoare_allocate. Qed.

Lemma hoare_getReadOnlyMTLBuffer address n sizeofType alignSize :
  hoare (Inv 0) (getReadOnlyMTLBuffer cfg address n sizeofType alignSize) (fun _ => Inv 0).
Proof.
  unfold getReadOnlyMTLBuffer.
  eapply hoare_bind; [apply hoare_isDeviceBuffer|]. intros [|]; cbv beta.
  - apply hoare_ret.
  - apply hoare_newBuffer_Inv.
Qed.

Lemma hoare_readOnly a : hoare (Inv 0) (readOnly cfg a) (fun _ => Inv 0).
Proof. apply hoare_getReadOnlyMTLBuffer. Qed.

Lemma hoare_readOnlyVector n : hoare (Inv 0) (readOnlyVector cfg n) (fun _ => Inv 0).
Proof. apply hoare_newBuffer_Inv. Qed.

Lemma hoare_readOnlyVector_opt n : hoare (Inv 0) (readOnlyVector_opt cfg n) (fun _ => Inv 0).
Proof.
  unfold readOnlyVector_opt. destruct (n =? 0); [apply hoare_ret|].
  eapply hoare_bind; [apply hoare_readOnlyVector|]. intros b. apply hoare_ret.
Qed.

(** ** The ops *)

Ltac hoare_prim :=
  first
    [ apply hoare_validateDataType | apply hoare_requireDeviceBuffer
    | apply hoare_isDeviceBuffer | apply hoare_freeTemporaryBuffer
    | apply hoare_deallocate | apply hoare_allocatedSize
    | apply hoare_rows_cols | apply hoare_read_dim
    | apply hoare_readOnly | apply hoare_readOnlyVector_opt | apply hoare_readOnlyVector
    | apply hoare_getReadOnlyMTLBuffer | apply hoare_allocate
    | apply hoare_commitBatchQueue | apply hoare_commit | apply hoare_synchronize
    | apply hoare_emit_fallback
    | apply hoare_dispatch; auto using m_compFuncPSO_ok, m_compFuncPSO2_ok
    | apply hoare_raise | apply hoare_fault | apply hoare_ret ].

Ltac hoare_with tac :=
  repeat
    (cbv beta;
     match goal with
     | |- Metal.hoare _ _ (if ?c then _ else _) _ => destruct c
     | |- Metal.hoare _ _ (match ?c with _ => _ end ≫= _) _ => destruct c
     | |- Metal.hoare _ _ (let '(_, _) := ?p in _) _ => destruct p
     | |- Metal.hoare _ _ (_ ≫= _) _ => eapply hoare_bind; [|intros ?]
     | |- _ => first [tac | hoare_prim]
     end).

Ltac hoare_auto := hoare_with fail.

Lemma hoare_executeDoubleArrayCmd a res k :
  kernel_dtype_ok k -> hoare (Inv 0) (executeDoubleArrayCmd cfg a res k) (fun _ => Inv 0).
Proof. intros Hk. unfold executeDoubleArrayCmd. hoare_auto. Qed.

Lemma hoare_executeTripleArrayCmd a1 a2 res k :
  kernel_dtype_ok k -> hoare (Inv 0) (executeTripleArrayCmd cfg a1 a2 res k) (fun _ => Inv 0).
Proof. intros Hk. unfold executeTripleArrayCmd. hoare_auto. Qed.

Lemma hoare_copy src sd dst dd n : hoare (Inv 0) (copy cfg src sd dst dd n) (fun _ => Inv 0).
Proof. unfold copy. hoare_auto. Qed.

Lemma hoare_copyImmediate src sd dst dd n :
  hoare (Inv 0) (copyImmediate cfg src sd dst dd n) (fun _ => Inv 0).
Proof.
  unfold copyImmediate. eapply hoare_bind; [apply hoare_copy|]. intros u. apply hoare_synchronize.
Qed.

Lemma hoare_fill scalar d res : hoare (Inv 0) (fill cfg scalar d res) (fun _ => Inv 0).
Proof. unfold fill. hoare_auto. Qed.

Lemma hoare_fillMin res : hoare (Inv 0) (fillMin cfg res) (fun _ => Inv 0).
Proof. unfold fillMin. hoare_auto. Qed.

Lemma hoare_reduction_loop fuel : forall len k maxThreadsPerTG,
  kernel_dtype_ok k ->
  hoare (Inv 0) (reduction_loop cfg fuel len k maxThreadsPerTG) (fun _ => Inv 0).
Proof.
  induction fuel as [|fuel IH]; intros len k maxThreadsPerTG Hk; cbn [reduction_loop].
  - apply hoare_ret.
  - destruct (0 <? len); [|apply hoare_ret].
    eapply hoare_bind; [apply hoare_dispatch; exact Hk|]. intros u.
    eapply hoare_bind; [apply hoare_commitBatchQueue|]. intros u'.
    destruct (maxThreadsPerTG =? 0); [apply hoare_fault|apply IH; exact Hk].
Qed.

(** The fuel of [reduction]: [length] decreases at each turn of the loop, so
    the loop has ended when the fuel is used up, and more fuel changes
    nothing. *)
Lemma reduction_loop_fuel fuel : forall extra len k maxThreadsPerTG s,
  len <= Z.of_nat fuel ->
  reduction_loop cfg (fuel + extra) len k maxThreadsPerTG s
  = reduction_loop cfg fuel len k maxThreadsPerTG s.
Proof.
  induction fuel as [|fuel IH]; intros extra len k m s Hlen.
  - cbn [Nat.add reduction_loop]. destruct extra; [reflexivity|].
    cbn [reduction_loop]. destruct (Z.ltb_spec 0 len); [lia|reflexivity].
  - cbn [Nat.add reduction_loop].
    destruct (Z.ltb_spec 0 len); [|reflexivity].
    rewrite !G_bind_unfold. destruct (dispatch k s) as [u s1| |]; try reflexivity.
    rewrite !G_bind_unfold. destruct (commitBatchQueue cfg s1) as [u' s2| |]; try reflexivity.
    destruct (Z.eqb_spec m 0); [reflexivity|].
    apply IH.
    destruct (Z.lt_total m 0) as [Hm|[Hm|Hm]]; [|lia|].
    + assert ((len - 1) / m <= 0); [|lia].
      rewrite <- (Z.div_opp_opp (len - 1) m) by lia.
      apply Z.div_le_upper_bound; lia.
    + assert ((len - 1) / m <= len - 1); [|lia].
      apply Z.div_le_upper_bound; nia.
Qed.

Lemma hoare_reduction a k :
  kernel_dtype_ok k -> hoare (Inv 0) (reduction cfg a k) (fun _ => Inv 0).
Proof. intros Hk. apply hoare_reduction_loop. exact Hk. Qed.

Lemma hoare_sum a res : hoare (Inv 0) (sum cfg a res) (fun _ => Inv 0).
Proof.
  unfold sum. cbv zeta.
  hoare_with ltac:(first [apply hoare_copy | apply hoare_reduction, m_compFuncPSO_ok]).
Qed.

Lemma hoare_max a res : hoare (Inv 0) (max cfg a res) (fun _ => Inv 0).
Proof.
  unfold max. cbv zeta.
  hoare_with ltac:(first [apply hoare_copy | apply hoare_reduction, m_compFuncPSO_ok]).
Qed.

Lemma hoare_argmax a res : hoare (Inv 0) (argmax a res) (fun _ => Inv 0).
Proof. unfold argmax. hoare_auto. Qed.

Lemma hoare_argmaxIndices a res : hoare (Inv 0) (argmaxIndices a res) (fun _ => Inv 0).
Proof. unfold argmaxIndices. hoare_auto. Qed.

Lemma hoare_matmul a b res : hoare (Inv 0) (matmul cfg a b res) (fun _ => Inv 0).
Proof. unfold matmul. cbv zeta. hoare_auto. Qed.

Lemma hoare_transpose2D mat res : hoare (Inv 0) (transpose2D cfg mat res) (fun _ => Inv 0).
Proof. unfold transpose2D. cbv zeta. hoare_auto. Qed.

Lemma hoare_transpose a res dim0 dim1 :
  hoare (Inv 0) (transpose cfg a res dim0 dim1) (fun _ => Inv 0).
Proof.
  unfold transpose. cbv zeta.
  destruct (_ && _); [apply hoare_transpose2D|]. hoare_auto.
Qed.

Lemma hoare_contiguous src dst : hoare (Inv 0) (contiguous cfg src dst) (fun _ => Inv 0).
Proof. unfold contiguous. hoare_auto. Qed.

Lemma hoare_translation src dst n sh newShape k d :
  kernel_dtype_ok k ->
  hoare (Inv 0) (translation cfg src dst n sh newShape k d) (fun _ => Inv 0).
Proof.
  intros Hk. unfold translation. cbv zeta.
  eapply hoare_bind; [apply hoare_validateDataType|]. intros u.
  eapply hoare_bind; [apply hoare_requireDeviceBuffer|]. intros u'.
  destruct (_ && _); [apply hoare_copy|]. hoare_auto.
Qed.

Lemma hoare_reduceTo src dst : hoare (Inv 0) (reduceTo cfg src dst) (fun _ => Inv 0).
Proof.
  unfold reduceTo.
  eapply hoare_bind; [apply hoare_validateDataType|]. intros u.
  destruct (is_f32_i32 _); [apply hoare_translation, m_compFuncPSO_ok|]. hoare_auto.
Qed.

Lemma hoare_maxTo src dst : hoare (Inv 0) (maxTo cfg src dst) (fun _ => Inv 0).
Proof.
  unfold maxTo.
  eapply hoare_bind; [apply hoare_validateDataType|]. intros u.
  destruct (is_f32_i32 _); [apply hoare_translation, m_compFuncPSO_ok|]. hoare_auto.
Qed.

Lemma hoare_argmaxTo src dst dim : hoare (Inv 0) (argmaxTo src dst dim) (fun _ => Inv 0).
Proof. unfold argmaxTo. hoare_auto. Qed.

Lemma hoare_argmaxIndicesTo src dst dim :
  hoare (Inv 0) (argmaxIndicesTo src dst dim) (fun _ => Inv 0).
Proof. unfold argmaxIndicesTo. hoare_auto. Qed.

Lemma hoare_sliceSet src dst dim start end_ step :
  hoare (Inv 0) (sliceSet cfg src dst dim start end_ step) (fun _ => Inv 0).
Proof. unfold sliceSet. hoare_auto. Qed.

Lemma hoare_tri name dst : hoare (Inv 0) (tri cfg name dst) (fun _ => Inv 0).
Proof. unfold tri. hoare_auto. Qed.

Lemma hoare_indexSelect src dst indices dim :
  hoare (Inv 0) (indexSelect cfg src dst indices dim) (fun _ => Inv 0).
Proof. unfold indexSelect. hoare_auto. Qed.

Lemma hoare_indexAdd src dst indices dim :
  hoare (Inv 0) (indexAdd cfg src dst indices dim) (fun _ => Inv 0).
Proof. unfold indexAdd. hoare_auto. Qed.

(** Every public method keeps the invariant, whether it returns or throws. *)
Lemma hoare_run c : hoare (Inv 0) (run cfg c) (fun _ => Inv 0).
Proof.
  destruct c; cbn [run].
  - eapply hoare_bind; [apply hoare_allocate|]. intros b. apply hoare_ret.
  - eapply hoare_bind; [apply hoare_allocate_dtype|]. intros b. apply hoare_ret.
  - apply hoare_deallocate.
  - apply hoare_executeTripleArrayCmd, m_compFuncPSO_ok.
  - apply hoare_executeDoubleArrayCmd, m_compFuncPSO_ok.
  - apply hoare_fill.
  - apply hoare_fillMin.
  - apply hoare_sum.
  - apply hoare_max.
  - apply hoare_argmax.
  - apply hoare_argmaxIndices.
  - apply hoare_matmul.
  - apply hoare_transpose.
  - apply hoare_copy.
  - apply hoare_copyImmediate.
  - apply hoare_contiguous.
  - apply hoare_reduceTo.
  - apply hoare_maxTo.
  - apply hoare_argmaxTo.
  - apply hoare_argmaxIndicesTo.
  - apply hoare_sliceSet.
  - apply hoare_tri.
  - apply hoare_tri.
  - apply hoare_indexSelect.
  - apply hoare_indexAdd.
  - apply hoare_ret.
  - apply hoare_commit.
  - apply hoare_synchronize.
Qed.

Lemma Inv_new : Inv 0 DeviceMetal_new.
Proof.
  constructor; cbn; auto; try lia.
  - intros c Hc. apply elem_of_nil in Hc. contradiction.
  - intros b Hb. apply elem_of_nil in Hb. contradiction.
Qed.

Lemma reachable_Inv s : reachable cfg s -> Inv 0 s.
Proof.
  induction 1 as [|c s s' _ IH Hrun|c s e s' _ IH Hrun].
  - apply Inv_new.
  - pose proof (hoare_run c s IH) as H. rewrite Hrun in H. exact H.
  - pose proof (hoare_run c s IH) as H. rewrite Hrun in H. exact H.
Qed.

End Rules.

Lemma reachable_run_all cfg cs : forall s,
  reachable cfg s -> reachable cfg (run_all cfg cs s).
Proof.
  induction cs as [|c cs IH]; intros s H; cbn [run_all]; [exact H|].
  destruct (run cfg c s) as [[] s'|e s'|] eqn:E; [| |exact H].
  - apply IH. eapply reachable_return; eauto.
  - apply IH. eapply reachable_throw; eauto.
Qed.

(** What [commitBatchQueue] does after a dispatch: below the bound it counts
    the dispatch, at the bound it commits. *)
Lemma commitBatchQueue_spec cfg s :
  0 < MAX_CMD_BATCH_SIZE cfg < 2 ^ 64 ->
  Inv cfg 1 s ->
  exists s', commitBatchQueue cfg s = Done tt s'
    /\ if MAX_CMD_BATCH_SIZE cfg <=? m_currentBatchSize s + 1
       then m_currentBatchSize s' = 0
            /\ exists tr, trace s' = Commit (m_cmdBuffer s) :: tr
       else m_currentBatchSize s' = m_currentBatchSize s + 1 /\ trace s' = trace s.
Proof.
  intros HM [H1 H2 _ _ _ _ _ _]. rewrite commitBatchQueue_eq. cbv zeta.
  assert (Hw : wrap (m_currentBatchSize s + 1) = m_currentBatchSize s + 1)
    by (unfold wrap; apply Z.mod_small; lia).
  rewrite Hw.
  destruct (Z.leb_spec (MAX_CMD_BATCH_SIZE cfg) (m_currentBatchSize s + 1)).
  - unfold commit. cbn [m_currentBatchSize].
    destruct (Z.eqb_spec (m_currentBatchSize s + 1) 0); [lia|].
    eexists. split; [reflexivity|]. cbn. split; [reflexivity|eexists; reflexivity].
  - eexists. split; [reflexivity|]. cbn. auto.
Qed.

(** C9: in every state the device can be in between two calls, the batch
    counter is the number of dispatches encoded since the last commit, so
    every dispatch has been counted and the counter is zero after a commit;
    the counter is below [MAX_CMD_BATCH_SIZE], so a commit has fired each
    time the counter reached it; every commit in the trace comes directly
    after a wait for the command buffer committed before it, when there is
    one; at every point of the trace at most one command buffer is in
    flight; and [commit] leaves the counter at zero. *)
Theorem batching_invariant (cfg : Config) (s : DeviceMetal) :
  0 < MAX_CMD_BATCH_SIZE cfg < 2 ^ 64 ->
  reachable cfg s ->
  m_currentBatchSize s = encoded (trace s)
  /\ 0 <= m_currentBatchSize s < MAX_CMD_BATCH_SIZE cfg
  /\ commits_wait_first (trace s)
  /\ at_most_one_inflight (trace s)
  /\ (length (inflight (trace s)) <= 1)%nat
  /\ exists s', commit s = Done tt s' /\ m_currentBatchSize s' = 0.
Proof.
  intros HM Hr. destruct (reachable_Inv cfg HM s Hr) as [H1 H2 H3 H4 _ _ _ _].
  split; [lia|]. split; [exact H2|]. split; [exact H4|]. split; [exact H3|].
  split; [apply at_most_one_inflight_length; exact H3|apply commit_counter].
Qed.

(** Three dispatches in batches of two, then [synchronize]: the trace
    (newest event first) and the invariant. *)
Lemma batching_invariant_witness :
  trace fillMin_state = [WaitUntilCompleted 1; Commit 1; WaitUntilCompleted 0;
             Dispatch (kernel fillMin_ kFloat32);
             Commit 0;
             Dispatch (kernel fillMin_ kFloat32); Dispatch (kernel fillMin_ kFloat32)]
  /\ m_currentBatchSize fillMin_state = encoded (trace fillMin_state)
  /\ 0 <= m_currentBatchSize fillMin_state < MAX_CMD_BATCH_SIZE small_batch_config
  /\ commits_wait_first (trace fillMin_state)
  /\ at_most_one_inflight (trace fillMin_state)
  /\ (length (inflight (trace fillMin_state)) <= 1)%nat
  /\ exists s', commit fillMin_state = Done tt s' /\ m_currentBatchSize s' = 0.
Proof.
  split; [vm_compute; reflexivity|].
  apply (batching_invariant small_batch_config fillMin_state).
  - cbn. lia.
  - apply reachable_run_all, reachable_new.
Defined.

(** ** Float64 *)

Lemma quiet_refl s : quiet s s.
Proof. exists []. split; [reflexivity|constructor]. Qed.

Lemma quiet_trans s1 s2 s3 : quiet s1 s2 -> quiet s2 s3 -> quiet s1 s3.
Proof.
  intros (e1 & H1 & F1) (e2 & H2 & F2). exists (e2 ++ e1). split.
  - rewrite H2, H1, app_assoc. reflexivity.
  - apply Forall_app. auto.
Qed.

Lemma quiet_same_trace s s' : trace s' = trace s -> quiet s s'.
Proof. intros H. exists []. split; [exact H|constructor]. Qed.

Section Validation.

Variable cfg : Config.

Lemma commit_quiet s :
  exists s', commit s = Done tt s' /\ quiet s s' /\ buffers s' = buffers s
             /\ (forall b, b ∈ m_allocMap s' -> b ∈ m_allocMap s).
Proof.
  unfold commit. destruct (m_currentBatchSize s =? 0).
  - exists s. auto using quiet_refl.
  - eexists. split; [reflexivity|]. cbn [trace buffers m_allocMap]. split; [|split; [reflexivity|]].
    + destruct (m_committedCmdBuffer s) as [c|].
      * exists [Commit (m_cmdBuffer s); WaitUntilCompleted c]. split; [reflexivity|].
        repeat constructor.
      * exists [Commit (m_cmdBuffer s)]. split; [reflexivity|]. repeat constructor.
    + intros b Hb. apply list_elem_of_filter in Hb as [_ Hb]. exact Hb.
Qed.

(** [newBuffer] returns; it may commit, and dispatches nothing. *)
Lemma newBuffer_quiet n s :
  exists b s', newBuffer cfg n s = Done b s' /\ quiet s s'
               /\ is_Some (buffers s' !! b)
               /\ (allocMap_valid s -> allocMap_valid s').
Proof.
  unfold newBuffer. cbv zeta.
  rewrite G_bind_unfold. cbn [get]. rewrite G_bind_unfold. cbn [put].
  set (s1 := mkDeviceMetal _ _ _ _ _ _ _ _ _).
  rewrite G_bind_unfold.
  assert (Hc : exists s2, (if maxWorkingSetSize cfg <=? wrap (m_currentWorkingSetSize s1 * 2)
                           then commit else mret tt) s1 = Done tt s2
                          /\ quiet s s2 /\ buffers s2 = buffers s
                          /\ (forall b, b ∈ m_allocMap s2 -> b ∈ m_allocMap s)).
  { destruct (_ <=? _).
    - destruct (commit_quiet s1) as (s2 & E & Hq & Hb & Ha). exists s2. auto.
    - exists s1. rewrite G_ret_unfold. split; [reflexivity|].
      split; [apply quiet_same_trace; reflexivity|]. auto. }
  cbn [m_currentWorkingSetSize s1] in Hc.
  destruct Hc as (s2 & E & Hq & Hb & Ha). rewrite E.
  rewrite G_bind_unfold. cbn [get]. rewrite G_bind_unfold. cbn [put]. rewrite G_ret_unfold.
  eexists _, _. split; [reflexivity|]. split; [|split].
  - eapply quiet_trans; [exact Hq|]. apply quiet_same_trace. reflexivity.
  - cbn [buffers]. eexists. rewrite lookup_app_r by lia. rewrite Nat.sub_diag. reflexivity.
  - intros Hv b Hb'. cbn [m_allocMap buffers] in *.
    destruct (Hv b (Ha b Hb')) as [x Hx]. exists x.
    apply lookup_app_l_Some. rewrite Hb. exact Hx.
Qed.

Lemma getReadOnlyMTLBuffer_quiet address n sizeofType alignSize s :
  allocMap_valid s ->
  exists b s', getReadOnlyMTLBuffer cfg address n sizeofType alignSize s = Done b s'
               /\ quiet s s' /\ is_Some (buffers s' !! b) /\ allocMap_valid s'.
Proof.
  intros Hv. unfold getReadOnlyMTLBuffer, isDeviceBuffer. rewrite G_bind_unfold.
  destruct (bool_decide_reflect (address ∈ m_allocMap s)) as [Hin|_].
  - exists address, s. rewrite G_ret_unfold. auto using quiet_refl.
  - destruct (newBuffer_quiet (wrap (align n alignSize * sizeofType)) s)
      as (b & s' & E & Hq & Hb & Ha).
    exists b, s'. auto.
Qed.

Lemma allocate_quiet n s :
  allocMap_valid s ->
  exists b s', allocate cfg n s = Done b s' /\ quiet s s' /\ allocMap_valid s'.
Proof.
  intros Hv. unfold allocate. rewrite G_bind_unfold.
  destruct (newBuffer_quiet n s) as (b & s1 & E & Hq & Hb & Ha). rewrite E.
  rewrite G_bind_unfold. cbn [get]. rewrite G_bind_unfold. cbn [put]. rewrite G_ret_unfold.
  eexists _, _. split; [reflexivity|]. split.
  - eapply quiet_trans; [exact Hq|]. apply quiet_same_trace. reflexivity.
  - intros x Hx. cbn [m_allocMap buffers] in *.
    apply elem_of_cons in Hx as [->|Hx]; [exact Hb|apply (Ha Hv); exact Hx].
Qed.

Lemma validateDataType_Float64 s :
  validateDataType kFloat64 s = Raise Float64NotSupported s.
Proof. reflexivity. Qed.

Lemma copy_rejects src sd dst dd n s :
  sd = kFloat64 \/ dd = kFloat64 ->
  copy cfg src sd dst dd n s = Raise Float64NotSupported s.
Proof.
  intros H. unfold copy, validateDataType. rewrite G_bind_unfold.
  destruct (decide (sd = kFloat64)); [reflexivity|]. rewrite G_ret_unfold, G_bind_unfold.
  destruct (decide (dd = kFloat64)); [reflexivity|]. tauto.
Qed.

Lemma requireDeviceBuffer_cases p s :
  requireDeviceBuffer p s = Done tt s \/ requireDeviceBuffer p s = Raise ResultMustHaveGPUMemory s.
Proof.
  unfold requireDeviceBuffer, isDeviceBuffer. rewrite G_bind_unfold.
  destruct (bool_decide _); auto.
Qed.

(** [sum] and [max] reach the [copy] that validates the dtypes after they
    have taken their buffers, and before their first dispatch. *)
Lemma reduction_prologue_rejects a res d1 d2 (rest : nat -> nat -> G unit) n s :
  allocMap_valid s ->
  d1 = kFloat64 \/ d2 = kFloat64 ->
  exists e s',
    (requireDeviceBuffer (data res);;
     buf1 ← readOnly cfg a;
     sz ← allocatedSize buf1;
     bufTemp ← allocate cfg sz;
     copy cfg buf1 d1 bufTemp d2 n;;
     rest buf1 bufTemp) s = Raise e s'
    /\ quiet s s'.
Proof.
  intros Hv Hd. rewrite G_bind_unfold.
  destruct (requireDeviceBuffer_cases (data res) s) as [-> | ->];
    [|eexists _, s; split; [reflexivity|apply quiet_refl]].
  rewrite G_bind_unfold.
  destruct (getReadOnlyMTLBuffer_quiet (data a) (size a) (dataTypeSize (dtype a))
              (defaultAlignSize cfg) s Hv) as (buf1 & s1 & E1 & Hq1 & [sz Hsz] & Hv1).
  unfold readOnly. rewrite E1.
  rewrite G_bind_unfold. unfold allocatedSize at 1. rewrite Hsz.
  rewrite G_bind_unfold.
  destruct (allocate_quiet sz s1 Hv1) as (bufTemp & s2 & E2 & Hq2 & _). rewrite E2.
  rewrite G_bind_unfold, copy_rejects by exact Hd.
  eexists _, s2. split; [reflexivity|eapply quiet_trans; eauto].
Qed.

Lemma sum_rejects a res s :
  allocMap_valid s -> dtype a = kFloat64 \/ dtype res = kFloat64 ->
  exists e s', sum cfg a res s = Raise e s' /\ quiet s s'.
Proof.
  intros Hv Hd. unfold sum. cbv zeta.
  apply (reduction_prologue_rejects a res (dtype a) (dtype res)
           (fun buf1 bufTemp =>
              reduction cfg a (m_compFuncPSO sum_ (dtype res));;
              copy cfg bufTemp (dtype res) (data res) (dtype res) 1;;
              freeTemporaryBuffer (Some buf1);;
              deallocate bufTemp)); assumption.
Qed.

Lemma max_rejects a res s :
  allocMap_valid s -> dtype a = kFloat64 ->
  exists e s', max cfg a res s = Raise e s' /\ quiet s s'.
Proof.
  intros Hv Hd. unfold max. cbv zeta.
  apply (reduction_prologue_rejects a res (dtype a) (dtype a)
           (fun buf1 bufTemp =>
              reduction cfg a (m_compFuncPSO max_ (dtype res));;
              copy cfg bufTemp (dtype a) (data res) (dtype res) 1;;
              freeTemporaryBuffer (Some buf1);;
              deallocate bufTemp)); auto.
Qed.

Ltac rejects_now H :=
  eexists _, _; split; [|apply quiet_refl];
  cbn [run]; unfold binary, unary, executeTripleArrayCmd, executeDoubleArrayCmd, fillMin,
    matmul, transpose2D, contiguous, reduceTo, maxTo, argmaxTo, argmaxIndicesTo,
    sliceSet, tril, triu, tri, indexSelect, indexAdd;
  rewrite H; reflexivity.

(** A call given [kFloat64] as a dtype it validates throws, and dispatches
    nothing before it throws. *)
Lemma validated_Float64_rejects c s :
  allocMap_valid s ->
  kFloat64 ∈ validated c ->
  exists e s', run cfg c s = Raise e s' /\ quiet s s'.
Proof.
  intros Hv Hin.
  destruct c; cbn [validated] in Hin;
    repeat match goal with
           | H : _ ∈ [] |- _ => apply elem_of_nil in H; contradiction
           | H : _ ∈ _ :: _ |- _ => apply elem_of_cons in H as [H|H]; [symmetry in H|]
           end;
    try solve [rejects_now Hin];
    try solve [apply sum_rejects; auto | apply max_rejects; auto];
    try solve [eexists _, _; split; [|apply quiet_refl]; cbn [run];
               apply copy_rejects; auto];
    try solve [eexists _, _; split; [|apply quiet_refl]; cbn [run];
               unfold copyImmediate; rewrite G_bind_unfold, copy_rejects by auto;
               reflexivity].
  - (* fill, the dtype of the result *)
    eexists _, _. split; [|apply quiet_refl]. cbn [run]. unfold fill, validateDataType.
    rewrite G_bind_unfold. destruct (decide (scalarDType = kFloat64)); [reflexivity|].
    rewrite Hin. reflexivity.
  - (* transpose *)
    cbn [run]. unfold transpose, transpose2D.
    destruct (_ && _); [|destruct (16 <? _)];
      (eexists _, _; split; [|apply quiet_refl]); try rewrite Hin; reflexivity.
Qed.

(** [synchronize], when a command buffer has been committed or a dispatch
    is encoded: it returns, nothing is in flight afterwards, and the batch
    is empty. *)
Lemma synchronize_spec s :
  0 < MAX_CMD_BATCH_SIZE cfg < 2 ^ 64 ->
  Inv cfg 0 s ->
  is_Some (m_committedCmdBuffer s) \/ m_currentBatchSize s <> 0 ->
  exists s', synchronize s = Done tt s' /\ quiet s s'
             /\ inflight (trace s') = [] /\ m_currentBatchSize s' = 0
             /\ Inv cfg 0 s'.
Proof.
  intros HM HI Hw. unfold synchronize. rewrite G_bind_unfold.
  destruct (commit_quiet s) as (s1 & E & Hq & _). rewrite E.
  assert (HI1 : Inv cfg 0 s1).
  { unfold commit in E. destruct (Z.eqb_spec (m_currentBatchSize s) 0).
    - injection E as <-. exact HI.
    - injection E as <-. apply (Inv_commit cfg HM); apply HI. }
  assert (Hc : exists c, m_committedCmdBuffer s1 = Some c /\ m_currentBatchSize s1 = 0).
  { unfold commit in E. destruct (Z.eqb_spec (m_currentBatchSize s) 0) as [Hz|Hz].
    - injection E as <-. destruct Hw as [[c Hc]|]; [eauto|contradiction].
    - injection E as <-. cbn. eauto. }
  destruct Hc as (c & Hc & Hz).
  rewrite G_bind_unfold. cbn [get]. rewrite Hc. cbn [emit].
  eexists. split; [reflexivity|]. cbn [trace m_currentBatchSize].
  assert (Hfl : filter (fun c' => c' ≠ c) (inflight (trace s1)) = []).
  { apply filter_ne_all. intros x Hx. apply (inv_committed _ _ _ HI1) in Hx. congruence. }
  split; [|split; [|split]].
  - eapply quiet_trans; [exact Hq|].
    exists [WaitUntilCompleted c]. split; [reflexivity|repeat constructor].
  - cbn [inflight]. exact Hfl.
  - exact Hz.
  - pose proof (hoare_emit_wait cfg c s1 HI1) as H. exact H.
Qed.

(** The fallback of [argmax] and [argmaxIndices]. *)
Lemma fallback_spec f s :
  0 < MAX_CMD_BATCH_SIZE cfg < 2 ^ 64 ->
  Inv cfg 0 s ->
  is_Some (m_committedCmdBuffer s) \/ m_currentBatchSize s <> 0 ->
  exists s' tr,
    (synchronize;; emit (CpuFallback f)) s = Done tt s' /\ quiet s s'
    /\ trace s' = CpuFallback f :: tr /\ inflight tr = []
    /\ m_currentBatchSize s' = 0.
Proof.
  intros HM HI Hw. destruct (synchronize_spec s HM HI Hw) as (s1 & E & Hq & Hfl & Hz & _).
  rewrite G_bind_unfold, E. cbn [emit]. eexists _, _. split; [reflexivity|].
  cbn [trace m_currentBatchSize]. split; [|auto].
  eapply quiet_trans; [exact Hq|].
  exists [CpuFallback f]. split; [reflexivity|repeat constructor].
Qed.

End Validation.

(** Outside the contract of the element-wise kernels, which take operands
    of one dtype: [add] with a first operand of dtype [kFloat64] and a result
    of dtype [kFloat32] validates the dtype of the result only, and
    dispatches the [kFloat32] kernel. *)
Lemma add_f64_operand_dispatches : ~ f64_operand_never_dispatches sample_config.
Proof.
  intros H.
  destruct (run sample_config
              (call_binary op_add (params 7 kFloat64 [4] 4) (params 8 kFloat32 [4] 4)
                 (params 0 kFloat32 [4] 4)) allocated_state) as [[] s'| |] eqn:E;
    pose proof E as E'; vm_compute in E'; try discriminate.
  injection E' as E'. apply H in E.
  - destruct E as (evs & Ht & Hf). subst s'.
    replace (trace allocated_state) with (@nil Event) in Ht by (vm_compute; reflexivity).
    rewrite app_nil_r in Ht. cbn in Ht. subst evs.
    inversion Hf as [|? ? Hd _]. discriminate Hd.
  - apply (reachable_run_all sample_config [call_allocate_dtype 4 kFloat32]), reachable_new.
  - cbn. left.
Qed.

(** [max] takes its pipeline from the dtype of the result and validates the
    dtype of the source before the reduction: with a [kFloat32] source of
    two elements and a [kFloat64] result it dispatches the copy and then the
    stub, and only then throws. *)
Lemma max_f64_result_dispatches_stub :
  exists s',
    run sample_config (call_max (params 7 kFloat32 [2] 2) (params 0 kFloat64 [] 1))
      allocated_state = Raise Float64NotSupported s'
    /\ trace s' = [Dispatch nullKernel; Dispatch (kernel2 copy_ kFloat32 kFloat32)].
Proof. eexists. split; vm_compute; reflexivity. Qed.

(** What the device does with [kFloat64] in every state it can reach, for
    a positive batch limit: every entry of the pipeline tables for
    [kFloat64] is the null-kernel stub, and no trace of the device has a
    dispatch of a kernel compiled for [kFloat64].  An op validates the
    dtype of its result (element-wise ops, [fillMin], [matmul],
    [transpose], [tril], [triu]), of
    its source ([max], [contiguous], [reduceTo], [maxTo], [argmaxTo],
    [argmaxIndicesTo], [sliceSet], [indexSelect], [indexAdd]) or both dtypes
    it is given ([copy], [copyImmediate], [fill], [sum]): called with
    [kFloat64] there, it throws, and dispatches nothing before it throws.
    The dtypes of the other operands are not checked.  [argmax] and
    [argmaxIndices] validate no dtype: they throw when the result is not
    [kInt32], and otherwise, when a kernel has been encoded or a command
    buffer has been committed before, synchronize, after which no command
    buffer is in flight and the batch is empty, and run the CPU
    implementation. *)
Lemma float64_rejected_or_fallback (cfg : Config) (c : Call) (s : DeviceMetal) :
  0 < MAX_CMD_BATCH_SIZE cfg < 2 ^ 64 ->
  reachable cfg s ->
  (forall name, m_compFuncPSO name kFloat64 = nullKernel)
  /\ (forall name d, m_compFuncPSO2 name kFloat64 d = nullKernel
                     /\ m_compFuncPSO2 name d kFloat64 = nullKernel)
  /\ Forall event_ok (trace s)
  /\ (kFloat64 ∈ validated c ->
      exists e s', run cfg c s = Raise e s' /\ quiet s s')
  /\ (forall a res f,
        c = call_argmax a res /\ f = cpu_argmax
        \/ c = call_argmaxIndices a res /\ f = cpu_argmaxIndices ->
        (dtype res <> kInt32 -> run cfg c s = Raise ArgmaxSupportsOnlyInt32Result s)
        /\ (dtype res = kInt32 ->
            is_Some (m_committedCmdBuffer s) \/ m_currentBatchSize s <> 0 ->
            exists s' tr,
              run cfg c s = Done tt s' /\ quiet s s'
              /\ trace s' = CpuFallback f :: tr /\ inflight tr = []
              /\ m_currentBatchSize s' = 0)).
Proof.
  intros HM Hr. pose proof (reachable_Inv cfg HM s Hr) as HI.
  split; [reflexivity|].
  split; [intros name d; split; [reflexivity|]; unfold m_compFuncPSO2;
          destruct (bool_decide (d = kFloat64)); reflexivity|].
  split; [apply HI|].
  split; [apply validated_Float64_rejects, HI|].
  intros a res f [[-> ->]|[-> ->]]; cbn [run]; unfold argmax, argmaxIndices;
    (split; [intros Hne; destruct (decide (dtype res = kInt32)); [contradiction|reflexivity]|]);
    intros He Hw; destruct (decide (dtype res = kInt32)); try contradiction;
    apply (fallback_spec cfg); assumption.
Qed.

(** [sqrt] with a [kFloat64] result on a device with one buffer. *)
Lemma float64_rejected_or_fallback_witness :
  (exists e s',
     run sample_config (call_unary op_sqrt (params 7 kFloat64 [4] 4) (params 0 kFloat64 [4] 4))
       allocated_state = Raise e s'
     /\ quiet allocated_state s')
  /\ Forall event_ok (trace allocated_state).
Proof.
  destruct (float64_rejected_or_fallback sample_config
              (call_unary op_sqrt (params 7 kFloat64 [4] 4) (params 0 kFloat64 [4] 4))
              allocated_state) as (_ & _ & Hk & Hrej & _).
  - cbn. lia.
  - apply (reachable_run_all sample_config [call_allocate_dtype 4 kFloat32]), reachable_new.
  - split; [|exact Hk]. apply Hrej. cbn. left.
Defined.


End MetalFacts.

(** * Further properties of the tensor library *)

#[local] Arguments product : simpl never.

(** ** Shapes, strides and indices *)

(** X1: the element count the constructors compute with [std::accumulate]
    from the [int] [1] is the product of the dimensions truncated to an
    [int] and converted back to [size_t]; it is the product when the product
    is below [2^31]. *)
Theorem element_count_truncated (shape : Shape) :
  shape_size shape = of_int (to_int (product shape))
  /\ (0 <= product shape < 2 ^ 31 -> shape_size shape = product shape)
  /\ (2 ^ 31 <= product shape < 2 ^ 32 ->
      shape_size shape = product shape + (2 ^ 64 - 2 ^ 32)).
Proof.
  split; [unfold shape_size; rewrite accumulate_mul_product; reflexivity|].
  split; [apply shape_size_product|].
  intros H. unfold shape_size. rewrite accumulate_mul_product.
  unfold to_int, of_int.
  replace ((product shape + 2 ^ 31) mod 2 ^ 32) with (product shape + 2 ^ 31 - 2 ^ 32).
  - rewrite <- (Z.mod_add _ 1) by lia.
    rewrite Z.mod_small by lia. lia.
  - symmetry. rewrite <- (Z.mod_add _ (-1)) by lia. apply Z.mod_small. lia.
Qed.

(** X2: for a shape of positive dimensions with fewer than [2^64] elements,
    [computeStrides] gives the strides of a contiguous row-major tensor: the
    stride of a dimension is the product of the dimensions after it. *)
Theorem computeStrides_row_major (shape : Shape) :
  Forall (fun d => 0 < d) shape ->
  product shape < 2 ^ 64 ->
  computeStrides shape = strides_of shape
  /\ length (computeStrides shape) = length shape
  /\ (shape <> [] -> computeStrides shape !! (length shape - 1)%nat = Some 1).
Proof.
  intros Hd Hp. rewrite (computeStrides_strides_of shape Hd Hp).
  split; [reflexivity|]. split; [apply strides_of_length|].
  clear. induction shape as [|d [|d' shape] IH]; intros Hne; [contradiction|reflexivity|].
  replace (length (d :: d' :: shape) - 1)%nat with (S (length (d' :: shape) - 1))
    by (cbn [length]; lia).
  cbn [strides_of lookup list_lookup]. apply IH. discriminate.
Qed.

(** The strides of a 2 x 3 x 4 tensor. *)
Lemma computeStrides_row_major_witness :
  computeStrides [2; 3; 4] = [12; 4; 1]
  /\ length (computeStrides [2; 3; 4]) = 3%nat
  /\ ([2; 3; 4] <> [] -> computeStrides [2; 3; 4] !! 2%nat = Some 1).
Proof.
  apply (computeStrides_row_major [2; 3; 4]).
  - repeat constructor; lia.
  - reflexivity.
Defined.

(** X3: on the strides of a contiguous tensor of positive dimensions,
    [unflattenIndex] and [flattenIndex] are inverse of each other: a flat
    index inside the tensor is unflattened without a division by zero into a
    multi-index inside the shape that flattens back to it, and a
    multi-index inside the shape flattens to an index inside the tensor that
    unflattens back to it. *)
Theorem flatten_unflatten_round_trip (shape : Shape) :
  Forall (fun d => 0 < d) shape ->
  product shape < 2 ^ 64 ->
  (forall i, 0 <= i < product shape ->
     exists indices,
       unflattenIndex i (computeStrides shape) = Some indices
       /\ inside indices shape
       /\ flattenIndex indices (computeStrides shape) = Some i)
  /\ (forall indices, inside indices shape ->
     exists i,
       flattenIndex indices (computeStrides shape) = Some i
       /\ 0 <= i < product shape
       /\ unflattenIndex i (computeStrides shape) = Some indices).
Proof.
  intros Hd Hp. rewrite (computeStrides_strides_of shape Hd Hp). split.
  - intros i Hi. exists (digits i shape).
    split; [apply unflattenIndex_digits; exact Hd|].
    pose proof (digits_inside shape i Hd Hi) as Hin.
    split; [exact Hin|].
    rewrite flattenIndex_flat by (auto; lia). rewrite flat_digits by assumption. reflexivity.
  - intros indices Hin. exists (flat indices shape).
    split; [apply flattenIndex_flat; auto; lia|].
    split; [apply flat_range; exact Hin|].
    rewrite unflattenIndex_digits by exact Hd. rewrite digits_flat by exact Hin. reflexivity.
Qed.

(** Index 17 of a 2 x 3 x 4 tensor is the multi-index (1, 1, 1). *)
Lemma flatten_unflatten_round_trip_witness :
  unflattenIndex 17 (computeStrides [2; 3; 4]) = Some [1; 1; 1]
  /\ flattenIndex [1; 1; 1] (computeStrides [2; 3; 4]) = Some 17.
Proof.
  destruct (flatten_unflatten_round_trip [2; 3; 4]) as [H _].
  - repeat constructor; lia.
  - reflexivity.
  - destruct (H 17) as (indices & Hu & _ & Hf); [split; [lia|reflexivity]|].
    assert (indices = [1; 1; 1]) as -> by (vm_compute in Hu; congruence).
    split; [exact Hu|exact Hf].
Defined.

Lemma bc_mismatch_comm dim1 dim2 : bc_mismatch dim1 dim2 = bc_mismatch dim2 dim1.
Proof.
  unfold bc_mismatch. rewrite (Z.eqb_sym dim1 dim2).
  destruct (dim2 =? dim1), (dim1 =? 1), (dim2 =? 1); reflexivity.
Qed.

Lemma checkBroadcastShapes_from_nil_r r1 :
  checkBroadcastShapes_from r1 [] = checkBroadcastShapes_rest r1.
Proof.
  induction r1 as [|d r1 IH]; [reflexivity|].
  cbn [checkBroadcastShapes_from checkBroadcastShapes_rest hd tl].
  rewrite bc_mismatch_comm, IH. reflexivity.
Qed.

Lemma checkBroadcastShapes_from_comm r1 : forall r2,
  checkBroadcastShapes_from r1 r2 = checkBroadcastShapes_from r2 r1.
Proof.
  induction r1 as [|d1 r1 IH]; intros r2.
  - rewrite checkBroadcastShapes_from_nil_r. reflexivity.
  - destruct r2 as [|d2 r2]; [apply checkBroadcastShapes_from_nil_r|].
    cbn [checkBroadcastShapes_from hd tl]. rewrite bc_mismatch_comm, IH. reflexivity.
Qed.

(** X4: [checkBroadcastShapes] decides the two-sided broadcast rule (the
    shapes right-aligned, missing leading dimensions counted as 1, each pair
    of dimensions is equal or has a 1), and does not depend on the order of
    its two arguments. *)
Theorem checkBroadcastShapes_decides (shape1 shape2 : Shape) :
  (checkBroadcastShapes shape1 shape2 = true <-> pairwise_equal_or_one shape1 shape2)
  /\ checkBroadcastShapes shape1 shape2 = checkBroadcastShapes shape2 shape1.
Proof.
  split; [apply checkBroadcastShapes_spec|].
  unfold checkBroadcastShapes. apply checkBroadcastShapes_from_comm.
Qed.

Lemma broadcast_max_nil_r r : broadcast_max r [] = map (Z.max 1) r.
Proof.
  induction r as [|d r IH]; [reflexivity|].
  cbn [broadcast_max map]. rewrite IH, Z.max_comm. reflexivity.
Qed.

Lemma broadcast_max_comm r1 : forall r2, broadcast_max r1 r2 = broadcast_max r2 r1.
Proof.
  induction r1 as [|d1 r1 IH]; intros r2.
  - rewrite broadcast_max_nil_r. reflexivity.
  - destruct r2 as [|d2 r2].
    + rewrite broadcast_max_nil_r. cbn [broadcast_max map].
      rewrite Z.max_comm. reflexivity.
    + cbn [broadcast_max]. rewrite IH, Z.max_comm. reflexivity.
Qed.

Lemma broadcast_max_diag r : broadcast_max r r = r.
Proof.
  induction r as [|d r IH]; [reflexivity|].
  cbn [broadcast_max]. rewrite IH, Z.max_id. reflexivity.
Qed.

Lemma broadcastShapes_rest_max r2 : forall acc,
  broadcastShapes_rest r2 acc =
  if checkBroadcastShapes_rest r2 then Some (acc ++ map (Z.max 1) r2) else None.
Proof.
  induction r2 as [|d r2 IH]; intros acc.
  - cbn. rewrite app_nil_r. reflexivity.
  - cbn [broadcastShapes_rest checkBroadcastShapes_rest map].
    destruct (bc_mismatch 1 d); [reflexivity|].
    rewrite IH, <- app_assoc. reflexivity.
Qed.

Lemma broadcastShapes_from_max r1 : forall r2 acc,
  broadcastShapes_from r1 r2 acc =
  if checkBroadcastShapes_from r1 r2 then Some (acc ++ broadcast_max r1 r2) else None.
Proof.
  induction r1 as [|d1 r1 IH]; intros r2 acc.
  - apply broadcastShapes_rest_max.
  - cbn [broadcastShapes_from checkBroadcastShapes_from].
    destruct r2 as [|d2 r2]; cbn [hd tl broadcast_max];
      (destruct (bc_mismatch d1 _); [reflexivity|]);
      rewrite IH, <- app_assoc; reflexivity.
Qed.

(** X5: [broadcastShapes] throws exactly when [checkBroadcastShapes]
    rejects the pair; otherwise it returns, right-aligned, the larger
    dimension of each pair (a missing dimension counting as 1).  It is
    symmetric in its two arguments, and a shape broadcast with itself is
    that shape. *)
Theorem broadcastShapes_max (shape1 shape2 : Shape) :
  broadcastShapes shape1 shape2 =
    (if checkBroadcastShapes shape1 shape2
     then Some (rev (broadcast_max (rev shape1) (rev shape2))) else None)
  /\ broadcastShapes shape1 shape2 = broadcastShapes shape2 shape1
  /\ broadcastShapes shape1 shape1 = Some shape1.
Proof.
  assert (Heq : forall s1 s2, broadcastShapes s1 s2 =
    if checkBroadcastShapes s1 s2
    then Some (rev (broadcast_max (rev s1) (rev s2))) else None).
  { intros s1 s2. unfold broadcastShapes, checkBroadcastShapes.
    rewrite broadcastShapes_from_max.
    destruct (checkBroadcastShapes_from (rev s1) (rev s2)); reflexivity. }
  split; [apply Heq|]. split.
  - rewrite !Heq. unfold checkBroadcastShapes.
    rewrite checkBroadcastShapes_from_comm, broadcast_max_comm. reflexivity.
  - rewrite Heq. unfold checkBroadcastShapes.
    rewrite checkBroadcastShapes_from_refl, broadcast_max_diag, rev_involutive.
    reflexivity.
Qed.

Lemma fits_product_le src : forall rest,
  Forall2 fits src rest -> Forall (fun d => 0 < d) rest ->
  0 < product src <= product rest.
Proof.
  induction src as [|a src IH]; intros rest H Hp.
  - apply Forall2_nil_inv_l in H as ->. rewrite product_nil. lia.
  - apply Forall2_cons_inv_l in H as (b & rest' & Hf & H & ->).
    apply Forall_cons_1 in Hp as [Hb Hp]. specialize (IH _ H Hp).
    rewrite !product_cons. destruct Hf as [->| ->]; nia.
Qed.

(** X6: when [shape] can be broadcast to [newShape] (one-sided rule), the
    target dimensions are positive and the target has fewer than [2^64]
    elements, [translationIndex] maps every target index to an index inside
    the source tensor, without a division by zero. *)
Theorem translationIndex_inside_source (index : Z) (shape newShape : Shape) :
  broadcastable_to shape newShape ->
  Forall (fun d => 0 < d) newShape ->
  product newShape < 2 ^ 64 ->
  exists k, translationIndex index shape newShape = Some k /\ 0 <= k < product shape.
Proof.
  intros Hb Hp Hn.
  assert (Hs : product shape <= product newShape).
  { pose proof Hb as Hb'. apply broadcastable_to_split in Hb' as (lead & rest & -> & H).
    apply Forall_app in Hp as [Hl Hr].
    pose proof (fits_product_le _ _ H Hr). pose proof (product_pos _ Hl).
    rewrite product_app. nia. }
  pose proof Hb as [Hlen _]. apply checkBroadcastTo_spec in Hb.
  unfold checkBroadcastTo in Hb.
  destruct (Nat.ltb_spec (length newShape) (length shape)); [discriminate|].
  destruct (translationIndex_range index shape newShape Hb Hlen Hp Hn) as [He Hr]; [lia|].
  eexists. split; [exact He|exact Hr].
Qed.

(** Index 4 of a 2 x 3 target read from a 1 x 3 source. *)
Lemma translationIndex_inside_source_witness :
  exists k, translationIndex 4 [1; 3] [2; 3] = Some k /\ 0 <= k < product [1; 3].
Proof.
  apply (translationIndex_inside_source 4 [1; 3] [2; 3]).
  - split; [simpl; lia|]. vm_compute.
    constructor; [right; reflexivity|]. constructor; [left; reflexivity|constructor].
  - repeat constructor; lia.
  - reflexivity.
Defined.

Lemma translationIndex_from_same index r : forall ts,
  Forall (fun d => 0 < d) r ->
  0 < ts -> ts * product r < 2 ^ 64 ->
  translationIndex_from index r r (index mod ts) ts ts = Some (index mod (ts * product r)).
Proof.
  induction r as [|n r IH]; intros ts Hp Hts Hb.
  - cbn [translationIndex_from]. rewrite product_nil, Z.mul_1_r. reflexivity.
  - apply Forall_cons_1 in Hp as [Hn Hp]. rewrite product_cons in *.
    pose proof (product_pos _ Hp) as Hpr.
    assert (Htn : ts * n <= ts * n * product r)
      by (rewrite <- (Z.mul_1_r (ts * n)) at 1; apply Z.mul_le_mono_nonneg_l; nia).
    cbn [translationIndex_from].
    replace (ts =? 0) with false by (symmetry; apply Z.eqb_neq; lia).
    replace (n =? 0) with false by (symmetry; apply Z.eqb_neq; lia).
    cbn [orb]. rewrite Z.eqb_refl.
    pose proof (Z.mod_pos_bound (index / ts) n Hn) as Hd.
    pose proof (Z.mod_pos_bound index ts Hts) as Ho.
    rewrite (wrap_small (_ * ts)) by nia.
    rewrite (wrap_small (ts * n)) by nia.
    assert (Hm : index mod (ts * n) = index mod ts + (index / ts) mod n * ts)
      by (rewrite Z.rem_mul_r by lia; ring).
    rewrite <- Hm.
    rewrite wrap_small by (pose proof (Z.mod_pos_bound index (ts * n)); nia).
    rewrite IH by (auto; nia). f_equal. f_equal. ring.
Qed.

(** X7: broadcasting a shape to itself translates every index inside the
    tensor to itself: for positive dimensions and fewer than [2^64]
    elements, [translationIndex index shape shape] is [index] reduced modulo
    the element count. *)
Theorem translationIndex_same_shape (index : Z) (shape : Shape) :
  Forall (fun d => 0 < d) shape ->
  product shape < 2 ^ 64 ->
  translationIndex index shape shape = Some (index mod product shape)
  /\ (0 <= index < product shape -> translationIndex index shape shape = Some index).
Proof.
  intros Hp Hb.
  assert (He : translationIndex index shape shape = Some (index mod product shape)).
  { unfold translationIndex.
    rewrite <- (Z.mod_1_r index) at 1.
    rewrite translationIndex_from_same.
    - rewrite Z.mul_1_l, product_rev. reflexivity.
    - apply Forall_rev_iff. exact Hp.
    - lia.
    - rewrite product_rev. lia. }
  split; [exact He|]. intros Hi. rewrite He, Z.mod_small by exact Hi. reflexivity.
Qed.

(** Index 7 of a 2 x 3 tensor wraps to index 1. *)
Lemma translationIndex_same_shape_witness :
  translationIndex 7 [2; 3] [2; 3] = Some (7 mod product [2; 3])
  /\ (0 <= 7 < product [2; 3] -> translationIndex 7 [2; 3] [2; 3] = Some 7).
Proof.
  apply (translationIndex_same_shape 7 [2; 3]).
  - repeat constructor; lia.
  - reflexivity.
Defined.

(** ** The element-wise kernels *)

Lemma write_buf_id st p buf : mem st !! p = Some (Some buf) -> write_buf st p buf = st.
Proof.
  intros H. unfold write_buf. destruct st as [m ns]; cbn in *.
  rewrite list_insert_id; [reflexivity|exact H].
Qed.

(** The buffer at [q] after a store to index [k] of the buffer at [p]. *)
Lemma lookup_after_store st p q (k : nat) c bp bq :
  mem st !! p = Some (Some bp) -> mem st !! q = Some (Some bq) ->
  exists bq', mem (write_buf st p (<[k := c]> bp)) !! q = Some (Some bq')
              /\ length bq' = length bq
              /\ (forall j : nat, j <> k -> bq' !! j = bq !! j).
Proof.
  intros Hp Hq. destruct (decide (p = q)) as [->|ne].
  - exists (<[k := c]> bp). rewrite write_buf_lookup by (eapply lookup_lt_Some; eauto).
    assert (bq = bp) as -> by congruence.
    split; [reflexivity|]. split; [apply length_insert|].
    intros j Hj. apply list_lookup_insert_ne. congruence.
  - exists bq. rewrite write_buf_lookup_ne by exact ne. auto.
Qed.

(** The loop of the binary kernels; [result] may be one of the operands. *)
Lemma binary_loop_spec (op : cell -> cell -> cell) (a1 a2 result : nat) n :
  forall i0 st b1 b2 br,
  mem st !! a1 = Some (Some b1) ->
  mem st !! a2 = Some (Some b2) ->
  mem st !! result = Some (Some br) ->
  0 <= i0 ->
  i0 + Z.of_nat n <= Z.of_nat (length b1) ->
  i0 + Z.of_nat n <= Z.of_nat (length b2) ->
  i0 + Z.of_nat n <= Z.of_nat (length br) ->
  exists br',
    for_loop n i0 (fun i => x ← load a1 i; y ← load a2 i; store result i (op x y)) st
      = Ok tt (write_buf st result br')
    /\ length br' = length br
    /\ (forall (k : nat) x y, i0 <= Z.of_nat k < i0 + Z.of_nat n ->
          b1 !! k = Some x -> b2 !! k = Some y -> br' !! k = Some (op x y))
    /\ (forall k : nat, ~ i0 <= Z.of_nat k < i0 + Z.of_nat n -> br' !! k = br !! k).
Proof.
  induction n as [|n IH]; intros i0 st b1 b2 br H1 H2 Hr H0 Hl1 Hl2 Hlr.
  - exists br. cbn [for_loop]. rewrite ret_unfold, write_buf_id by exact Hr.
    split; [reflexivity|]. split; [reflexivity|]. split; [intros; lia|reflexivity].
  - cbn [for_loop]. rewrite bind_unfold.
    destruct (lookup_lt_is_Some_2 b1 (Z.to_nat i0) ltac:(lia)) as [x Hx].
    destruct (lookup_lt_is_Some_2 b2 (Z.to_nat i0) ltac:(lia)) as [y Hy].
    rewrite bind_unfold, (load_eq _ _ _ _ _ H1 Hx).
    rewrite bind_unfold, (load_eq _ _ _ _ _ H2 Hy).
    rewrite (store_eq _ _ _ _ _ Hr) by lia.
    set (br1 := <[Z.to_nat i0 := op x y]> br).
    destruct (lookup_after_store st result a1 (Z.to_nat i0) (op x y) br b1 Hr H1)
      as (b1' & H1' & Hlen1 & Hk1).
    destruct (lookup_after_store st result a2 (Z.to_nat i0) (op x y) br b2 Hr H2)
      as (b2' & H2' & Hlen2 & Hk2).
    destruct (IH (i0 + 1) (write_buf st result br1) b1' b2' br1 H1' H2')
      as (br' & Hrun & Hlen & Hval & Hkeep); try lia.
    + apply write_buf_lookup. eapply lookup_lt_Some; eauto.
    + unfold br1. rewrite length_insert. lia.
    + exists br'. rewrite Hrun, write_buf_write_buf.
      split; [reflexivity|]. split; [rewrite Hlen; apply length_insert|]. split.
      * intros k x' y' Hk Hx' Hy'. destruct (decide (k = Z.to_nat i0)) as [->|ne].
        -- rewrite Hkeep by lia. unfold br1. rewrite list_lookup_insert_eq by lia.
           congruence.
        -- apply Hval; [lia| |]; [rewrite Hk1|rewrite Hk2]; auto.
      * intros k Hk. rewrite Hkeep by lia. apply list_lookup_insert_ne. lia.
Qed.

(** The loop of the kernels that map one array; [result] may be the operand. *)
Lemma map_loop_spec (g : cell -> cell) (a1 result : nat) n :
  forall i0 st b1 br,
  mem st !! a1 = Some (Some b1) ->
  mem st !! result = Some (Some br) ->
  0 <= i0 ->
  i0 + Z.of_nat n <= Z.of_nat (length b1) ->
  i0 + Z.of_nat n <= Z.of_nat (length br) ->
  exists br',
    for_loop n i0 (fun i => x ← load a1 i; store result i (g x)) st
      = Ok tt (write_buf st result br')
    /\ length br' = length br
    /\ (forall (k : nat) x, i0 <= Z.of_nat k < i0 + Z.of_nat n ->
          b1 !! k = Some x -> br' !! k = Some (g x))
    /\ (forall k : nat, ~ i0 <= Z.of_nat k < i0 + Z.of_nat n -> br' !! k = br !! k).
Proof.
  induction n as [|n IH]; intros i0 st b1 br H1 Hr H0 Hl1 Hlr.
  - exists br. cbn [for_loop]. rewrite ret_unfold, write_buf_id by exact Hr.
    split; [reflexivity|]. split; [reflexivity|]. split; [intros; lia|reflexivity].
  - cbn [for_loop]. rewrite bind_unfold.
    destruct (lookup_lt_is_Some_2 b1 (Z.to_nat i0) ltac:(lia)) as [x Hx].
    rewrite bind_unfold, (load_eq _ _ _ _ _ H1 Hx).
    rewrite (store_eq _ _ _ _ _ Hr) by lia.
    set (br1 := <[Z.to_nat i0 := g x]> br).
    destruct (lookup_after_store st result a1 (Z.to_nat i0) (g x) br b1 Hr H1)
      as (b1' & H1' & Hlen1 & Hk1).
    destruct (IH (i0 + 1) (write_buf st result br1) b1' br1 H1')
      as (br' & Hrun & Hlen & Hval & Hkeep); try lia.
    + apply write_buf_lookup. eapply lookup_lt_Some; eauto.
    + unfold br1. rewrite length_insert. lia.
    + exists br'. rewrite Hrun, write_buf_write_buf.
      split; [reflexivity|]. split; [rewrite Hlen; apply length_insert|]. split.
      * intros k x' Hk Hx'. destruct (decide (k = Z.to_nat i0)) as [->|ne].
        -- rewrite Hkeep by lia. unfold br1. rewrite list_lookup_insert_eq by lia.
           congruence.
        -- apply Hval; [lia|]. rewrite Hk1; auto.
      * intros k Hk. rewrite Hkeep by lia. apply list_lookup_insert_ne. lia.
Qed.

(** The loop of [fillGeneric]. *)
Lemma fill_loop_values p c n : forall i0 st bd,
  mem st !! p = Some (Some bd) ->
  0 <= i0 -> i0 + Z.of_nat n <= Z.of_nat (length bd) ->
  exists bd',
    for_loop n i0 (fun i => store p i c) st = Ok tt (write_buf st p bd')
    /\ length bd' = length bd
    /\ (forall k : nat, i0 <= Z.of_nat k < i0 + Z.of_nat n -> bd' !! k = Some c)
    /\ (forall k : nat, ~ i0 <= Z.of_nat k < i0 + Z.of_nat n -> bd' !! k = bd !! k).
Proof.
  induction n as [|n IH]; intros i0 st bd Hp H0 Hn.
  - exists bd. cbn [for_loop]. rewrite ret_unfold, write_buf_id by exact Hp.
    split; [reflexivity|]. split; [reflexivity|]. split; [intros; lia|reflexivity].
  - cbn [for_loop]. rewrite bind_unfold, (store_eq _ _ _ _ _ Hp) by lia.
    set (bd1 := <[Z.to_nat i0 := c]> bd).
    destruct (IH (i0 + 1) (write_buf st p bd1) bd1) as (bd' & Hrun & Hlen & Hval & Hkeep).
    + apply write_buf_lookup. eapply lookup_lt_Some; eauto.
    + lia.
    + unfold bd1. rewrite length_insert. lia.
    + exists bd'. rewrite Hrun, write_buf_write_buf.
      split; [reflexivity|]. split; [rewrite Hlen; apply length_insert|]. split.
      * intros k Hk. destruct (decide (k = Z.to_nat i0)) as [->|ne].
        -- rewrite Hkeep by lia. unfold bd1. apply list_lookup_insert_eq. lia.
        -- apply Hval. lia.
      * intros k Hk. rewrite Hkeep by lia. apply list_lookup_insert_ne. lia.
Qed.

Lemma binaryGeneric_spec op a1 a2 result size st b1 b2 br :
  mem st !! a1 = Some (Some b1) ->
  mem st !! a2 = Some (Some b2) ->
  mem st !! result = Some (Some br) ->
  0 <= size ->
  length b1 = Z.to_nat size -> length b2 = Z.to_nat size -> length br = Z.to_nat size ->
  binaryGeneric op a1 a2 size result st = Ok tt (write_buf st result (zip_with op b1 b2)).
Proof.
  intros H1 H2 Hr H0 Hl1 Hl2 Hlr. unfold binaryGeneric, for_range.
  destruct (binary_loop_spec op a1 a2 result (Z.to_nat size) 0 st b1 b2 br H1 H2 Hr)
    as (br' & Hrun & Hlen & Hval & _); try lia.
  rewrite Hrun. do 2 f_equal. apply list_eq. intros k.
  rewrite lookup_zip_with.
  destruct (decide (k < Z.to_nat size)%nat) as [Hk|Hk].
  - destruct (lookup_lt_is_Some_2 b1 k ltac:(lia)) as [x Hx].
    destruct (lookup_lt_is_Some_2 b2 k ltac:(lia)) as [y Hy].
    rewrite Hx, Hy. cbn. apply Hval; [lia|exact Hx|exact Hy].
  - rewrite (lookup_ge_None_2 br') by lia.
    rewrite (lookup_ge_None_2 b1) by lia. reflexivity.
Qed.

Lemma mapGeneric_spec (g : cell -> cell) a1 result size st b1 br :
  mem st !! a1 = Some (Some b1) ->
  mem st !! result = Some (Some br) ->
  0 <= size ->
  length b1 = Z.to_nat size -> length br = Z.to_nat size ->
  for_range size (fun i => x ← load a1 i; store result i (g x)) st
  = Ok tt (write_buf st result (g <$> b1)).
Proof.
  intros H1 Hr H0 Hl1 Hlr. unfold for_range.
  destruct (map_loop_spec g a1 result (Z.to_nat size) 0 st b1 br H1 Hr)
    as (br' & Hrun & Hlen & Hval & _); try lia.
  rewrite Hrun. do 2 f_equal. apply list_eq. intros k.
  rewrite list_lookup_fmap.
  destruct (decide (k < Z.to_nat size)%nat) as [Hk|Hk].
  - destruct (lookup_lt_is_Some_2 b1 k ltac:(lia)) as [x Hx].
    rewrite Hx. cbn. apply Hval; [lia|exact Hx].
  - rewrite (lookup_ge_None_2 br') by lia.
    rewrite (lookup_ge_None_2 b1) by lia. reflexivity.
Qed.

Lemma fillGeneric_spec T scalar size result st br :
  mem st !! result = Some (Some br) ->
  0 <= size -> length br = Z.to_nat size ->
  fillGeneric T scalar size result st
  = Ok tt (write_buf st result (replicate (Z.to_nat size) (Val (cast T scalar)))).
Proof.
  intros Hr H0 Hlr. unfold fillGeneric, for_range.
  destruct (fill_loop_values result (Val (cast T scalar)) (Z.to_nat size) 0 st br Hr)
    as (br' & Hrun & Hlen & Hval & _); try lia.
  rewrite Hrun. do 2 f_equal. apply list_eq. intros k.
  destruct (decide (k < Z.to_nat size)%nat) as [Hk|Hk].
  - rewrite Hval by lia. symmetry. apply lookup_replicate_2. exact Hk.
  - rewrite (lookup_ge_None_2 br') by lia.
    symmetry. apply lookup_ge_None_2. rewrite length_replicate. lia.
Qed.

Lemma Device_binop_eq op a1 a2 size result T :
  Device_binop op a1 a2 size result T = binaryGeneric (cell_binop op T) a1 a2 size result.
Proof. destruct op; reflexivity. Qed.

Lemma wf_value_size st t : wf_value st t -> 0 <= m_size t < 2 ^ 31.
Proof.
  intros [Hd Hs Hm _ _]. rewrite Hs. pose proof (product_nonneg _ Hd). lia.
Qed.

Lemma wf_value_buffer st t buf :
  wf_value st t -> contents st t = Some buf ->
  mem st !! m_data t = Some (Some buf) /\ length buf = Z.to_nat (m_size t)
  /\ (m_data t < length (mem st))%nat.
Proof.
  intros [_ _ _ _ (b & Hb & Hl)] Hc. apply contents_lookup in Hc.
  assert (b = buf) as -> by congruence.
  split; [exact Hc|]. split; [exact Hl|]. eapply lookup_lt_Some; eauto.
Qed.

(** X8: applied to two values of one shape and one data type, the binary
    operators [+], [-], [*], [/] of [TensorValue] return a value of that
    shape and type in a fresh buffer whose elements are the operation
    applied to the elements of the operands, index by index; the operands
    are left as they are. *)
Theorem TensorValue_binop_same_shape (op : binop) (this other : TensorValue)
    (st : State) (b1 b2 : list cell) :
  wf_value st this -> wf_value st other ->
  m_shape this = m_shape other -> m_dType this = m_dType other ->
  contents st this = Some b1 -> contents st other = Some b2 ->
  TensorValue_binop op this other st =
    Ok (mkTensorValue (m_dType this) (length (mem st)) (m_size this) (m_shape this)
          (computeStrides (m_shape this)) (m_device this))
       (mkState (mem st ++ [Some (zip_with (cell_binop op (m_dType this)) b1 b2)])
          (nodes st)).
Proof.
  intros Hw1 Hw2 Hs Ht Hc1 Hc2.
  pose proof (wf_value_size _ _ Hw1) as Hsz.
  destruct (wf_value_buffer _ _ _ Hw1 Hc1) as (H1 & Hl1 & Hp1).
  destruct (wf_value_buffer _ _ _ Hw2 Hc2) as (H2 & Hl2 & Hp2).
  assert (Hsize : m_size other = m_size this).
  { destruct Hw1 as [_ E1 _ _ _], Hw2 as [_ E2 _ _ _]. rewrite E1, E2, Hs. reflexivity. }
  unfold TensorValue_binop.
  destruct (decide (m_shape this = m_shape other /\ m_dType this = m_dType other))
    as [_|n]; [|tauto].
  destruct Hw1 as [_ E1 _ _ _]. rewrite E1 in *.
  rewrite bind_unfold, TensorValue_uninit_eq by lia.
  cbn [m_data]. rewrite bind_unfold, Device_binop_eq.
  erewrite binaryGeneric_spec; cbn [mem].
  - rewrite write_buf_last, ret_unfold. reflexivity.
  - rewrite lookup_app_l by exact Hp1. exact H1.
  - rewrite lookup_app_l by exact Hp2. exact H2.
  - apply lookup_snoc_length.
  - lia.
  - exact Hl1.
  - rewrite Hl2, Hsize. reflexivity.
  - apply length_replicate.
Qed.

(** The 2 x 3 matrix of 1, ..., 6 added to itself. *)
Lemma TensorValue_binop_same_shape_witness :
  TensorValue_binop Add matrix_2x3 matrix_2x3 matrix_2x3_state =
    Ok (mkTensorValue kFloat32 1 6 [2; 3] [3; 1] defaultDevice)
       (mkState [Some (floats [1; 2; 3; 4; 5; 6]); Some (floats [2; 4; 6; 8; 10; 12])] []).
Proof.
  rewrite (TensorValue_binop_same_shape Add matrix_2x3 matrix_2x3 matrix_2x3_state
             (floats [1; 2; 3; 4; 5; 6]) (floats [1; 2; 3; 4; 5; 6])).
  - vm_compute. reflexivity.
  - apply matrix_2x3_wf.
  - apply matrix_2x3_wf.
  - reflexivity.
  - reflexivity.
  - reflexivity.
  - reflexivity.
Defined.

Lemma TensorValue_binop_assign_eq (op : binop) (this other : TensorValue)
    (st : State) (b1 b2 : list cell) :
  wf_value st this -> wf_value st other ->
  m_shape this = m_shape other -> m_dType this = m_dType other ->
  contents st this = Some b1 -> contents st other = Some b2 ->
  TensorValue_binop_assign op this other st =
    Ok this (write_buf st (m_data this) (zip_with (cell_binop op (m_dType this)) b1 b2)).
Proof.
  intros Hw1 Hw2 Hs Ht Hc1 Hc2.
  pose proof (wf_value_size _ _ Hw1) as Hsz.
  destruct (wf_value_buffer _ _ _ Hw1 Hc1) as (H1 & Hl1 & Hp1).
  destruct (wf_value_buffer _ _ _ Hw2 Hc2) as (H2 & Hl2 & Hp2).
  assert (Hsize : m_size other = m_size this).
  { destruct Hw1 as [_ E1 _ _ _], Hw2 as [_ E2 _ _ _]. rewrite E1, E2, Hs. reflexivity. }
  unfold TensorValue_binop_assign.
  destruct (decide (m_shape this = m_shape other /\ m_dType this = m_dType other))
    as [_|n]; [|tauto].
  rewrite bind_unfold, Device_binop_eq.
  erewrite binaryGeneric_spec; eauto; lia.
Qed.

(** X9: applied to a value of the same shape and data type, the compound
    assignments [+=], [-=], [*=], [/=] of [TensorValue] work in place: the
    buffer of the left operand receives the operation applied index by
    index, no buffer is allocated and the object itself is unchanged.  The
    right operand may be the left one. *)
Theorem TensorValue_binop_assign_in_place (op : binop) (this other : TensorValue)
    (st : State) (b1 b2 : list cell) :
  wf_value st this -> wf_value st other ->
  m_shape this = m_shape other -> m_dType this = m_dType other ->
  contents st this = Some b1 -> contents st other = Some b2 ->
  TensorValue_binop_assign op this other st =
    Ok this (write_buf st (m_data this) (zip_with (cell_binop op (m_dType this)) b1 b2))
  /\ (other = this ->
      TensorValue_binop_assign op this other st =
        Ok this (write_buf st (m_data this)
                   ((fun c => cell_binop op (m_dType this) c c) <$> b1))).
Proof.
  intros Hw1 Hw2 Hs Ht Hc1 Hc2.
  pose proof (TensorValue_binop_assign_eq op this other st b1 b2 Hw1 Hw2 Hs Ht Hc1 Hc2) as He.
  split; [exact He|]. intros ->. rewrite He. do 2 f_equal.
  assert (b2 = b1) as -> by congruence.
  clear. induction b1 as [|c b1 IH]; [reflexivity|]. cbn. rewrite IH. reflexivity.
Qed.

(** [t += t] doubles the 2 x 3 matrix of 1, ..., 6 in its own buffer. *)
Lemma TensorValue_binop_assign_in_place_witness :
  TensorValue_binop_assign Add matrix_2x3 matrix_2x3 matrix_2x3_state =
    Ok matrix_2x3 (mkState [Some (floats [2; 4; 6; 8; 10; 12])] []).
Proof.
  destruct (TensorValue_binop_assign_in_place Add matrix_2x3 matrix_2x3 matrix_2x3_state
              (floats [1; 2; 3; 4; 5; 6]) (floats [1; 2; 3; 4; 5; 6])) as [H _].
  7: { rewrite H. vm_compute. reflexivity. }
  - apply matrix_2x3_wf.
  - apply matrix_2x3_wf.
  - reflexivity.
  - reflexivity.
  - reflexivity.
  - reflexivity.
Defined.

Lemma cell_neg_involutive c : cell_neg (cell_neg c) = c.
Proof.
  destruct c as [|x]; [reflexivity|]. cbn. f_equal.
  destruct x as [s|s| |s m e]; cbn; rewrite ?negb_involutive; reflexivity.
Qed.

Lemma TensorValue_neg_eq this st b :
  wf_value st this -> contents st this = Some b ->
  TensorValue_neg this st =
    Ok (mkTensorValue (m_dType this) (length (mem st)) (m_size this) (m_shape this)
          (computeStrides (m_shape this)) (m_device this))
       (mkState (mem st ++ [Some (cell_neg <$> b)]) (nodes st)).
Proof.
  intros Hw Hc. pose proof (wf_value_size _ _ Hw) as Hsz.
  destruct (wf_value_buffer _ _ _ Hw Hc) as (H1 & Hl1 & Hp1).
  unfold TensorValue_neg.
  destruct Hw as [_ E1 _ _ _]. rewrite E1 in *.
  rewrite bind_unfold, TensorValue_uninit_eq by lia.
  cbn [m_data]. rewrite bind_unfold. unfold Device_unary, unaryGeneric.
  erewrite (mapGeneric_spec cell_neg); cbn [mem].
  - rewrite write_buf_last, ret_unfold. reflexivity.
  - rewrite lookup_app_l by exact Hp1. exact H1.
  - apply lookup_snoc_length.
  - lia.
  - exact Hl1.
  - apply length_replicate.
Qed.

(** X10: the unary minus of [TensorValue] returns a value of the same shape
    and data type in a fresh buffer that holds the negated elements and
    leaves its operand as it is; negating the result gives back the
    elements of the operand. *)
Theorem TensorValue_neg_involutive (this : TensorValue) (st : State) (b : list cell) :
  wf_value st this -> contents st this = Some b ->
  exists r st',
    TensorValue_neg this st = Ok r st'
    /\ m_shape r = m_shape this /\ m_dType r = m_dType this
    /\ contents st' r = Some (cell_neg <$> b)
    /\ contents st' this = Some b
    /\ exists r' st'',
         TensorValue_neg r st' = Ok r' st''
         /\ m_shape r' = m_shape this
         /\ contents st'' r' = Some b.
Proof.
  intros Hw Hc. pose proof (wf_value_size _ _ Hw) as Hsz.
  destruct (wf_value_buffer _ _ _ Hw Hc) as (H1 & Hl1 & Hp1).
  pose proof Hw as [Hd E1 Hm _ _].
  eexists _, _. split; [apply (TensorValue_neg_eq this st b Hw Hc)|].
  split; [reflexivity|]. split; [reflexivity|].
  assert (Hr : contents (mkState (mem st ++ [Some (cell_neg <$> b)]) (nodes st))
                 (mkTensorValue (m_dType this) (length (mem st)) (m_size this) (m_shape this)
                    (computeStrides (m_shape this)) (m_device this))
               = Some (cell_neg <$> b)).
  { unfold contents. cbn [mem m_data]. rewrite lookup_snoc_length. reflexivity. }
  split; [exact Hr|]. split.
  { unfold contents. cbn [mem]. rewrite lookup_app_l by exact Hp1. exact Hc. }
  eexists _, _. split.
  - apply (TensorValue_neg_eq _ _ (cell_neg <$> b)); [|exact Hr].
    constructor; cbn [m_shape m_size m_strides m_data mem]; auto.
    exists (cell_neg <$> b). rewrite lookup_snoc_length, length_fmap. auto.
  - split; [reflexivity|]. unfold contents. cbn [mem m_data length].
    rewrite length_app. cbn [length].
    replace (length (mem st) + 1)%nat with (length (mem st ++ [Some (cell_neg <$> b)]))
      by (rewrite length_app; reflexivity).
    rewrite lookup_snoc_length. cbn. f_equal.
    rewrite <- list_fmap_compose. rewrite <- (list_fmap_id b) at 2.
    apply list_fmap_ext. intros _ c _. apply cell_neg_involutive.
Qed.

(** Minus the 2 x 3 matrix of 1, ..., 6. *)
Lemma TensorValue_neg_involutive_witness :
  exists r st',
    TensorValue_neg matrix_2x3 matrix_2x3_state = Ok r st'
    /\ m_shape r = [2; 3] /\ m_dType r = kFloat32
    /\ contents st' r = Some (floats [-1; -2; -3; -4; -5; -6])
    /\ contents st' matrix_2x3 = Some (floats [1; 2; 3; 4; 5; 6])
    /\ exists r' st'',
         TensorValue_neg r st' = Ok r' st''
         /\ m_shape r' = [2; 3]
         /\ contents st'' r' = Some (floats [1; 2; 3; 4; 5; 6]).
Proof.
  apply (TensorValue_neg_involutive matrix_2x3 matrix_2x3_state
           (floats [1; 2; 3; 4; 5; 6])).
  - apply matrix_2x3_wf.
  - reflexivity.
Defined.

Lemma TensorValue_fill_eq this value st :
  wf_value st this ->
  TensorValue_fill this value st =
    Ok tt (write_buf st (m_data this)
             (replicate (Z.to_nat (m_size this)) (Val (cast (m_dType this) value)))).
Proof.
  intros Hw. pose proof (wf_value_size _ _ Hw) as Hsz.
  destruct (wf_value_contents _ _ Hw) as (buf & Hc & _).
  destruct (wf_value_buffer _ _ _ Hw Hc) as (H1 & Hl1 & _).
  unfold TensorValue_fill, Device_fill.
  apply (fillGeneric_spec _ _ _ _ _ buf); [exact H1|lia|exact Hl1].
Qed.

Lemma TensorValue_filled_eq value shape device dType st :
  Forall (fun d => 0 <= d) shape -> product shape < 2 ^ 31 ->
  TensorValue_filled value shape device dType st =
    Ok (mkTensorValue dType (length (mem st)) (product shape) shape
          (computeStrides shape) device)
       (mkState (mem st ++ [Some (replicate (Z.to_nat (product shape))
                                    (Val (cast dType value)))]) (nodes st)).
Proof.
  intros Hd Hs. pose proof (product_nonneg _ Hd) as Hnn.
  unfold TensorValue_filled. rewrite shape_size_product by lia.
  rewrite bind_unfold, allocate_eq by lia.
  rewrite bind_unfold. unfold Device_fill.
  erewrite fillGeneric_spec; cbn [mem].
  - rewrite write_buf_last, ret_unfold. reflexivity.
  - apply lookup_snoc_length.
  - lia.
  - apply length_replicate.
Qed.

(** X11: the constructor from a value and a shape (the one behind [ones],
    [zeros] and the seeds of [backward]) returns a contiguous tensor in a
    fresh buffer in which each of the [product shape] elements is the value
    rounded to the data type of the tensor; [fill] overwrites every element
    of an existing tensor in the same way, in place. *)
Theorem TensorValue_filled_contents (value : spec_float) (shape : Shape)
    (device : Device) (dType : DataType) (st : State) :
  Forall (fun d => 0 <= d) shape -> product shape < 2 ^ 31 ->
  TensorValue_filled value shape device dType st =
    Ok (mkTensorValue dType (length (mem st)) (product shape) shape
          (computeStrides shape) device)
       (mkState (mem st ++ [Some (replicate (Z.to_nat (product shape))
                                    (Val (cast dType value)))]) (nodes st))
  /\ forall this, wf_value st this ->
       TensorValue_fill this value st =
         Ok tt (write_buf st (m_data this)
                  (replicate (Z.to_nat (m_size this)) (Val (cast (m_dType this) value)))).
Proof.
  intros Hd Hs. split.
  - apply TensorValue_filled_eq; assumption.
  - intros this Hw. apply TensorValue_fill_eq. exact Hw.
Qed.

(** A 2 x 3 tensor of ones, and the 2 x 3 matrix of 1, ..., 6 filled with
    ones. *)
Lemma TensorValue_filled_contents_witness :
  TensorValue_filled (of_Z kFloat32 1) [2; 3] defaultDevice kFloat32 matrix_2x3_state =
    Ok (mkTensorValue kFloat32 1 6 [2; 3] [3; 1] defaultDevice)
       (mkState [Some (floats [1; 2; 3; 4; 5; 6]); Some (floats [1; 1; 1; 1; 1; 1])] [])
  /\ TensorValue_fill matrix_2x3 (of_Z kFloat32 1) matrix_2x3_state =
       Ok tt (mkState [Some (floats [1; 1; 1; 1; 1; 1])] []).
Proof.
  destruct (TensorValue_filled_contents (of_Z kFloat32 1) [2; 3] defaultDevice kFloat32
              matrix_2x3_state) as [H1 H2].
  - repeat constructor; lia.
  - reflexivity.
  - split.
    + rewrite H1. vm_compute. reflexivity.
    + rewrite (H2 matrix_2x3 matrix_2x3_wf). vm_compute. reflexivity.
Defined.

(** The loop of [sumGeneric]: a left fold from the running sum. *)
Lemma sum_loop_spec T a b n : forall i0 st acc,
  mem st !! a = Some (Some b) ->
  0 <= i0 -> i0 + Z.of_nat n <= Z.of_nat (length b) ->
  sum_loop T n i0 a acc st
  = Ok (fold_left (cell_add T) (take n (drop (Z.to_nat i0) b)) acc) st.
Proof.
  induction n as [|n IH]; intros i0 st acc Ha H0 Hn.
  - reflexivity.
  - cbn [sum_loop]. rewrite bind_unfold.
    destruct (lookup_lt_is_Some_2 b (Z.to_nat i0) ltac:(lia)) as [x Hx].
    rewrite (load_eq _ _ _ _ _ Ha Hx).
    rewrite IH by (auto; lia).
    rewrite (drop_S _ _ _ Hx). cbn [take fold_left].
    replace (Z.to_nat (i0 + 1)) with (S (Z.to_nat i0)) by lia. reflexivity.
Qed.

Lemma TensorValue_scalar_eq value device dType st :
  TensorValue_scalar value device dType st =
    Ok (mkTensorValue dType (length (mem st)) 1 [] (computeStrides []) device)
       (mkState (mem st ++ [Some [Val (cast dType value)]]) (nodes st)).
Proof.
  unfold TensorValue_scalar. rewrite bind_unfold, allocate_eq by lia.
  rewrite bind_unfold. unfold Device_fill.
  erewrite fillGeneric_spec; cbn [mem].
  - rewrite write_buf_last, ret_unfold. reflexivity.
  - apply lookup_snoc_length.
  - lia.
  - reflexivity.
Qed.

(** X12: [sum] returns a scalar (shape [{}], one element) of the data type
    of the tensor in a fresh buffer; its element is the elements of the
    tensor added from left to right to [0] in that data type, so the sum of
    an empty tensor is [0].  The tensor itself is unchanged. *)
Theorem TensorValue_sum_fold (this : TensorValue) (st : State) (b : list cell) :
  wf_value st this -> contents st this = Some b ->
  TensorValue_sum this st =
    Ok (mkTensorValue (m_dType this) (length (mem st)) 1 [] (computeStrides [])
          (m_device this))
       (mkState (mem st ++ [Some [fold_left (cell_add (m_dType this)) b
                                    (Val (of_Z (m_dType this) 0))]]) (nodes st)).
Proof.
  intros Hw Hc. pose proof (wf_value_size _ _ Hw) as Hsz.
  destruct (wf_value_buffer _ _ _ Hw Hc) as (H1 & Hl1 & Hp1).
  unfold TensorValue_sum. rewrite bind_unfold, TensorValue_scalar_eq.
  cbn [m_data]. rewrite bind_unfold. unfold Device_sum, sumGeneric.
  rewrite bind_unfold.
  rewrite (sum_loop_spec _ _ b);
      [|cbn [mem]; rewrite lookup_app_l by exact Hp1; exact H1|lia|rewrite Hl1; lia].
  change (Z.to_nat 0) with 0%nat. rewrite drop_0, firstn_all2 by lia.
  rewrite (store_eq _ _ [Val (cast (m_dType this) (of_Z kFloat32 0))]);
    [|apply lookup_snoc_length|cbn; lia].
  cbn [mem]. rewrite write_buf_last. reflexivity.
Qed.

(** The sum of the 2 x 3 matrix of 1, ..., 6 is 21. *)
Lemma TensorValue_sum_fold_witness :
  TensorValue_sum matrix_2x3 matrix_2x3_state =
    Ok (mkTensorValue kFloat32 1 1 [] [] defaultDevice)
       (mkState [Some (floats [1; 2; 3; 4; 5; 6]); Some (floats [21])] []).
Proof.
  rewrite (TensorValue_sum_fold matrix_2x3 matrix_2x3_state (floats [1; 2; 3; 4; 5; 6])).
  - vm_compute. reflexivity.
  - apply matrix_2x3_wf.
  - reflexivity.
Defined.

(** X13: [mean] returns a scalar whose element is the left-to-right sum of
    the elements divided by the element count converted to the data type of
    the tensor; the mean of an empty tensor is [0 / 0], a NaN, and no
    exception. *)
Theorem TensorValue_mean_fold (this : TensorValue) (st : State) (b : list cell) :
  wf_value st this -> contents st this = Some b ->
  TensorValue_mean this st =
    Ok (mkTensorValue (m_dType this) (length (mem st)) 1 [] (computeStrides [])
          (m_device this))
       (mkState (mem st ++ [Some [cell_div (m_dType this)
                                    (fold_left (cell_add (m_dType this)) b
                                       (Val (of_Z (m_dType this) 0)))
                                    (Val (of_Z (m_dType this) (m_size this)))]])
          (nodes st))
  /\ (b = [] ->
      cell_div (m_dType this)
        (fold_left (cell_add (m_dType this)) b (Val (of_Z (m_dType this) 0)))
        (Val (of_Z (m_dType this) (m_size this))) = Val S754_nan).
Proof.
  intros Hw Hc. pose proof (wf_value_size _ _ Hw) as Hsz.
  destruct (wf_value_buffer _ _ _ Hw Hc) as (H1 & Hl1 & Hp1).
  assert (He : TensorValue_mean this st =
    Ok (mkTensorValue (m_dType this) (length (mem st)) 1 [] (computeStrides [])
          (m_device this))
       (mkState (mem st ++ [Some [cell_div (m_dType this)
                                    (fold_left (cell_add (m_dType this)) b
                                       (Val (of_Z (m_dType this) 0)))
                                    (Val (of_Z (m_dType this) (m_size this)))]])
          (nodes st))).
  { unfold TensorValue_mean. rewrite bind_unfold, TensorValue_scalar_eq.
    cbn [m_data]. rewrite bind_unfold. unfold Device_mean, meanGeneric.
    rewrite bind_unfold.
    rewrite (sum_loop_spec _ _ b);
      [|cbn [mem]; rewrite lookup_app_l by exact Hp1; exact H1|lia|rewrite Hl1; lia].
    change (Z.to_nat 0) with 0%nat. rewrite drop_0, firstn_all2 by lia.
    rewrite (store_eq _ _ [Val (cast (m_dType this) (of_Z kFloat32 0))]);
      [|apply lookup_snoc_length|cbn; lia].
    cbn [mem]. rewrite write_buf_last. reflexivity. }
  split; [exact He|]. intros ->. cbn [length] in Hl1.
  assert (m_size this = 0) as -> by lia.
  destruct (m_dType this); reflexivity.
Qed.

(** The mean of the 2 x 3 matrix of 1, ..., 6 is 3.5, which is 7 * 2^-1. *)
Lemma TensorValue_mean_fold_witness :
  TensorValue_mean matrix_2x3 matrix_2x3_state =
    Ok (mkTensorValue kFloat32 1 1 [] [] defaultDevice)
       (mkState [Some (floats [1; 2; 3; 4; 5; 6]);
                 Some [Val (S754_finite false 14680064 (-22))]] []).
Proof.
  destruct (TensorValue_mean_fold matrix_2x3 matrix_2x3_state (floats [1; 2; 3; 4; 5; 6]))
    as [H _].
  - apply matrix_2x3_wf.
  - reflexivity.
  - rewrite H. vm_compute. reflexivity.
Defined.

(** ** Copies, conversions and reshapes *)

Lemma contents_snoc m ns b t :
  m_data t = length m -> contents (mkState (m ++ [Some b]) ns) t = Some b.
Proof. intros E. unfold contents. cbn [mem]. rewrite E, lookup_snoc_length. reflexivity. Qed.

Lemma contents_snoc_old st x t :
  (m_data t < length (mem st))%nat ->
  contents (mkState (mem st ++ [x]) (nodes st)) t = contents st t.
Proof. intros H. unfold contents. cbn [mem]. rewrite lookup_app_l by exact H. reflexivity. Qed.

Lemma TensorValue_copy_eq st t buf :
  wf_value st t -> contents st t = Some buf ->
  TensorValue_copy t st =
    Ok (mkTensorValue (m_dType t) (length (mem st)) (m_size t) (m_shape t) (m_strides t)
          (m_device t))
       (mkState (mem st ++ [Some buf]) (nodes st)).
Proof.
  intros Hw Hc. pose proof (wf_value_size _ _ Hw) as Hsz.
  destruct (wf_value_buffer _ _ _ Hw Hc) as (H1 & Hl1 & Hp1).
  unfold TensorValue_copy. rewrite bind_unfold, allocate_eq by lia.
  unfold Device_copyImmediate, Device_copy.
  destruct (decide (m_dType t = m_dType t)) as [_|]; [|contradiction].
  unfold memcpy. rewrite memcpy_size by lia. rewrite bind_unfold.
  rewrite (mapGeneric_spec (fun x => x) _ _ _ _ buf (replicate (Z.to_nat (m_size t)) Indet));
    cbn [mem].
  - rewrite write_buf_last, ret_unfold, list_fmap_id. reflexivity.
  - rewrite lookup_app_l by exact Hp1. exact H1.
  - apply lookup_snoc_length.
  - lia.
  - exact Hl1.
  - apply length_replicate.
Qed.

(** X14: the copy constructor of [TensorValue] makes a deep copy: the copy
    has the data type, size, shape, strides and device of the original and
    the same elements in a buffer of its own, so that overwriting the copy
    (here with [fill]) leaves the elements of the original as they were. *)
Theorem TensorValue_copy_deep (other : TensorValue) (st : State) (b : list cell) :
  wf_value st other -> contents st other = Some b ->
  exists r st',
    TensorValue_copy other st = Ok r st'
    /\ r = mkTensorValue (m_dType other) (length (mem st)) (m_size other)
             (m_shape other) (m_strides other) (m_device other)
    /\ m_data r <> m_data other
    /\ contents st' r = Some b
    /\ contents st' other = Some b
    /\ forall value, exists st'',
         TensorValue_fill r value st' = Ok tt st''
         /\ contents st'' r
            = Some (replicate (Z.to_nat (m_size other)) (Val (cast (m_dType other) value)))
         /\ contents st'' other = Some b.
Proof.
  intros Hw Hc. pose proof (wf_value_size _ _ Hw) as Hsz.
  destruct (wf_value_buffer _ _ _ Hw Hc) as (H1 & Hl1 & Hp1).
  eexists _, _. split; [apply (TensorValue_copy_eq st other b Hw Hc)|].
  split; [reflexivity|]. cbn [m_data]. split; [lia|].
  split; [apply contents_snoc; reflexivity|].
  split; [rewrite contents_snoc_old by exact Hp1; exact Hc|].
  intros value. eexists. split.
  - unfold TensorValue_fill, Device_fill. cbn [m_size m_data m_dType].
    apply (fillGeneric_spec _ _ _ _ _ b); [apply lookup_snoc_length|lia|exact Hl1].
  - rewrite write_buf_last. split; [apply contents_snoc; reflexivity|].
    rewrite contents_snoc_old by exact Hp1. exact Hc.
Qed.

(** A copy of the 2 x 3 matrix of 1, ..., 6. *)
Lemma TensorValue_copy_deep_witness :
  exists r st',
    TensorValue_copy matrix_2x3 matrix_2x3_state = Ok r st'
    /\ r = mkTensorValue kFloat32 1 6 [2; 3] [3; 1] defaultDevice
    /\ m_data r <> m_data matrix_2x3
    /\ contents st' r = Some (floats [1; 2; 3; 4; 5; 6])
    /\ contents st' matrix_2x3 = Some (floats [1; 2; 3; 4; 5; 6])
    /\ forall value, exists st'',
         TensorValue_fill r value st' = Ok tt st''
         /\ contents st'' r = Some (replicate 6 (Val (cast kFloat32 value)))
         /\ contents st'' matrix_2x3 = Some (floats [1; 2; 3; 4; 5; 6]).
Proof.
  apply (TensorValue_copy_deep matrix_2x3 matrix_2x3_state (floats [1; 2; 3; 4; 5; 6])).
  - apply matrix_2x3_wf.
  - reflexivity.
Defined.

Lemma TensorValue_of_data_convert st src size srcT T shape device buf :
  srcT <> T ->
  mem st !! src = Some (Some buf) ->
  length buf = Z.to_nat size ->
  0 <= size < 2 ^ 31 ->
  TensorValue_of_data src size srcT shape device T st
  = Ok (mkTensorValue T (length (mem st)) size shape (computeStrides shape) device)
       (mkState (mem st ++ [Some (cell_cast T <$> buf)]) (nodes st)).
Proof.
  intros Hne Hb Hl Hs.
  assert (Hsrc : (src < length (mem st))%nat) by (eapply lookup_lt_Some; eauto).
  unfold TensorValue_of_data. rewrite bind_unfold, allocate_eq by lia.
  unfold Device_copyImmediate, Device_copy.
  destruct (decide (srcT = T)) as [|_]; [contradiction|].
  unfold conversionCopyGeneric. rewrite bind_unfold.
  rewrite (mapGeneric_spec (cell_cast T) _ _ _ _ buf (replicate (Z.to_nat size) Indet));
    cbn [mem].
  - rewrite write_buf_last, ret_unfold. reflexivity.
  - rewrite lookup_app_l by exact Hsrc. exact Hb.
  - apply lookup_snoc_length.
  - lia.
  - exact Hl.
  - apply length_replicate.
Qed.

(** X15: [to] returns a tensor of the requested data type with the shape,
    size, strides and device of the original, in a fresh buffer: a copy of
    the elements when the type is already the requested one, and each
    element converted to the requested type otherwise.  The original is
    unchanged. *)
Theorem TensorValue_to_converts (this : TensorValue) (newDataType : DataType)
    (st : State) (b : list cell) :
  wf_value st this -> contents st this = Some b ->
  TensorValue_to this newDataType st =
    Ok (mkTensorValue newDataType (length (mem st)) (m_size this) (m_shape this)
          (m_strides this) (m_device this))
       (mkState (mem st ++ [Some (if decide (m_dType this = newDataType) then b
                                  else cell_cast newDataType <$> b)]) (nodes st)).
Proof.
  intros Hw Hc. pose proof (wf_value_size _ _ Hw) as Hsz.
  destruct (wf_value_buffer _ _ _ Hw Hc) as (H1 & Hl1 & Hp1).
  unfold TensorValue_to. destruct (decide (m_dType this = newDataType)) as [<-|ne].
  - apply TensorValue_copy_eq; assumption.
  - destruct Hw as [_ _ _ -> _]. apply TensorValue_of_data_convert; auto.
Qed.

(** The 2 x 3 [float] matrix of 1, ..., 6 converted to [double]. *)
Lemma TensorValue_to_converts_witness :
  TensorValue_to matrix_2x3 kFloat64 matrix_2x3_state =
    Ok (mkTensorValue kFloat64 1 6 [2; 3] [3; 1] defaultDevice)
       (mkState [Some (floats [1; 2; 3; 4; 5; 6]);
                 Some (map Val (doubles [1; 2; 3; 4; 5; 6]))] []).
Proof.
  rewrite (TensorValue_to_converts matrix_2x3 kFloat64 matrix_2x3_state
             (floats [1; 2; 3; 4; 5; 6])).
  - vm_compute. reflexivity.
  - apply matrix_2x3_wf.
  - reflexivity.
Defined.

(** X16: [reshape] to a shape with the same element count returns a
    contiguous tensor of the new shape with the same elements in the same
    order, in a buffer of its own; reshaping the result to the original
    shape gives back the original shape, strides and elements. *)
Theorem TensorValue_reshape_round_trip (this : TensorValue) (newShape : Shape)
    (st : State) (b : list cell) :
  wf_value st this -> contents st this = Some b ->
  Forall (fun d => 0 <= d) newShape ->
  product newShape = m_size this ->
  exists r st',
    TensorValue_reshape this newShape st = Ok r st'
    /\ m_shape r = newShape /\ m_strides r = computeStrides newShape
    /\ m_dType r = m_dType this
    /\ contents st' r = Some b
    /\ contents st' this = Some b
    /\ exists r' st'',
         TensorValue_reshape r (m_shape this) st' = Ok r' st''
         /\ m_shape r' = m_shape this /\ m_strides r' = m_strides this
         /\ contents st'' r' = Some b.
Proof.
  intros Hw Hc Hd Hp. pose proof (wf_value_size _ _ Hw) as Hsz.
  destruct (wf_value_buffer _ _ _ Hw Hc) as (H1 & Hl1 & Hp1).
  eexists _, _. split; [apply (TensorValue_reshape_same_count this newShape st b Hw Hc Hp)|].
  do 3 (split; [reflexivity|]).
  split; [apply contents_snoc; reflexivity|].
  split; [rewrite contents_snoc_old by exact Hp1; exact Hc|].
  eexists _, _. split.
  - apply (TensorValue_reshape_same_count _ _ _ b).
    + constructor; cbn [m_shape m_size m_strides m_data mem]; auto; try lia.
      exists b. rewrite lookup_snoc_length. auto.
    + apply contents_snoc. reflexivity.
    + cbn [m_size]. destruct Hw as [_ E _ _ _]. symmetry. exact E.
  - cbn [m_shape m_strides]. split; [reflexivity|].
    split; [destruct Hw as [_ _ _ E _]; symmetry; exact E|].
    apply contents_snoc. cbn [m_data mem]. reflexivity.
Qed.

(** The 2 x 3 matrix of 1, ..., 6 reshaped to 3 x 2 and back. *)
Lemma TensorValue_reshape_round_trip_witness :
  exists r st',
    TensorValue_reshape matrix_2x3 [3; 2] matrix_2x3_state = Ok r st'
    /\ m_shape r = [3; 2] /\ m_strides r = computeStrides [3; 2]
    /\ m_dType r = kFloat32
    /\ contents st' r = Some (floats [1; 2; 3; 4; 5; 6])
    /\ contents st' matrix_2x3 = Some (floats [1; 2; 3; 4; 5; 6])
    /\ exists r' st'',
         TensorValue_reshape r [2; 3] st' = Ok r' st''
         /\ m_shape r' = [2; 3] /\ m_strides r' = [3; 1]
         /\ contents st'' r' = Some (floats [1; 2; 3; 4; 5; 6]).
Proof.
  apply (TensorValue_reshape_round_trip matrix_2x3 [3; 2] matrix_2x3_state
           (floats [1; 2; 3; 4; 5; 6])).
  - apply matrix_2x3_wf.
  - reflexivity.
  - repeat constructor; lia.
  - reflexivity.
Defined.

(** ** Broadcasting along new leading dimensions *)

Lemma translationIndex_from_lead index lead : forall oi ts os,
  Forall (fun d => 0 < d) lead ->
  0 < ts -> ts * product lead < 2 ^ 64 ->
  translationIndex_from index lead [] oi ts os = Some oi.
Proof.
  induction lead as [|n lead IH]; intros oi ts os Hp Hts Hb; [reflexivity|].
  apply Forall_cons_1 in Hp as [Hn Hp]. rewrite product_cons in Hb.
  pose proof (product_pos _ Hp) as Hpr.
  assert (Htn : ts * n <= ts * n * product lead)
    by (rewrite <- (Z.mul_1_r (ts * n)) at 1; apply Z.mul_le_mono_nonneg_l; nia).
  cbn [translationIndex_from].
  replace (ts =? 0) with false by (symmetry; apply Z.eqb_neq; lia).
  replace (n =? 0) with false by (symmetry; apply Z.eqb_neq; lia).
  cbn [orb]. rewrite (wrap_small (ts * n)) by nia.
  apply IH; [exact Hp|nia|nia].
Qed.

Lemma translationIndex_from_prefix index lead r : forall ts,
  Forall (fun d => 0 < d) r -> Forall (fun d => 0 < d) lead ->
  0 < ts -> ts * product r * product lead < 2 ^ 64 ->
  translationIndex_from index (r ++ lead) r (index mod ts) ts ts
  = Some (index mod (ts * product r)).
Proof.
  induction r as [|n r IH]; intros ts Hp Hl Hts Hb.
  - cbn [app]. rewrite product_nil, Z.mul_1_r in *.
    apply translationIndex_from_lead; assumption.
  - apply Forall_cons_1 in Hp as [Hn Hp]. rewrite product_cons in *.
    pose proof (product_pos _ Hp) as Hpr. pose proof (product_pos _ Hl) as Hpl.
    assert (Htn : ts * n <= ts * n * product r * product lead).
    { replace (ts * n * product r * product lead)
        with (ts * n * (product r * product lead)) by ring.
      rewrite <- (Z.mul_1_r (ts * n)) at 1.
      apply Z.mul_le_mono_nonneg_l; nia. }
    assert (Hbb : ts * n * product r * product lead < 2 ^ 64)
      by (replace (ts * n * product r * product lead)
            with (ts * (n * product r) * product lead) by ring; exact Hb).
    cbn [app translationIndex_from].
    replace (ts =? 0) with false by (symmetry; apply Z.eqb_neq; lia).
    replace (n =? 0) with false by (symmetry; apply Z.eqb_neq; lia).
    cbn [orb]. rewrite Z.eqb_refl.
    pose proof (Z.mod_pos_bound (index / ts) n Hn) as Hd.
    pose proof (Z.mod_pos_bound index ts Hts) as Ho.
    rewrite (wrap_small (_ * ts)) by nia.
    rewrite (wrap_small (ts * n)) by nia.
    assert (Hm : index mod (ts * n) = index mod ts + (index / ts) mod n * ts)
      by (rewrite Z.rem_mul_r by lia; ring).
    rewrite <- Hm.
    rewrite wrap_small by (pose proof (Z.mod_pos_bound index (ts * n)); nia).
    rewrite IH by (auto; nia). f_equal. f_equal. ring.
Qed.

Lemma translated_lead index lead shape :
  Forall (fun d => 0 < d) shape -> Forall (fun d => 0 < d) lead ->
  product (lead ++ shape) < 2 ^ 64 ->
  translated shape (lead ++ shape) index = index mod product shape.
Proof.
  intros Hs Hl Hb. unfold translated, translationIndex.
  rewrite rev_app_distr.
  pose proof (translationIndex_from_prefix index (rev lead) (rev shape) 1) as H.
  rewrite Z.mod_1_r, Z.mul_1_l, !product_rev in H. rewrite H.
  - reflexivity.
  - apply Forall_rev_iff. exact Hs.
  - apply Forall_rev_iff. exact Hl.
  - lia.
  - rewrite product_app in Hb. lia.
Qed.

Lemma broadcastable_to_lead lead shape : broadcastable_to shape (lead ++ shape).
Proof.
  apply broadcastable_to_split. exists lead, shape. split; [reflexivity|].
  induction shape; constructor; [left; reflexivity|assumption].
Qed.

(** X26: broadcasting a tensor of positive dimensions to its own shape with
    further leading dimensions in front returns a tensor of that shape, in
    a fresh buffer, in which the elements of the source repeat: element [i]
    of the result is element [i mod N] of the source, [N] its element
    count.  With no leading dimension the result is a copy. *)
Theorem TensorValue_broadcastTo_tiles (st : State) (t : TensorValue) (lead : Shape)
    (src : list cell) :
  wf_value st t -> contents st t = Some src ->
  Forall (fun d => 0 < d) (lead ++ m_shape t) ->
  product (lead ++ m_shape t) < 2 ^ 31 ->
  exists r buf,
    TensorValue_broadcastTo t (lead ++ m_shape t) st
      = Ok r (mkState (mem st ++ [Some buf]) (nodes st))
    /\ m_data r = length (mem st)
    /\ m_shape r = lead ++ m_shape t
    /\ m_dType r = m_dType t
    /\ length buf = Z.to_nat (product (lead ++ m_shape t))
    /\ (forall i, 0 <= i < product (lead ++ m_shape t) ->
          buf !! Z.to_nat i = src !! Z.to_nat (i mod m_size t))
    /\ (lead = [] -> buf = src).
Proof.
  intros Hw Hc Hp Hsmall.
  pose proof Hp as Hp'. apply Forall_app in Hp' as [Hl Hs].
  assert (Hnn : Forall (fun d => 0 <= d) (lead ++ m_shape t))
    by (eapply Forall_impl; [|exact Hp]; cbv beta; intros; lia).
  pose proof (broadcast_shape_target _ _ (broadcastable_to_lead lead (m_shape t)) Hp) as Hbs.
  destruct (TensorValue_broadcastTo_spec st t (lead ++ m_shape t) src Hw Hc
              (broadcastable_to_lead _ _) Hnn)
    as (r & buf & Hrun & Hd & Hsh & Hty & _ & Hwr & Hel); [rewrite Hbs; exact Hsmall|].
  rewrite Hbs in Hsh.
  pose proof Hwr as [_ Hsz _ _ (b & Hb & Hlen)].
  cbn [mem] in Hb. rewrite Hd, lookup_snoc_length in Hb. injection Hb as <-.
  rewrite Hsz, Hsh in Hlen.
  assert (Hsize : m_size t = product (m_shape t)) by (destruct Hw; assumption).
  assert (Hall : forall i, 0 <= i < product (lead ++ m_shape t) ->
            buf !! Z.to_nat i = src !! Z.to_nat (i mod m_size t)).
  { intros i Hi. rewrite Hel by (rewrite Hsz, Hsh; exact Hi).
    rewrite Hsh, translated_lead by (auto; lia). rewrite Hsize. reflexivity. }
  exists r, buf. do 5 (split; [assumption|]). split; [exact Hall|].
  intros ->. cbn [app] in *.
  destruct (wf_value_buffer _ _ _ Hw Hc) as (_ & Hls & _).
  apply list_eq_same_length with (n := Z.to_nat (m_size t)); [exact Hls|lia|].
  intros k x y Hk Hx Hy.
  specialize (Hall (Z.of_nat k) ltac:(lia)).
  rewrite Z.mod_small, Nat2Z.id in Hall by lia. congruence.
Qed.

(** The 2 x 3 matrix of 1, ..., 6 broadcast to 2 x 2 x 3. *)
Lemma TensorValue_broadcastTo_tiles_witness :
  exists r buf,
    TensorValue_broadcastTo matrix_2x3 ([2] ++ [2; 3]) matrix_2x3_state
      = Ok r (mkState (mem matrix_2x3_state ++ [Some buf]) (nodes matrix_2x3_state))
    /\ m_data r = 1%nat
    /\ m_shape r = [2; 2; 3]
    /\ m_dType r = kFloat32
    /\ length buf = 12%nat
    /\ (forall i, 0 <= i < 12 ->
          buf !! Z.to_nat i = floats [1; 2; 3; 4; 5; 6] !! Z.to_nat (i mod 6))
    /\ ([2] = [] -> buf = floats [1; 2; 3; 4; 5; 6]).
Proof.
  apply (TensorValue_broadcastTo_tiles matrix_2x3_state matrix_2x3 [2]
           (floats [1; 2; 3; 4; 5; 6])).
  - apply matrix_2x3_wf.
  - reflexivity.
  - repeat constructor; lia.
  - reflexivity.
Defined.

(** ** Gradients of a leaf *)

Lemma set_grad_same node : set_grad node (m_grad node) = node.
Proof. destruct node; reflexivity. Qed.

Lemma set_node_same st p node : nodes st !! p = Some node -> set_node p node st = Ok tt st.
Proof.
  intros H. unfold set_node. rewrite H. destruct st as [m ns]; cbn in *.
  rewrite list_insert_id by exact H. reflexivity.
Qed.

(** [m_grad += seed] with a seed of the shape and the data type of the grad. *)
Lemma accumulate_grad_eq st p node seed g s :
  nodes st !! p = Some node ->
  wf_value st (m_grad node) -> wf_value st seed ->
  m_shape (m_grad node) = m_shape seed -> m_dType (m_grad node) = m_dType seed ->
  contents st (m_grad node) = Some g -> contents st seed = Some s ->
  accumulate_grad p seed st =
    Ok tt (write_buf st (m_data (m_grad node))
             (zip_with (cell_add (m_dType (m_grad node))) g s)).
Proof.
  intros Hp Hwg Hws Hsh Hty Hg Hs. unfold accumulate_grad.
  rewrite (bind_Ok _ _ _ _ _ (get_node_eq _ _ _ Hp)).
  rewrite (bind_Ok _ _ _ _ _
             (TensorValue_binop_assign_eq Add _ _ st g s Hwg Hws Hsh Hty Hg Hs)).
  rewrite set_grad_same. apply set_node_same. exact Hp.
Qed.

Lemma TensorNode_backward_leaf_eq (fuel : nat) (st : State) (p : nat)
    (node : TensorNode) (seed : TensorValue) (g s : list cell) :
  nodes st !! p = Some node ->
  m_backwardFunc node = Some defaultBackward ->
  wf_value st (m_grad node) -> wf_value st seed ->
  m_shape (m_grad node) = m_shape seed -> m_dType (m_grad node) = m_dType seed ->
  contents st (m_grad node) = Some g -> contents st seed = Some s ->
  TensorNode_backward (S fuel) p seed st =
    Ok tt (if m_requireGrad node || m_retainGrad node
           then write_buf st (m_data (m_grad node))
                  (zip_with (cell_add (m_dType (m_grad node))) g s)
           else st).
Proof.
  intros Hp Hbf Hwg Hws Hsh Hty Hg Hs.
  pose proof (accumulate_grad_eq st p node seed g s Hp Hwg Hws Hsh Hty Hg Hs) as Hacc.
  cbn [TensorNode_backward].
  rewrite (bind_Ok _ _ _ _ _ (get_node_eq _ _ _ Hp)).
  destruct (m_retainGrad node) eqn:Hret.
  - rewrite (bind_Ok _ _ _ _ _ Hacc).
    rewrite (bind_Ok _ _ _ _ _ (get_node_eq (write_buf st _ _) p node Hp)).
    rewrite Hbf, Hret, andb_false_r, orb_true_r. reflexivity.
  - rewrite bind_unfold, ret_unfold. cbv beta iota.
    rewrite (bind_Ok _ _ _ _ _ (get_node_eq _ _ _ Hp)).
    rewrite Hbf, Hret, andb_true_r, orb_false_r.
    destruct (m_requireGrad node); [exact Hacc|reflexivity].
Qed.

(** X17: [TensorNode::backward] on a leaf (a node whose backward function is
    [defaultBackward]) with a seed of the shape and the data type of its
    grad adds the seed to the grad, element by element and in place,
    exactly once when the node requires or retains grad (also when it does
    both), and changes nothing when it does neither.  The node itself, its
    value and the other nodes are unchanged. *)
Theorem leaf_backward_accumulates_once (fuel : nat) (st : State) (p : nat)
    (node : TensorNode) (seed : TensorValue) (g s : list cell) :
  nodes st !! p = Some node ->
  m_backwardFunc node = Some defaultBackward ->
  wf_value st (m_grad node) -> wf_value st seed ->
  m_shape (m_grad node) = m_shape seed -> m_dType (m_grad node) = m_dType seed ->
  contents st (m_grad node) = Some g -> contents st seed = Some s ->
  TensorNode_backward (S fuel) p seed st =
    Ok tt (if m_requireGrad node || m_retainGrad node
           then write_buf st (m_data (m_grad node))
                  (zip_with (cell_add (m_dType (m_grad node))) g s)
           else st).
Proof. apply TensorNode_backward_leaf_eq. Qed.

(** The leaf [x] of the state after [transposed_leaf], a 3 x 2 tensor of
    1, ..., 6 with a zeroed grad, receives its own value as a seed. *)
Lemma leaf_backward_accumulates_once_witness :
  exists node,
    nodes transposed_state !! 0%nat = Some node
    /\ TensorNode_backward 1 0 (m_value node) transposed_state =
         Ok tt (write_buf transposed_state (m_data (m_grad node))
                  (floats [1; 2; 3; 4; 5; 6])).
Proof.
  eexists. split; [vm_compute; reflexivity|].
  lazymatch goal with
  | |- TensorNode_backward _ _ (m_value ?n) _ = _ =>
      rewrite (leaf_backward_accumulates_once 0 transposed_state 0 n (m_value n)
                 (floats [0; 0; 0; 0; 0; 0]) (floats [1; 2; 3; 4; 5; 6]))
  end.
  - vm_compute. reflexivity.
  - vm_compute. reflexivity.
  - reflexivity.
  - constructor; [repeat constructor; lia|reflexivity|reflexivity|reflexivity|].
    eexists. split; vm_compute; reflexivity.
  - constructor; [repeat constructor; lia|reflexivity|reflexivity|reflexivity|].
    eexists. split; vm_compute; reflexivity.
  - reflexivity.
  - reflexivity.
  - vm_compute. reflexivity.
  - vm_compute. reflexivity.
Defined.

Lemma cast_zero T : cast T (of_Z kFloat32 0) = S754_zero false.
Proof. destruct T; reflexivity. Qed.

Lemma Tensor_zeroGrad_eq st p node :
  nodes st !! p = Some node -> wf_value st (m_grad node) ->
  Tensor_zeroGrad (Some p) st =
    Ok tt (write_buf st (m_data (m_grad node)) (zero_cells (m_size (m_grad node)))).
Proof.
  intros Hp Hw. unfold Tensor_zeroGrad.
  rewrite (bind_Ok _ _ _ _ _ (Tensor_node_eq _ _ _ Hp)).
  rewrite TensorValue_fill_eq by exact Hw. rewrite cast_zero. reflexivity.
Qed.

(** X18: [zeroGrad] overwrites every element of the grad of the node with
    [0], in place, and changes nothing else.  [retainGrad] does the same and
    sets the retain flag of the node, after which [grad] returns the grad of
    the node instead of throwing, whether or not the node requires grad. *)
Theorem retainGrad_makes_grad_readable (st : State) (p : nat) (node : TensorNode) :
  nodes st !! p = Some node -> wf_value st (m_grad node) ->
  Tensor_zeroGrad (Some p) st =
    Ok tt (write_buf st (m_data (m_grad node)) (zero_cells (m_size (m_grad node))))
  /\ Tensor_retainGrad (Some p) st =
       Ok tt (mkState (<[m_data (m_grad node) := Some (zero_cells (m_size (m_grad node)))]>
                         (mem st))
                (<[p := set_retainGrad node true]> (nodes st)))
  /\ forall st', Tensor_retainGrad (Some p) st = Ok tt st' ->
       Tensor_grad (Some p) st' = Ok (m_grad node) st'
       /\ contents st' (m_grad node) = Some (zero_cells (m_size (m_grad node))).
Proof.
  intros Hp Hw. split; [apply Tensor_zeroGrad_eq; assumption|].
  assert (Hlt : (p < length (nodes st))%nat) by (eapply lookup_lt_Some; eauto).
  assert (Hret : Tensor_retainGrad (Some p) st =
       Ok tt (mkState (<[m_data (m_grad node) := Some (zero_cells (m_size (m_grad node)))]>
                         (mem st))
                (<[p := set_retainGrad node true]> (nodes st)))).
  { unfold Tensor_retainGrad.
    rewrite (bind_Ok _ _ _ _ _ (Tensor_node_eq _ _ _ Hp)).
    rewrite bind_unfold. unfold set_node. rewrite Hp.
    rewrite TensorValue_fill_eq.
    - rewrite cast_zero. reflexivity.
    - destruct Hw as [Hd Hs Hm Hstr Hb]. constructor; auto. }
  split; [exact Hret|]. intros st' Hst'. rewrite Hret in Hst'. injection Hst' as <-.
  split.
  - unfold Tensor_grad.
    rewrite (bind_Ok _ _ _ _ _
               (Tensor_node_eq (mkState _ (<[p := set_retainGrad node true]> (nodes st)))
                  p (set_retainGrad node true) (list_lookup_insert_eq _ _ _ Hlt))).
    cbn [m_requireGrad m_retainGrad set_retainGrad].
    destruct (m_requireGrad node); reflexivity.
  - unfold contents. cbn [mem].
    destruct Hw as [_ _ _ _ (buf & Hb & _)].
    rewrite list_lookup_insert_eq by (eapply lookup_lt_Some; eauto). reflexivity.
Qed.

(** The leaf [x] of the state after [transposed_leaf]. *)
Lemma retainGrad_makes_grad_readable_witness :
  exists node,
    nodes transposed_state !! 0%nat = Some node
    /\ Tensor_zeroGrad (Some 0%nat) transposed_state =
         Ok tt (write_buf transposed_state (m_data (m_grad node)) (zero_cells 6))
    /\ forall st', Tensor_retainGrad (Some 0%nat) transposed_state = Ok tt st' ->
         Tensor_grad (Some 0%nat) st' = Ok (m_grad node) st'
         /\ contents st' (m_grad node) = Some (zero_cells 6).
Proof.
  eexists. split; [vm_compute; reflexivity|].
  lazymatch goal with
  | |- context [m_grad ?n] =>
      destruct (retainGrad_makes_grad_readable transposed_state 0 n) as (H1 & _ & H2)
  end.
  - vm_compute. reflexivity.
  - constructor; [repeat constructor; lia|reflexivity|reflexivity|reflexivity|].
    eexists. split; vm_compute; reflexivity.
  - split; [exact H1|exact H2].
Defined.

(** ** Backward through a node with one parent *)

Lemma TensorValue_div_scalar_eq this scalar st b :
  wf_value st this -> contents st this = Some b ->
  TensorValue_div_scalar this scalar st =
    Ok (mkTensorValue (m_dType this) (length (mem st)) (m_size this) (m_shape this)
          (computeStrides (m_shape this)) (m_device this))
       (mkState (mem st ++ [Some ((fun c => cell_div (m_dType this) c
                                              (Val (cast (m_dType this) scalar))) <$> b)])
          (nodes st)).
Proof.
  intros Hw Hc. pose proof (wf_value_size _ _ Hw) as Hsz.
  destruct (wf_value_buffer _ _ _ Hw Hc) as (H1 & Hl1 & Hp1).
  unfold TensorValue_div_scalar.
  destruct Hw as [_ E1 _ _ _]. rewrite E1 in *.
  rewrite bind_unfold, TensorValue_uninit_eq by lia.
  cbn [m_data]. rewrite bind_unfold. unfold Device_divAS, divASGeneric.
  rewrite (mapGeneric_spec
             (fun c => cell_div (m_dType this) c (Val (cast (m_dType this) scalar)))
             _ _ _ _ b (replicate (Z.to_nat (product (m_shape this))) Indet)); cbn [mem].
  - rewrite write_buf_last, ret_unfold. reflexivity.
  - rewrite lookup_app_l by exact Hp1. exact H1.
  - apply lookup_snoc_length.
  - lia.
  - exact Hl1.
  - apply length_replicate.
Qed.

Lemma zip_with_replicate_r {A B C} (f : A -> B -> C) (l : list A) (c : B) :
  zip_with f l (replicate (length l) c) = (fun x => f x c) <$> l.
Proof. induction l as [|x l IH]; [reflexivity|]. cbn. rewrite IH. reflexivity. Qed.

(** A leaf receives a seed whose elements are all [c]. *)
Lemma TensorNode_backward_leaf_constant fuel st a xn seed g c :
  nodes st !! a = Some xn ->
  m_backwardFunc xn = Some defaultBackward ->
  m_requireGrad xn || m_retainGrad xn = true ->
  wf_value st (m_grad xn) -> wf_value st seed ->
  m_shape (m_grad xn) = m_shape seed -> m_dType (m_grad xn) = m_dType seed ->
  contents st (m_grad xn) = Some g ->
  contents st seed = Some (replicate (Z.to_nat (m_size (m_grad xn))) c) ->
  TensorNode_backward (S fuel) a seed st =
    Ok tt (write_buf st (m_data (m_grad xn))
             ((fun x => cell_add (m_dType (m_grad xn)) x c) <$> g)).
Proof.
  intros Ha Hbf Hrq Hwg Hws Hsh Hty Hg Hs.
  rewrite (TensorNode_backward_leaf_eq fuel st a xn seed g _ Ha Hbf Hwg Hws Hsh Hty Hg Hs).
  rewrite Hrq. destruct (wf_value_buffer _ _ _ Hwg Hg) as (_ & <- & _).
  rewrite zip_with_replicate_r. reflexivity.
Qed.

(** X21: [backward(value)] on a tensor made by [sum], [mean] or unary minus
    from a leaf that requires (or retains) grad adds to every element of the
    grad of the leaf the same number: [value] through a [sum], [-value]
    through a negation and [value / N] through a [mean] of [N] elements,
    each rounded as the data type of the tensor prescribes.  No node is
    changed and no other buffer that existed before the call. *)
Theorem backward_through_unary_node (st : State) (z a : nat) (zn xn : TensorNode)
    (f : BackwardFunc) (value : spec_float) (c : cell) (g : list cell) :
  nodes st !! z = Some zn ->
  m_backwardFunc zn = Some f ->
  m_a zn = Some a ->
  m_retainGrad zn = false ->
  nodes st !! a = Some xn ->
  m_backwardFunc xn = Some defaultBackward ->
  m_requireGrad xn || m_retainGrad xn = true ->
  wf_value st (m_grad xn) ->
  m_dType (m_grad xn) = m_dType (m_value zn) ->
  contents st (m_grad xn) = Some g ->
  parent_seed f (m_dType (m_value zn)) value (m_size (m_value xn)) = Some c ->
  exists st',
    Tensor_backward (Some z) value st = Ok tt st'
    /\ nodes st' = nodes st
    /\ contents st' (m_grad xn)
       = Some ((fun x => cell_add (m_dType (m_grad xn)) x c) <$> g)
    /\ (forall q, (q < length (mem st))%nat -> q <> m_data (m_grad xn) ->
          mem st' !! q = mem st !! q).
Proof.
  intros Hz Hbz Haz Hrz Ha Hbx Hrq Hwg Hty Hg Hc.
  assert (Hza : z <> a).
  { intros ->. assert (zn = xn) as -> by congruence.
    destruct f; cbn in Hc; congruence. }
  pose proof (wf_value_size _ _ Hwg) as Hsz.
  destruct (wf_value_buffer _ _ _ Hwg Hg) as (Hbg & Hlg & Hdg).
  pose proof Hwg as [Hd Hs Hsmall Hstr _].
  set (T := m_dType (m_value zn)) in *.
  set (shape := m_shape (m_grad xn)) in *.
  set (s1 := replicate (Z.to_nat (product shape)) (Val (cast T value))).
  set (st1 := mkState (mem st ++ [Some s1]) (nodes st)).
  set (seed := mkTensorValue T (length (mem st)) (product shape) shape
                 (computeStrides shape) (m_device (m_value zn))).
  assert (Hlen : length (nodes st1) = S (S (length (nodes st) - 2))).
  { apply lookup_lt_Some in Hz, Ha. cbn [st1 nodes]. lia. }
  assert (Hws : wf_value st1 seed).
  { constructor; cbn [seed m_shape m_size m_strides m_data]; auto.
    exists s1. cbn [st1 mem]. rewrite lookup_snoc_length.
    split; [reflexivity|]. apply length_replicate. }
  assert (Hcs : contents st1 seed = Some s1) by (apply contents_snoc; reflexivity).
  assert (He1 : extends st st1) by apply extends_snoc.
  assert (Hpre : Tensor_backward (Some z) value st
                 = TensorNode_backward (S (S (length (nodes st) - 2))) z seed st1).
  { unfold Tensor_backward.
    rewrite (bind_Ok _ _ _ _ _ (Tensor_node_eq _ _ _ Hz)), Haz.
    cbn [deref]. rewrite bind_unfold, ret_unfold.
    rewrite (bind_Ok _ _ _ _ _ (get_node_eq _ _ _ Ha)).
    rewrite (bind_Ok _ _ _ _ _ (TensorValue_filled_eq value shape _ T st Hd Hsmall)).
    unfold get_state. rewrite bind_unfold, <- Hlen. reflexivity. }
  assert (Hfin : forall st2 seed2,
            extends st1 st2 -> wf_value st2 seed2 ->
            m_shape seed2 = shape -> m_dType seed2 = T ->
            contents st2 seed2 = Some (replicate (Z.to_nat (m_size (m_grad xn))) c) ->
            exists st',
              TensorNode_backward (S (length (nodes st) - 2)) a seed2 st2 = Ok tt st'
              /\ nodes st' = nodes st
              /\ contents st' (m_grad xn)
                 = Some ((fun x => cell_add (m_dType (m_grad xn)) x c) <$> g)
              /\ (forall q, (q < length (mem st))%nat -> q <> m_data (m_grad xn) ->
                    mem st' !! q = mem st !! q)).
  { intros st2 seed2 He2 Hw2 Hsh2 Hty2 Hc2.
    pose proof (extends_trans _ _ _ He1 He2) as He.
    pose proof He as [Hn (more & Hm)].
    eexists. split.
    - apply (TensorNode_backward_leaf_constant _ st2 a xn seed2 g c); auto.
      + rewrite Hn. exact Ha.
      + apply (wf_value_extends st); assumption.
      + congruence.
      + unfold contents. rewrite (extends_lookup _ _ _ He) by exact Hdg. exact Hg.
    - unfold write_buf. cbn [nodes mem]. split; [exact Hn|]. split.
      + unfold contents. cbn [mem]. rewrite list_lookup_insert_eq; [reflexivity|].
        rewrite Hm, length_app. lia.
      + intros q Hq Hne. rewrite list_lookup_insert_ne by congruence.
        apply (extends_lookup _ _ _ He). exact Hq. }
  assert (Hz1 : nodes st1 !! z = Some zn) by exact Hz.
  rewrite Hpre. cbn [TensorNode_backward].
  rewrite (bind_Ok _ _ _ _ _ (get_node_eq _ _ _ Hz1)), Hrz.
  rewrite bind_unfold, ret_unfold. cbv beta iota.
  rewrite (bind_Ok _ _ _ _ _ (get_node_eq _ _ _ Hz1)), Hbz, Haz.
  rewrite Hs in Hfin. fold shape in Hfin.
  destruct f; try discriminate; cbn [parent_seed] in Hc; injection Hc as <-.
  - (* negation *)
    rewrite (bind_Ok _ _ _ _ _ (TensorValue_neg_eq seed st1 s1 Hws Hcs)).
    apply Hfin; try reflexivity.
    + apply extends_snoc.
    + constructor; cbn [seed m_shape m_size m_strides m_data]; auto.
      eexists. cbn [st1 mem]. rewrite lookup_snoc_length.
      split; [reflexivity|]. unfold s1. rewrite length_fmap, length_replicate. reflexivity.
    + unfold contents. cbn [mem m_data]. rewrite lookup_snoc_length.
      unfold s1. rewrite fmap_replicate. reflexivity.
  - (* sum *)
    apply Hfin; try reflexivity; [apply extends_refl|exact Hws|exact Hcs].
  - (* mean *)
    rewrite (bind_Ok _ _ _ _ _ (get_node_eq st1 a xn Ha)).
    rewrite (bind_Ok _ _ _ _ _ (TensorValue_div_scalar_eq seed _ st1 s1 Hws Hcs)).
    apply Hfin; try reflexivity.
    + apply extends_snoc.
    + constructor; cbn [seed m_shape m_size m_strides m_data]; auto.
      eexists. cbn [st1 mem]. rewrite lookup_snoc_length.
      split; [reflexivity|]. unfold s1. rewrite length_fmap, length_replicate. reflexivity.
    + unfold contents. cbn [mem m_data]. rewrite lookup_snoc_length.
      unfold s1. rewrite fmap_replicate. reflexivity.
Qed.

(** [z = x.mean(); z.backward(3)] on a leaf of six elements adds 3 / 6, which
    is [2^-1], to each element of the zeroed grad of [x]. *)
Lemma backward_through_unary_node_witness :
  exists xn st',
    nodes mean_state !! 0%nat = Some xn
    /\ Tensor_backward (Some 1%nat) (of_Z kFloat32 3) mean_state = Ok tt st'
    /\ contents st' (m_grad xn)
       = Some (replicate 6 (Val (S754_finite false 8388608 (-24)))).
Proof.
  assert (Hx : exists xn, nodes mean_state !! 0%nat = Some xn)
    by (eexists; vm_compute; reflexivity).
  assert (Hz : exists zn, nodes mean_state !! 1%nat = Some zn)
    by (eexists; vm_compute; reflexivity).
  destruct Hx as [xn Hx], Hz as [zn Hz].
  destruct (backward_through_unary_node mean_state 1 0 zn xn meanBackwardFunc
              (of_Z kFloat32 3) (Val (S754_finite false 8388608 (-24)))
              (zero_cells 6) Hz)
    as (st' & Hrun & _ & Hc & _);
    try (vm_compute in Hx, Hz; injection Hx as <-; injection Hz as <-;
         vm_compute; reflexivity).
  - vm_compute in Hx. injection Hx as <-.
    constructor; [repeat constructor; lia|reflexivity|reflexivity|reflexivity|].
    eexists. split; vm_compute; reflexivity.
  - exists xn, st'. split; [exact Hx|]. split; [exact Hrun|].
    rewrite Hc. vm_compute in Hx. injection Hx as <-. vm_compute. reflexivity.
Defined.

(** ** Backward through a transposition *)

(** A leaf receives a constant seed in a state that extends [st]. *)
Lemma TensorNode_backward_leaf_frame fuel st st2 a xn seed g c :
  extends st st2 ->
  nodes st !! a = Some xn ->
  m_backwardFunc xn = Some defaultBackward ->
  m_requireGrad xn || m_retainGrad xn = true ->
  wf_value st (m_grad xn) -> wf_value st2 seed ->
  m_shape seed = m_shape (m_grad xn) -> m_dType seed = m_dType (m_grad xn) ->
  contents st (m_grad xn) = Some g ->
  contents st2 seed = Some (replicate (Z.to_nat (m_size (m_grad xn))) c) ->
  exists st',
    TensorNode_backward (S fuel) a seed st2 = Ok tt st'
    /\ nodes st' = nodes st
    /\ contents st' (m_grad xn)
       = Some ((fun x => cell_add (m_dType (m_grad xn)) x c) <$> g)
    /\ (forall q, (q < length (mem st))%nat -> q <> m_data (m_grad xn) ->
          mem st' !! q = mem st !! q).
Proof.
  intros He Ha Hbx Hrq Hwg Hws Hsh Hty Hg Hc.
  destruct (wf_value_buffer _ _ _ Hwg Hg) as (Hbg & Hlg & Hdg).
  pose proof He as [Hn (more & Hm)].
  eexists. split.
  - apply (TensorNode_backward_leaf_constant _ st2 a xn seed g c); auto.
    + rewrite Hn. exact Ha.
    + apply (wf_value_extends st); assumption.
    + unfold contents. rewrite (extends_lookup _ _ _ He) by exact Hdg. exact Hg.
  - unfold write_buf. cbn [nodes mem]. split; [exact Hn|]. split.
    + unfold contents. cbn [mem]. rewrite list_lookup_insert_eq; [reflexivity|].
      rewrite Hm, length_app. lia.
    + intros q Hq Hne. rewrite list_lookup_insert_ne by congruence.
      apply (extends_lookup _ _ _ He). exact Hq.
Qed.

(** The transposition of a buffer whose cells are all [c]. *)
Lemma transpose_constant dim0 dim1 shape (buf' : list cell) c :
  Forall (fun d => 0 <= d) shape ->
  (Z.to_nat dim0 < length shape)%nat -> (Z.to_nat dim1 < length shape)%nat ->
  length buf' = Z.to_nat (product shape) ->
  (forall i, 0 <= i < product shape ->
     buf' !! Z.to_nat (transposed_index dim0 dim1 shape i) = Some c) ->
  buf' = replicate (Z.to_nat (product shape)) c.
Proof.
  intros Hd H0 H1 Hl Hmove.
  apply list_eq_same_length with (n := Z.to_nat (product shape));
    [apply length_replicate|exact Hl|].
  intros k x y Hk Hx Hy. apply lookup_replicate in Hy as [-> _].
  assert (Hpos : Forall (fun d => 0 < d) shape) by (apply product_pos_dims; [exact Hd|lia]).
  set (sw := swap_at dim0 dim1 shape).
  assert (Hsw : Forall (fun d => 0 < d) sw) by (apply swap_at_Forall; exact Hpos).
  assert (Hps : product sw = product shape) by apply swap_at_product.
  assert (Hk' : 0 <= Z.of_nat k < product sw) by lia.
  pose proof (transposed_index_range dim0 dim1 sw (Z.of_nat k) Hsw Hk') as Hr.
  pose proof (transposed_index_involutive dim0 dim1 sw (Z.of_nat k) Hsw
                ltac:(unfold sw; rewrite swap_at_length; exact H0)
                ltac:(unfold sw; rewrite swap_at_length; exact H1) Hk') as Hinv.
  unfold sw in Hinv at 1. rewrite swap_at_involutive in Hinv by assumption.
  specialize (Hmove (transposed_index dim0 dim1 sw (Z.of_nat k)) ltac:(lia)).
  rewrite Hinv, Nat2Z.id in Hmove. congruence.
Qed.

(** X28: for [z = x.transpose(dim0, dim1)] of a leaf [x] that requires (or
    retains) grad, [z.backward(value, gradShape)] with the shape of [z] as
    [gradShape] (the shape of the grad of [x] with the two dimensions
    swapped) returns and adds [value] to every element of the grad of [x].
    No node is changed and no other buffer that existed before the
    call. *)
Theorem transpose_backward_adds_value (st : State) (z a : nat) (zn xn : TensorNode)
    (value : spec_float) (gradShape : Shape) (g : list cell) :
  nodes st !! z = Some zn ->
  m_backwardFunc zn = Some transposeBackwardFunc ->
  m_a zn = Some a ->
  m_retainGrad zn = false ->
  nodes st !! a = Some xn ->
  m_backwardFunc xn = Some defaultBackward ->
  m_requireGrad xn || m_retainGrad xn = true ->
  wf_value st (m_grad xn) ->
  m_dType (m_grad xn) = m_dType (m_value zn) ->
  contents st (m_grad xn) = Some g ->
  0 <= m_dim0 zn < Z.of_nat (length gradShape) ->
  0 <= m_dim1 zn < Z.of_nat (length gradShape) ->
  swap_at (m_dim0 zn) (m_dim1 zn) gradShape = m_shape (m_grad xn) ->
  exists st',
    Tensor_backward_shape (Some z) value gradShape st = Ok tt st'
    /\ nodes st' = nodes st
    /\ contents st' (m_grad xn)
       = Some ((fun x => cell_add (m_dType (m_grad xn)) x
                           (Val (cast (m_dType (m_grad xn)) value))) <$> g)
    /\ (forall q, (q < length (mem st))%nat -> q <> m_data (m_grad xn) ->
          mem st' !! q = mem st !! q).
Proof.
  intros Hz Hbz Haz Hrz Ha Hbx Hrq Hwg Hty Hg Hd0 Hd1 Hsw.
  assert (Hza : z <> a) by (intros ->; congruence).
  pose proof Hwg as [Hd Hs Hsmall _ _].
  assert (Hgs : gradShape = swap_at (m_dim0 zn) (m_dim1 zn) (m_shape (m_grad xn)))
    by (rewrite <- Hsw, swap_at_involutive by lia; reflexivity).
  assert (Hgd : Forall (fun d => 0 <= d) gradShape)
    by (rewrite Hgs; apply swap_at_Forall; exact Hd).
  assert (Hgp : product gradShape = product (m_shape (m_grad xn)))
    by (rewrite Hgs; apply swap_at_product).
  set (T := m_dType (m_value zn)) in *.
  set (s1 := replicate (Z.to_nat (product gradShape)) (Val (cast T value))).
  set (st1 := mkState (mem st ++ [Some s1]) (nodes st)).
  set (seed := mkTensorValue T (length (mem st)) (product gradShape) gradShape
                 (computeStrides gradShape) (m_device (m_value zn))).
  assert (Hws : wf_value st1 seed).
  { constructor; cbn [seed m_shape m_size m_strides m_data]; auto; [lia|].
    exists s1. cbn [st1 mem]. rewrite lookup_snoc_length.
    split; [reflexivity|]. apply length_replicate. }
  assert (Hcs : contents st1 seed = Some s1) by (apply contents_snoc; reflexivity).
  assert (He1 : extends st st1) by apply extends_snoc.
  destruct (TensorValue_transpose_spec st1 seed (m_dim0 zn) (m_dim1 zn) s1 Hws Hcs Hd0 Hd1)
    as (r & st2 & buf' & Hrun2 & Hsh2 & Hty2 & _ & Hsz2 & _ & Hwf2 & Hc2 & He2 & Hmove).
  cbn [seed m_shape m_dType m_size] in Hsh2, Hty2, Hsz2, Hmove.
  assert (Hbuf : buf' = replicate (Z.to_nat (product gradShape)) (Val (cast T value))).
  { apply (transpose_constant (m_dim0 zn) (m_dim1 zn) gradShape); auto; try lia.
    - destruct (wf_value_buffer _ _ _ Hwf2 Hc2) as (_ & Hl & _). rewrite Hl, Hsz2. reflexivity.
    - intros i Hi. rewrite Hmove by exact Hi. unfold s1.
      apply lookup_replicate_2. lia. }
  destruct (TensorNode_backward_leaf_frame (length (nodes st) - 2) st st2 a xn r g
              (Val (cast T value)))
    as (st' & Hrun3 & Hrest); auto.
  - eapply extends_trans; eauto.
  - rewrite Hsh2. exact Hsw.
  - rewrite Hty2. symmetry. exact Hty.
  - rewrite Hc2, Hbuf, Hs, Hgp. reflexivity.
  - exists st'. split; [|rewrite <- Hty in Hrest; exact Hrest].
    assert (Hlen : forall X, length (nodes (mkState X (nodes st)))
                             = S (S (length (nodes st) - 2))).
    { intros X. apply lookup_lt_Some in Hz, Ha. cbn [nodes]. lia. }
    assert (Hz1 : nodes st1 !! z = Some zn) by exact Hz.
    unfold Tensor_backward_shape.
    rewrite (bind_Ok _ _ _ _ _ (Tensor_node_eq _ _ _ Hz)).
    rewrite (bind_Ok _ _ _ _ _ (TensorValue_filled_eq value gradShape _ T st Hgd ltac:(lia))).
    unfold get_state. rewrite bind_unfold, Hlen. cbn [TensorNode_backward].
    rewrite (bind_Ok _ _ _ _ _ (get_node_eq _ _ _ Hz1)), Hrz.
    rewrite bind_unfold, ret_unfold. cbv beta iota.
    rewrite (bind_Ok _ _ _ _ _ (get_node_eq _ _ _ Hz1)), Hbz, Haz.
    rewrite (bind_Ok _ _ _ _ _ Hrun2). exact Hrun3.
Qed.

(** [x] of shape [{3, 2}], [z = x.transpose(0, 1)] and [z.backward(1, {2, 3})]. *)
Lemma transpose_backward_adds_value_witness :
  exists xn st',
    nodes transposed_state !! 0%nat = Some xn
    /\ Tensor_backward_shape (Some 1%nat) (of_Z kFloat32 1) [2; 3] transposed_state
       = Ok tt st'
    /\ contents st' (m_grad xn) = Some (floats [1; 1; 1; 1; 1; 1]).
Proof.
  assert (Hx : exists xn, nodes transposed_state !! 0%nat = Some xn)
    by (eexists; vm_compute; reflexivity).
  assert (Hz : exists zn, nodes transposed_state !! 1%nat = Some zn)
    by (eexists; vm_compute; reflexivity).
  destruct Hx as [xn Hx], Hz as [zn Hz].
  destruct (transpose_backward_adds_value transposed_state 1 0 zn xn (of_Z kFloat32 1)
              [2; 3] (zero_cells 6) Hz)
    as (st' & Hrun & _ & Hc & _);
    try (vm_compute in Hx, Hz; injection Hx as <-; injection Hz as <-;
         vm_compute; first [reflexivity | split; [discriminate|reflexivity]]).
  - vm_compute in Hx. injection Hx as <-.
    constructor; [repeat constructor; lia|reflexivity|reflexivity|reflexivity|].
    eexists. split; vm_compute; reflexivity.
  - exists xn, st'. split; [exact Hx|]. split; [exact Hrun|].
    rewrite Hc. vm_compute in Hx. injection Hx as <-. vm_compute. reflexivity.
Defined.

(** ** The optimizers *)

Lemma TensorValue_mul_scalar_eq this scalar st b :
  wf_value st this -> contents st this = Some b ->
  TensorValue_mul_scalar this scalar st =
    Ok (mkTensorValue (m_dType this) (length (mem st)) (m_size this) (m_shape this)
          (computeStrides (m_shape this)) (m_device this))
       (mkState (mem st ++ [Some ((fun c => cell_mul (m_dType this) c
                                              (Val (cast (m_dType this) scalar))) <$> b)])
          (nodes st)).
Proof.
  intros Hw Hc. pose proof (wf_value_size _ _ Hw) as Hsz.
  destruct (wf_value_buffer _ _ _ Hw Hc) as (H1 & Hl1 & Hp1).
  unfold TensorValue_mul_scalar.
  destruct Hw as [_ E1 _ _ _]. rewrite E1 in *.
  rewrite bind_unfold, TensorValue_uninit_eq by lia.
  cbn [m_data]. rewrite bind_unfold. unfold Device_mulAS, mulASGeneric.
  rewrite (mapGeneric_spec
             (fun c => cell_mul (m_dType this) c (Val (cast (m_dType this) scalar)))
             _ _ _ _ b (replicate (Z.to_nat (product (m_shape this))) Indet)); cbn [mem].
  - rewrite write_buf_last, ret_unfold. reflexivity.
  - rewrite lookup_app_l by exact Hp1. exact H1.
  - apply lookup_snoc_length.
  - lia.
  - exact Hl1.
  - apply length_replicate.
Qed.

Lemma set_value_same node : set_value node (m_value node) = node.
Proof. destruct node; reflexivity. Qed.

Lemma wf_param_sizes st p node :
  nodes st !! p = Some node ->
  wf_value st (m_value node) -> wf_value st (m_grad node) ->
  m_shape (m_grad node) = m_shape (m_value node) ->
  m_size (m_grad node) = m_size (m_value node).
Proof. intros _ [_ E1 _ _ _] [_ E2 _ _ _] Hs. rewrite E1, E2, Hs. reflexivity. Qed.

(** The body of the loop of [SGD::step] on one parameter. *)
Lemma SGD_step_cons lr st p rest :
  wf_param st p ->
  SGD_step (Some p :: rest) lr st = SGD_step rest lr (sgd_update lr st p).
Proof.
  intros (node & Hp & Hwv & Hwg & Hsh & Hty).
  destruct (wf_value_contents _ _ Hwv) as (w & Hcw & Hlw).
  destruct (wf_value_contents _ _ Hwg) as (g & Hcg & Hlg).
  destruct (wf_value_buffer _ _ _ Hwv Hcw) as (Hbw & _ & Hdw).
  pose proof (wf_param_sizes _ _ _ Hp Hwv Hwg Hsh) as Hsz.
  unfold sgd_update. rewrite Hp, Hcw, Hcg. cbv zeta.
  cbn [SGD_step]. rewrite bind_unfold. unfold Tensor_isRequireGrad.
  rewrite (bind_Ok _ _ _ _ _ (Tensor_node_eq _ _ _ Hp)), ret_unfold.
  rewrite bind_unfold.
  destruct (m_requireGrad node) eqn:Hrq; [|reflexivity].
  unfold Tensor_grad at 1.
  rewrite bind_unfold, (bind_Ok _ _ _ _ _ (Tensor_node_eq _ _ _ Hp)), Hrq.
  cbn [negb andb]. rewrite ret_unfold.
  rewrite bind_unfold, (TensorValue_mul_scalar_eq _ lr st g Hwg Hcg).
  set (scaled := (fun c => cell_mul (m_dType (m_grad node)) c
                             (Val (cast (m_dType (m_grad node)) lr))) <$> g).
  set (st1 := mkState (mem st ++ [Some scaled]) (nodes st)).
  set (t := mkTensorValue _ _ _ _ _ _).
  rewrite (bind_Ok _ _ _ _ _ (Tensor_node_eq st1 p node Hp)).
  assert (He : extends st st1) by apply extends_snoc.
  assert (Hwt : wf_value st1 t).
  { destruct Hwg as [Hd Hs Hm Hstr _].
    constructor; cbn [t m_shape m_size m_strides m_data]; auto.
    exists scaled. unfold st1. cbn [mem]. rewrite lookup_snoc_length.
    split; [reflexivity|]. unfold scaled. rewrite length_fmap. exact Hlg. }
  assert (Hcw1 : contents st1 (m_value node) = Some w)
    by (unfold st1; rewrite contents_snoc_old by exact Hdw; exact Hcw).
  assert (Hct : contents st1 t = Some scaled) by (apply contents_snoc; reflexivity).
  rewrite (bind_Ok _ _ _ _ _
             (TensorValue_binop_assign_eq Sub (m_value node) t st1 w scaled
                (wf_value_extends _ _ _ He Hwv) Hwt (eq_sym Hsh) (eq_sym Hty) Hcw1 Hct)).
  rewrite set_value_same, (set_node_same _ p node) by exact Hp.
  f_equal. unfold write_buf, st1. cbn [mem nodes]. f_equal.
  rewrite insert_app_l by exact Hdw. unfold scaled. rewrite Hty. reflexivity.
Qed.

Lemma wf_value_sgd_update lr st p t :
  wf_param st p -> wf_value st t -> wf_value (sgd_update lr st p) t.
Proof.
  intros (node & Hp & Hwv & Hwg & Hsh & Hty) Hwt.
  destruct (wf_value_contents _ _ Hwv) as (w & Hcw & Hlw).
  destruct (wf_value_contents _ _ Hwg) as (g & Hcg & Hlg).
  destruct (wf_value_buffer _ _ _ Hwv Hcw) as (Hbw & _ & Hdw).
  pose proof (wf_param_sizes _ _ _ Hp Hwv Hwg Hsh) as Hsz.
  unfold sgd_update. rewrite Hp, Hcw, Hcg. cbv zeta.
  destruct (m_requireGrad node); [|exact Hwt].
  destruct Hwt as [Hd Hs Hm Hstr (buf & Hb & Hl)]. constructor; auto.
  cbn [mem].
  assert (Hlt : (m_data t < length (mem st))%nat) by (eapply lookup_lt_Some; eauto).
  rewrite lookup_app_l by (rewrite length_insert; exact Hlt).
  destruct (decide (m_data t = m_data (m_value node))) as [E|ne].
  - rewrite E, list_lookup_insert_eq by exact Hdw. eexists. split; [reflexivity|].
    rewrite E, Hbw in Hb. injection Hb as <-.
    rewrite length_zip_with, length_fmap. lia.
  - rewrite list_lookup_insert_ne by congruence. exists buf. auto.
Qed.

Lemma wf_param_sgd_update lr st p q :
  wf_param st p -> wf_param st q -> wf_param (sgd_update lr st p) q.
Proof.
  intros Hp (node & Hq & Hwv & Hwg & Hsh & Hty). exists node.
  split.
  - unfold sgd_update.
    destruct (nodes st !! p) as [np|]; [|exact Hq].
    destruct (m_requireGrad np); [|exact Hq].
    destruct (contents st (m_value np)); [|exact Hq].
    destruct (contents st (m_grad np)); exact Hq.
  - split; [apply wf_value_sgd_update; assumption|].
    split; [apply wf_value_sgd_update; assumption|]. auto.
Qed.

(** X19: on parameters that are live nodes whose value and grad agree in
    shape and data type, [SGD::step] returns without an exception and its
    effect is that of updating the parameters one after the other in the
    order of the list: the value [w] of a parameter that requires grad
    becomes [w - g * lr], element by element and in place, and a parameter
    that does not require grad is skipped.  No node and no grad is
    changed. *)
Theorem SGD_step_updates (params : list nat) (lr : spec_float) (st : State) :
  Forall (wf_param st) params ->
  SGD_step (Some <$> params) lr st = Ok tt (fold_left (sgd_update lr) params st).
Proof.
  revert st. induction params as [|p params IH]; intros st Hwf; [reflexivity|].
  apply Forall_cons_1 in Hwf as [Hp Hrest].
  cbn [fmap list_fmap fold_left]. rewrite SGD_step_cons by exact Hp.
  apply IH. eapply Forall_impl; [|exact Hrest].
  intros q Hq. apply wf_param_sgd_update; assumption.
Qed.

Lemma sgd_state_wf : wf_param sgd_state 0.
Proof.
  eexists. split; [vm_compute; reflexivity|].
  split; [|split; [|split; reflexivity]].
  - constructor; [repeat constructor; lia|reflexivity|reflexivity|reflexivity|].
    eexists. split; vm_compute; reflexivity.
  - constructor; [repeat constructor; lia|reflexivity|reflexivity|reflexivity|].
    eexists. split; vm_compute; reflexivity.
Qed.

(** One step with learning rate 1 on the parameter of [sgd_scenario]: the
    value 1, ..., 6 with the grad 2 becomes -1, ..., 4. *)
Lemma SGD_step_updates_witness :
  SGD_step (Some <$> [0%nat]) (of_Z kFloat32 1) sgd_state =
    Ok tt (fold_left (sgd_update (of_Z kFloat32 1)) [0%nat] sgd_state)
  /\ mem (fold_left (sgd_update (of_Z kFloat32 1)) [0%nat] sgd_state) !! 2%nat
     = Some (Some (floats [-1; 0; 1; 2; 3; 4])).
Proof.
  split.
  - apply (SGD_step_updates [0%nat] (of_Z kFloat32 1) sgd_state).
    constructor; [apply sgd_state_wf|constructor].
  - vm_compute. reflexivity.
Defined.

Lemma wf_value_write_buf st d old new t :
  mem st !! d = Some (Some old) -> length new = length old ->
  wf_value st t -> wf_value (write_buf st d new) t.
Proof.
  intros Hd Hlen [Hdims Hs Hm Hstr (buf & Hb & Hl)]. constructor; auto.
  destruct (decide (m_data t = d)) as [E|ne].
  - exists new. rewrite E. rewrite write_buf_lookup by (eapply lookup_lt_Some; eauto).
    split; [reflexivity|]. rewrite E in Hb. assert (buf = old) as -> by congruence. lia.
  - exists buf. rewrite write_buf_lookup_ne by congruence. auto.
Qed.

Lemma Optimizer_zeroGrad_inv params : forall st,
  Forall (fun p => exists node, nodes st !! p = Some node /\ wf_value st (m_grad node)) params ->
  exists st',
    Optimizer_zeroGrad (Some <$> params) st = Ok tt st'
    /\ nodes st' = nodes st
    /\ (forall q buf, mem st !! q = Some (Some buf) ->
          mem st' !! q = Some (Some buf)
          \/ mem st' !! q = Some (Some (zero_cells (Z.of_nat (length buf)))))
    /\ (forall p node, p ∈ params -> nodes st !! p = Some node ->
          contents st' (m_grad node) = Some (zero_cells (m_size (m_grad node))))
    /\ (forall q, (forall p node, p ∈ params -> nodes st !! p = Some node ->
                     m_data (m_grad node) <> q) ->
          mem st' !! q = mem st !! q).
Proof.
  induction params as [|p0 params IH]; intros st Hwf.
  - exists st. split; [reflexivity|]. split; [reflexivity|].
    split; [auto|]. split; [|reflexivity].
    intros p node Hin. apply elem_of_nil in Hin. contradiction.
  - apply Forall_cons_1 in Hwf as [(node0 & Hp0 & Hw0) Hrest].
    destruct (wf_value_contents _ _ Hw0) as (b0 & Hc0 & Hl0).
    destruct (wf_value_buffer _ _ _ Hw0 Hc0) as (Hb0 & _ & Hd0).
    pose proof (wf_value_size _ _ Hw0) as Hsz0.
    set (d0 := m_data (m_grad node0)) in *.
    set (z0 := zero_cells (m_size (m_grad node0))).
    assert (Hlz : length z0 = length b0)
      by (unfold z0, zero_cells; rewrite length_replicate; lia).
    destruct (IH (write_buf st d0 z0)) as (st' & Hrun & Hn & HA & HB & HC).
    { eapply Forall_impl; [|exact Hrest]. intros q (node & Hq & Hw).
      exists node. split; [exact Hq|].
      apply (wf_value_write_buf _ _ b0); assumption. }
    assert (Hz : mem st' !! d0 = Some (Some z0)).
    { destruct (HA d0 z0) as [H|H]; [apply write_buf_lookup; exact Hd0|exact H|].
      rewrite H. unfold z0, zero_cells. rewrite length_replicate, Nat2Z.id. reflexivity. }
    exists st'. split.
    { cbn [fmap list_fmap Optimizer_zeroGrad]. rewrite bind_unfold.
      rewrite (Tensor_zeroGrad_eq _ _ _ Hp0 Hw0). exact Hrun. }
    split; [exact Hn|]. split; [|split].
    + intros q buf Hq. destruct (decide (q = d0)) as [->|ne].
      * right. rewrite Hz. assert (buf = b0) as -> by congruence.
        unfold z0, zero_cells. rewrite Nat2Z.id, Hl0. reflexivity.
      * apply HA. rewrite write_buf_lookup_ne by congruence. exact Hq.
    + intros p node Hin Hp. apply elem_of_cons in Hin as [->|Hin].
      * assert (node = node0) as -> by congruence.
        unfold contents. fold d0. rewrite Hz. reflexivity.
      * apply (HB p node Hin). exact Hp.
    + intros q Hq. rewrite HC.
      * apply write_buf_lookup_ne. apply (Hq p0 node0); [left|exact Hp0].
      * intros p node Hin Hp. apply (Hq p node); [right; exact Hin|exact Hp].
Qed.

(** X20: on parameters that are live nodes with a grad that satisfies the
    invariants of the data model, [Optimizer::zeroGrad] returns without an
    exception, leaves every element of the grad of every parameter at [0]
    (a parameter may be listed more than once), and changes no node and no
    buffer other than the grads of the parameters. *)
Theorem Optimizer_zeroGrad_zeroes (params : list nat) (st : State) :
  Forall (fun p => exists node, nodes st !! p = Some node /\ wf_value st (m_grad node)) params ->
  exists st',
    Optimizer_zeroGrad (Some <$> params) st = Ok tt st'
    /\ nodes st' = nodes st
    /\ (forall p node, p ∈ params -> nodes st !! p = Some node ->
          contents st' (m_grad node) = Some (zero_cells (m_size (m_grad node))))
    /\ (forall q, (forall p node, p ∈ params -> nodes st !! p = Some node ->
                     m_data (m_grad node) <> q) ->
          mem st' !! q = mem st !! q).
Proof.
  intros Hwf. destruct (Optimizer_zeroGrad_inv params st Hwf)
    as (st' & Hrun & Hn & _ & HB & HC).
  exists st'. auto.
Qed.

(** The parameter of [sgd_scenario], listed twice. *)
Lemma Optimizer_zeroGrad_zeroes_witness :
  exists st',
    Optimizer_zeroGrad (Some <$> [0%nat; 0%nat]) sgd_state = Ok tt st'
    /\ nodes st' = nodes sgd_state
    /\ (forall p node, p ∈ [0%nat; 0%nat] -> nodes sgd_state !! p = Some node ->
          contents st' (m_grad node) = Some (zero_cells (m_size (m_grad node))))
    /\ (forall q, (forall p node, p ∈ [0%nat; 0%nat] -> nodes sgd_state !! p = Some node ->
                     m_data (m_grad node) <> q) ->
          mem st' !! q = mem sgd_state !! q).
Proof.
  apply (Optimizer_zeroGrad_zeroes [0%nat; 0%nat] sgd_state).
  destruct sgd_state_wf as (node & Hp & _ & Hw & _).
  repeat constructor; exists node; auto.
Defined.

(** ** Matrix product *)

(** The innermost loop of [matmulGeneric]. *)
Lemma matmul_inner_spec T a1 a2 A B i j inner n cnt : forall k0 acc st,
  mem st !! a1 = Some (Some A) ->
  mem st !! a2 = Some (Some B) ->
  0 <= i -> 0 <= j < n -> 0 <= k0 -> 0 <= inner ->
  i * inner + k0 + Z.of_nat cnt <= Z.of_nat (length A) ->
  (k0 + Z.of_nat cnt) * n <= Z.of_nat (length B) ->
  Z.of_nat (length A) < 2 ^ 64 -> Z.of_nat (length B) < 2 ^ 64 ->
  matmul_inner T cnt k0 a1 a2 i j inner n acc st =
    Ok (fold_left
          (fun acc (k : nat) =>
             cell_add T acc
               (cell_mul T (nth (Z.to_nat (i * inner + Z.of_nat k)) A Indet)
                           (nth (Z.to_nat (Z.of_nat k * n + j)) B Indet)))
          (seq (Z.to_nat k0) cnt) acc) st.
Proof.
  induction cnt as [|cnt IH]; intros k0 acc st H1 H2 Hi Hj Hk Hin HA HB HLA HLB;
    [reflexivity|].
  cbn [matmul_inner seq fold_left].
  assert (Hx : 0 <= i * inner + k0 < Z.of_nat (length A)) by nia.
  assert (Hy : 0 <= k0 * n + j < Z.of_nat (length B)) by nia.
  assert (Hi0 : 0 <= i * inner) by nia.
  assert (Hk0 : 0 <= k0 * n) by nia.
  rewrite (wrap_small (i * inner)), (wrap_small (i * inner + k0)) by lia.
  rewrite (wrap_small (k0 * n)), (wrap_small (k0 * n + j)) by lia.
  destruct (lookup_lt_is_Some_2 A (Z.to_nat (i * inner + k0)) ltac:(lia)) as [x Ex].
  destruct (lookup_lt_is_Some_2 B (Z.to_nat (k0 * n + j)) ltac:(lia)) as [y Ey].
  rewrite bind_unfold, (load_eq _ _ _ _ _ H1 Ex).
  rewrite bind_unfold, (load_eq _ _ _ _ _ H2 Ey).
  rewrite IH by (auto; lia).
  rewrite Z2Nat.id by lia.
  rewrite (nth_lookup_Some _ _ _ _ Ex), (nth_lookup_Some _ _ _ _ Ey).
  replace (Z.to_nat (k0 + 1)) with (S (Z.to_nat k0)) by lia. reflexivity.
Qed.

(** A loop whose turn [i] fills the block [[off + i * w, off + (i + 1) * w)]
    of the buffer at [result] with the values [v] and reads nothing it has
    written. *)
Section BlockLoop.

Variables (a1 a2 result : nat) (A B : list cell) (L : nat) (v : nat -> cell).
Variables (off w lo hi : Z) (body : Z -> M unit).

Hypothesis a1_result : a1 <> result.
Hypothesis a2_result : a2 <> result.
Hypothesis w_nonneg : 0 <= w.
Hypothesis body_spec : forall i st br,
  lo <= i < hi -> holds_operands a1 a2 result A B L br st ->
  exists br', body i st = Ok tt (write_buf st result br')
              /\ filled_between v (off + i * w) (off + (i + 1) * w) br br'.

Lemma block_loop_spec cnt : forall i0 st br,
  lo <= i0 -> i0 + Z.of_nat cnt <= hi -> holds_operands a1 a2 result A B L br st ->
  exists br',
    for_loop cnt i0 body st = Ok tt (write_buf st result br')
    /\ filled_between v (off + i0 * w) (off + (i0 + Z.of_nat cnt) * w) br br'.
Proof.
  induction cnt as [|cnt IH]; intros i0 st br Hlo Hhi Hg.
  - exists br. destruct Hg as (_ & _ & Hr & _).
    cbn [for_loop]. rewrite ret_unfold, write_buf_id by exact Hr.
    split; [reflexivity|]. split; [reflexivity|]. split; [intros; lia|reflexivity].
  - cbn [for_loop]. rewrite bind_unfold.
    destruct (body_spec i0 st br ltac:(lia) Hg) as (br1 & E1 & Hl1 & Hv1 & Hk1).
    rewrite E1. destruct Hg as (H1 & H2 & Hr & HL).
    assert (Hp : (result < length (mem st))%nat) by (eapply lookup_lt_Some; eauto).
    destruct (IH (i0 + 1) (write_buf st result br1) br1) as (br' & E & Hl' & Hv & Hk);
      [lia|lia| |].
    { split; [rewrite write_buf_lookup_ne by congruence; exact H1|].
      split; [rewrite write_buf_lookup_ne by congruence; exact H2|].
      split; [apply write_buf_lookup; exact Hp|congruence]. }
    exists br'. rewrite E, write_buf_write_buf. split; [reflexivity|].
    split; [congruence|]. split.
    + intros k Hkk.
      destruct (Z_lt_dec (Z.of_nat k) (off + (i0 + 1) * w)) as [Hlt|Hge].
      * rewrite Hk by nia. apply Hv1. nia.
      * apply Hv. nia.
    + intros k Hkk. rewrite Hk by nia. apply Hk1. nia.
Qed.

End BlockLoop.

Lemma matmul_cell_position n i j :
  0 <= i -> 0 <= j < n ->
  (i * n + j) / n = i /\ (i * n + j) mod n = j.
Proof.
  intros Hi Hj. split.
  - rewrite Z.div_add_l by lia. rewrite Z.div_small by lia. lia.
  - rewrite Z.add_comm, Z.mod_add by lia. apply Z.mod_small. lia.
Qed.

(** [matmulGeneric] on an [m x inner] and an [inner x n] matrix. *)
Lemma matmulGeneric_spec T a1 a2 result A B br m inner n st :
  holds_operands a1 a2 result A B (Z.to_nat (m * n)) br st ->
  a1 <> result -> a2 <> result ->
  0 <= m -> 0 <= inner -> 0 <= n ->
  length A = Z.to_nat (m * inner) -> length B = Z.to_nat (inner * n) ->
  m * inner < 2 ^ 31 -> inner * n < 2 ^ 31 -> m * n < 2 ^ 31 ->
  exists br',
    matmulGeneric T a1 [m; inner] a2 [inner; n] result st = Ok tt (write_buf st result br')
    /\ length br' = length br
    /\ forall i j, 0 <= i < m -> 0 <= j < n ->
         br' !! Z.to_nat (i * n + j) = Some (matmul_cell T A B inner n i j).
Proof.
  intros Hg Hn1 Hn2 Hm Hin Hn HlA HlB HbA HbB Hbr.
  unfold matmulGeneric. cbn [lookup list_lookup]. unfold for_range.
  set (v := fun k : nat => matmul_cell T A B inner n (Z.of_nat k / n) (Z.of_nat k mod n)).
  destruct (block_loop_spec a1 a2 result A B (Z.to_nat (m * n)) v 0 n 0 m
              (fun i => for_loop (Z.to_nat n) 0 (fun j =>
                 sum ← matmul_inner T (Z.to_nat inner) 0 a1 a2 i j inner n (Val (of_Z T 0));
                 store result (wrap (wrap (i * n) + j)) sum))
              Hn1 Hn2 Hn) with (cnt := Z.to_nat m) (i0 := 0) (st := st) (br := br)
    as (br' & E & Hl & Hv & _); try lia; [|exact Hg|].
  - (* one row *)
    intros i st1 br1 Hi Hg1.
    destruct (block_loop_spec a1 a2 result A B (Z.to_nat (m * n)) v (i * n) 1 0 n
                (fun j =>
                   sum ← matmul_inner T (Z.to_nat inner) 0 a1 a2 i j inner n (Val (of_Z T 0));
                   store result (wrap (wrap (i * n) + j)) sum)
                Hn1 Hn2 ltac:(lia)) with (cnt := Z.to_nat n) (i0 := 0) (st := st1) (br := br1)
      as (br2 & E2 & Hf2); try lia; [|exact Hg1|].
    + (* one element *)
      intros j st2 br3 Hj (H1 & H2 & Hr & HL).
      rewrite bind_unfold.
      rewrite (matmul_inner_spec T a1 a2 A B i j inner n (Z.to_nat inner) 0 _ st2 H1 H2)
        by (try lia; nia).
      fold (matmul_cell T A B inner n i j).
      assert (Hpos : 0 <= i * n + j < m * n) by nia.
      assert (Hin0 : 0 <= i * n) by nia.
      rewrite (wrap_small (i * n)), (wrap_small (i * n + j)) by lia.
      rewrite (store_eq _ _ _ _ _ Hr) by lia.
      eexists. split; [reflexivity|]. split; [apply length_insert|]. split.
      * intros k Hk. assert (k = Z.to_nat (i * n + j)) as -> by lia.
        rewrite list_lookup_insert_eq by lia. unfold v. rewrite Z2Nat.id by lia.
        destruct (matmul_cell_position n i j ltac:(lia) Hj) as [-> ->]. reflexivity.
      * intros k Hk. apply list_lookup_insert_ne. lia.
    + exists br2. split; [exact E2|].
      replace (0 + i * n) with (i * n + 0 * 1) by lia.
      replace (0 + (i + 1) * n) with (i * n + (0 + Z.of_nat (Z.to_nat n)) * 1) by lia.
      exact Hf2.
  - exists br'. split; [exact E|]. split; [exact Hl|].
    intros i j Hi Hj. rewrite Hv by nia. unfold v. rewrite Z2Nat.id by nia.
    destruct (matmul_cell_position n i j ltac:(lia) Hj) as [-> ->]. reflexivity.
Qed.

(** X27: [matmul] of an [m x inner] and an [inner x n] value of one data
    type, with [m * n] below [2^31], returns an [m x n] value of that type in a fresh buffer; its
    element in row [i] and column [j] is the sum over [k] of
    [A[i][k] * B[k][j]], added from [k = 0] upwards to [0].  The operands
    are unchanged. *)
Theorem TensorValue_matmul_product (st : State) (this b : TensorValue)
    (m inner n : Z) (A B : list cell) :
  wf_value st this -> wf_value st b ->
  m_shape this = [m; inner] -> m_shape b = [inner; n] ->
  m_dType this = m_dType b ->
  contents st this = Some A -> contents st b = Some B ->
  m * n < 2 ^ 31 ->
  exists r buf,
    TensorValue_matmul this b st = Ok r (mkState (mem st ++ [Some buf]) (nodes st))
    /\ m_shape r = [m; n]
    /\ m_dType r = m_dType this
    /\ m_data r = length (mem st)
    /\ length buf = Z.to_nat (m * n)
    /\ forall i j, 0 <= i < m -> 0 <= j < n ->
         buf !! Z.to_nat (i * n + j) = Some (matmul_cell (m_dType this) A B inner n i j).
Proof.
  intros Hw1 Hw2 Hs1 Hs2 Hty Hc1 Hc2 Hmn.
  destruct (wf_value_buffer _ _ _ Hw1 Hc1) as (H1 & Hl1 & Hp1).
  destruct (wf_value_buffer _ _ _ Hw2 Hc2) as (H2 & Hl2 & Hp2).
  destruct Hw1 as [Hd1 Hz1 Hb1 _ _], Hw2 as [Hd2 Hz2 Hb2 _ _].
  rewrite Hs1 in *. rewrite Hs2 in *.
  rewrite !product_cons, product_nil, !Z.mul_1_r in *.
  apply Forall_cons_1 in Hd1 as [Hm Hd1]. apply Forall_cons_1 in Hd1 as [Hin _].
  apply Forall_cons_1 in Hd2 as [_ Hd2]. apply Forall_cons_1 in Hd2 as [Hn _].
  assert (Hmn0 : 0 <= m * n) by nia.
  unfold TensorValue_matmul. rewrite Hs1, Hs2.
  destruct (decide (inner = inner)) as [_|]; [|contradiction].
  destruct (decide (m_dType this = m_dType b)) as [_|]; [|contradiction].
  rewrite bind_unfold, TensorValue_uninit_eq
    by (rewrite !product_cons, product_nil, Z.mul_1_r; lia).
  rewrite !product_cons, product_nil, Z.mul_1_r.
  cbn [m_data]. rewrite bind_unfold. unfold Device_matmul.
  set (st1 := mkState (mem st ++ [Some (replicate (Z.to_nat (m * n)) Indet)]) (nodes st)).
  destruct (matmulGeneric_spec (m_dType this) (m_data this) (m_data b) (length (mem st))
              A B (replicate (Z.to_nat (m * n)) Indet) m inner n st1)
    as (br' & E & Hl & Hv); try lia.
  - split; [cbn [st1 mem]; rewrite lookup_app_l by exact Hp1; exact H1|].
    split; [cbn [st1 mem]; rewrite lookup_app_l by exact Hp2; exact H2|].
    split; [apply lookup_snoc_length|apply length_replicate].
  - rewrite E. unfold st1. rewrite write_buf_last, ret_unfold.
    rewrite length_replicate in Hl.
    exists (mkTensorValue (m_dType this) (length (mem st)) (m * n) [m; n]
              (computeStrides [m; n]) (m_device this)), br'.
    split; [reflexivity|]. do 3 (split; [reflexivity|]). split; [exact Hl|exact Hv].
Qed.

Lemma matrix_3x2_wf : wf_value matrix_2x3_state matrix_3x2.
Proof.
  constructor.
  - repeat constructor; lia.
  - reflexivity.
  - reflexivity.
  - reflexivity.
  - eexists. split; reflexivity.
Qed.

(** The 2 x 3 matrix of 1, ..., 6 times the 3 x 2 matrix of 1, ..., 6: the
    element in row 1 and column 1 is 4 * 2 + 5 * 4 + 6 * 6 = 64. *)
Lemma TensorValue_matmul_product_witness :
  matmul_cell kFloat32 (floats [1; 2; 3; 4; 5; 6]) (floats [1; 2; 3; 4; 5; 6]) 3 2 1 1
    = Val (of_Z kFloat32 64)
  /\ exists r buf,
    TensorValue_matmul matrix_2x3 matrix_3x2 matrix_2x3_state
      = Ok r (mkState (mem matrix_2x3_state ++ [Some buf]) (nodes matrix_2x3_state))
    /\ m_shape r = [2; 2]
    /\ m_dType r = kFloat32
    /\ m_data r = 1%nat
    /\ length buf = 4%nat
    /\ forall i j, 0 <= i < 2 -> 0 <= j < 2 ->
         buf !! Z.to_nat (i * 2 + j)
         = Some (matmul_cell kFloat32 (floats [1; 2; 3; 4; 5; 6])
                   (floats [1; 2; 3; 4; 5; 6]) 3 2 i j).
Proof.
  split; [vm_compute; reflexivity|].
  apply (TensorValue_matmul_product matrix_2x3_state matrix_2x3 matrix_3x2 2 3 2
           (floats [1; 2; 3; 4; 5; 6]) (floats [1; 2; 3; 4; 5; 6])).
  - apply matrix_2x3_wf.
  - apply matrix_3x2_wf.
  - reflexivity.
  - reflexivity.
  - reflexivity.
  - reflexivity.
  - reflexivity.
  - reflexivity.
Defined.

(** * Further properties of the Metal device *)

Module MetalOps.

Import Metal MetalFacts.

Lemma validateDataType_ok d s : d <> kFloat64 -> validateDataType d s = Done tt s.
Proof. intros H. unfold validateDataType. destruct (decide (d = kFloat64)); [contradiction|reflexivity]. Qed.

Lemma requireDeviceBuffer_outside p s :
  p ∉ m_allocMap s -> requireDeviceBuffer p s = Raise ResultMustHaveGPUMemory s.
Proof.
  intros H. unfold requireDeviceBuffer, isDeviceBuffer. rewrite G_bind_unfold.
  rewrite bool_decide_false by exact H. reflexivity.
Qed.

Lemma requireDeviceBuffer_inside p s :
  p ∈ m_allocMap s -> requireDeviceBuffer p s = Done tt s.
Proof.
  intros H. unfold requireDeviceBuffer, isDeviceBuffer. rewrite G_bind_unfold.
  rewrite bool_decide_true by exact H. reflexivity.
Qed.

(** The prologue of the ops: the validations pass, the check of the result
    address throws. *)
Ltac rejects_result :=
  repeat first
    [ rewrite G_bind_unfold
    | rewrite validateDataType_ok by assumption
    | rewrite requireDeviceBuffer_outside by assumption ];
  try reflexivity.

(** X22: an operation whose result address is not a buffer of the device
    (and whose validated data types are not [kFloat64]) throws "result must
    have GPU memory" and leaves the device as it was: nothing is allocated,
    encoded or committed. *)
Theorem result_outside_device_rejected (cfg : Config) (c : Call) (s : DeviceMetal) (p : nat) :
  result_address c = Some p ->
  p ∉ m_allocMap s ->
  Forall (fun d => d <> kFloat64) (validated c) ->
  run cfg c s = Raise ResultMustHaveGPUMemory s.
Proof.
  intros Hr Hp Hv.
  destruct c; cbn [result_address] in Hr; try discriminate;
    cbn [validated] in Hv;
    repeat match goal with
           | H : Forall _ (_ :: _) |- _ => apply Forall_cons_1 in H as [? H]
           end;
    cbn [run].
  - injection Hr as <-. unfold binary, executeTripleArrayCmd. rejects_result.
  - injection Hr as <-. unfold unary, executeDoubleArrayCmd. rejects_result.
  - injection Hr as <-. unfold fill. rejects_result.
  - injection Hr as <-. unfold fillMin. rejects_result.
  - injection Hr as <-. unfold sum. cbv zeta. rejects_result.
  - injection Hr as <-. unfold max. cbv zeta. rejects_result.
  - injection Hr as <-. unfold matmul. rejects_result.
  - unfold transpose. cbv zeta.
    destruct (bool_decide (length (shape a) = 2%nat) && (dim0 =? 0) && (dim1 =? 1)).
    + injection Hr as <-. unfold transpose2D. rejects_result.
    + destruct (16 <? Z.of_nat (length (strides a))); [discriminate|].
      injection Hr as <-. rejects_result.
  - injection Hr as <-. unfold copy. rejects_result.
  - injection Hr as <-. unfold copyImmediate, copy. rejects_result.
  - injection Hr as <-. unfold contiguous. rejects_result.
  - unfold reduceTo. destruct (is_f32_i32 (dtype src)); [|discriminate].
    injection Hr as <-. unfold translation. rejects_result.
  - unfold maxTo. destruct (is_f32_i32 (dtype src)); [|discriminate].
    injection Hr as <-. unfold translation. rejects_result.
  - injection Hr as <-. unfold sliceSet. rejects_result.
  - injection Hr as <-. unfold tril, tri. rejects_result.
  - injection Hr as <-. unfold triu, tri. rejects_result.
  - injection Hr as <-. unfold indexSelect. rejects_result.
  - unfold indexAdd. destruct (is_f32_i32 (dtype src)); [|discriminate].
    injection Hr as <-. rejects_result.
Qed.

(** An addition into a host array on a new device. *)
Lemma result_outside_device_rejected_witness :
  run sample_config
    (call_binary op_add (params 7 kFloat32 [4] 4) (params 8 kFloat32 [4] 4)
       (params 9 kFloat32 [4] 4))
    DeviceMetal_new
  = Raise ResultMustHaveGPUMemory DeviceMetal_new.
Proof.
  apply (result_outside_device_rejected sample_config _ DeviceMetal_new 9).
  - reflexivity.
  - cbn. apply not_elem_of_nil.
  - repeat constructor; discriminate.
Defined.

(** ** Synchronisation *)

(** X23: in a state the device can be in between two calls, once a kernel
    has been encoded or a command buffer committed, [synchronize] returns
    with no command buffer in flight, nothing encoded and the batch counter
    at zero, without dispatching a kernel; the state it leaves is again one
    the device can be in. *)
Theorem synchronize_drains (cfg : Config) (s : DeviceMetal) :
  0 < MAX_CMD_BATCH_SIZE cfg < 2 ^ 64 ->
  reachable cfg s ->
  is_Some (m_committedCmdBuffer s) \/ m_currentBatchSize s <> 0 ->
  exists s',
    synchronize s = Done tt s'
    /\ quiet s s'
    /\ inflight (trace s') = []
    /\ encoded (trace s') = 0
    /\ m_currentBatchSize s' = 0
    /\ reachable cfg s'.
Proof.
  intros HM Hr Hw.
  destruct (synchronize_spec cfg s HM (reachable_Inv cfg HM s Hr) Hw)
    as (s' & E & Hq & Hfl & Hz & HI).
  exists s'. split; [exact E|]. split; [exact Hq|]. split; [exact Hfl|].
  split; [|split; [exact Hz|]].
  - destruct HI as [H1 _ _ _ _ _ _ _]. lia.
  - apply (reachable_return cfg call_synchronize s s' Hr). exact E.
Qed.

(** After one dispatch on the sample device. *)
Lemma synchronize_drains_witness :
  exists s',
    synchronize dispatched_state = Done tt s'
    /\ quiet dispatched_state s'
    /\ inflight (trace s') = []
    /\ encoded (trace s') = 0
    /\ m_currentBatchSize s' = 0
    /\ reachable sample_config s'.
Proof.
  apply (synchronize_drains sample_config dispatched_state).
  - cbn. lia.
  - apply reachable_run_all, reachable_new.
  - right. vm_compute. discriminate.
Defined.

(** ** Element-wise operations *)

Lemma freeTemporaryBuffer_trace b s :
  exists s', freeTemporaryBuffer b s = Done tt s' /\ trace s' = trace s.
Proof.
  destruct b as [b|]; [|exists s; split; reflexivity].
  unfold freeTemporaryBuffer, isDeviceBuffer. rewrite G_bind_unfold.
  destruct (bool_decide _); eexists; split; reflexivity.
Qed.

Lemma commitBatchQueue_quiet cfg s :
  exists s', commitBatchQueue cfg s = Done tt s' /\ quiet s s'.
Proof.
  rewrite commitBatchQueue_eq. cbv zeta.
  destruct (MAX_CMD_BATCH_SIZE cfg <=? wrap (m_currentBatchSize s + 1)).
  - destruct (commit_quiet
                (mkDeviceMetal (m_allocMap s) (m_tempBuffers s) (buffers s)
                   (wrap (m_currentBatchSize s + 1)) (m_maxBatchSize s)
                   (m_currentWorkingSetSize s) (m_committedCmdBuffer s)
                   (m_cmdBuffer s) (trace s))) as (s' & E & Hq & _).
    exists s'. split; [exact E|exact Hq].
  - eexists. split; [reflexivity|]. apply quiet_same_trace. reflexivity.
Qed.

(** The tail of an op after its dispatch: the temporary buffers are handed
    over and the dispatch is counted. *)
Lemma dispatched_once_intro s s2 k (rest : G unit) :
  quiet s s2 ->
  (forall s3, trace s3 = Dispatch k :: trace s2 ->
     exists s4, rest s3 = Done tt s4 /\ quiet s3 s4) ->
  exists s', (dispatch k;; rest) s2 = Done tt s' /\ dispatched_once s s' k.
Proof.
  intros (evs2 & E2 & F2) Hrest. rewrite G_bind_unfold. unfold dispatch. cbn [emit].
  edestruct Hrest as (s4 & E4 & (evs1 & E1 & F1)); [|rewrite E4].
  - cbn [trace]. reflexivity.
  - exists s4. split; [reflexivity|]. exists evs1, evs2.
    rewrite E1. cbn [trace]. rewrite E2. auto.
Qed.

(** X24: in a state whose allocation map holds only addresses of buffers,
    given a result buffer of the device whose data type is not
    [kFloat64], the element-wise binary operations ([add], [sub], [mul],
    [div], [pow]) and unary operations ([unary], [sqrt], [sin], [cos],
    [tanh], [log], [exp]) return after dispatching exactly one kernel, the
    one named after the operation for the data type of the result; the data
    types of the operands play no part. *)
Theorem elementwise_dispatches_once (cfg : Config) (s : DeviceMetal)
    (a1 a2 res : DeviceTensorParams) :
  allocMap_valid s ->
  dtype res <> kFloat64 ->
  data res ∈ m_allocMap s ->
  (forall o, exists s',
     binary cfg o a1 a2 res s = Done tt s'
     /\ dispatched_once s s' (kernel (binary_kernel o) (dtype res)))
  /\ (forall o, exists s',
     unary cfg o a1 res s = Done tt s'
     /\ dispatched_once s s' (kernel (unary_kernel o) (dtype res))).
Proof.
  intros Hv Hd Hp.
  assert (Hk : forall name, m_compFuncPSO name (dtype res) = kernel name (dtype res)).
  { intros name. unfold m_compFuncPSO. cbv zeta.
    rewrite bool_decide_false by exact Hd. reflexivity. }
  destruct (getReadOnlyMTLBuffer_quiet cfg (data a1) (size a1) (dataTypeSize (dtype a1))
              (defaultAlignSize cfg) s Hv) as (b1 & s1 & E1 & Hq1 & _ & Hv1).
  split; intros o.
  - unfold binary, executeTripleArrayCmd.
    rewrite G_bind_unfold, validateDataType_ok by exact Hd.
    rewrite G_bind_unfold, requireDeviceBuffer_inside by exact Hp.
    rewrite G_bind_unfold. unfold readOnly at 1. rewrite E1.
    destruct (getReadOnlyMTLBuffer_quiet cfg (data a2) (size a2) (dataTypeSize (dtype a2))
                (defaultAlignSize cfg) s1 Hv1) as (b2 & s2 & E2 & Hq2 & _ & _).
    rewrite G_bind_unfold. unfold readOnly. rewrite E2, Hk.
    apply dispatched_once_intro; [eapply quiet_trans; eauto|].
    intros s3 H3.
    destruct (freeTemporaryBuffer_trace (Some b1) s3) as (s4 & E4 & H4).
    destruct (freeTemporaryBuffer_trace (Some b2) s4) as (s5 & E5 & H5).
    destruct (commitBatchQueue_quiet cfg s5) as (s6 & E6 & Hq6).
    exists s6. rewrite G_bind_unfold, E4, G_bind_unfold, E5. split; [exact E6|].
    eapply quiet_trans; [|exact Hq6]. apply quiet_same_trace. congruence.
  - unfold unary, executeDoubleArrayCmd.
    rewrite G_bind_unfold, validateDataType_ok by exact Hd.
    rewrite G_bind_unfold, requireDeviceBuffer_inside by exact Hp.
    rewrite G_bind_unfold. unfold readOnly. rewrite E1, Hk.
    apply dispatched_once_intro; [exact Hq1|].
    intros s3 H3.
    destruct (freeTemporaryBuffer_trace (Some b1) s3) as (s4 & E4 & H4).
    destruct (commitBatchQueue_quiet cfg s4) as (s6 & E6 & Hq6).
    exists s6. rewrite G_bind_unfold, E4. split; [exact E6|].
    eapply quiet_trans; [|exact Hq6]. apply quiet_same_trace. congruence.
Qed.

(** Host operands of [double] and [float] added into the [float] buffer of
    the sample device: one [add] kernel for [float]. *)
Lemma elementwise_dispatches_once_witness :
  exists s',
    binary sample_config op_add (params 7 kFloat64 [4] 4) (params 8 kFloat32 [4] 4)
      (params 0 kFloat32 [4] 4) allocated_state = Done tt s'
    /\ dispatched_once allocated_state s' (kernel add_ kFloat32).
Proof.
  destruct (elementwise_dispatches_once sample_config allocated_state
              (params 7 kFloat64 [4] 4) (params 8 kFloat32 [4] 4)
              (params 0 kFloat32 [4] 4)) as [H _].
  - intros b Hb. vm_compute in Hb. apply list_elem_of_singleton in Hb as ->.
    vm_compute. eauto.
  - discriminate.
  - vm_compute. apply list_elem_of_here.
  - exact (H op_add).
Defined.

(** ** Deallocation *)

(** X25: [deallocate] throws for an address that is not a buffer of the
    device and changes nothing.  For a buffer of the device it only queues
    the buffer: the address stays a device buffer (a second [deallocate] of
    it is accepted) until the next [commit], which forgets every queued
    buffer when a kernel has been encoded and does nothing at all when the
    batch is empty. *)
Theorem deallocate_is_deferred (s : DeviceMetal) (p : nat) :
  (p ∉ m_allocMap s -> deallocate p s = Raise DifferentTypeOfMemoryToFree s)
  /\ (p ∈ m_allocMap s ->
      exists s1,
        deallocate p s = Done tt s1
        /\ m_allocMap s1 = m_allocMap s
        /\ m_tempBuffers s1 = m_tempBuffers s ++ [p]
        /\ trace s1 = trace s
        /\ (exists s2, deallocate p s1 = Done tt s2)
        /\ exists s2,
             commit s1 = Done tt s2
             /\ (if m_currentBatchSize s =? 0 then s2 = s1
                 else ((p ∉ m_allocMap s2) /\ m_tempBuffers s2 = []))).
Proof.
  split; intros Hp; unfold deallocate, isDeviceBuffer; rewrite G_bind_unfold.
  - rewrite bool_decide_false by exact Hp. reflexivity.
  - rewrite bool_decide_true by exact Hp. unfold push_tempBuffer.
    eexists. split; [reflexivity|]. cbn [m_allocMap m_tempBuffers trace].
    do 3 (split; [reflexivity|]). split.
    + rewrite G_bind_unfold. cbn [m_allocMap].
      rewrite bool_decide_true by exact Hp. eexists. reflexivity.
    + unfold commit. cbn [m_currentBatchSize].
      destruct (m_currentBatchSize s =? 0); [eexists; split; reflexivity|].
      eexists. split; [reflexivity|]. cbn [m_allocMap m_tempBuffers].
      split; [|reflexivity].
      intros Hin. apply list_elem_of_filter in Hin as [Hn _]. apply Hn.
      apply elem_of_app. right. apply list_elem_of_here.
Qed.

End MetalOps.

(** * A seed whose shape does not fit the grad of the parent *)






